(** * talloc: a first-fit arena allocator (src/talloc.h)

    A shallow embedding of the allocator over a byte-addressed memory, an
    explicit model of the virtual-memory provider, and the properties of the
    specification stated against it.

    Machine model: LP64, little-endian.  [size_t] and pointers are 64-bit
    words held in [Z] with their wrap-around written out; [int] is 32 bits.
    Hence sizeof(talloc_chunk_t) = sizeof(talloc_header_t) = 16 and
    sizeof(talloc_arena_t) = 40. *)

From Stdlib Require Import ZArith List Bool Lia.
Import ListNotations.
Open Scope Z_scope.

(** ** Words and constants *)

Definition wrap (z : Z) : Z := z mod 2 ^ 64.

Definition NULL : Z := 0.
Definition MAP_FAILED : Z := 2 ^ 64 - 1.

Definition TALLOC_MAGIC : Z := 0xab91ea94.
Definition TALLOC_ALLOC_PAGES : Z := 1000.

Definition sizeof_chunk : Z := 16.
Definition sizeof_header : Z := 16.
Definition sizeof_arena : Z := 40.
Definition TALLOC_ARENA_OVERHEAD : Z := sizeof_arena + sizeof_chunk.

(** Field offsets.  talloc_chunk_t: size, next.  talloc_header_t: size,
    magic (an int: the low four bytes of the word a chunk keeps [next] in).
    talloc_arena_t: allocated, max_free_space, free_list, next, prev. *)
Definition chunk_size (c : Z) : Z := c.
Definition chunk_next (c : Z) : Z := c + 8.
Definition header_size (h : Z) : Z := h.
Definition header_magic (h : Z) : Z := h + 8.
Definition arena_allocated (a : Z) : Z := a.
Definition arena_max_free_space (a : Z) : Z := a + 8.
Definition arena_free_list (a : Z) : Z := a + 16.
Definition arena_next (a : Z) : Z := a + 24.
Definition arena_prev (a : Z) : Z := a + 32.

(** ** Byte-addressed memory *)

Definition mem := Z -> Z.

(** Little-endian read of [n] bytes at [a]. *)
Fixpoint rd (m : mem) (a : Z) (n : nat) : Z :=
  match n with
  | O => 0
  | S k => (m a) mod 256 + 256 * rd m (a + 1) k
  end.

(** Little-endian write of the low [n] bytes of [v] at [a]. *)
Definition wr (m : mem) (a : Z) (n : nat) (v : Z) : mem :=
  fun b => if (a <=? b) && (b <? a + Z.of_nat n)
           then (v / 256 ^ (b - a)) mod 256 else m b.

Definition zero_fill (m : mem) (a len : Z) : mem :=
  fun b => if (a <=? b) && (b <? a + len) then 0 else m b.

Arguments wrap : simpl never.
Arguments rd : simpl never.
Arguments wr : simpl never.
Arguments zero_fill : simpl never.

(** ** The virtual-memory provider

    The provider is external to the allocator.  Its future behaviour is a
    script held in the world: what each coming [mmap] proposes (an address, or
    failure) and whether each coming [munmap] succeeds.  The provider never
    hands out a range that is empty, unaligned, contains the null address,
    reaches the top of the address space, or overlaps a live mapping; fresh mappings are zero-filled; a
    range is unmapped only as a whole. *)

Inductive syscall : Type :=
| Mmap (len res : Z)
| Munmap (addr len res : Z).

Record os_t : Type := mk_os {
  os_maps : list (Z * Z);
  os_pagesize : Z;
  os_mmap_script : list (option Z);
  os_munmap_script : list bool;
  os_log : list syscall
}.

(** The allocator's global [state] (zero-initialised static storage). *)
Record talloc_state_t : Type := mk_state {
  arena_head : Z;
  arena_tail : Z;
  minallocsize : Z;
  pagesize : Z;
  initialized : Z
}.

Record world : Type := mk_world {
  w_mem : mem;
  w_os : os_t;
  w_state : talloc_state_t
}.

Definition state0 : talloc_state_t := mk_state 0 0 0 0 0.

Definition init_world (m : mem) (ps : Z) (maps : list (option Z))
  (unmaps : list bool) : world :=
  mk_world m (mk_os [] ps maps unmaps []) state0.

Definition in_region (r : Z * Z) (a n : Z) : bool :=
  (fst r <=? a) && (a + n <=? fst r + snd r).

Definition is_mapped (maps : list (Z * Z)) (a n : Z) : bool :=
  existsb (fun r => in_region r a n) maps.

Definition disjoint_region (a len : Z) (r : Z * Z) : bool :=
  (a + len <=? fst r) || (fst r + snd r <=? a).

Definition region_ok (o : os_t) (a len : Z) : bool :=
  (0 <? len) && (0 <? a) && (a mod os_pagesize o =? 0) &&
  (a + len <? 2 ^ 64) && forallb (disjoint_region a len) (os_maps o).

Definition same_region (a len : Z) (r : Z * Z) : bool :=
  (fst r =? a) && (snd r =? len).

(** ** Outcomes and the state monad *)

Inductive outcome (A : Type) : Type :=
| Ok (a : A) (w : world)
| Crash     (* access outside every mapping *)
| Undef     (* use of an indeterminate value, division by zero *)
| Timeout.  (* the model's fuel ran out *)
Arguments Ok {A} a w.
Arguments Crash {A}.
Arguments Undef {A}.
Arguments Timeout {A}.

Definition M (A : Type) : Type := world -> outcome A.

Definition ret {A} (a : A) : M A := fun w => Ok a w.

Definition bind {A B} (m : M A) (f : A -> M B) : M B :=
  fun w => match m w with
           | Ok a w' => f a w'
           | Crash => Crash
           | Undef => Undef
           | Timeout => Timeout
           end.

Notation "x <- m ;; f" := (bind m (fun x => f))
  (at level 61, m at next level, right associativity).
Notation "m ;;; f" := (bind m (fun _ => f))
  (at level 61, right associativity).

Definition crash {A} : M A := fun _ => Crash.
Definition undef {A} : M A := fun _ => Undef.
Definition timeout {A} : M A := fun _ => Timeout.

Definition set_mem (w : world) (m : mem) : world :=
  mk_world m (w_os w) (w_state w).
Definition set_os (w : world) (o : os_t) : world :=
  mk_world (w_mem w) o (w_state w).
Definition set_state (w : world) (s : talloc_state_t) : world :=
  mk_world (w_mem w) (w_os w) s.

Definition load (n : nat) (a : Z) : M Z :=
  fun w => if is_mapped (os_maps (w_os w)) a (Z.of_nat n)
           then Ok (rd (w_mem w) a n) w else Crash.

Definition store (n : nat) (a v : Z) : M unit :=
  fun w => if is_mapped (os_maps (w_os w)) a (Z.of_nat n)
           then Ok tt (set_mem w (wr (w_mem w) a n v)) else Crash.

Definition load64 := load 8.
Definition store64 := store 8.
Definition load32 := load 4.
Definition store32 := store 4.

Definition get_state : M talloc_state_t := fun w => Ok (w_state w) w.
Definition put_state (s : talloc_state_t) : M unit :=
  fun w => Ok tt (set_state w s).

Definition set_arena_head (v : Z) : M unit :=
  s <- get_state ;;
  put_state (mk_state v (arena_tail s) (minallocsize s) (pagesize s) (initialized s)).
Definition set_arena_tail (v : Z) : M unit :=
  s <- get_state ;;
  put_state (mk_state (arena_head s) v (minallocsize s) (pagesize s) (initialized s)).
Definition set_minallocsize (v : Z) : M unit :=
  s <- get_state ;;
  put_state (mk_state (arena_head s) (arena_tail s) v (pagesize s) (initialized s)).
Definition set_pagesize (v : Z) : M unit :=
  s <- get_state ;;
  put_state (mk_state (arena_head s) (arena_tail s) (minallocsize s) v (initialized s)).
Definition set_initialized (v : Z) : M unit :=
  s <- get_state ;;
  put_state (mk_state (arena_head s) (arena_tail s) (minallocsize s) (pagesize s) v).

(** *** System calls *)

Definition getpagesize : M Z := fun w => Ok (os_pagesize (w_os w)) w.

Definition mmap (len : Z) : M Z :=
  fun w =>
    let o := w_os w in
    match os_mmap_script o with
    | Some a :: rest =>
        if region_ok o a len then
          Ok a (mk_world (zero_fill (w_mem w) a len)
                  (mk_os ((a, len) :: os_maps o) (os_pagesize o) rest
                     (os_munmap_script o) (Mmap len a :: os_log o))
                  (w_state w))
        else
          Ok MAP_FAILED
            (set_os w (mk_os (os_maps o) (os_pagesize o) rest
                         (os_munmap_script o) (Mmap len MAP_FAILED :: os_log o)))
    | None :: rest =>
        Ok MAP_FAILED
          (set_os w (mk_os (os_maps o) (os_pagesize o) rest
                       (os_munmap_script o) (Mmap len MAP_FAILED :: os_log o)))
    | [] =>
        Ok MAP_FAILED
          (set_os w (mk_os (os_maps o) (os_pagesize o) []
                       (os_munmap_script o) (Mmap len MAP_FAILED :: os_log o)))
    end.

Definition munmap (a len : Z) : M Z :=
  fun w =>
    let o := w_os w in
    match os_munmap_script o with
    | true :: rest =>
        if existsb (same_region a len) (os_maps o) then
          Ok 0 (set_os w (mk_os (filter (fun r => negb (same_region a len r)) (os_maps o))
                            (os_pagesize o) (os_mmap_script o) rest
                            (Munmap a len 0 :: os_log o)))
        else
          Ok (-1) (set_os w (mk_os (os_maps o) (os_pagesize o) (os_mmap_script o) rest
                               (Munmap a len (-1) :: os_log o)))
    | false :: rest =>
        Ok (-1) (set_os w (mk_os (os_maps o) (os_pagesize o) (os_mmap_script o) rest
                             (Munmap a len (-1) :: os_log o)))
    | [] =>
        Ok (-1) (set_os w (mk_os (os_maps o) (os_pagesize o) (os_mmap_script o) []
                             (Munmap a len (-1) :: os_log o)))
    end.

(** ** The allocator *)

(** TAlloc_init_arena (lines 55-65). *)
Definition TAlloc_init_arena (arena allocated : Z) : M unit :=
  store64 (arena_allocated arena) allocated ;;;
  store64 (arena_max_free_space arena) (wrap (allocated - TALLOC_ARENA_OVERHEAD)) ;;;
  store64 (arena_next arena) NULL ;;;
  store64 (arena_prev arena) NULL ;;;
  let free_list := wrap (arena + sizeof_arena) in
  mfs <- load64 (arena_max_free_space arena) ;;
  store64 (chunk_size free_list) mfs ;;;
  store64 (chunk_next free_list) NULL ;;;
  store64 (arena_free_list arena) free_list.

(** TAlloc_initialize (lines 68-79). *)
Definition TAlloc_initialize : M unit :=
  ps <- getpagesize ;;
  set_pagesize (wrap ps) ;;;
  set_minallocsize (wrap (wrap ps * TALLOC_ALLOC_PAGES)) ;;;
  s <- get_state ;;
  a <- mmap (minallocsize s) ;;
  set_arena_head a ;;;
  if a =? MAP_FAILED then
    set_arena_head NULL
  else
    set_arena_tail a ;;;
    TAlloc_init_arena a (minallocsize s) ;;;
    set_initialized 1.

(** The sizing decision of TAlloc_create_arena (lines 90-100), on the
    overhead-inclusive total.  The local [to_allocate] is assigned on two of
    the three branches only: [None] is the indeterminate value it holds when
    the total equals [minallocsize]. *)
Definition to_allocate (space_needed minalloc ps : Z) : option Z :=
  if space_needed <? minalloc then Some minalloc
  else if minalloc <? space_needed then
    let add_one := if 0 <? space_needed mod ps then 1 else 0 in
    Some (wrap (ps * wrap (space_needed / ps + add_one)))
  else None.

(** TAlloc_create_arena (lines 85-113). *)
Definition TAlloc_create_arena (space_needed : Z) : M Z :=
  if wrap (space_needed + TALLOC_ARENA_OVERHEAD) <? space_needed then ret NULL
  else
    let space_needed := wrap (space_needed + TALLOC_ARENA_OVERHEAD) in
    s <- get_state ;;
    if (minallocsize s <? space_needed) && (pagesize s =? 0) then undef
    else
      match to_allocate space_needed (minallocsize s) (pagesize s) with
      | None => undef
      | Some n =>
          new_arena <- mmap n ;;
          if new_arena =? MAP_FAILED then ret NULL
          else TAlloc_init_arena new_arena n ;;; ret new_arena
      end.

(** TAlloc_alloc_more_space (lines 117-129). *)
Definition TAlloc_alloc_more_space (space_needed : Z) : M Z :=
  arena <- TAlloc_create_arena space_needed ;;
  if arena =? NULL then ret NULL
  else
    s <- get_state ;;
    store64 (arena_next (arena_tail s)) arena ;;;
    store64 (arena_prev arena) (arena_tail s) ;;;
    set_arena_tail arena ;;;
    ret arena.

(** TAlloc_free_arena (lines 133-141). *)
Definition TAlloc_free_arena (arena : Z) : M unit :=
  prev <- load64 (arena_prev arena) ;;
  next <- load64 (arena_next arena) ;;
  len <- load64 (arena_allocated arena) ;;
  r <- munmap arena len ;;
  if r =? 0 then
    store64 (arena_next prev) next ;;;
    if next =? NULL then ret tt else store64 (arena_prev next) prev
  else ret tt.

(** TAlloc_coalesce (lines 145-152). *)
Definition TAlloc_coalesce (chunk : Z) : M unit :=
  next <- load64 (chunk_next chunk) ;;
  size <- load64 (chunk_size chunk) ;;
  if next =? wrap (chunk + size + sizeof_chunk) then
    size <- load64 (chunk_size chunk) ;;
    next <- load64 (chunk_next chunk) ;;
    nsize <- load64 (chunk_size next) ;;
    store64 (chunk_size chunk) (wrap (size + (sizeof_chunk + nsize))) ;;;
    next <- load64 (chunk_next chunk) ;;
    nnext <- load64 (chunk_next next) ;;
    store64 (chunk_next chunk) nnext
  else ret tt.

(** TAlloc_adjust_space_for_new_chunk (lines 156-160). *)
Definition TAlloc_adjust_space_for_new_chunk (arena chunk : Z) : M unit :=
  size <- load64 (chunk_size chunk) ;;
  mfs <- load64 (arena_max_free_space arena) ;;
  if mfs <? size then
    size <- load64 (chunk_size chunk) ;;
    store64 (arena_max_free_space arena) size
  else ret tt.

(** TAlloc_ptr_in_arena (lines 163-165). *)
Definition TAlloc_ptr_in_arena (arena ptr : Z) : M bool :=
  if wrap (arena + sizeof_arena) <=? ptr then
    len <- load64 (arena_allocated arena) ;;
    ret (ptr <? wrap (arena + len))
  else ret false.

(** TAlloc_find_arena (lines 168-172): the loop, from [arena]. *)
Fixpoint find_arena_loop (fuel : nat) (ptr arena : Z) : M Z :=
  match fuel with
  | O => timeout
  | S k =>
      if arena =? NULL then ret arena
      else
        b <- TAlloc_ptr_in_arena arena ptr ;;
        if b then ret arena
        else next <- load64 (arena_next arena) ;; find_arena_loop k ptr next
  end.

Definition TAlloc_find_arena (fuel : nat) (ptr : Z) : M Z :=
  s <- get_state ;;
  find_arena_loop fuel ptr (arena_head s).

(** TAlloc_free, lines 201-204: the search for the insertion point. *)
Fixpoint insert_after_loop (fuel : nat) (chunk insert_after : Z) : M Z :=
  match fuel with
  | O => timeout
  | S k =>
      next <- load64 (chunk_next insert_after) ;;
      if next =? NULL then ret insert_after
      else
        next <- load64 (chunk_next insert_after) ;;
        if next <? chunk then
          next <- load64 (chunk_next insert_after) ;;
          insert_after_loop k chunk next
        else ret insert_after
  end.

(** TAlloc_free, lines 190-211: the address-ordered insertion of [chunk]
    into the free list of [arena], with its coalescing. *)
Definition free_insert (fuel : nat) (arena chunk : Z) : M unit :=
  fl <- load64 (arena_free_list arena) ;;
  if fl =? NULL then
    store64 (arena_free_list arena) chunk ;;;
    fl <- load64 (arena_free_list arena) ;;
    store64 (chunk_next fl) NULL ;;;
    size <- load64 (chunk_size chunk) ;;
    store64 (arena_max_free_space arena) size
  else
    fl <- load64 (arena_free_list arena) ;;
    if chunk <? fl then
      fl <- load64 (arena_free_list arena) ;;
      store64 (chunk_next chunk) fl ;;;
      store64 (arena_free_list arena) chunk ;;;
      TAlloc_coalesce chunk ;;;
      TAlloc_adjust_space_for_new_chunk arena chunk
    else
      fl <- load64 (arena_free_list arena) ;;
      insert_after <- insert_after_loop fuel chunk fl ;;
      next <- load64 (chunk_next insert_after) ;;
      store64 (chunk_next chunk) next ;;;
      store64 (chunk_next insert_after) chunk ;;;
      TAlloc_coalesce chunk ;;;
      TAlloc_adjust_space_for_new_chunk arena chunk ;;;
      TAlloc_coalesce insert_after ;;;
      TAlloc_adjust_space_for_new_chunk arena insert_after.

(** TAlloc_free, lines 213-216: the release decision. *)
Definition release_if_unused (arena : Z) : M unit :=
  s <- get_state ;;
  if arena =? arena_head s then ret tt
  else
    len <- load64 (arena_allocated arena) ;;
    mfs <- load64 (arena_max_free_space arena) ;;
    if len =? wrap (mfs + TALLOC_ARENA_OVERHEAD) then TAlloc_free_arena arena
    else ret tt.

(** TAlloc_free (lines 178-217). *)
Definition TAlloc_free (fuel : nat) (ptr : Z) : M unit :=
  s <- get_state ;;
  if initialized s =? 0 then ret tt
  else
    arena <- TAlloc_find_arena fuel ptr ;;
    if arena =? NULL then ret tt
    else
      let header := wrap (ptr - sizeof_header) in
      magic <- load32 (header_magic header) ;;
      if negb (magic =? TALLOC_MAGIC) then ret tt
      else
        let chunk := header in
        free_insert fuel arena chunk ;;;
        release_if_unused arena.

(** TAlloc_get_accommodating_arena (lines 221-230): the loop, from
    [arena_node]. *)
Fixpoint accommodating_loop (fuel : nat) (size arena_node : Z) : M Z :=
  match fuel with
  | O => timeout
  | S k =>
      if arena_node =? NULL then ret arena_node
      else
        mfs <- load64 (arena_max_free_space arena_node) ;;
        if mfs <? size then
          next <- load64 (arena_next arena_node) ;;
          accommodating_loop k size next
        else ret arena_node
  end.

Definition TAlloc_get_accommodating_arena (fuel : nat) (size : Z) : M Z :=
  s <- get_state ;;
  arena_node <- accommodating_loop fuel size (arena_head s) ;;
  if arena_node =? NULL then TAlloc_alloc_more_space size
  else ret arena_node.

(** TAlloc_malloc, lines 255-260: the first-fit scan; returns (prev, head). *)
Fixpoint first_fit_loop (fuel : nat) (size prev head : Z) : M (Z * Z) :=
  match fuel with
  | O => timeout
  | S k =>
      if head =? NULL then ret (prev, head)
      else
        hsize <- load64 (chunk_size head) ;;
        if hsize <? size then
          next <- load64 (chunk_next head) ;;
          first_fit_loop k size head next
        else ret (prev, head)
  end.

(** TAlloc_malloc, lines 298-304: the rescan for the largest free chunk. *)
Fixpoint rescan_loop (fuel : nat) (arena chunk : Z) : M unit :=
  match fuel with
  | O => timeout
  | S k =>
      next <- load64 (chunk_next chunk) ;;
      if next =? NULL then ret tt
      else
        size <- load64 (chunk_size next) ;;
        mfs <- load64 (arena_max_free_space arena) ;;
        (if mfs <? size then
           size <- load64 (chunk_size next) ;;
           store64 (arena_max_free_space arena) size
         else ret tt) ;;;
        rescan_loop k arena next
  end.

(** TAlloc_malloc, lines 270-284: the remainder of [head] becomes a free
    chunk when it can hold a header, and is given away with the block
    otherwise.  Returns (next_free_chunk, allocated_space,
    max_free_space_affected). *)
Definition split_chunk (arena head size excess_space : Z)
  (max_free_space_affected : bool) : M (Z * Z * bool) :=
  let allocated_space := size in
  if sizeof_chunk <? excess_space then
    let next_free_chunk := wrap (head + sizeof_chunk + size) in
    store64 (chunk_size next_free_chunk) (wrap (excess_space - sizeof_chunk)) ;;;
    hnext <- load64 (chunk_next head) ;;
    store64 (chunk_next next_free_chunk) hnext ;;;
    TAlloc_coalesce next_free_chunk ;;;
    TAlloc_adjust_space_for_new_chunk arena next_free_chunk ;;;
    affected <- (if max_free_space_affected then
                   hsize <- load64 (chunk_size head) ;;
                   nsize <- load64 (chunk_size next_free_chunk) ;;
                   ret (nsize <? hsize)
                 else ret false) ;;
    ret (next_free_chunk, allocated_space, affected)
  else
    hnext <- load64 (chunk_next head) ;;
    ret (hnext, wrap (allocated_space + excess_space), max_free_space_affected).

(** TAlloc_malloc, lines 295-305: the cached maximum recomputed from the
    free list. *)
Definition recompute_max (fuel : nat) (arena : Z) : M unit :=
  fl <- load64 (arena_free_list arena) ;;
  if fl =? NULL then store64 (arena_max_free_space arena) 0
  else
    chunk <- load64 (arena_free_list arena) ;;
    size <- load64 (chunk_size chunk) ;;
    store64 (arena_max_free_space arena) size ;;;
    rescan_loop fuel arena chunk.

(** TAlloc_malloc, lines 255-310: carving [size] bytes out of [arena]. *)
Definition malloc_carve (fuel : nat) (arena size : Z) : M Z :=
  fl <- load64 (arena_free_list arena) ;;
  ph <- first_fit_loop fuel size NULL fl ;;
  let prev := fst ph in
  let head := snd ph in
  if head =? NULL then ret NULL
  else
    hsize <- load64 (chunk_size head) ;;
    let excess_space := wrap (hsize - size) in
    hsize <- load64 (chunk_size head) ;;
    mfs <- load64 (arena_max_free_space arena) ;;
    let max_free_space_affected := mfs <=? hsize in
    r <- split_chunk arena head size excess_space max_free_space_affected ;;
    let next_free_chunk := fst (fst r) in
    let allocated_space := snd (fst r) in
    let max_free_space_affected := snd r in
    let alloc_header := head in
    store32 (header_magic alloc_header) TALLOC_MAGIC ;;;
    store64 (header_size alloc_header) allocated_space ;;;
    (if prev =? NULL then store64 (arena_free_list arena) next_free_chunk
     else
       fl <- load64 (arena_free_list arena) ;;
       store64 (chunk_next fl) next_free_chunk) ;;;
    (if max_free_space_affected then recompute_max fuel arena else ret tt) ;;;
    ret (wrap (alloc_header + sizeof_header)).

(** TAlloc_malloc (lines 246-311). *)
Definition TAlloc_malloc (fuel : nat) (size : Z) : M Z :=
  s <- get_state ;;
  (if initialized s =? 0 then TAlloc_initialize else ret tt) ;;;
  if size =? 0 then ret NULL
  else
    arena <- TAlloc_get_accommodating_arena fuel size ;;
    if arena =? NULL then ret NULL
    else malloc_carve fuel arena size.

(** ** Observing a state *)

(** The free list reachable from chunk [c], as (address, size) pairs. *)
Fixpoint free_list_from (fuel : nat) (m : mem) (c : Z) : list (Z * Z) :=
  match fuel with
  | O => []
  | S k => if c =? NULL then []
           else (c, rd m (chunk_size c) 8) :: free_list_from k m (rd m (chunk_next c) 8)
  end.

Definition free_list_of (fuel : nat) (w : world) (arena : Z) : list (Z * Z) :=
  free_list_from fuel (w_mem w) (rd (w_mem w) (arena_free_list arena) 8).

(** The arena sequence reachable from arena [a]. *)
Fixpoint arenas_from (fuel : nat) (m : mem) (a : Z) : list Z :=
  match fuel with
  | O => []
  | S k => if a =? NULL then [] else a :: arenas_from k m (rd m (arena_next a) 8)
  end.

Definition arena_sequence (fuel : nat) (w : world) : list Z :=
  arenas_from fuel (w_mem w) (arena_head (w_state w)).

(** ** Client scripts

    A client allocates and releases; [Free k] releases the pointer its k-th
    successful or failed allocation returned.  The run records every pointer
    returned and the ones still held. *)

Inductive call : Type :=
| Malloc (size : Z)
| Free (k : nat).

Definition drop_ptr (p : Z) (held : list Z) : list Z :=
  filter (fun q => negb (q =? p)) held.

Fixpoint run (fuel : nat) (cs : list call) (got held : list Z) : M (list Z * list Z) :=
  match cs with
  | [] => ret (got, held)
  | Malloc n :: cs' =>
      p <- TAlloc_malloc fuel n ;;
      run fuel cs' (got ++ [p]) (if p =? NULL then held else p :: held)
  | Free k :: cs' =>
      TAlloc_free fuel (nth k got NULL) ;;;
      run fuel cs' got (drop_ptr (nth k got NULL) held)
  end.

(** The block a held pointer stands for: its header's address and the size
    the header records. *)
Definition block_of (m : mem) (p : Z) : Z * Z :=
  (p - sizeof_header, rd m (header_size (p - sizeof_header)) 8).

Fixpoint insert_block (b : Z * Z) (bs : list (Z * Z)) : list (Z * Z) :=
  match bs with
  | [] => [b]
  | b' :: bs' => if fst b <=? fst b' then b :: bs else b' :: insert_block b bs'
  end.

Definition sort_blocks (bs : list (Z * Z)) : list (Z * Z) :=
  fold_right insert_block [] bs.

(** [bs], in address order, covers [lo, hi) back to back: each block is its
    16-byte header followed by its usable bytes. *)
Fixpoint tiles_from (lo hi : Z) (bs : list (Z * Z)) : bool :=
  match bs with
  | [] => lo =? hi
  | (c, s) :: bs' => (c =? lo) && tiles_from (c + sizeof_chunk + s) hi bs'
  end.

Definition held_in (m : mem) (arena : Z) (p : Z) : bool :=
  (arena + sizeof_arena <=? p) && (p <? arena + rd m (arena_allocated arena) 8).

(** The free chunks of [arena] and the blocks of the pointers held in it
    tile the arena from the end of its header to its end. *)
Definition arena_tiled (fuel : nat) (w : world) (held : list Z) (arena : Z) : bool :=
  let m := w_mem w in
  tiles_from (arena + sizeof_arena) (arena + rd m (arena_allocated arena) 8)
    (sort_blocks (free_list_of fuel w arena
                  ++ map (block_of m) (filter (held_in m arena) held))).

(** What a finished run shows: pointers returned, pointers held, the
    allocator state, the live mappings and the system calls made. *)
Record view : Type := mk_view {
  v_got : list Z;
  v_held : list Z;
  v_state : talloc_state_t;
  v_maps : list (Z * Z);
  v_log : list syscall
}.

Inductive verdict : Type :=
| Finished (v : view)
| Crashed
| Undefined
| OutOfFuel.

Definition observe (o : outcome (list Z * list Z)) : verdict :=
  match o with
  | Ok (got, held) w =>
      Finished (mk_view got held (w_state w) (os_maps (w_os w)) (os_log (w_os w)))
  | Crash => Crashed
  | Undef => Undefined
  | Timeout => OutOfFuel
  end.

(** A property of the state a run ends in. *)
Definition at_end {A} (o : outcome (list Z * list Z)) (f : world -> list Z -> A) : option A :=
  match o with
  | Ok (_, held) w => Some (f w held)
  | _ => None
  end.

(** *** Scenarios: a 4096-byte page, three mappings on offer *)

Definition A1 : Z := 0x10000000.
Definition A2 : Z := 0x20000000.
Definition A3 : Z := 0x30000000.

Definition fresh (maps : list (option Z)) (unmaps : list bool) : world :=
  init_world (fun _ => 0) 4096 maps unmaps.

Definition play (cs : list call) (w : world) : outcome (list Z * list Z) :=
  run 64 cs [] [] w.

(** Four 16-byte blocks, the first and third released: the free list of the
    head arena is then two 16-byte chunks followed by the large remainder. *)
Definition two_holes : list call :=
  [Malloc 16; Malloc 16; Malloc 16; Malloc 16; Free 0%nat; Free 2%nat].

(** A request too large for the head arena, then its release. *)
Definition big_and_back : list call :=
  [Malloc 1; Malloc 5000000; Free 1%nat].

Definition one_map : world := fresh [Some A1] [].
Definition three_maps : world := fresh [Some A1; Some A2; Some A3] [true; true].

(** The first-fit scan of TAlloc_malloc on [arena], as (prev, head). *)
Definition first_fit_of (fuel : nat) (w : world) (arena size : Z) : option (Z * Z) :=
  match first_fit_loop fuel size NULL (rd (w_mem w) (arena_free_list arena) 8) w with
  | Ok r _ => Some r
  | _ => None
  end.

(** The blocks [arena_tiled] lines up, in address order. *)
Definition arena_blocks (fuel : nat) (w : world) (held : list Z) (arena : Z) : list (Z * Z) :=
  sort_blocks (free_list_of fuel w arena
               ++ map (block_of (w_mem w)) (filter (held_in (w_mem w) arena) held)).

(** Projections of an outcome. *)
Definition value_of {A} (o : outcome A) (d : A) : A :=
  match o with Ok a _ => a | _ => d end.
Definition world_of {A} (o : outcome A) (d : world) : world :=
  match o with Ok _ w => w | _ => d end.
Definition is_ok {A} (o : outcome A) : bool :=
  match o with Ok _ _ => true | _ => false end.

(** ** Well-formedness vocabulary *)

(** The arena sequence from [a], following [next] to NULL. *)
Inductive arena_chain (m : mem) : Z -> list Z -> Prop :=
| chain_nil : arena_chain m NULL []
| chain_cons a l :
    a <> NULL ->
    arena_chain m (rd m (arena_next a) 8) l ->
    arena_chain m a (a :: l).

(** The free list from chunk [c], as (address, size) pairs. *)
Inductive free_chain (m : mem) : Z -> list (Z * Z) -> Prop :=
| free_nil : free_chain m NULL []
| free_cons c l :
    c <> NULL ->
    free_chain m (rd m (chunk_next c) 8) l ->
    free_chain m c ((c, rd m (chunk_size c) 8) :: l).

Definition arena_mapped (w : world) (a : Z) : Prop :=
  is_mapped (os_maps (w_os w)) a sizeof_arena = true.

(** The test of TAlloc_ptr_in_arena. *)
Definition in_usable_range (m : mem) (a ptr : Z) : Prop :=
  wrap (a + sizeof_arena) <= ptr < wrap (a + rd m (arena_allocated a) 8).

(** The three ways TAlloc_free turns a pointer down: the allocator is not
    initialised; no arena of the sequence holds the pointer; the header in
    front of the pointer does not carry the tag. *)
Inductive rejected (w : world) (ptr : Z) : list Z -> Prop :=
| rej_uninitialized :
    initialized (w_state w) = 0 ->
    rejected w ptr []
| rej_foreign l :
    arena_chain (w_mem w) (arena_head (w_state w)) l ->
    Forall (arena_mapped w) l ->
    Forall (fun a => ~ in_usable_range (w_mem w) a ptr) l ->
    rejected w ptr l
| rej_untagged l1 a l2 :
    arena_chain (w_mem w) (arena_head (w_state w)) (l1 ++ a :: l2) ->
    Forall (arena_mapped w) (l1 ++ [a]) ->
    Forall (fun a => ~ in_usable_range (w_mem w) a ptr) l1 ->
    in_usable_range (w_mem w) a ptr ->
    is_mapped (os_maps (w_os w)) (header_magic (wrap (ptr - sizeof_header))) 4 = true ->
    rd (w_mem w) (header_magic (wrap (ptr - sizeof_header))) 4 <> TALLOC_MAGIC ->
    rejected w ptr (l1 ++ [a]).

(** The release test of TAlloc_free, line 214. *)
Definition eligible (w : world) (a : Z) : Prop :=
  a <> arena_head (w_state w) /\
  rd (w_mem w) (arena_allocated a) 8
  = wrap (rd (w_mem w) (arena_max_free_space a) 8 + TALLOC_ARENA_OVERHEAD).

(** Whether the provider will carry out the next unmap of [a]. *)
Definition unmap_succeeds (w : world) (a : Z) : Prop :=
  exists rest,
    os_munmap_script (w_os w) = true :: rest /\
    existsb (same_region a (rd (w_mem w) (arena_allocated a) 8)) (os_maps (w_os w)) = true.

Definition unmap_fails (w : world) (a : Z) : Prop :=
  match os_munmap_script (w_os w) with
  | true :: _ =>
      existsb (same_region a (rd (w_mem w) (arena_allocated a) 8)) (os_maps (w_os w)) = false
  | _ => True
  end.

(** A second arena in use, and an unmap that will fail. *)
Definition stubborn : world := fresh [Some A1; Some A2] [false].
Definition two_arenas : list call := [Malloc 1; Malloc 5000000].

(** One arena in use. *)
Definition one_block : world := world_of (play [Malloc 1] one_map) one_map.

(** The second arena's only block is released while the provider refuses
    the unmap. *)
Definition refused_before : world := world_of (play two_arenas stubborn) stubborn.
Definition refused_inserted : world :=
  world_of (free_insert 64 A2 (A2 + 40) refused_before) stubborn.

(** TAlloc_free_arena, lines 137-138: the memory once [arena] is taken out
    of the arena list. *)
Definition unlinked (m : mem) (arena : Z) : mem :=
  let prev := rd m (arena_prev arena) 8 in
  let next := rd m (arena_next arena) 8 in
  let m1 := wr m (arena_next prev) 8 next in
  if next =? NULL then m1 else wr m1 (arena_prev next) 8 prev.

(** The mappings left once the provider has unmapped [a]. *)
Definition maps_without (w : world) (a : Z) : list (Z * Z) :=
  filter (fun r => negb (same_region a (rd (w_mem w) (arena_allocated a) 8) r))
    (os_maps (w_os w)).

(** The link fields that lines 137-138 write, in the neighbours of [a], lie
    in memory that stays mapped when [a] is unmapped. *)
Definition links_mapped (w : world) (a : Z) : Prop :=
  is_mapped (maps_without w a) (arena_next (rd (w_mem w) (arena_prev a) 8)) 8 = true /\
  (rd (w_mem w) (arena_next a) 8 <> NULL ->
   is_mapped (maps_without w a) (arena_prev (rd (w_mem w) (arena_next a) 8)) 8 = true).

(** The second arena's only block is released and the provider carries out
    the unmap. *)
Definition released_before : world := world_of (play two_arenas three_maps) three_maps.
Definition released_inserted : world :=
  world_of (free_insert 64 A2 (A2 + 40) released_before) three_maps.

(** ** Free lists as lists

    The list-level reading of the free-list code: what the first-fit scan,
    the carve and the address-ordered insertion do to the list of (address,
    size) pairs of an arena whose chunks do not overlap. *)

Abbreviation chunk := (Z * Z)%type.

Definition chunk_end (x : chunk) : Z := fst x + sizeof_chunk + snd x.

(** The largest size in a free list; 0 for the empty list. *)
Fixpoint maxsize (l : list chunk) : Z :=
  match l with
  | [] => 0
  | x :: l' => Z.max (snd x) (maxsize l')
  end.

(** Chunks in ascending address order within [lo, hi), each starting at
    least [g] bytes after the end of the one before. *)
Fixpoint spaced (g lo hi : Z) (l : list chunk) : Prop :=
  match l with
  | [] => True
  | x :: l' => lo <= fst x /\ 0 < snd x /\ chunk_end x <= hi /\ spaced g (chunk_end x + g) hi l'
  end.

(** No two chunks overlap or touch. *)
Definition gapped (lo hi : Z) (l : list chunk) : Prop := spaced 1 lo hi l.

Definition disjoint_chunks (x y : chunk) : Prop :=
  chunk_end x <= fst y \/ chunk_end y <= fst x.

Fixpoint pairwise_disjoint (l : list chunk) : Prop :=
  match l with
  | [] => True
  | x :: l' => Forall (disjoint_chunks x) l' /\ pairwise_disjoint l'
  end.

(** The first-fit scan (lines 255-260) on the list: (prev, head). *)
Fixpoint first_fit (size prev : Z) (l : list chunk) : Z * Z :=
  match l with
  | [] => (prev, NULL)
  | x :: l' => if snd x <? size then first_fit size (fst x) l' else (prev, fst x)
  end.

(** The chunks the scan steps over, the chunk it stops at, the rest. *)
Fixpoint split_fit (size : Z) (l : list chunk) : option (list chunk * chunk * list chunk) :=
  match l with
  | [] => None
  | x :: l' =>
      if snd x <? size then
        match split_fit size l' with
        | Some (pre, h, post) => Some (x :: pre, h, post)
        | None => None
        end
      else Some ([], x, l')
  end.

(** What is left of the chunk [h] once [size] bytes are carved from it
    (lines 270-284): the remainder chunk, when it can hold a header. *)
Definition remainder (size : Z) (h : chunk) : list chunk :=
  if sizeof_chunk <? snd h - size
  then [(fst h + sizeof_chunk + size, snd h - size - sizeof_chunk)]
  else [].

(** The size recorded in the block's header (lines 267, 283, 289). *)
Definition granted (size : Z) (h : chunk) : Z :=
  if sizeof_chunk <? snd h - size then size else snd h.

(** The free list after the carve and the splice of lines 291-292: the
    link that is rewritten is the list head's. *)
Definition carve_list (size : Z) (l : list chunk) : list chunk :=
  match split_fit size l with
  | None => l
  | Some (pre, h, post) => firstn 1 pre ++ remainder size h ++ post
  end.

(** TAlloc_coalesce on the list: [x] followed by [l]. *)
Definition merge_right (x : chunk) (l : list chunk) : list chunk :=
  match l with
  | y :: l' => if fst y =? chunk_end x
               then (fst x, snd x + (sizeof_chunk + snd y)) :: l'
               else x :: l
  | [] => [x]
  end.

(** Lines 201-210 on the list: [x] goes in after the last chunk below it,
    then both coalescing steps. *)
Fixpoint insert_chunk (x : chunk) (l : list chunk) : list chunk :=
  match l with
  | [] => [x]
  | ia :: rest =>
      match rest with
      | nx :: _ => if fst nx <? fst x then ia :: insert_chunk x rest
                   else merge_right ia (merge_right x rest)
      | [] => merge_right ia (merge_right x rest)
      end
  end.

(** Lines 190-211 on the list. *)
Definition free_list_insert (x : chunk) (l : list chunk) : list chunk :=
  match l with
  | [] => [x]
  | h :: _ => if fst x <? fst h then merge_right x l else insert_chunk x l
  end.

(** The size of the first chunk of a list. *)
Definition hd_size (l : list chunk) : Z :=
  match l with [] => 0 | x :: _ => snd x end.

(** The insertion point of lines 201-204: the last chunk, from [ia] on,
    whose successor is not below [c]. *)
Fixpoint insert_point (c ia : Z) (rest : list chunk) : Z :=
  match rest with
  | [] => ia
  | nx :: rest' => if fst nx <? c then insert_point c (fst nx) rest' else ia
  end.

(** TAlloc_adjust_space_for_new_chunk on memory. *)
Definition raise_max (m : mem) (a s : Z) : mem :=
  if rd m (arena_max_free_space a) 8 <? s then wr m (arena_max_free_space a) 8 s else m.

(** The first arena of [l] whose cached maximum admits [size]. *)
Fixpoint first_arena (m : mem) (size : Z) (l : list Z) : Z :=
  match l with
  | [] => NULL
  | a :: l' => if rd m (arena_max_free_space a) 8 <? size then first_arena m size l' else a
  end.

Definition in_usable_rangeb (m : mem) (a ptr : Z) : bool :=
  (wrap (a + sizeof_arena) <=? ptr) && (ptr <? wrap (a + rd m (arena_allocated a) 8)).

(** The first arena of [l] whose usable range holds [ptr]. *)
Fixpoint owner (m : mem) (ptr : Z) (l : list Z) : Z :=
  match l with
  | [] => NULL
  | a :: l' => if in_usable_rangeb m a ptr then a else owner m ptr l'
  end.

(** The bytes the carve may write: the cached maximum and the list head
    of the arena, the chunk [h] it consumes, and the link of the chunk [c0]
    the free list starts with. *)
Definition carve_touched (a c0 : Z) (h : chunk) (x : Z) : Prop :=
  a + 8 <= x < a + 24 \/ fst h <= x < chunk_end h \/ c0 + 8 <= x < c0 + 16.

(** ** Partial and total runs

    [res fuel N o r w']: the run [o], made with [fuel], ended in [r] and
    [w'], or ran out of fuel and [fuel] was below the bound [N]. *)
Definition res {A} (fuel N : nat) (o : outcome A) (r : A) (w' : world) : Prop :=
  o = Ok r w' \/ (o = Timeout /\ (fuel < N)%nat).

(** ** The invariant *)

(** [m'] and [m] hold the same bytes outside [lo, hi). *)
Definition same_outside (lo hi : Z) (m m' : mem) : Prop :=
  forall x, x < lo \/ hi <= x -> m' x = m x.

(** A block in use: inside the arena, its header recording its size and
    carrying the tag. *)
Definition live_block (m : mem) (lo hi : Z) (b : chunk) : Prop :=
  lo <= fst b /\ 0 < snd b /\ chunk_end b <= hi /\
  rd m (header_size (fst b)) 8 = snd b /\
  rd m (header_magic (fst b)) 4 = TALLOC_MAGIC.

(** Arena [a], mapped with [len] bytes, holds the free list [fl] and the
    blocks in use [lb]: the cached maximum is the largest free size, free
    chunks are apart from one another and from the blocks in use. *)
Definition arena_ok (m : mem) (maps : list (Z * Z)) (a : Z) (fl lb : list chunk) : Prop :=
  let len := rd m (arena_allocated a) 8 in
  In (a, len) maps /\ 0 < a /\ TALLOC_ARENA_OVERHEAD < len /\ a + len < 2 ^ 64 /\
  free_chain m (rd m (arena_free_list a) 8) fl /\
  gapped (a + sizeof_arena) (a + len) fl /\
  rd m (arena_max_free_space a) 8 = maxsize fl /\
  Forall (live_block m (a + sizeof_arena) (a + len)) lb /\
  Forall (fun b => Forall (disjoint_chunks b) fl) lb /\
  pairwise_disjoint lb.

(** The blocks in use without the one at [c]. *)
Definition drop_block (c : Z) (lb : list chunk) : list chunk :=
  filter (fun b => negb (fst b =? c)) lb.

(** The bytes the well-formedness of an arena reads. *)
Definition arena_reads (a : Z) (fl lb : list (Z * Z)) (x : Z) : Prop :=
  a <= x < a + 24 \/
  Exists (fun c => fst c <= x < fst c + 16) fl \/
  Exists (fun b => fst b <= x < fst b + 12) lb.

(** An arena of the sequence with its free list and its blocks in use. *)
Record arena_view : Type := mk_arena {
  av_addr : Z;
  av_free : list chunk;
  av_live : list chunk
}.

(** [prev] links along the sequence. *)
Fixpoint prev_linked (m : mem) (p : Z) (l : list Z) : Prop :=
  match l with
  | [] => True
  | a :: l' => rd m (arena_prev a) 8 = p /\ prev_linked m a l'
  end.

Definition page_ok (ps : Z) : Prop :=
  exists k, 6 <= k <= 30 /\ ps = 2 ^ k.

(** Mappings: page-aligned, away from the null page, not wrapping, and
    pairwise disjoint. *)
Fixpoint maps_ok (ps : Z) (maps : list (Z * Z)) : Prop :=
  match maps with
  | [] => True
  | r :: rest =>
      0 < fst r /\ fst r mod ps = 0 /\ 0 < snd r /\ fst r + snd r < 2 ^ 64 /\
      forallb (disjoint_region (fst r) (snd r)) rest = true /\
      maps_ok ps rest
  end.

(** Where [arena_tail] may be: on the last arena of the sequence; on an
    address no mapping covers (the arena it designated was released); or on a
    mapped arena that is not in the sequence. *)
Definition tail_ok (ps : Z) (maps : list (Z * Z)) (addrs : list Z) (t : Z) : Prop :=
  t = last addrs NULL \/
  (0 <= t /\ t mod ps = 0 /\ ~ In t addrs /\
   (Forall (fun r => disjoint_region t sizeof_arena r = true) maps \/
    exists len, In (t, len) maps /\ TALLOC_ARENA_OVERHEAD < len)).

(** A pointer the client holds, with the size it asked for: the block of
    an arena of the sequence, or bytes of a mapping outside the sequence,
    past the metadata an arena starts with. *)
Definition held_ok (maps : list (Z * Z)) (ars : list arena_view) (pn : Z * Z) : Prop :=
  0 < snd pn /\
  ((exists av s, In av ars /\ In (fst pn - sizeof_header, s) (av_live av) /\ snd pn <= s) \/
   (exists r, In r maps /\ ~ In (fst r) (map av_addr ars) /\
              fst r + TALLOC_ARENA_OVERHEAD <= fst pn /\
              fst pn + snd pn <= fst r + snd r)).

(** The initialised allocator: [ars] are the arenas of the sequence from
    [arena_head], in order. *)
Definition heap_ok (w : world) (held : list (Z * Z)) (ars : list arena_view) : Prop :=
  let m := w_mem w in
  let st := w_state w in
  let maps := os_maps (w_os w) in
  let ps := os_pagesize (w_os w) in
  initialized st = 1 /\ pagesize st = ps /\ minallocsize st = ps * TALLOC_ALLOC_PAGES /\
  ars <> [] /\
  arena_chain m (arena_head st) (map av_addr ars) /\
  prev_linked m (rd m (arena_prev (arena_head st)) 8) (map av_addr ars) /\
  Forall (fun av => arena_ok m maps (av_addr av) (av_free av) (av_live av)) ars /\
  tail_ok ps maps (map av_addr ars) (arena_tail st) /\
  Forall (held_ok maps ars) held.

(** Before the first successful initialisation nothing is mapped. *)
Definition heap_none (w : world) (held : list (Z * Z)) : Prop :=
  initialized (w_state w) = 0 /\ arena_head (w_state w) = NULL /\
  arena_tail (w_state w) = NULL /\ os_maps (w_os w) = [] /\ held = [].

Definition inv (w : world) (held : list (Z * Z)) : Prop :=
  page_ok (os_pagesize (w_os w)) /\
  maps_ok (os_pagesize (w_os w)) (os_maps (w_os w)) /\
  (heap_none w held \/ exists ars, heap_ok w held ars).

(** The pointer [p] was carved for a request of [n] bytes from an arena
    of the sequence [ars]: the arenas before it could not serve the request,
    [fl0] was its free list before the carve. *)
Definition served (w : world) (n p : Z) (ars : list arena_view) : Prop :=
  exists ars1 av ars2 fl0 pre h post,
    ars = ars1 ++ av :: ars2 /\
    Forall (fun a => rd (w_mem w) (arena_max_free_space a) 8 < n) (map av_addr ars1) /\
    gapped (av_addr av + sizeof_arena)
      (av_addr av + rd (w_mem w) (arena_allocated (av_addr av)) 8) fl0 /\
    split_fit n fl0 = Some (pre, h, post) /\
    av_free av = carve_list n fl0 /\
    In (fst h, granted n h) (av_live av) /\
    p = fst h + sizeof_header.

(** [w'] differs from [w] in the provider's script and log only. *)
Definition same_heap (w w' : world) : Prop :=
  w_mem w' = w_mem w /\ w_state w' = w_state w /\
  os_maps (w_os w') = os_maps (w_os w) /\
  os_pagesize (w_os w') = os_pagesize (w_os w).

(** ** Clients that keep the contract

    The states a client reaches that releases only pointers it holds and
    writes only to the bytes it asked for.  Each held pointer is recorded
    with the size requested. *)
Definition poke (w : world) (x b : Z) : world :=
  set_mem w (fun y => if y =? x then b else w_mem w y).

Definition drop_held (p : Z) (held : list (Z * Z)) : list (Z * Z) :=
  filter (fun q => negb (fst q =? p)) held.

Inductive reachable : world -> list (Z * Z) -> Prop :=
| reach_init m ps maps unmaps :
    page_ok ps ->
    reachable (init_world m ps maps unmaps) []
| reach_malloc w held fuel n p w' :
    reachable w held ->
    0 <= n < 2 ^ 64 ->
    TAlloc_malloc fuel n w = Ok p w' ->
    p <> NULL ->
    reachable w' ((p, n) :: held)
| reach_malloc_null w held fuel n w' :
    reachable w held ->
    0 <= n < 2 ^ 64 ->
    TAlloc_malloc fuel n w = Ok NULL w' ->
    reachable w' held
| reach_free w held fuel p n w' :
    reachable w held ->
    In (p, n) held ->
    TAlloc_free fuel p w = Ok tt w' ->
    reachable w' (drop_held p held)
| reach_write w held p n x b :
    reachable w held ->
    In (p, n) held ->
    p <= x < p + n ->
    reachable (poke w x b) held.

(** The arenas of the sequence with their free lists. *)
Definition free_lists (w : world) (l : list (Z * list chunk)) : Prop :=
  arena_chain (w_mem w) (arena_head (w_state w)) (map fst l) /\
  Forall (fun al => free_chain (w_mem w) (rd (w_mem w) (arena_free_list (fst al)) 8) (snd al)) l.

(** ** TAlloc_debug_print

    The walker prints one line per arena and one per chunk.  The model
    returns the lines in the order they are printed; the size each line
    reserves is the third field. *)

Inductive line : Type :=
| Not_initialized
| Arena_line (arena allocated reserved : Z)
| Allocated_line (header size reserved : Z)
| Free_line (chunk size reserved : Z).

(** TAlloc_debug_print, lines 325-337: the walk over the chunks of
    [arena], from [ptr]. *)
Fixpoint debug_chunks (fuel : nat) (arena ptr : Z) : M (list line) :=
  match fuel with
  | O => timeout
  | S k =>
      len <- load64 (arena_allocated arena) ;;
      if ptr <? wrap (arena + len) then
        let header := ptr in
        magic <- load32 (header_magic header) ;;
        if magic =? TALLOC_MAGIC then
          printed <- load64 (header_size header) ;;
          size <- load64 (header_size header) ;;
          rest <- debug_chunks k arena (wrap (ptr + wrap (sizeof_header + size))) ;;
          ret (Allocated_line header printed sizeof_header :: rest)
        else
          let chunk := ptr in
          printed <- load64 (chunk_size chunk) ;;
          size <- load64 (chunk_size chunk) ;;
          rest <- debug_chunks k arena (wrap (ptr + wrap (sizeof_chunk + size))) ;;
          ret (Free_line chunk printed sizeof_chunk :: rest)
      else ret []
  end.

(** TAlloc_debug_print, lines 321-339: the walk over the arenas, from
    [arena]. *)
Fixpoint debug_arenas (fuel : nat) (arena : Z) : M (list line) :=
  match fuel with
  | O => timeout
  | S k =>
      if arena =? NULL then ret []
      else
        len <- load64 (arena_allocated arena) ;;
        chunks <- debug_chunks fuel arena (wrap (arena + sizeof_arena)) ;;
        next <- load64 (arena_next arena) ;;
        rest <- debug_arenas k next ;;
        ret (Arena_line arena len sizeof_arena :: chunks ++ rest)
  end.

(** TAlloc_debug_print (lines 315-340). *)
Definition TAlloc_debug_print (fuel : nat) : M (list line) :=
  s <- get_state ;;
  if initialized s =? 0 then ret [Not_initialized]
  else debug_arenas fuel (arena_head s).

(** The chunks [bs] -- (size, in use) -- lie back to back from [lo] to
    [hi], each with its size in its first word and the tag in its header
    exactly when it is in use. *)
Fixpoint laid_out (m : mem) (lo hi : Z) (bs : list (Z * bool)) : Prop :=
  match bs with
  | [] => lo = hi
  | (s, used) :: bs' =>
      rd m (chunk_size lo) 8 = s /\
      (rd m (header_magic lo) 4 =? TALLOC_MAGIC) = used /\
      lo + sizeof_chunk + s <= hi /\
      laid_out m (lo + sizeof_chunk + s) hi bs'
  end.

(** The lines the walker prints for the chunks [bs] from [lo]. *)
Fixpoint lines_of (lo : Z) (bs : list (Z * bool)) : list line :=
  match bs with
  | [] => []
  | (s, used) :: bs' =>
      (if used then Allocated_line lo s sizeof_header else Free_line lo s sizeof_chunk)
      :: lines_of (lo + sizeof_chunk + s) bs'
  end.

(** The lines for the arenas [L], each with its chunks. *)
Fixpoint arena_lines (m : mem) (L : list (Z * list (Z * bool))) : list line :=
  match L with
  | [] => []
  | (a, bs) :: L' =>
      Arena_line a (rd m (arena_allocated a) 8) sizeof_arena
      :: lines_of (a + sizeof_arena) bs ++ arena_lines m L'
  end.

(** Arena [a] can be walked: it is mapped with the length it records, and
    its chunks [bs] lie back to back over its usable range. *)
Definition walkable (w : world) (ab : Z * list (Z * bool)) : Prop :=
  let a := fst ab in
  let len := rd (w_mem w) (arena_allocated a) 8 in
  In (a, len) (os_maps (w_os w)) /\ 0 < a /\ a + len < 2 ^ 64 /\
  laid_out (w_mem w) (a + sizeof_arena) (a + len) (snd ab).

(** ** Chunks that tile an arena *)

(** Byte [z] is one of the chunk [y], header included. *)
Definition covers (z : Z) (y : chunk) : bool :=
  (fst y <=? z) && (z <? chunk_end y).

(** The number of chunks of [l] that hold byte [z]. *)
Fixpoint coverage (z : Z) (l : list chunk) : nat :=
  match l with
  | [] => O
  | y :: l' => ((if covers z y then 1 else 0) + coverage z l')%nat
  end.

(** The bytes the chunks of [l] take, headers included. *)
Fixpoint extent (l : list chunk) : Z :=
  match l with
  | [] => 0
  | y :: l' => sizeof_chunk + snd y + extent l'
  end.

(** Chunks back to back from [lo] to [hi]. *)
Fixpoint tiles (lo hi : Z) (l : list chunk) : Prop :=
  match l with
  | [] => lo = hi
  | y :: l' => fst y = lo /\ 0 < snd y /\ tiles (chunk_end y) hi l'
  end.

(** A chunk of arena [a] that is neither in its free list nor in use: a
    free chunk that the splice of lines 291-292 left out of the list.  Its
    size is still in its first word. *)
Definition stray (m : mem) (a : Z) (d : chunk) : Prop :=
  a + sizeof_arena <= fst d /\ 0 < snd d /\
  chunk_end d <= a + rd m (arena_allocated a) 8 /\
  rd m (chunk_size (fst d)) 8 = snd d.

(** The free chunks [fl], the blocks in use [lb] and the strays [dr] of
    arena [a] take every byte after the arena header, none of them twice. *)
Definition tiled (m : mem) (a : Z) (fl lb dr : list chunk) : Prop :=
  (forall z, (coverage z (fl ++ lb ++ dr) <= 1)%nat) /\
  extent (fl ++ lb ++ dr) = rd m (arena_allocated a) 8 - sizeof_arena /\
  Forall (stray m a) dr.

(** The bytes the tiling of arena [a] depends on: the size the arena
    records, and what follows the arena header. *)
Definition tile_byte (m : mem) (a x : Z) : Prop :=
  a <= x < a + 8 \/ a + 40 <= x < a + rd m a 8.

Definition heap_tiled (w : world) (ars : list arena_view) : Prop :=
  Forall (fun av => exists dr,
            tiled (w_mem w) (av_addr av) (av_free av) (av_live av) dr) ars.

(** ** Blocks held by the client *)

(** The byte ranges of two held pointers do not meet. *)
Definition ranges_apart (x y : Z * Z) : Prop :=
  fst x + snd x <= fst y \/ fst y + snd y <= fst x.

Fixpoint all_apart (held : list (Z * Z)) : Prop :=
  match held with
  | [] => True
  | x :: held' => Forall (ranges_apart x) held' /\ all_apart held'
  end.

(** ** Further scenarios *)

(** The one block of [one_block], released. *)
Definition one_released : world :=
  world_of (TAlloc_free 64 (A1 + 56) one_block) one_block.

(** A second block, of 100 bytes, beside the one of [one_block]. *)
Definition two_blocks : world :=
  world_of (TAlloc_malloc 64 100 one_block) one_block.

(** TAlloc_free, lines 195-196: [chunk] is put in front of the free list of
    [arena]; the call of TAlloc_coalesce on it (line 197) comes next. *)
Definition link_in_front (arena chunk : Z) : M unit :=
  fl <- load64 (arena_free_list arena) ;;
  store64 (chunk_next chunk) fl ;;;
  store64 (arena_free_list arena) chunk.

(** The 100-byte block of [two_blocks] on its way back: its chunk heads the
    free list, and the free remainder of the arena starts where it ends. *)
Definition before_coalesce : world :=
  world_of (link_in_front A1 (A1 + 57) two_blocks) two_blocks.

(** * Properties *)

(** ** Outcomes *)

Lemma ok_projections {A} (o : outcome A) (d : A) (dw : world) :
  is_ok o = true -> o = Ok (value_of o d) (world_of o dw).
Proof. destruct o; simpl; intros H; try discriminate; reflexivity. Qed.

Lemma bind_ok {A B} (m : M A) (f : A -> M B) w a w' :
  m w = Ok a w' -> bind m f w = f a w'.
Proof. unfold bind; intros ->; reflexivity. Qed.

(** ** The scenarios, evaluated *)

(** C1.  The splice at the end of the first-fit scan writes through the
    head of the free list, not through the scan's trailing pointer: with the
    fitting chunk third in the list, the trailing chunk (the second) drops out
    of the list while its own link still designates the consumed chunk. *)
Theorem splice_rewires_list_head :
  at_end (play two_holes one_map) (fun w _ => free_list_of 64 w A1)
  = Some [(A1 + 40, 16); (A1 + 104, 16); (A1 + 168, 4095816)] /\
  at_end (play two_holes one_map) (fun w _ => first_fit_of 64 w A1 100)
  = Some (Some (A1 + 104, A1 + 168)) /\
  observe (play (two_holes ++ [Malloc 100]) one_map)
  = Finished (mk_view [A1 + 56; A1 + 88; A1 + 120; A1 + 152; A1 + 184]
                [A1 + 184; A1 + 152; A1 + 88]
                (mk_state A1 A1 4096000 4096 1)
                [(A1, 4096000)] [Mmap 4096000 A1]) /\
  at_end (play (two_holes ++ [Malloc 100]) one_map)
    (fun w _ => (free_list_of 64 w A1, rd (w_mem w) (chunk_next (A1 + 104)) 8))
  = Some ([(A1 + 40, 16); (A1 + 284, 4095700)], A1 + 168).
Proof. repeat split; vm_compute; reflexivity. Qed.

(** C2.  When the first mapping fails, the same call goes on to map an
    arena for the request; if that mapping succeeds, the append writes through
    the null [arena_tail].  When it fails too the call returns NULL with the
    allocator uninitialised, and the next call initialises again. *)
Theorem failed_initialization_writes_through_null_tail :
  observe (play [Malloc 1] (fresh [None; Some A1] [])) = Crashed /\
  observe (play [Malloc 1] (fresh [None; None] []))
  = Finished (mk_view [NULL] [] (mk_state 0 0 4096000 4096 0) []
                [Mmap 4096000 MAP_FAILED; Mmap 4096000 MAP_FAILED]) /\
  observe (play [Malloc 1; Malloc 1] (fresh [None; None; Some A1] []))
  = Finished (mk_view [NULL; A1 + 56] [A1 + 56] (mk_state A1 A1 4096000 4096 1)
                [(A1, 4096000)]
                [Mmap 4096000 A1; Mmap 4096000 MAP_FAILED; Mmap 4096000 MAP_FAILED]).
Proof. repeat split; vm_compute; reflexivity. Qed.

(** C3.  When the overhead-inclusive total equals [minallocsize] neither
    branch assigns the size to map: the arena is mapped with an indeterminate
    size. *)
Theorem arena_size_indeterminate_at_minimum :
  (forall minalloc ps, to_allocate minalloc minalloc ps = None) /\
  observe (play [Malloc 1; Malloc (4096000 - TALLOC_ARENA_OVERHEAD)] three_maps)
  = Undefined.
Proof.
  split.
  - intros minalloc ps. unfold to_allocate. now rewrite Z.ltb_irrefl.
  - vm_compute. reflexivity.
Qed.

(** C6.  After the splice of C1 the dropped chunk is neither free nor
    held: the blocks of the head arena no longer tile it. *)
Theorem dropped_chunk_breaks_tiling :
  at_end (play two_holes one_map) (fun w held => arena_tiled 64 w held A1) = Some true /\
  at_end (play (two_holes ++ [Malloc 100]) one_map)
    (fun w held => (arena_blocks 64 w held A1, arena_tiled 64 w held A1))
  = Some ([(A1 + 40, 16); (A1 + 72, 16); (A1 + 136, 16); (A1 + 168, 100);
           (A1 + 284, 4095700)], false).
Proof. split; vm_compute; reflexivity. Qed.

(** C10.  Releasing the last arena of the sequence leaves [arena_tail] on
    the unmapped arena; the next append writes through it. *)
Theorem tail_dangles_after_release :
  observe (play big_and_back three_maps)
  = Finished (mk_view [A1 + 56; A2 + 56] [A1 + 56] (mk_state A1 A2 4096000 4096 1)
                [(A1, 4096000)]
                [Munmap A2 5001216 0; Mmap 5001216 A2; Mmap 4096000 A1]) /\
  at_end (play big_and_back three_maps)
    (fun w _ => (arena_sequence 64 w,
                 is_mapped (os_maps (w_os w)) (arena_tail (w_state w)) 1))
  = Some ([A1], false) /\
  observe (play (big_and_back ++ [Malloc 5000000]) three_maps) = Crashed.
Proof. repeat split; vm_compute; reflexivity. Qed.

(** ** Mapped accesses *)

Lemma is_mapped_sub maps a n b k :
  is_mapped maps a n = true -> a <= b -> b + k <= a + n ->
  is_mapped maps b k = true.
Proof.
  unfold is_mapped. rewrite !existsb_exists.
  intros [r [Hin Hr]] Hab Hbk. exists r. split; [assumption|].
  unfold in_region in *. apply andb_true_iff in Hr as [H1 H2].
  apply andb_true_iff. split; [apply Z.leb_le | apply Z.leb_le];
    apply Z.leb_le in H1; apply Z.leb_le in H2; lia.
Qed.

Lemma load_mapped n a w :
  is_mapped (os_maps (w_os w)) a (Z.of_nat n) = true ->
  load n a w = Ok (rd (w_mem w) a n) w.
Proof. unfold load. intros ->. reflexivity. Qed.

Lemma load64_arena_field w a x :
  arena_mapped w a -> a <= x -> x + 8 <= a + sizeof_arena ->
  load64 x w = Ok (rd (w_mem w) x 8) w.
Proof.
  intros Hm H0 H1. apply load_mapped.
  eapply is_mapped_sub; [exact Hm | lia | simpl; lia].
Qed.

Ltac arena_field :=
  unfold arena_allocated, arena_max_free_space, arena_free_list, arena_next,
    arena_prev, sizeof_arena; lia.

(** ** Looking up the owning arena *)

Lemma ptr_in_arena_spec w a ptr :
  arena_mapped w a ->
  exists b, TAlloc_ptr_in_arena a ptr w = Ok b w /\
            (b = true <-> in_usable_range (w_mem w) a ptr).
Proof.
  intros Hm. unfold TAlloc_ptr_in_arena, in_usable_range.
  destruct (wrap (a + sizeof_arena) <=? ptr) eqn:E.
  - apply Z.leb_le in E.
    erewrite bind_ok by (apply (load64_arena_field w a _ Hm); arena_field).
    eexists; split; [reflexivity|].
    rewrite Z.ltb_lt. tauto.
  - apply Z.leb_gt in E. exists false. split; [reflexivity|].
    split; [discriminate | lia].
Qed.

Lemma find_arena_loop_foreign w ptr l : forall a fuel,
  arena_chain (w_mem w) a l ->
  Forall (arena_mapped w) l ->
  Forall (fun a => ~ in_usable_range (w_mem w) a ptr) l ->
  (length l < fuel)%nat ->
  find_arena_loop fuel ptr a w = Ok NULL w.
Proof.
  induction l as [|x l IH]; intros a fuel Hc Hm Hn Hf;
    inversion Hc as [|? ? Hx Hc']; subst.
  - destruct fuel; [simpl in Hf; lia | reflexivity].
  - destruct fuel; [simpl in Hf; lia|]. simpl in Hf.
    apply Forall_cons_iff in Hm as [Hmx Hm].
    apply Forall_cons_iff in Hn as [Hnx Hn]. simpl.
    destruct (x =? NULL) eqn:E; [apply Z.eqb_eq in E; contradiction|].
    destruct (ptr_in_arena_spec w x ptr Hmx) as [b [Hb Hiff]].
    erewrite bind_ok by exact Hb.
    destruct b; [exfalso; apply Hnx, Hiff; reflexivity|].
    erewrite bind_ok by (apply (load64_arena_field w x _ Hmx); arena_field).
    apply IH; auto. lia.
Qed.

Lemma find_arena_loop_owner w ptr l1 x l2 : forall a fuel,
  arena_chain (w_mem w) a (l1 ++ x :: l2) ->
  Forall (arena_mapped w) (l1 ++ [x]) ->
  Forall (fun a => ~ in_usable_range (w_mem w) a ptr) l1 ->
  in_usable_range (w_mem w) x ptr ->
  (length l1 < fuel)%nat ->
  find_arena_loop fuel ptr a w = Ok x w /\ x <> NULL.
Proof.
  induction l1 as [|y l1 IH]; intros a fuel Hc Hm Hn Hin Hf;
    inversion Hc as [|? ? Hx Hc']; subst;
    apply Forall_cons_iff in Hm as [Hmx Hm].
  - destruct fuel; [simpl in Hf; lia|]. simpl.
    destruct (x =? NULL) eqn:E; [apply Z.eqb_eq in E; contradiction|].
    destruct (ptr_in_arena_spec w x ptr Hmx) as [b [Hb Hiff]].
    erewrite bind_ok by exact Hb.
    destruct b; [split; [reflexivity | assumption]|].
    apply Hiff in Hin. discriminate.
  - destruct fuel; [simpl in Hf; lia|]. simpl in Hf. simpl.
    destruct (y =? NULL) eqn:E; [apply Z.eqb_eq in E; contradiction|].
    apply Forall_cons_iff in Hn as [Hnx Hn].
    destruct (ptr_in_arena_spec w y ptr Hmx) as [b [Hb Hiff]].
    erewrite bind_ok by exact Hb.
    destruct b; [exfalso; apply Hnx, Hiff; reflexivity|].
    erewrite bind_ok by (apply (load64_arena_field w y _ Hmx); arena_field).
    apply IH; auto. lia.
Qed.

(** ** Invalid releases *)

Lemma free_rejected w ptr l fuel :
  rejected w ptr l -> (length l < fuel)%nat -> TAlloc_free fuel ptr w = Ok tt w.
Proof.
  intros Hr Hf. unfold TAlloc_free.
  erewrite bind_ok by reflexivity.
  destruct Hr as [Hi | l Hc Hm Hn | l1 a l2 Hc Hm Hn Hin Hmap Hmagic].
  - rewrite Hi. reflexivity.
  - destruct (initialized (w_state w) =? 0); [reflexivity|].
    unfold TAlloc_find_arena.
    erewrite bind_ok by (erewrite bind_ok by reflexivity;
                         apply (find_arena_loop_foreign w ptr l); eauto).
    reflexivity.
  - destruct (initialized (w_state w) =? 0); [reflexivity|].
    rewrite length_app in Hf; simpl in Hf.
    destruct (find_arena_loop_owner w ptr l1 a l2 (arena_head (w_state w)) fuel)
      as [Hfind Hnz]; auto; [lia|].
    unfold TAlloc_find_arena.
    erewrite bind_ok by (erewrite bind_ok by reflexivity; exact Hfind).
    destruct (a =? NULL) eqn:E; [reflexivity|].
    erewrite bind_ok by (apply load_mapped; exact Hmap).
    destruct (rd (w_mem w) (header_magic (wrap (ptr - sizeof_header))) 4 =? TALLOC_MAGIC) eqn:E2.
    + apply Z.eqb_eq in E2. contradiction.
    + reflexivity.
Qed.

(** C8.  A release that is turned down -- allocator uninitialised, pointer
    in no arena of the sequence, or no tag in front of the pointer -- returns
    with the whole state as it was, and so does its repetition. *)
Theorem invalid_free_is_noop w ptr l fuel :
  rejected w ptr l -> (length l < fuel)%nat ->
  TAlloc_free fuel ptr w = Ok tt w /\
  (TAlloc_free fuel ptr ;;; TAlloc_free fuel ptr) w = Ok tt w.
Proof.
  intros Hr Hf. pose proof (free_rejected w ptr l fuel Hr Hf) as H.
  split; [exact H|]. erewrite bind_ok by exact H. exact H.
Qed.


Lemma invalid_free_is_noop_witness :
  TAlloc_free 2 0x7ffd00001000 one_block = Ok tt one_block /\
  (TAlloc_free 2 0x7ffd00001000 ;;; TAlloc_free 2 0x7ffd00001000) one_block
  = Ok tt one_block.
Proof.
  apply (invalid_free_is_noop one_block 0x7ffd00001000 [A1] 2).
  - apply rej_foreign.
    + replace (arena_head (w_state one_block)) with A1 by (vm_compute; reflexivity).
      apply chain_cons; [discriminate|].
      replace (rd (w_mem one_block) (arena_next A1) 8) with NULL by (vm_compute; reflexivity).
      apply chain_nil.
    + constructor; [vm_compute; reflexivity | constructor].
    + constructor; [|constructor].
      unfold in_usable_range.
      replace (wrap (A1 + rd (w_mem one_block) (arena_allocated A1) 8))
        with (A1 + 4096000) by (vm_compute; reflexivity).
      vm_compute. intros [_ H]. discriminate.
  - simpl. lia.
Defined.

(** ** The release decision *)

Lemma free_reaches_release fuel ptr w a w1 :
  initialized (w_state w) <> 0 ->
  TAlloc_find_arena fuel ptr w = Ok a w ->
  a <> NULL ->
  load32 (header_magic (wrap (ptr - sizeof_header))) w = Ok TALLOC_MAGIC w ->
  free_insert fuel a (wrap (ptr - sizeof_header)) w = Ok tt w1 ->
  TAlloc_free fuel ptr w = release_if_unused a w1.
Proof.
  intros Hi Hfind Ha Hmagic Hins. unfold TAlloc_free.
  erewrite bind_ok by reflexivity.
  destruct (initialized (w_state w) =? 0) eqn:E; [apply Z.eqb_eq in E; contradiction|].
  erewrite bind_ok by exact Hfind.
  destruct (a =? NULL) eqn:E1; [apply Z.eqb_eq in E1; contradiction|].
  erewrite bind_ok by exact Hmagic.
  rewrite Z.eqb_refl. simpl.
  erewrite bind_ok by exact Hins. reflexivity.
Qed.

Lemma release_not_eligible w a :
  arena_mapped w a -> ~ eligible w a -> release_if_unused a w = Ok tt w.
Proof.
  intros Hm He. unfold release_if_unused.
  erewrite bind_ok by reflexivity.
  destruct (a =? arena_head (w_state w)) eqn:E; [reflexivity|].
  apply Z.eqb_neq in E.
  erewrite bind_ok by (apply (load64_arena_field w a _ Hm); arena_field).
  erewrite bind_ok by (apply (load64_arena_field w a _ Hm); arena_field).
  destruct (_ =? _) eqn:E2; [|reflexivity].
  apply Z.eqb_eq in E2. exfalso. apply He. split; assumption.
Qed.

Lemma release_eligible w a :
  arena_mapped w a -> eligible w a ->
  release_if_unused a w = TAlloc_free_arena a w.
Proof.
  intros Hm [Hh He]. unfold release_if_unused.
  erewrite bind_ok by reflexivity.
  destruct (a =? arena_head (w_state w)) eqn:E; [apply Z.eqb_eq in E; contradiction|].
  erewrite bind_ok by (apply (load64_arena_field w a _ Hm); arena_field).
  erewrite bind_ok by (apply (load64_arena_field w a _ Hm); arena_field).
  rewrite He, Z.eqb_refl. reflexivity.
Qed.

Lemma free_arena_unmap_fails w a :
  arena_mapped w a -> unmap_fails w a ->
  exists o, TAlloc_free_arena a w = Ok tt (set_os w o) /\
            os_maps o = os_maps (w_os w) /\
            os_log o = Munmap a (rd (w_mem w) (arena_allocated a) 8) (-1) :: os_log (w_os w).
Proof.
  intros Hm Hf. unfold TAlloc_free_arena.
  erewrite bind_ok by (apply (load64_arena_field w a _ Hm); arena_field).
  erewrite bind_ok by (apply (load64_arena_field w a _ Hm); arena_field).
  erewrite bind_ok by (apply (load64_arena_field w a _ Hm); arena_field).
  unfold unmap_fails in Hf. unfold bind, munmap.
  destruct (os_munmap_script (w_os w)) as [|[|] rest].
  - eexists; split; [reflexivity|]. split; reflexivity.
  - rewrite Hf. eexists; split; [reflexivity|]. split; reflexivity.
  - eexists; split; [reflexivity|]. split; reflexivity.
Qed.

Lemma free_arena_unmap_succeeds w a w2 :
  arena_mapped w a -> unmap_succeeds w a ->
  TAlloc_free_arena a w = Ok tt w2 ->
  os_maps (w_os w2)
  = filter (fun r => negb (same_region a (rd (w_mem w) (arena_allocated a) 8) r))
      (os_maps (w_os w)) /\
  os_log (w_os w2) = Munmap a (rd (w_mem w) (arena_allocated a) 8) 0 :: os_log (w_os w) /\
  w_state w2 = w_state w.
Proof.
  intros Hm [rest [Hs Hex]]. unfold TAlloc_free_arena.
  erewrite bind_ok by (apply (load64_arena_field w a _ Hm); arena_field).
  erewrite bind_ok by (apply (load64_arena_field w a _ Hm); arena_field).
  erewrite bind_ok by (apply (load64_arena_field w a _ Hm); arena_field).
  unfold bind at 1. unfold munmap. rewrite Hs, Hex.
  rewrite Z.eqb_refl.
  unfold bind, store64, store; simpl.
  destruct (is_mapped _ _ _); [|discriminate].
  destruct (rd (w_mem w) (arena_next a) 8 =? NULL).
  - intros H; inversion H; subst; simpl. auto.
  - destruct (is_mapped _ _ _); [|discriminate].
    intros H; inversion H; subst; simpl. auto.
Qed.

Lemma free_arena_unmap_done w a :
  arena_mapped w a -> unmap_succeeds w a -> links_mapped w a ->
  exists o, TAlloc_free_arena a w = Ok tt (mk_world (unlinked (w_mem w) a) o (w_state w)) /\
            os_maps o = maps_without w a /\
            os_log o = Munmap a (rd (w_mem w) (arena_allocated a) 8) 0 :: os_log (w_os w).
Proof.
  intros Hm [rest [Hs Hex]] [Hp Hn]. unfold TAlloc_free_arena.
  erewrite bind_ok by (apply (load64_arena_field w a _ Hm); arena_field).
  erewrite bind_ok by (apply (load64_arena_field w a _ Hm); arena_field).
  erewrite bind_ok by (apply (load64_arena_field w a _ Hm); arena_field).
  unfold bind at 1. unfold munmap. rewrite Hs, Hex.
  rewrite Z.eqb_refl.
  unfold maps_without in Hp, Hn. unfold unlinked.
  unfold bind, store64, store; simpl.
  rewrite Hp.
  destruct (rd (w_mem w) (arena_next a) 8 =? NULL) eqn:E.
  - eexists; split; [reflexivity|]. split; reflexivity.
  - apply Z.eqb_neq in E. cbn [os_maps w_os set_mem set_os w_mem w_state].
    rewrite (Hn E).
    eexists; split; [reflexivity|]. split; reflexivity.
Qed.

Lemma free_arena_unmap_faults w a :
  arena_mapped w a -> unmap_succeeds w a -> ~ links_mapped w a ->
  TAlloc_free_arena a w = Crash.
Proof.
  intros Hm [rest [Hs Hex]] Hno. unfold TAlloc_free_arena.
  erewrite bind_ok by (apply (load64_arena_field w a _ Hm); arena_field).
  erewrite bind_ok by (apply (load64_arena_field w a _ Hm); arena_field).
  erewrite bind_ok by (apply (load64_arena_field w a _ Hm); arena_field).
  unfold bind at 1. unfold munmap. rewrite Hs, Hex.
  rewrite Z.eqb_refl.
  unfold links_mapped, maps_without in Hno.
  unfold bind, store64, store; simpl.
  destruct (is_mapped _ (arena_next _) _) eqn:Ep; [|reflexivity].
  destruct (rd (w_mem w) (arena_next a) 8 =? NULL) eqn:E.
  - exfalso. apply Hno. split; [reflexivity|].
    apply Z.eqb_eq in E. intros Hx. contradiction.
  - destruct (is_mapped _ (arena_prev _) _) eqn:En; [|reflexivity].
    exfalso. apply Hno. split; [reflexivity|]. intros _. reflexivity.
Qed.

(** C9.  Once the insertion and its coalescing are done, the arena is
    handed to the provider exactly when it is not the head arena and its
    mapped size is its largest free chunk plus the overhead; an unmap that
    fails leaves memory, the allocator state and the mappings as they were.
    An unmap that succeeds takes the arena's mapping away, and the call then
    returns with the arena taken out of the arena list: the next link of its
    predecessor and the prev link of its successor, if it has one, are
    rewritten, and nothing else, the allocator state included.  (Those two
    writes go to the neighbours; were one of them outside every remaining
    mapping, the write would fault.) *)
Theorem release_decision fuel ptr w a w1 :
  initialized (w_state w) <> 0 ->
  TAlloc_find_arena fuel ptr w = Ok a w ->
  a <> NULL ->
  load32 (header_magic (wrap (ptr - sizeof_header))) w = Ok TALLOC_MAGIC w ->
  free_insert fuel a (wrap (ptr - sizeof_header)) w = Ok tt w1 ->
  arena_mapped w1 a ->
  (~ eligible w1 a -> TAlloc_free fuel ptr w = Ok tt w1) /\
  (eligible w1 a -> unmap_fails w1 a ->
   exists o, TAlloc_free fuel ptr w = Ok tt (set_os w1 o) /\
             os_maps o = os_maps (w_os w1) /\
             os_log o = Munmap a (rd (w_mem w1) (arena_allocated a) 8) (-1)
                          :: os_log (w_os w1)) /\
  (eligible w1 a -> unmap_succeeds w1 a -> links_mapped w1 a ->
   exists o,
     TAlloc_free fuel ptr w
     = Ok tt (mk_world (unlinked (w_mem w1) a) o (w_state w1)) /\
     os_maps o = maps_without w1 a /\
     os_log o = Munmap a (rd (w_mem w1) (arena_allocated a) 8) 0
                  :: os_log (w_os w1)) /\
  (eligible w1 a -> unmap_succeeds w1 a -> ~ links_mapped w1 a ->
   TAlloc_free fuel ptr w = Crash).
Proof.
  intros Hi Hfind Ha Hmagic Hins Hm.
  rewrite (free_reaches_release fuel ptr w a w1 Hi Hfind Ha Hmagic Hins).
  split; [|split; [|split]].
  - intros He. apply release_not_eligible; assumption.
  - intros He Hf. rewrite (release_eligible w1 a Hm He).
    apply free_arena_unmap_fails; assumption.
  - intros He Hs Hl. rewrite (release_eligible w1 a Hm He).
    apply free_arena_unmap_done; assumption.
  - intros He Hs Hl. rewrite (release_eligible w1 a Hm He).
    apply free_arena_unmap_faults; assumption.
Qed.

Lemma find_arena_pure fuel ptr w a w' :
  TAlloc_find_arena fuel ptr w = Ok a w' -> w' = w.
Proof.
  unfold TAlloc_find_arena, bind, get_state.
  generalize (arena_head (w_state w)). revert w'.
  induction fuel as [|k IH]; intros w' h; simpl; [discriminate|].
  destruct (h =? NULL); [intros H; inversion H; reflexivity|].
  unfold TAlloc_ptr_in_arena, bind, load64, load.
  destruct (wrap (h + sizeof_arena) <=? ptr).
  - destruct (is_mapped _ (arena_allocated h) _); [|discriminate]. unfold ret.
    destruct (ptr <? _); [intros H; inversion H; reflexivity|].
    destruct (is_mapped _ _ _); [|discriminate]. apply IH.
  - unfold ret. destruct (is_mapped _ _ _); [|discriminate]. apply IH.
Qed.

Lemma release_decision_witness :
  (exists o, TAlloc_free 64 (A2 + 56) refused_before = Ok tt (set_os refused_inserted o) /\
             os_maps o = os_maps (w_os refused_inserted) /\
             os_log o = Munmap A2 (rd (w_mem refused_inserted) (arena_allocated A2) 8) (-1)
                          :: os_log (w_os refused_inserted)) /\
  (rd (w_mem released_inserted) (arena_prev A2) 8 = A1 /\
   rd (w_mem released_inserted) (arena_next A2) 8 = NULL /\
   rd (w_mem released_inserted) (arena_next A1) 8 = A2 /\
   rd (w_mem released_inserted) (arena_allocated A2) 8 = 5001216 /\
   os_maps (w_os released_inserted) = [(A2, 5001216); (A1, 4096000)] /\
   maps_without released_inserted A2 = [(A1, 4096000)] /\
   rd (unlinked (w_mem released_inserted) A2) (arena_next A1) 8 = NULL /\
   exists o,
     TAlloc_free 64 (A2 + 56) released_before
     = Ok tt (mk_world (unlinked (w_mem released_inserted) A2) o
                (w_state released_inserted)) /\
     os_maps o = maps_without released_inserted A2 /\
     os_log o = Munmap A2 (rd (w_mem released_inserted) (arena_allocated A2) 8) 0
                  :: os_log (w_os released_inserted)).
Proof.
  split.
  - assert (Hfind : TAlloc_find_arena 64 (A2 + 56) refused_before = Ok A2 refused_before).
    { pose proof (ok_projections (TAlloc_find_arena 64 (A2 + 56) refused_before) 0 stubborn
                    ltac:(vm_compute; reflexivity)) as H.
      pose proof (find_arena_pure _ _ _ _ _ H) as Hw. rewrite Hw in H.
      replace (value_of _ _) with A2 in H by (vm_compute; reflexivity).
      exact H. }
    refine (proj1 (proj2 (release_decision 64 (A2 + 56) refused_before A2 refused_inserted
                            _ Hfind _ _ _ _)) _ _).
    + vm_compute. discriminate.
    + discriminate.
    + unfold load32. rewrite load_mapped by (vm_compute; reflexivity).
      apply f_equal2; [vm_compute; reflexivity | reflexivity].
    + replace (wrap (A2 + 56 - sizeof_header)) with (A2 + 40) by (vm_compute; reflexivity).
      pose proof (ok_projections (free_insert 64 A2 (A2 + 40) refused_before) tt stubborn
                    ltac:(vm_compute; reflexivity)) as H.
      destruct (value_of _ _). exact H.
    + vm_compute. reflexivity.
    + split; [vm_compute; discriminate | vm_compute; reflexivity].
    + vm_compute. exact I.
  - split; [vm_compute; reflexivity|]. split; [vm_compute; reflexivity|].
    split; [vm_compute; reflexivity|]. split; [vm_compute; reflexivity|].
    split; [vm_compute; reflexivity|]. split; [vm_compute; reflexivity|].
    split; [vm_compute; reflexivity|].
    assert (Hfind : TAlloc_find_arena 64 (A2 + 56) released_before = Ok A2 released_before).
    { pose proof (ok_projections (TAlloc_find_arena 64 (A2 + 56) released_before) 0
                    three_maps ltac:(vm_compute; reflexivity)) as H.
      pose proof (find_arena_pure _ _ _ _ _ H) as Hw. rewrite Hw in H.
      replace (value_of _ _) with A2 in H by (vm_compute; reflexivity).
      exact H. }
    refine (proj1 (proj2 (proj2 (release_decision 64 (A2 + 56) released_before A2
                                   released_inserted _ Hfind _ _ _ _))) _ _ _).
    + vm_compute. discriminate.
    + discriminate.
    + unfold load32. rewrite load_mapped by (vm_compute; reflexivity).
      apply f_equal2; [vm_compute; reflexivity | reflexivity].
    + replace (wrap (A2 + 56 - sizeof_header)) with (A2 + 40) by (vm_compute; reflexivity).
      pose proof (ok_projections (free_insert 64 A2 (A2 + 40) released_before) tt three_maps
                    ltac:(vm_compute; reflexivity)) as H.
      destruct (value_of _ _). exact H.
    + vm_compute. reflexivity.
    + split; [vm_compute; discriminate | vm_compute; reflexivity].
    + exists [true]. split; vm_compute; reflexivity.
    + split; [vm_compute; reflexivity|].
      intros Hx. exfalso. apply Hx. vm_compute. reflexivity.
Defined.

(** ** The round trip across an arena release *)

(** C7, as stated, fails: a block that had an arena of its own takes the
    arena with it when released, and the repeated request depends on a new
    mapping (refused here). *)
Lemma round_trip_fails_across_release :
  ~ (forall fuel w n p w1 w2,
        0 < n ->
        TAlloc_malloc fuel n w = Ok p w1 ->
        p <> NULL ->
        TAlloc_free fuel p w1 = Ok tt w2 ->
        exists w3, TAlloc_malloc fuel n w2 = Ok p w3).
Proof.
  intros H.
  pose (w := fresh [Some A1; Some A2; None] [true]).
  pose (o1 := TAlloc_malloc 64 5000000 w).
  pose (o2 := TAlloc_free 64 (A2 + 56) (world_of o1 w)).
  pose (o3 := TAlloc_malloc 64 5000000 (world_of o2 w)).
  assert (H1 : o1 = Ok (A2 + 56) (world_of o1 w)).
  { rewrite (ok_projections o1 0 w) at 1 by (vm_compute; reflexivity).
    apply f_equal2; [vm_compute; reflexivity | reflexivity]. }
  assert (H2 : o2 = Ok tt (world_of o2 w)).
  { rewrite (ok_projections o2 tt w) at 1 by (vm_compute; reflexivity).
    destruct (value_of o2 tt). reflexivity. }
  destruct (H 64%nat w 5000000 (A2 + 56) (world_of o1 w) (world_of o2 w)
              ltac:(lia) H1 ltac:(vm_compute; discriminate) H2) as [w3 H3].
  assert (H4 : value_of o3 1 = 0) by (vm_compute; reflexivity).
  unfold o3 in H4. rewrite H3 in H4. vm_compute in H4. discriminate.
Qed.

(** ** Memory *)

Lemma two64 : 2 ^ 64 = 18446744073709551616.
Proof. reflexivity. Qed.

Lemma wrap_small x : 0 <= x < 2 ^ 64 -> wrap x = x.
Proof. intros H. unfold wrap. apply Z.mod_small. exact H. Qed.

Lemma wrap_range x : 0 <= wrap x < 2 ^ 64.
Proof. unfold wrap. apply Z.mod_pos_bound. rewrite two64. lia. Qed.

Lemma rd_ext m m' a n :
  (forall i, 0 <= i < Z.of_nat n -> m' (a + i) = m (a + i)) ->
  rd m' a n = rd m a n.
Proof.
  revert a. induction n as [|k IH]; intros a H; [reflexivity|].
  unfold rd; fold rd.
  rewrite <- (Z.add_0_r a) at 1 3. rewrite (H 0) by lia.
  f_equal. f_equal. apply IH. intros i Hi.
  replace (a + 1 + i) with (a + (1 + i)) by lia. apply H. lia.
Qed.

Lemma rd_range m a n : 0 <= rd m a n < 256 ^ Z.of_nat n.
Proof.
  revert a. induction n as [|k IH]; intros a.
  - simpl. unfold rd. lia.
  - unfold rd; fold rd. specialize (IH (a + 1)).
    rewrite Nat2Z.inj_succ, Z.pow_succ_r by lia.
    pose proof (Z.mod_pos_bound (m a) 256 ltac:(lia)). nia.
Qed.

Lemma rd8_range m a : 0 <= rd m a 8 < 2 ^ 64.
Proof. exact (rd_range m a 8). Qed.

Lemma rd4_range m a : 0 <= rd m a 4 < 2 ^ 32.
Proof. exact (rd_range m a 4). Qed.

Lemma rd_bytes m a n : forall v,
  (forall i, 0 <= i < Z.of_nat n -> m (a + i) mod 256 = (v / 256 ^ i) mod 256) ->
  rd m a n = v mod 256 ^ Z.of_nat n.
Proof.
  revert a. induction n as [|k IH]; intros a v H.
  - simpl. unfold rd. now rewrite Z.mod_1_r.
  - unfold rd; fold rd.
    rewrite (IH (a + 1) (v / 256)).
    + specialize (H 0 ltac:(lia)). rewrite Z.add_0_r in H. rewrite H.
      simpl (256 ^ 0). rewrite Z.div_1_r.
      rewrite Nat2Z.inj_succ, Z.pow_succ_r by lia.
      rewrite Z.rem_mul_r; [reflexivity | lia | apply Z.pow_pos_nonneg; lia].
    + intros i Hi. replace (a + 1 + i) with (a + (1 + i)) by lia.
      rewrite H by lia.
      rewrite Z.div_div by (try lia; apply Z.pow_pos_nonneg; lia).
      rewrite <- Z.pow_succ_r by lia. do 2 f_equal. f_equal. lia.
Qed.

Lemma wr_in m a n v b :
  a <= b < a + Z.of_nat n -> wr m a n v b = (v / 256 ^ (b - a)) mod 256.
Proof.
  intros H. unfold wr.
  destruct (a <=? b) eqn:E1; [|apply Z.leb_gt in E1; lia].
  destruct (b <? a + Z.of_nat n) eqn:E2; [|apply Z.ltb_ge in E2; lia].
  reflexivity.
Qed.

Lemma wr_out m a n v b :
  b < a \/ a + Z.of_nat n <= b -> wr m a n v b = m b.
Proof.
  intros H. unfold wr.
  destruct (a <=? b) eqn:E1; [|reflexivity].
  destruct (b <? a + Z.of_nat n) eqn:E2; [|reflexivity].
  apply Z.leb_le in E1. apply Z.ltb_lt in E2. lia.
Qed.

Lemma rd_wr_same m a n v : rd (wr m a n v) a n = v mod 256 ^ Z.of_nat n.
Proof.
  apply rd_bytes. intros i Hi. rewrite wr_in by lia.
  replace (a + i - a) with i by lia.
  apply Z.mod_mod. lia.
Qed.

Lemma rd_wr_other m a n v b k :
  b + Z.of_nat k <= a \/ a + Z.of_nat n <= b ->
  rd (wr m a n v) b k = rd m b k.
Proof.
  intros H. apply rd_ext. intros i Hi. apply wr_out. lia.
Qed.

Lemma rd8_wr8_same m a v : 0 <= v < 2 ^ 64 -> rd (wr m a 8 v) a 8 = v.
Proof. intros H. rewrite rd_wr_same. apply Z.mod_small. exact H. Qed.

Lemma rd4_wr4_same m a v : 0 <= v < 2 ^ 32 -> rd (wr m a 4 v) a 4 = v.
Proof. intros H. rewrite rd_wr_same. apply Z.mod_small. exact H. Qed.

Lemma rd_same_outside lo hi m m' b k :
  same_outside lo hi m m' ->
  b + Z.of_nat k <= lo \/ hi <= b ->
  rd m' b k = rd m b k.
Proof.
  intros H Hb. apply rd_ext. intros i Hi. apply H. lia.
Qed.

Lemma same_outside_refl lo hi m : same_outside lo hi m m.
Proof. intros x _. reflexivity. Qed.

Lemma same_outside_trans lo hi m1 m2 m3 :
  same_outside lo hi m1 m2 -> same_outside lo hi m2 m3 -> same_outside lo hi m1 m3.
Proof. intros H1 H2 x Hx. rewrite H2, H1 by exact Hx. reflexivity. Qed.

Lemma same_outside_wr lo hi m a n v :
  lo <= a -> a + Z.of_nat n <= hi -> same_outside lo hi m (wr m a n v).
Proof. intros H1 H2 x Hx. apply wr_out. lia. Qed.

Lemma same_outside_weaken lo hi lo' hi' m m' :
  same_outside lo hi m m' -> lo' <= lo -> hi <= hi' -> same_outside lo' hi' m m'.
Proof. intros H H1 H2 x Hx. apply H. lia. Qed.

(** ** Mapped accesses inside a mapping *)

Lemma is_mapped_in maps a len x k :
  In (a, len) maps -> a <= x -> x + k <= a + len -> is_mapped maps x k = true.
Proof.
  intros Hin H1 H2. unfold is_mapped. apply existsb_exists.
  exists (a, len). split; [assumption|].
  unfold in_region. simpl. apply andb_true_iff. split; apply Z.leb_le; lia.
Qed.

Lemma load64_in w a len x :
  In (a, len) (os_maps (w_os w)) -> a <= x -> x + 8 <= a + len ->
  load64 x w = Ok (rd (w_mem w) x 8) w.
Proof.
  intros Hin H1 H2. apply load_mapped. eapply is_mapped_in; eauto.
Qed.

Lemma store64_in w a len x v :
  In (a, len) (os_maps (w_os w)) -> a <= x -> x + 8 <= a + len ->
  store64 x v w = Ok tt (set_mem w (wr (w_mem w) x 8 v)).
Proof.
  intros Hin H1 H2. unfold store64, store.
  erewrite is_mapped_in; eauto.
Qed.

Lemma store32_in w a len x v :
  In (a, len) (os_maps (w_os w)) -> a <= x -> x + 4 <= a + len ->
  store32 x v w = Ok tt (set_mem w (wr (w_mem w) x 4 v)).
Proof.
  intros Hin H1 H2. unfold store32, store.
  erewrite is_mapped_in; eauto.
Qed.

(** ** Runs *)

Lemma res_ok {A} fuel N (o : outcome A) r w' : o = Ok r w' -> res fuel N o r w'.
Proof. intros H. left. exact H. Qed.

Lemma res_bind {A B} fuel N1 N2 (m : M A) (f : A -> M B) w a w1 b w2 :
  res fuel N1 (m w) a w1 ->
  res fuel N2 (f a w1) b w2 ->
  res fuel (Nat.max N1 N2) (bind m f w) b w2.
Proof.
  intros [H1 | [H1 Hf]] H2; unfold bind; rewrite H1.
  - destruct H2 as [H2 | [H2 Hf]]; [left; exact H2 | right; split; [exact H2 | lia]].
  - right. split; [reflexivity | lia].
Qed.

Lemma res_weaken {A} fuel N N' (o : outcome A) r w' :
  res fuel N o r w' -> (N <= N')%nat -> res fuel N' o r w'.
Proof. intros [H | [H Hf]] HN; [left; exact H | right; split; [exact H | lia]]. Qed.

Lemma res_inv {A} fuel N (o : outcome A) r w' r' w'' :
  res fuel N o r w' -> o = Ok r' w'' -> r' = r /\ w'' = w'.
Proof.
  intros [H | [H _]] H'; rewrite H in H'; [inversion H'; auto | discriminate].
Qed.

Lemma res_total {A} fuel N (o : outcome A) r w' :
  res fuel N o r w' -> (N <= fuel)%nat -> o = Ok r w'.
Proof. intros [H | [_ Hf]] HN; [exact H | lia]. Qed.

Lemma res_bind_same {A B} fuel N (m : M A) (f : A -> M B) w a w1 b w2 :
  res fuel N (m w) a w1 ->
  res fuel N (f a w1) b w2 ->
  res fuel N (bind m f w) b w2.
Proof.
  intros H1 H2. eapply res_weaken; [eapply res_bind; eassumption | lia].
Qed.

(** ** Chains *)

Lemma free_chain_cons m c s nx l :
  c <> NULL -> rd m (chunk_size c) 8 = s -> rd m (chunk_next c) 8 = nx ->
  free_chain m nx l -> free_chain m c ((c, s) :: l).
Proof. intros Hc <- <- H. apply free_cons; assumption. Qed.

Lemma free_chain_head m c x l :
  free_chain m c (x :: l) ->
  c <> NULL /\ fst x = c /\ snd x = rd m (chunk_size c) 8 /\
  free_chain m (rd m (chunk_next c) 8) l.
Proof. intros H. inversion H; subst. simpl. auto. Qed.

Lemma free_chain_nil m c : free_chain m c [] -> c = NULL.
Proof. intros H. inversion H. reflexivity. Qed.

Lemma free_chain_frame m m' l : forall c,
  free_chain m c l ->
  Forall (fun x => rd m' (chunk_size (fst x)) 8 = rd m (chunk_size (fst x)) 8 /\
                   rd m' (chunk_next (fst x)) 8 = rd m (chunk_next (fst x)) 8) l ->
  free_chain m' c l.
Proof.
  induction l as [|x l IH]; intros c Hc Hf.
  - apply free_chain_nil in Hc. subst. apply free_nil.
  - apply free_chain_head in Hc as [Hnz [Hx [Hs Hc]]].
    apply Forall_cons_iff in Hf as [[H1 H2] Hf]. rewrite Hx in H1, H2.
    destruct x as [xa xs]. simpl in *. subst xa xs.
    rewrite <- H1. apply free_cons; [assumption|]. rewrite H2. apply IH; assumption.
Qed.

Lemma free_chain_unique m l1 : forall c l2,
  free_chain m c l1 -> free_chain m c l2 -> l1 = l2.
Proof.
  induction l1 as [|x l1 IH]; intros c l2 H1 H2.
  - apply free_chain_nil in H1. subst. inversion H2; [reflexivity | congruence].
  - apply free_chain_head in H1 as [Hnz [Hx [Hs H1]]].
    inversion H2; subst; [congruence|].
    destruct x as [xa xs]. simpl in *. subst. f_equal. eapply IH; eassumption.
Qed.

Lemma free_chain_app m l1 l2 : forall c,
  free_chain m c (l1 ++ l2) ->
  exists c', free_chain m c' l2 /\
             (l1 = [] -> c' = c) /\
             (forall l2', free_chain m c' l2' -> free_chain m c (l1 ++ l2')).
Proof.
  induction l1 as [|x l1 IH]; intros c H.
  - exists c. simpl. auto.
  - simpl in H. apply free_chain_head in H as [Hnz [Hx [Hs H]]].
    destruct (IH _ H) as [c' [H1 [_ H2]]].
    exists c'. split; [assumption|]. split; [discriminate|].
    intros l2' Hl2'. simpl. destruct x as [xa xs]. simpl in *. subst.
    apply free_cons; [assumption|]. apply H2. assumption.
Qed.

Lemma arena_chain_unique m l1 : forall a l2,
  arena_chain m a l1 -> arena_chain m a l2 -> l1 = l2.
Proof.
  induction l1 as [|x l1 IH]; intros a l2 H1 H2.
  - inversion H1; subst. inversion H2; [reflexivity | congruence].
  - inversion H1; subst. inversion H2; subst; [congruence|].
    f_equal. eapply IH; eassumption.
Qed.

Lemma arena_chain_frame m m' l : forall a,
  arena_chain m a l ->
  Forall (fun x => rd m' (arena_next x) 8 = rd m (arena_next x) 8) l ->
  arena_chain m' a l.
Proof.
  induction l as [|x l IH]; intros a Hc Hf; inversion Hc; subst.
  - apply chain_nil.
  - apply Forall_cons_iff in Hf as [H1 Hf].
    apply chain_cons; [assumption|]. rewrite H1. apply IH; assumption.
Qed.

Lemma prev_linked_frame m m' l : forall p,
  prev_linked m p l ->
  Forall (fun x => rd m' (arena_prev x) 8 = rd m (arena_prev x) 8) l ->
  prev_linked m' p l.
Proof.
  induction l as [|x l IH]; intros p Hp Hf; [exact I|].
  destruct Hp as [H1 H2]. apply Forall_cons_iff in Hf as [H3 Hf].
  split; [congruence | apply IH; assumption].
Qed.

(** ** Lists of chunks *)

Lemma maxsize_nonneg l : 0 <= maxsize l.
Proof. induction l as [|x l IH]; simpl; lia. Qed.

Lemma maxsize_ge l x : In x l -> snd x <= maxsize l.
Proof.
  induction l as [|y l IH]; simpl; [contradiction|].
  intros [-> | H]; [lia | specialize (IH H); lia].
Qed.

Lemma maxsize_app l1 l2 : maxsize (l1 ++ l2) = Z.max (maxsize l1) (maxsize l2).
Proof. induction l1 as [|x l1 IH]; simpl; [pose proof (maxsize_nonneg l2); lia | lia]. Qed.

Lemma maxsize_attained l : l <> [] -> Forall (fun x => 0 < snd x) l ->
  exists x, In x l /\ snd x = maxsize l.
Proof.
  induction l as [|y l IH]; [contradiction|]. intros _ Hf.
  apply Forall_cons_iff in Hf as [Hy Hf].
  destruct l as [|z l].
  - exists y. simpl. split; [auto | lia].
  - destruct (IH ltac:(discriminate) Hf) as [x [Hin Hx]].
    destruct (Z_le_gt_dec (snd y) (maxsize (z :: l))).
    + exists x. split; [right; assumption|]. change (maxsize (y :: z :: l))
        with (Z.max (snd y) (maxsize (z :: l))). lia.
    + exists y. split; [left; reflexivity|]. change (maxsize (y :: z :: l))
        with (Z.max (snd y) (maxsize (z :: l))). lia.
Qed.

Lemma spaced_weaken g lo lo' hi l : spaced g lo hi l -> lo' <= lo -> spaced g lo' hi l.
Proof. destruct l as [|x l]; simpl; [auto|]. intros [H1 H2] H. split; [lia | assumption]. Qed.

Lemma spaced_rebase g lo lo' hi y l :
  spaced g lo hi (y :: l) -> lo' <= fst y -> spaced g lo' hi (y :: l).
Proof. simpl. intros [H1 H2] H. split; [lia | assumption]. Qed.

Lemma spaced_widen g lo hi hi' l : spaced g lo hi l -> hi <= hi' -> spaced g lo hi' l.
Proof.
  revert lo. induction l as [|x l IH]; simpl; [auto|].
  intros lo [H1 [H2 [H3 H4]]] H. repeat split; try lia. apply IH; assumption.
Qed.

Lemma spaced_relax g g' lo hi l : spaced g lo hi l -> g' <= g -> spaced g' lo hi l.
Proof.
  revert lo. induction l as [|x l IH]; simpl; [auto|].
  intros lo [H1 [H2 [H3 H4]]] H. repeat split; try lia.
  apply IH; [|assumption]. eapply spaced_weaken; [exact H4 | lia].
Qed.

Lemma spaced_in g lo hi l : 0 <= g -> spaced g lo hi l ->
  Forall (fun x => lo <= fst x /\ 0 < snd x /\ chunk_end x <= hi) l.
Proof.
  intros Hg. revert lo. induction l as [|x l IH]; simpl; intros lo H; [constructor|].
  destruct H as [H1 [H2 [H3 H4]]]. constructor; [auto|].
  apply IH in H4. eapply Forall_impl; [|exact H4].
  unfold chunk_end, sizeof_chunk in *. simpl. intros y Hy. lia.
Qed.

Lemma spaced_app g lo hi l1 l2 :
  spaced g lo hi (l1 ++ l2) <->
  spaced g lo hi l1 /\
  spaced g (match rev l1 with [] => lo | x :: _ => chunk_end x + g end) hi l2.
Proof.
  revert lo. induction l1 as [|x l1 IH]; intros lo; simpl.
  - tauto.
  - rewrite IH. destruct l1 as [|y l1].
    + simpl. tauto.
    + assert (Hrev : exists z r, rev (y :: l1) = z :: r).
      { destruct (rev (y :: l1)) as [|z r] eqn:E; [|eauto].
        apply (f_equal (@length _)) in E. rewrite length_rev in E. discriminate. }
      destruct Hrev as [z [r Hr]]. rewrite Hr. simpl. tauto.
Qed.

Lemma spaced_tail_lower g lo hi x l : 0 <= g ->
  spaced g lo hi (x :: l) -> Forall (fun y => chunk_end x + g <= fst y) l.
Proof.
  simpl. intros Hg [_ [_ [_ H]]]. apply spaced_in in H; [|assumption].
  eapply Forall_impl; [|exact H]. simpl. intros y Hy. lia.
Qed.

Lemma split_fit_spec size l pre h post :
  split_fit size l = Some (pre, h, post) ->
  l = pre ++ h :: post /\ Forall (fun x => snd x < size) pre /\ size <= snd h.
Proof.
  revert pre. induction l as [|x l IH]; intros pre; simpl; [discriminate|].
  destruct (snd x <? size) eqn:E.
  - destruct (split_fit size l) as [[[pre' h'] post']|]; [|discriminate].
    intros H; inversion H; subst. destruct (IH _ eq_refl) as [-> [H1 H2]].
    apply Z.ltb_lt in E. auto.
  - intros H; inversion H; subst. apply Z.ltb_ge in E. auto.
Qed.

Lemma split_fit_app size pre h post :
  Forall (fun x => snd x < size) pre -> size <= snd h ->
  split_fit size (pre ++ h :: post) = Some (pre, h, post).
Proof.
  induction pre as [|x pre IH]; intros Hf Hh; simpl.
  - destruct (snd h <? size) eqn:E; [apply Z.ltb_lt in E; lia | reflexivity].
  - apply Forall_cons_iff in Hf as [Hx Hf].
    destruct (snd x <? size) eqn:E; [|apply Z.ltb_ge in E; lia].
    rewrite IH by assumption. reflexivity.
Qed.

Lemma split_fit_none size l :
  split_fit size l = None -> Forall (fun x => snd x < size) l.
Proof.
  induction l as [|x l IH]; simpl; [constructor|].
  destruct (snd x <? size) eqn:E; [|discriminate].
  destruct (split_fit size l) as [[[pre' h'] post']|]; [discriminate|].
  intros _. apply Z.ltb_lt in E. constructor; auto.
Qed.

Lemma split_fit_exists size l :
  0 < size -> size <= maxsize l -> exists pre h post, split_fit size l = Some (pre, h, post).
Proof.
  intros H0 H. destruct (split_fit size l) as [[[pre h] post]|] eqn:E; [eauto|].
  apply split_fit_none in E. exfalso.
  assert (maxsize l < size); [|lia].
  clear H. induction l as [|x l IH]; simpl; [lia|].
  apply Forall_cons_iff in E as [Hx E]. specialize (IH E). lia.
Qed.

Lemma first_fit_app size pre h post : forall prev,
  Forall (fun x => snd x < size) pre -> size <= snd h ->
  first_fit size prev (pre ++ h :: post)
  = (match rev pre with [] => prev | x :: _ => fst x end, fst h).
Proof.
  induction pre as [|x pre IH]; intros prev Hf Hh; simpl.
  - destruct (snd h <? size) eqn:E; [apply Z.ltb_lt in E; lia | reflexivity].
  - apply Forall_cons_iff in Hf as [Hx Hf].
    destruct (snd x <? size) eqn:E; [|apply Z.ltb_ge in E; lia].
    rewrite IH by assumption.
    destruct (rev pre) as [|z r] eqn:Er; simpl; reflexivity.
Qed.

Lemma spaced_drop g lo hi l1 l2 :
  0 <= g -> spaced g lo hi (l1 ++ l2) -> spaced g lo hi l2.
Proof.
  intros Hg. revert lo. induction l1 as [|x l1 IH]; intros lo H; [exact H|].
  simpl in H. destruct H as [H1 [H2 [H3 H4]]].
  apply IH in H4. eapply spaced_weaken; [exact H4|].
  unfold chunk_end, sizeof_chunk. lia.
Qed.

Lemma remainder_spaced g lo hi size h post :
  0 <= g -> 0 < size <= snd h ->
  spaced g lo hi (h :: post) -> spaced g lo hi (remainder size h ++ post).
Proof.
  intros Hg Hs [H1 [H2 [H3 H4]]]. unfold remainder.
  destruct (sizeof_chunk <? snd h - size) eqn:E.
  - apply Z.ltb_lt in E. simpl. unfold chunk_end, sizeof_chunk in *. simpl.
    repeat split; try lia.
    eapply spaced_weaken; [exact H4 | lia].
  - simpl. eapply spaced_weaken; [exact H4|]. unfold chunk_end, sizeof_chunk. lia.
Qed.

Lemma carve_spaced g lo hi size pre h post :
  0 <= g -> 0 < size <= snd h ->
  spaced g lo hi (pre ++ h :: post) ->
  spaced g lo hi (firstn 1 pre ++ remainder size h ++ post).
Proof.
  intros Hg Hs H. destruct pre as [|c0 pre].
  - simpl. apply remainder_spaced; assumption.
  - simpl in *. destruct H as [H1 [H2 [H3 H4]]]. repeat split; try assumption.
    apply remainder_spaced; try assumption.
    eapply spaced_drop; eassumption.
Qed.

Lemma carve_keeps_max size pre h post :
  Forall (fun x => snd x < size) pre -> 0 < size <= snd h ->
  snd h < maxsize (pre ++ h :: post) ->
  maxsize (firstn 1 pre ++ remainder size h ++ post) = maxsize (pre ++ h :: post).
Proof.
  intros Hpre Hs Hlt.
  assert (Hp : maxsize pre <= size).
  { clear Hlt. induction pre as [|x pre IH]; simpl; [lia|].
    apply Forall_cons_iff in Hpre as [Hx Hpre]. specialize (IH Hpre). lia. }
  assert (Hf : maxsize (firstn 1 pre) <= maxsize pre).
  { destruct pre as [|x pre]; simpl; [lia|]. pose proof (maxsize_nonneg pre). lia. }
  assert (Hr : maxsize (remainder size h) <= snd h).
  { unfold remainder. destruct (_ <? _); simpl; unfold sizeof_chunk; lia. }
  rewrite !maxsize_app in *. simpl in *.
  pose proof (maxsize_nonneg (firstn 1 pre)).
  pose proof (maxsize_nonneg (remainder size h)). lia.
Qed.

Lemma free_chain_split m l1 x l2 : forall c,
  free_chain m c (l1 ++ x :: l2) ->
  free_chain m (fst x) (x :: l2) /\
  (forall m' l2',
      Forall (fun y => rd m' (chunk_size (fst y)) 8 = rd m (chunk_size (fst y)) 8 /\
                       rd m' (chunk_next (fst y)) 8 = rd m (chunk_next (fst y)) 8) l1 ->
      (l1 = [] -> l2' <> []) ->
      free_chain m' (fst x) l2' -> free_chain m' c (l1 ++ l2')).
Proof.
  induction l1 as [|y l1 IH]; intros c H.
  - simpl in H. pose proof H as H'. apply free_chain_head in H' as [_ [Hx _]].
    rewrite Hx. split; [exact H|]. intros m' l2' _ _ H2. exact H2.
  - simpl in H. apply free_chain_head in H as [Hnz [Hy [Hs H]]].
    destruct (IH _ H) as [H1 H2]. split; [exact H1|].
    intros m' l2' Hf Hne H3. apply Forall_cons_iff in Hf as [[F1 F2] Hf].
    destruct y as [ya ys]. simpl in *. subst ya ys.
    rewrite <- F1. apply free_cons; [assumption|]. rewrite F2.
    destruct l1 as [|z l1].
    + simpl in *. pose proof H as H'. apply free_chain_head in H' as [_ [Hx _]].
      rewrite <- Hx. exact H3.
    + apply H2; [exact Hf | discriminate | exact H3].
Qed.

Lemma merge_right_max x l :
  0 <= snd x -> Forall (fun y => 0 < snd y) l ->
  maxsize (merge_right x l) = Z.max (hd_size (merge_right x l)) (maxsize l) /\
  snd x <= hd_size (merge_right x l) /\
  (exists l', merge_right x l = (fst x, hd_size (merge_right x l)) :: l').
Proof.
  intros Hx Hl. destruct l as [|y l]; cbn [merge_right].
  - cbn [maxsize hd_size]. destruct x; cbn [fst snd]. repeat split; eauto; lia.
  - apply Forall_cons_iff in Hl as [Hy Hl].
    pose proof (maxsize_nonneg l).
    destruct (fst y =? chunk_end x); cbn [maxsize hd_size fst snd]; unfold sizeof_chunk.
    + split; [lia|]. split; [lia|]. eauto.
    + destruct x; cbn [fst snd] in *. split; [lia|]. split; [lia|]. eauto.
Qed.

Lemma spaced_lower g (x : Z * Z) l : 0 <= g -> 0 < snd x ->
  Forall (fun y => chunk_end x + g <= fst y) l -> Forall (fun y => fst x <= fst y) (x :: l).
Proof.
  intros Hg Hx H. constructor; [lia|].
  eapply Forall_impl; [|exact H]. unfold chunk_end, sizeof_chunk.
  intros y Hy. lia.
Qed.

Lemma spaced_cons g lo hi (x : Z * Z) l :
  lo <= fst x -> 0 < snd x -> chunk_end x <= hi -> spaced g (chunk_end x + g) hi l ->
  spaced g lo hi (x :: l).
Proof. intros. cbn [spaced]. auto. Qed.

Lemma spaced_before g lo hi l1 (x : Z * Z) l2 : 0 <= g ->
  spaced g lo hi (l1 ++ x :: l2) -> Forall (fun y => chunk_end y + g <= fst x) l1.
Proof.
  intros Hg. revert lo. induction l1 as [|y l1 IH]; intros lo H; [constructor|].
  cbn [app] in H. constructor.
  - apply spaced_tail_lower in H; [|assumption].
    rewrite Forall_forall in H. apply H. apply in_or_app. right. left. reflexivity.
  - destruct H as [_ [_ [_ H]]]. eapply IH. exact H.
Qed.

Lemma spaced_tighten lo lo' hi l :
  spaced 1 lo hi l -> spaced 0 lo' hi l -> spaced 1 lo' hi l.
Proof.
  destruct l as [|y l]; [auto|]. intros H1 [H2 _]. eapply spaced_rebase; eassumption.
Qed.

Lemma spaced_raise g lo lo' hi l :
  spaced g lo hi l -> Forall (fun y => lo' <= fst y) l -> spaced g lo' hi l.
Proof.
  destruct l as [|y l]; [auto|]. intros H1 H2. apply Forall_inv in H2.
  eapply spaced_rebase; eassumption.
Qed.

Lemma merge_right_fst (P : Z -> Prop) (x : Z * Z) l :
  P (fst x) -> Forall (fun y => P (fst y)) l ->
  Forall (fun y => P (fst y)) (merge_right x l).
Proof.
  intros Hx Hl. destruct l as [|y l]; cbn [merge_right]; [constructor; auto|].
  destruct (_ =? _).
  - constructor; [exact Hx|]. apply Forall_inv_tail in Hl. exact Hl.
  - constructor; assumption.
Qed.

Lemma merge_right_pos (x : Z * Z) l :
  0 < snd x -> Forall (fun y => 0 < snd y) l ->
  Forall (fun y => 0 < snd y) (merge_right x l).
Proof.
  intros Hx Hl. destruct l as [|y l]; cbn [merge_right]; [constructor; auto|].
  destruct (_ =? _).
  - pose proof (Forall_inv Hl) as Hy. cbn beta in Hy.
    constructor; [cbn [snd]; unfold sizeof_chunk; lia|].
    apply Forall_inv_tail in Hl. exact Hl.
  - constructor; assumption.
Qed.

Lemma insert_max pre (ib x : Z * Z) post :
  0 < snd ib -> 0 < snd x -> Forall (fun y => 0 < snd y) post ->
  maxsize (pre ++ merge_right ib (merge_right x post))
  = Z.max (Z.max (maxsize (pre ++ ib :: post)) (hd_size (merge_right x post)))
      (hd_size (merge_right ib (merge_right x post))).
Proof.
  intros Hib Hx Hpost.
  destruct (merge_right_max x post ltac:(lia) Hpost) as [M1 [M2 _]].
  destruct (merge_right_max ib (merge_right x post) ltac:(lia)
              (merge_right_pos x post Hx Hpost)) as [M3 [M4 _]].
  rewrite !maxsize_app. cbn [maxsize]. rewrite M3, M1.
  pose proof (maxsize_nonneg pre). pose proof (maxsize_nonneg post). lia.
Qed.

(** ** Stepping through loads and stores *)

Lemma set_mem_same w : set_mem w (w_mem w) = w.
Proof. destruct w; reflexivity. Qed.

Lemma set_mem_twice w m1 m2 : set_mem (set_mem w m1) m2 = set_mem w m2.
Proof. reflexivity. Qed.

Lemma step_load64 {B} w a len x (f : Z -> M B) :
  In (a, len) (os_maps (w_os w)) -> a <= x -> x + 8 <= a + len ->
  bind (load64 x) f w = f (rd (w_mem w) x 8) w.
Proof. intros. apply bind_ok. eapply load64_in; eauto. Qed.

Lemma step_load32 {B} w a len x (f : Z -> M B) :
  In (a, len) (os_maps (w_os w)) -> a <= x -> x + 4 <= a + len ->
  bind (load32 x) f w = f (rd (w_mem w) x 4) w.
Proof.
  intros. apply bind_ok. apply load_mapped. eapply is_mapped_in; eauto.
Qed.

Lemma step_store64 {B} w a len x v (f : unit -> M B) :
  In (a, len) (os_maps (w_os w)) -> a <= x -> x + 8 <= a + len ->
  bind (store64 x v) f w = f tt (set_mem w (wr (w_mem w) x 8 v)).
Proof. intros. apply bind_ok. eapply store64_in; eauto. Qed.

Lemma step_store32 {B} w a len x v (f : unit -> M B) :
  In (a, len) (os_maps (w_os w)) -> a <= x -> x + 4 <= a + len ->
  bind (store32 x v) f w = f tt (set_mem w (wr (w_mem w) x 4 v)).
Proof. intros. apply bind_ok. eapply store32_in; eauto. Qed.

Lemma bind_assoc {A B C} (m : M A) (f : A -> M B) (g : B -> M C) w :
  bind (bind m f) g w = bind m (fun x => bind (f x) g) w.
Proof. unfold bind. destruct (m w); reflexivity. Qed.

Lemma bind_ret {A B} (a : A) (f : A -> M B) w : bind (ret a) f w = f a w.
Proof. reflexivity. Qed.

Lemma rd8_wr8_other m a v b :
  b + 8 <= a \/ a + 8 <= b -> rd (wr m a 8 v) b 8 = rd m b 8.
Proof. intros H. apply rd_wr_other. simpl. lia. Qed.

Lemma rd8_wr4_other m a v b :
  b + 8 <= a \/ a + 4 <= b -> rd (wr m a 4 v) b 8 = rd m b 8.
Proof. intros H. apply rd_wr_other. simpl. lia. Qed.

Lemma rd4_wr8_other m a v b :
  b + 4 <= a \/ a + 8 <= b -> rd (wr m a 8 v) b 4 = rd m b 4.
Proof. intros H. apply rd_wr_other. simpl. lia. Qed.

Lemma rd8_same_outside lo hi m m' b :
  same_outside lo hi m m' -> b + 8 <= lo \/ hi <= b -> rd m' b 8 = rd m b 8.
Proof. intros H Hb. eapply rd_same_outside; [exact H | simpl; lia]. Qed.

Lemma rd4_same_outside lo hi m m' b :
  same_outside lo hi m m' -> b + 4 <= lo \/ hi <= b -> rd m' b 4 = rd m b 4.
Proof. intros H Hb. eapply rd_same_outside; [exact H | simpl; lia]. Qed.

Lemma rd4_wr4_magic m a : rd (wr m a 4 TALLOC_MAGIC) a 4 = TALLOC_MAGIC.
Proof. apply rd4_wr4_same. unfold TALLOC_MAGIC. lia. Qed.

Ltac unf :=
  unfold TALLOC_ARENA_OVERHEAD, chunk_end in *;
  unfold chunk_size, chunk_next, header_size, header_magic, arena_allocated,
    arena_max_free_space, arena_free_list, arena_next, arena_prev,
    sizeof_chunk, sizeof_header, sizeof_arena, NULL in *.

Ltac wsimp := cbn [set_mem w_mem w_os w_state fst snd] in *; rewrite ?set_mem_twice in *.

Ltac side := first [ eassumption | solve [unf; wsimp; rewrite ?two64 in *; lia] ].

Ltac ld :=
  rewrite ?bind_assoc, ?bind_ret;
  first [ erewrite step_load64 by side | erewrite step_load32 by side ]; wsimp.
Ltac st :=
  rewrite ?bind_assoc, ?bind_ret;
  first [ erewrite step_store64 by side | erewrite step_store32 by side ]; wsimp.

(** Reads through writes. *)
Ltac rdw :=
  repeat first
    [ rewrite rd8_wr8_same by side
    | rewrite rd4_wr4_magic
    | rewrite rd4_wr4_same by side
    | rewrite rd8_wr8_other by side
    | rewrite rd8_wr4_other by side
    | rewrite rd4_wr8_other by side
    | match goal with
      | H : same_outside ?lo ?hi ?m ?m' |- context [rd ?m' ?b 8] =>
          rewrite (rd8_same_outside lo hi m m' b H) by side
      | H : same_outside ?lo ?hi ?m ?m' |- context [rd ?m' ?b 4] =>
          rewrite (rd4_same_outside lo hi m m' b H) by side
      end ].

Ltac zb :=
  repeat match goal with
    | |- context [?x =? ?y] =>
        first [ rewrite (proj2 (Z.eqb_eq x y)) by side
              | rewrite (proj2 (Z.eqb_neq x y)) by side ]
    | |- context [?x <? ?y] =>
        first [ rewrite (proj2 (Z.ltb_lt x y)) by side
              | rewrite (proj2 (Z.ltb_ge x y)) by side ]
    | |- context [?x <=? ?y] =>
        first [ rewrite (proj2 (Z.leb_le x y)) by side
              | rewrite (proj2 (Z.leb_gt x y)) by side ]
    end.

Ltac wr_small :=
  repeat match goal with
    | |- context [wrap ?x] => rewrite (wrap_small x) by side
    end.

(** ** TAlloc_coalesce and TAlloc_adjust_space_for_new_chunk *)

Section InArena.

Variables (w : world) (a len : Z).
Hypothesis Hin : In (a, len) (os_maps (w_os w)).
Hypothesis Hlen : a + len < 2 ^ 64.
Hypothesis Ha : 0 < a.

Lemma coalesce_apart m c :
  a <= c -> c + 16 + rd m c 8 <= a + len ->
  rd m (c + 8) 8 <> c + rd m c 8 + 16 ->
  TAlloc_coalesce c (set_mem w m) = Ok tt (set_mem w m).
Proof.
  intros H1 H2 Hne. unfold TAlloc_coalesce.
  pose proof (rd8_range m c). pose proof (rd8_range m (c + 8)).
  ld. ld. unf. wr_small. zb. reflexivity.
Qed.

Lemma coalesce_adjacent m c :
  a <= c -> c + 16 + rd m c 8 + 16 + rd m (c + rd m c 8 + 16) 8 <= a + len ->
  rd m (c + 8) 8 = c + rd m c 8 + 16 ->
  TAlloc_coalesce c (set_mem w m)
  = Ok tt (set_mem w (wr (wr m c 8 (rd m c 8 + (16 + rd m (c + rd m c 8 + 16) 8)))
                        (c + 8) 8 (rd m (c + rd m c 8 + 16 + 8) 8))).
Proof.
  intros H1 H2 He. unfold TAlloc_coalesce.
  pose proof (rd8_range m c). pose proof (rd8_range m (c + 8)).
  pose proof (rd8_range m (c + rd m c 8 + 16)).
  ld. ld. unf. wr_small. rewrite He, Z.eqb_refl.
  ld. ld. rewrite He. ld. wr_small. st. ld. rdw. rewrite He. ld. rdw.
  erewrite store64_in by side. reflexivity.
Qed.

Lemma adjust_spec m c :
  a <= c -> c + 8 <= a + len -> 16 <= len ->
  TAlloc_adjust_space_for_new_chunk a c (set_mem w m)
  = Ok tt (set_mem w (raise_max m a (rd m c 8))).
Proof.
  intros H1 H2 H3. unfold TAlloc_adjust_space_for_new_chunk, raise_max.
  ld. ld. unf.
  destruct (rd m (a + 8) 8 <? rd m c 8).
  - ld. erewrite store64_in by side. reflexivity.
  - reflexivity.
Qed.

Lemma res_succ {A} fuel N (o : outcome A) r w' :
  res fuel N o r w' -> res (S fuel) (S N) o r w'.
Proof. intros [H | [H Hf]]; [left; exact H | right; split; [exact H | lia]]. Qed.

Lemma res_zero {A} N (r : A) w' : res 0 (S N) Timeout r w'.
Proof. right. split; [reflexivity | lia]. Qed.

Lemma first_fit_loop_spec size l : forall c prev fuel m,
  free_chain m c l ->
  Forall (fun x => a <= fst x /\ fst x + 16 <= a + len) l ->
  res fuel (S (length l)) (first_fit_loop fuel size prev c (set_mem w m))
    (first_fit size prev l) (set_mem w m).
Proof.
  induction l as [|x l IH]; intros c prev fuel m Hc Hf.
  - apply free_chain_nil in Hc. subst c.
    destruct fuel; [apply res_zero|]. apply res_ok. reflexivity.
  - apply free_chain_head in Hc as [Hnz [Hx [Hs Hc]]].
    apply Forall_cons_iff in Hf as [[Hx1 Hx2] Hf].
    destruct x as [xa xs]. simpl in Hx, Hs, Hx1, Hx2. subst xa xs.
    destruct fuel; [apply res_zero|]. simpl length. simpl first_fit.
    unfold first_fit_loop; fold first_fit_loop.
    rewrite (proj2 (Z.eqb_neq c NULL)) by assumption.
    ld. unf.
    destruct (rd m c 8 <? size).
    + ld. apply res_succ. apply IH; assumption.
    + apply res_ok. reflexivity.
Qed.

Lemma insert_after_loop_spec c rest : forall ia s fuel m,
  free_chain m ia ((ia, s) :: rest) ->
  Forall (fun x => a <= fst x /\ fst x + 16 <= a + len) ((ia, s) :: rest) ->
  res fuel (S (length rest)) (insert_after_loop fuel c ia (set_mem w m))
    (insert_point c ia rest) (set_mem w m).
Proof.
  induction rest as [|x rest IH]; intros ia s fuel m Hc Hf;
    apply free_chain_head in Hc as [Hnz [_ [Hs Hc]]];
    apply Forall_cons_iff in Hf as [[Hx1 Hx2] Hf]; simpl in Hx1, Hx2;
    (destruct fuel; [apply res_zero|]);
    unfold insert_after_loop; fold insert_after_loop.
  - apply free_chain_nil in Hc. ld. unf. rewrite Hc. apply res_ok. reflexivity.
  - pose proof Hc as Hc'. apply free_chain_head in Hc' as [Hnz' [Hx [Hs' _]]].
    ld. unf. rewrite <- Hx.
    rewrite (proj2 (Z.eqb_neq (fst x) 0)) by (rewrite Hx; assumption).
    ld. unf. rewrite <- Hx. simpl insert_point.
    destruct (fst x <? c).
    + ld. unf. rewrite <- Hx. apply res_succ.
      destruct x as [xa xs]. simpl in *. apply (IH xa xs).
      * rewrite Hx. rewrite Hx in Hc. exact Hc.
      * exact Hf.
    + apply res_ok. reflexivity.
Qed.

Lemma rescan_loop_spec rest : forall c s m,
  free_chain m c ((c, s) :: rest) ->
  Forall (fun x => a + 16 <= fst x /\ fst x + 16 <= a + len) ((c, s) :: rest) ->
  exists m',
    (forall fuel,
        res fuel (S (length rest)) (rescan_loop fuel a c (set_mem w m)) tt (set_mem w m')) /\
    rd m' (a + 8) 8 = Z.max (rd m (a + 8) 8) (maxsize rest) /\
    same_outside (a + 8) (a + 16) m m'.
Proof.
  induction rest as [|x rest IH]; intros c s m Hc Hf;
    apply free_chain_head in Hc as [Hnz [_ [Hs Hc]]];
    apply Forall_cons_iff in Hf as [[Hx1 Hx2] Hf]; simpl in Hx1, Hx2.
  - exists m. split; [|split; [|apply same_outside_refl]].
    + intros fuel. destruct fuel; [apply res_zero|]. unfold rescan_loop.
      apply free_chain_nil in Hc. ld. unf. rewrite Hc. apply res_ok. reflexivity.
    + simpl. pose proof (rd8_range m (a + 8)). lia.
  - destruct x as [xa xs].
    pose proof Hc as Hc'. apply free_chain_head in Hc' as [Hnz' [Hx [Hs' Hc']]].
    pose proof Hf as Hf'. apply Forall_cons_iff in Hf' as [[Hy1 Hy2] _].
    unf. simpl in Hx, Hs', Hy1, Hy2. rewrite <- Hx in Hs', Hc', Hc.
    pose proof (rd8_range m xa).
    set (m1 := raise_max m a (rd m xa 8)).
    assert (Hout : same_outside (a + 8) (a + 16) m m1).
    { unfold m1, raise_max. destruct (_ <? _); [|apply same_outside_refl].
      unf. apply same_outside_wr; simpl; lia. }
    assert (Hmax : rd m1 (a + 8) 8 = Z.max (rd m (a + 8) 8) (rd m xa 8)).
    { unfold m1, raise_max. unf. destruct (rd m (a + 8) 8 <? rd m xa 8) eqn:E.
      - apply Z.ltb_lt in E. rdw. lia.
      - apply Z.ltb_ge in E. lia. }
    destruct (IH xa xs m1) as [m' [Hres [Hm' Hout']]].
    { apply free_chain_frame with (m := m); [exact Hc|].
      eapply Forall_impl; [|exact Hf]. intros y [Hy3 Hy4]. unf.
      split; eapply rd8_same_outside; try exact Hout; lia. }
    { exact Hf. }
    exists m'. split; [|split].
    + intros fuel. specialize (Hres (Nat.pred fuel)).
      destruct fuel; [apply res_zero|]. simpl Nat.pred in Hres.
      unfold rescan_loop; fold rescan_loop.
      ld. unf. rewrite <- Hx.
      rewrite (proj2 (Z.eqb_neq xa 0)) by (rewrite Hx; assumption).
      ld. ld. simpl length. apply res_succ.
      destruct (rd m (a + 8) 8 <? rd m xa 8) eqn:E.
      * rewrite bind_assoc. ld. st.
        unfold m1, raise_max in Hres. unf. rewrite E in Hres. exact Hres.
      * rewrite bind_ret.
        unfold m1, raise_max in Hres. unf. rewrite E in Hres. exact Hres.
    + rewrite Hm', Hmax. simpl maxsize. rewrite <- Hs'. lia.
    + eapply same_outside_trans; eassumption.
Qed.

End InArena.

Lemma raise_max_spec m a s :
  0 <= s < 2 ^ 64 ->
  rd (raise_max m a s) (a + 8) 8 = Z.max (rd m (a + 8) 8) s /\
  same_outside (a + 8) (a + 16) m (raise_max m a s).
Proof.
  intros Hs. unfold raise_max. unf.
  destruct (rd m (a + 8) 8 <? s) eqn:E.
  - apply Z.ltb_lt in E. split; [rdw; lia | apply same_outside_wr; simpl; lia].
  - apply Z.ltb_ge in E. split; [lia | apply same_outside_refl].
Qed.

(** ** Carving a block out of an arena *)

Section Carve.

Variables (w : world) (a len : Z).
Hypothesis Hin : In (a, len) (os_maps (w_os w)).
Hypothesis Hlen : a + len < 2 ^ 64.
Hypothesis Ha : 0 < a.
Hypothesis Hlen56 : 56 < len.

Lemma chunks_in_arena g lo l :
  0 <= g -> a <= lo -> spaced g lo (a + len) l ->
  Forall (fun x => a <= fst x /\ fst x + 16 <= a + len) l.
Proof.
  intros Hg Hlo H. apply spaced_in in H; [|assumption].
  eapply Forall_impl; [|exact H]. unf. intros x Hx. lia.
Qed.

Lemma recompute_max_spec m fl :
  free_chain m (rd m (a + 16) 8) fl ->
  spaced 0 (a + 40) (a + len) fl ->
  exists m',
    (forall fuel, res fuel (S (length fl)) (recompute_max fuel a (set_mem w m)) tt (set_mem w m')) /\
    rd m' (a + 8) 8 = maxsize fl /\
    same_outside (a + 8) (a + 16) m m'.
Proof.
  intros Hc Hsp.
  pose proof (spaced_in _ _ _ _ (Z.le_refl 0) Hsp) as Hb.
  destruct fl as [|[c s] rest].
  - apply free_chain_nil in Hc.
    exists (wr m (a + 8) 8 0). split; [|split].
    + intros fuel. apply res_ok. unfold recompute_max. ld. unf. rewrite Hc. simpl.
      erewrite store64_in by side. reflexivity.
    + rdw. reflexivity.
    + apply same_outside_wr; simpl; lia.
  - pose proof Hc as Hc'. apply free_chain_head in Hc' as [Hnz [Hx [Hs Hc']]].
    simpl in Hx, Hs. unf.
    pose proof Hb as Hb'. apply Forall_cons_iff in Hb' as [[Hb1 [Hb2 Hb3]] _]. unf.
    simpl in Hb1, Hb2, Hb3.
    rewrite <- Hx in Hs, Hc', Hc.
    set (m1 := wr m (a + 8) 8 s).
    assert (Hout : same_outside (a + 8) (a + 16) m m1)
      by (apply same_outside_wr; simpl; lia).
    edestruct (rescan_loop_spec w a len) with (m := m1) (rest := rest) (c := c) (s := s)
      as [m' [Hres [Hm' Hout']]]; try eassumption.
    { apply free_chain_frame with (m := m).
      - exact Hc.
      - apply chunks_in_arena in Hsp; [|lia|lia].
        eapply Forall_impl; [|exact Hb]. intros y [Hy3 Hy4]. unf.
        split; eapply rd8_same_outside; try exact Hout; lia. }
    { eapply Forall_impl; [|exact Hb]. intros y Hy. unf. lia. }
    exists m'. split; [|split].
    + intros fuel. unfold recompute_max. ld. unf. rewrite <- Hx.
      rewrite (proj2 (Z.eqb_neq c 0)) by (rewrite Hx; exact Hnz).
      ld. unf. rewrite <- Hx. ld. st. rewrite <- Hs.
      eapply res_weaken; [apply Hres | simpl; lia].
    + rewrite Hm'. unfold m1. rdw. simpl maxsize. lia.
    + eapply same_outside_trans; eassumption.
Qed.

Lemma split_chunk_spec m H hs nx n aff :
  a + 40 <= H -> H + 16 + hs <= a + len ->
  rd m H 8 = hs -> rd m (H + 8) 8 = nx ->
  0 < n <= hs ->
  nx <> H + 16 + hs ->
  hs <= rd m (a + 8) 8 ->
  exists m2,
    split_chunk a H n (hs - n) aff (set_mem w m)
    = Ok (if 16 <? hs - n then H + 16 + n else nx, granted n (H, hs), aff) (set_mem w m2) /\
    (16 < hs - n ->
     rd m2 (H + 16 + n) 8 = hs - n - 16 /\ rd m2 (H + 16 + n + 8) 8 = nx) /\
    same_outside (H + 16) (H + 16 + hs) m m2.
Proof.
  intros H1 H2 Hs Hnx Hn Hne Hmx.
  pose proof (rd8_range m (H + 8)). pose proof (rd8_range m (a + 8)).
  unfold split_chunk, granted. unf. simpl snd.
  destruct (16 <? hs - n) eqn:E.
  - apply Z.ltb_lt in E.
    set (m2 := wr (wr m (H + 16 + n) 8 (hs - n - 16)) (H + 16 + n + 8) 8 nx).
    assert (Hsz : rd m2 (H + 16 + n) 8 = hs - n - 16) by (unfold m2; rdw; reflexivity).
    assert (Hnext : rd m2 (H + 16 + n + 8) 8 = nx) by (unfold m2; rdw; reflexivity).
    assert (Hmax : rd m2 (a + 8) 8 = rd m (a + 8) 8) by (unfold m2; rdw; reflexivity).
    assert (Hhs : rd m2 H 8 = hs) by (unfold m2; rdw; assumption).
    exists m2. split; [|split].
    + wr_small. st. ld. rdw. rewrite Hnx. st. fold m2.
      erewrite bind_ok
        by (eapply coalesce_apart; first [eassumption | rewrite ?Hsz, ?Hnext; lia]).
      erewrite bind_ok by (eapply adjust_spec; first [eassumption | lia]).
      unfold raise_max. unf. rewrite Hsz.
      rewrite (proj2 (Z.ltb_ge (rd m2 (a + 8) 8) (hs - n - 16))) by lia.
      destruct aff.
      * ld. ld. rewrite Hsz, Hhs. rewrite bind_ret.
        rewrite (proj2 (Z.ltb_lt (hs - n - 16) hs)) by lia. reflexivity.
      * rewrite bind_ret. reflexivity.
    + intros _. split; assumption.
    + unfold m2. eapply same_outside_trans; apply same_outside_wr; simpl; lia.
  - apply Z.ltb_ge in E. exists m. split; [|split].
    + ld. rewrite Hnx. wr_small. replace (n + (hs - n)) with hs by lia. reflexivity.
    + lia.
    + apply same_outside_refl.
Qed.

Lemma malloc_carve_spec m fl n pre h post :
  free_chain m (rd m (a + 16) 8) fl ->
  gapped (a + 40) (a + len) fl ->
  rd m (a + 8) 8 = maxsize fl ->
  0 < n ->
  split_fit n fl = Some (pre, h, post) ->
  exists m',
    (forall fuel,
        res fuel (S (length fl)) (malloc_carve fuel a n (set_mem w m)) (fst h + 16)
          (set_mem w m')) /\
    free_chain m' (rd m' (a + 16) 8) (carve_list n fl) /\
    rd m' (a + 8) 8 = maxsize (carve_list n fl) /\
    rd m' (fst h) 8 = granted n h /\
    rd m' (fst h + 8) 4 = TALLOC_MAGIC /\
    (forall x, ~ carve_touched a (rd m (a + 16) 8) h x -> m' x = m x).
Proof.
  intros Hc Hg Hmax Hn Hsplit.
  unfold carve_list. rewrite Hsplit.
  apply split_fit_spec in Hsplit as [Hfl [Hpre Hh]]. subst fl.
  destruct h as [H hs]. simpl fst in *. simpl snd in *.
  unfold gapped in Hg.
  pose proof (spaced_in 1 _ _ _ ltac:(lia) Hg) as Hb.
  pose proof (chunks_in_arena 1 (a + 40) _ ltac:(lia) ltac:(lia) Hg) as Hb'.
  pose proof Hb as HbH. apply Forall_app in HbH as [Hbpre HbH].
  apply Forall_cons_iff in HbH as [[HH1 [HH2 HH3]] Hbpost]. unf. simpl in HH1, HH2, HH3.
  destruct (free_chain_app _ _ _ _ Hc) as [c' [HcH [Hc'0 _]]].
  pose proof HcH as HcH'. apply free_chain_head in HcH' as [_ [HxH [HsH Hcpost]]].
  simpl in HxH, HsH. subst c'. unf.
  set (nx := rd m (H + 8) 8) in *.
  assert (Hnx : nx <> H + 16 + hs).
  { apply spaced_drop in Hg; [|lia]. apply spaced_tail_lower in Hg; [|lia].
    destruct post as [|y post].
    - apply free_chain_nil in Hcpost. unf. lia.
    - apply free_chain_head in Hcpost as [_ [Hy _]].
      apply Forall_cons_iff in Hg as [Hy' _]. unf. simpl in Hy'. lia. }
  pose proof (maxsize_ge (pre ++ (H, hs) :: post) (H, hs)
                ltac:(apply in_or_app; right; left; reflexivity)) as Hmx.
  simpl in Hmx.
  destruct (split_chunk_spec m H hs nx n (rd m (a + 8) 8 <=? hs))
    as [m2 [Hsplit [Hrem Hout2]]]; try lia; try (symmetry; assumption); try reflexivity.
  set (c0 := rd m (a + 16) 8) in *.
  set (nfc := if 16 <? hs - n then H + 16 + n else nx) in *.
  set (asp := granted n (H, hs)) in *.
  set (m3 := wr (wr m2 (H + 8) 4 TALLOC_MAGIC) H 8 asp).
  set (m5 := match pre with [] => wr m3 (a + 16) 8 nfc | _ :: _ => wr m3 (c0 + 8) 8 nfc end).
  pose proof (rd8_range m (H + 8)) as Rnx. fold nx in Rnx.
  assert (Rasp : 0 < asp <= hs).
  { unfold asp, granted. simpl. destruct (_ <? _); lia. }
  assert (Rnfc : 0 <= nfc < 2 ^ 64).
  { unfold nfc. destruct (_ <? _); lia. }
  assert (Hc0 : match pre with
                | [] => c0 = H
                | x :: _ => c0 = fst x /\ a + 40 <= c0 /\ 0 < snd x /\ c0 + 16 + snd x < H
                end).
  { destruct pre as [|[xa xs] pre']; [symmetry; auto|].
    simpl in Hc. apply free_chain_head in Hc as [_ [Hx _]]. simpl in Hx.
    split; [symmetry; exact Hx|]. simpl.
    simpl in Hg. destruct Hg as [Hg1 [Hg2 [_ Hg]]].
    apply spaced_drop in Hg; [|lia]. simpl in Hg. unf. simpl in *. fold c0 in Hx. lia. }
  assert (Hpost_lo : Forall (fun y => H + 16 + hs + 1 <= fst y) post).
  { pose proof Hg as Hg'. apply spaced_drop in Hg'; [|lia].
    apply spaced_tail_lower in Hg'; [|lia]. unf. exact Hg'. }
  assert (Hs0 : match pre with [] => True | x :: _ => rd m c0 8 = snd x end).
  { destruct pre as [|[xa xs] pre']; [exact I|].
    simpl in Hc. apply free_chain_head in Hc as [_ [Hx [Hs _]]]. simpl in *.
    unf. fold c0 in Hx. subst xa. symmetry. exact Hs. }
  assert (F4 : forall x,
             ~ (a + 16 <= x < a + 24 \/ H <= x < H + 16 + hs \/ c0 + 8 <= x < c0 + 16) ->
             m5 x = m x).
  { intros x Hx. unfold m5, m3.
    destruct pre; rewrite !wr_out by (simpl; lia); apply Hout2; lia. }
  assert (Frd8 : forall b, b + 8 <= a + 16 \/ a + 24 <= b ->
                           b + 8 <= H \/ H + 16 + hs <= b ->
                           b + 8 <= c0 + 8 \/ c0 + 16 <= b ->
                           rd m5 b 8 = rd m b 8).
  { intros b B1 B2 B3. apply rd_ext. intros i Hi. apply F4. simpl in Hi. lia. }
  assert (V1 : rd m5 (a + 16) 8 = match pre with [] => nfc | _ :: _ => c0 end).
  { unfold m5, m3. destruct pre as [|x pre'].
    - rdw. reflexivity.
    - destruct Hc0 as [Hc0 Hc0'].
      rdw. reflexivity. }
  assert (V3 : 16 < hs - n ->
               rd m5 (H + 16 + n) 8 = hs - n - 16 /\ rd m5 (H + 16 + n + 8) 8 = nx).
  { intros E. destruct (Hrem E) as [R1 R2]. unfold m5, m3. destruct pre as [|x pre'].
    - rdw. auto.
    - destruct Hc0 as [Hc0 Hc0'].
      rdw. auto. }
  assert (V4 : rd m5 H 8 = asp /\ rd m5 (H + 8) 4 = TALLOC_MAGIC).
  { unfold m5, m3. destruct pre as [|x pre'].
    - rdw. split; reflexivity.
    - destruct Hc0 as [Hc0 Hc0'].
      rdw. split; reflexivity. }
  assert (Fpost : free_chain m5 nx post).
  { apply free_chain_frame with (m := m); [exact Hcpost|].
    rewrite Forall_forall in *. intros y Hy.
    specialize (Hpost_lo y Hy). specialize (Hbpost y Hy). simpl in Hpost_lo. unf.
    assert (c0 + 16 <= fst y) by (destruct pre; lia).
    split; apply Frd8; lia. }
  assert (Frem : free_chain m5 nfc (remainder n (H, hs) ++ post)).
  { unfold remainder, nfc. simpl fst. simpl snd. unf.
    destruct (16 <? hs - n) eqn:E; [|exact Fpost].
    apply Z.ltb_lt in E. destruct (V3 E) as [R1 R2]. simpl.
    eapply free_chain_cons; unf; try eassumption. lia. }
  assert (F1 : free_chain m5 (rd m5 (a + 16) 8) (firstn 1 pre ++ remainder n (H, hs) ++ post)).
  { rewrite V1. destruct pre as [|[xa xs] pre']; [exact Frem|].
    simpl firstn. simpl app. destruct Hc0 as [Hc0 Hc0']. simpl in Hc0, Hc0', Hs0.
    rewrite <- Hc0.
    eapply free_chain_cons; [unf; lia | | | exact Frem]; unf.
    - rewrite Frd8 by lia. exact Hs0.
    - unfold m5. rdw. reflexivity. }
  assert (V5 : rd m5 (a + 8) 8 = rd m (a + 8) 8).
  { apply Frd8; destruct pre; lia. }
  assert (Hsp' : spaced 0 (a + 40) (a + len) (firstn 1 pre ++ remainder n (H, hs) ++ post)).
  { eapply spaced_relax; [apply carve_spaced; [| |exact Hg]|]; simpl; lia. }
  assert (Hprev : pre <> [] -> match rev pre with [] => 0 | x :: _ => fst x end <> 0).
  { intros Hne. destruct (rev pre) as [|z r] eqn:Er.
    - apply (f_equal (@length _)) in Er. rewrite length_rev in Er.
      destruct pre; [congruence | discriminate].
    - assert (Hz : In z pre) by (apply in_rev; rewrite Er; left; reflexivity).
      rewrite Forall_forall in Hbpre. specialize (Hbpre z Hz). lia. }
  assert (Hprefix : forall fuel r w',
             res fuel (S (length (pre ++ (H, hs) :: post)))
               (((if rd m (a + 8) 8 <=? hs then recompute_max fuel a else ret tt) ;;;
                 ret (H + 16)) (set_mem w m5)) r w' ->
             res fuel (S (length (pre ++ (H, hs) :: post)))
               (malloc_carve fuel a n (set_mem w m)) r w').
  { intros fuel r w' Hrest. unfold malloc_carve. ld. unf. fold c0.
    eapply res_bind_same.
    { eapply first_fit_loop_spec; eassumption. }
    rewrite first_fit_app by assumption. wsimp.
    rewrite (proj2 (Z.eqb_neq H 0)) by lia.
    ld. ld. ld. rewrite <- HsH. wr_small.
    rewrite ?bind_assoc. erewrite bind_ok by exact Hsplit. wsimp.
    st. st. fold m3.
    destruct pre as [|x pre'].
    - simpl rev. cbv iota. rewrite Z.eqb_refl. rewrite ?bind_assoc. st. exact Hrest.
    - destruct Hc0 as [Hc0 Hc0'].
      rewrite (proj2 (Z.eqb_neq _ 0)) by (apply Hprev; discriminate).
      rewrite ?bind_assoc. ld.
      replace (rd m3 (a + 16) 8) with c0 by (unfold m3; rdw; reflexivity).
      st. exact Hrest. }
  destruct (rd m (a + 8) 8 <=? hs) eqn:Eaff.
  - apply Z.leb_le in Eaff.
    edestruct (recompute_max_spec m5) as [m' [Hre [Hmax' Hout']]]; [exact F1 | exact Hsp' |].
    exists m'. split; [|split; [|split; [|split; [|split]]]].
    + intros fuel. apply Hprefix. eapply res_bind_same.
      * eapply res_weaken; [apply Hre|].
        rewrite !length_app. unfold remainder. simpl.
        destruct pre; destruct (_ <? _); simpl; lia.
      * apply res_ok. reflexivity.
    + rewrite (rd8_same_outside _ _ _ _ _ Hout') by lia.
      apply free_chain_frame with (m := m5); [exact F1|].
      pose proof (spaced_in 0 _ _ _ ltac:(lia) Hsp') as Hb5.
      eapply Forall_impl; [|exact Hb5]. intros y Hy. unf.
      split; eapply rd8_same_outside; try exact Hout'; lia.
    + exact Hmax'.
    + rewrite (rd8_same_outside _ _ _ _ _ Hout') by lia. apply V4.
    + rewrite (rd4_same_outside _ _ _ _ _ Hout') by lia. apply V4.
    + intros x Hx. unfold carve_touched in Hx. unf. simpl in Hx. fold c0 in Hx.
      rewrite Hout' by lia. apply F4. lia.
  - apply Z.leb_gt in Eaff.
    exists m5. split; [|split; [|split; [|split; [|split]]]].
    + intros fuel. apply Hprefix. apply res_ok. reflexivity.
    + exact F1.
    + rewrite V5, Hmax. symmetry. apply carve_keeps_max; simpl; try assumption; lia.
    + apply V4.
    + apply V4.
    + intros x Hx. unfold carve_touched in Hx. unf. simpl in Hx. fold c0 in Hx.
      apply F4. lia.
Qed.

End Carve.

(** ** The address-ordered insertion, on lists *)

Lemma disjoint_below (x y : Z * Z) :
  0 < snd x -> 0 < snd y -> disjoint_chunks x y -> fst y < fst x -> chunk_end y <= fst x.
Proof. unfold disjoint_chunks, chunk_end, sizeof_chunk. lia. Qed.

Lemma disjoint_above (x y : Z * Z) :
  0 < snd x -> 0 < snd y -> disjoint_chunks x y -> ~ fst y < fst x -> chunk_end x <= fst y.
Proof. unfold disjoint_chunks, chunk_end, sizeof_chunk. lia. Qed.

Ltac csimp := cbn [fst snd app length firstn spaced maxsize] in *.

Lemma insert_chunk_split x lo hi rest : forall ia sia,
  ia < fst x -> 0 < snd x ->
  spaced 1 lo hi ((ia, sia) :: rest) ->
  Forall (disjoint_chunks x) ((ia, sia) :: rest) ->
  exists pre ib sib post,
    (ia, sia) :: rest = pre ++ (ib, sib) :: post /\
    insert_point (fst x) ia rest = ib /\
    insert_chunk x ((ia, sia) :: rest) = pre ++ merge_right (ib, sib) (merge_right x post) /\
    chunk_end (ib, sib) <= fst x /\
    Forall (fun y => chunk_end x <= fst y) post.
Proof.
  induction rest as [|[nx snx] rest IH]; intros ia sia Hlt Hx Hsp Hd.
  - exists [], ia, sia, []. cbn [app insert_point insert_chunk]. repeat split; auto.
    apply Forall_inv in Hd. destruct Hsp as [S1 [S2 S3]].
    apply (disjoint_below x (ia, sia)); auto.
  - pose proof Hsp as [S1 [S2 [S3 Stail]]].
    pose proof Stail as [S4 [S5 [S6 S7]]].
    pose proof Hd as Hd'. apply Forall_cons_iff in Hd' as [D1 Hd'].
    assert (Srest : spaced 1 lo hi ((nx, snx) :: rest)).
    { cbn [spaced]. repeat split; auto. unf. csimp. lia. }
    unf. csimp.
    cbn [insert_point insert_chunk fst].
    destruct (nx <? fst x) eqn:E.
    + apply Z.ltb_lt in E.
      destruct (IH nx snx E Hx) as [pre [ib [sib [post [P1 [P2 [P3 [P4 P5]]]]]]]].
      { exact Srest. }
      { exact Hd'. }
      exists ((ia, sia) :: pre), ib, sib, post. cbn [app].
      rewrite P1. rewrite <- P3. repeat split; auto.
    + apply Z.ltb_ge in E.
      exists [], ia, sia, ((nx, snx) :: rest). cbn [app]. repeat split; auto.
      * apply (disjoint_below x (ia, sia)); auto.
      * assert (Hnx : chunk_end x <= nx).
        { apply Forall_inv in Hd'.
          apply (disjoint_above x (nx, snx)); auto. cbn [fst]. lia. }
        constructor; [exact Hnx|].
        apply spaced_in in S7; [|lia].
        eapply Forall_impl; [|exact S7]. unf. csimp. intros y Hy. lia.
Qed.

Lemma merge_right_spaced lo hi x l :
  spaced 0 lo hi (x :: l) ->
  (forall lo', spaced 0 lo' hi l -> spaced 1 lo' hi l) ->
  spaced 1 lo hi (merge_right x l).
Proof.
  intros Hsp Htail. destruct l as [|y l]; [exact Hsp|].
  destruct Hsp as [S1 [S2 [S3 [S4 [S5 [S6 S7]]]]]].
  assert (Hy : spaced 1 (fst y) hi (y :: l)).
  { apply Htail. cbn [spaced]. repeat split; auto. lia. }
  cbn [merge_right]. destruct (fst y =? chunk_end x) eqn:E.
  - apply Z.eqb_eq in E. destruct Hy as [_ [_ [_ Hy]]].
    cbn [spaced]. unf. csimp. split; [lia | split; [lia | split; [lia|]]].
    eapply spaced_weaken; [exact Hy | lia].
  - apply Z.eqb_neq in E. cbn [spaced]. split; [|split; [|split]]; try assumption.
    eapply spaced_rebase; [exact Hy | lia].
Qed.


(** ** The address-ordered insertion, on memory *)

Section Insert.

Variables (w : world) (a len : Z).
Hypothesis Hin : In (a, len) (os_maps (w_os w)).
Hypothesis Hlen : a + len < 2 ^ 64.
Hypothesis Ha : 0 < a.
Hypothesis Hlen56 : 56 < len.

Lemma coalesce_chain m c s l lo :
  a <= lo ->
  free_chain m c ((c, s) :: l) ->
  spaced 0 lo (a + len) ((c, s) :: l) ->
  exists m',
    TAlloc_coalesce c (set_mem w m) = Ok tt (set_mem w m') /\
    free_chain m' c (merge_right (c, s) l) /\
    rd m' c 8 = hd_size (merge_right (c, s) l) /\
    same_outside c (c + 16) m m'.
Proof.
  intros Hlo Hc Hsp.
  pose proof Hc as Hc'. apply free_chain_head in Hc' as [Hnz [_ [Hs Hcl]]].
  destruct Hsp as [S1 [S2 [S3 Stail]]]. unf. csimp.
  destruct l as [|[y sy] l'].
  - apply free_chain_nil in Hcl. unf.
    exists m. split; [|split; [|split]].
    + eapply coalesce_apart; try eassumption; try lia; rewrite Hcl, <- Hs; lia.
    + exact Hc.
    + cbn [merge_right hd_size snd]. auto.
    + apply same_outside_refl.
  - pose proof Hcl as Hcl'. apply free_chain_head in Hcl' as [Hnz' [Hy [Hsy Hcl']]].
    destruct Stail as [T1 [T2 [T3 Ttail]]]. unf. csimp.
    rewrite <- Hy in Hsy, Hcl'.
    cbn [merge_right]. unf. cbn [fst snd].
    destruct (y =? c + 16 + s) eqn:E.
    + apply Z.eqb_eq in E.
      assert (Hyy : c + rd m c 8 + 16 = y) by lia.
      exists (wr (wr m c 8 (s + (16 + sy))) (c + 8) 8 (rd m (y + 8) 8)).
      pose proof (rd8_range m (y + 8)).
      split; [|split; [|split]].
      * erewrite coalesce_adjacent; try eassumption; try lia;
          rewrite ?Hyy; rewrite <- ?Hs, <- ?Hsy; first [reflexivity | lia].
      * eapply free_chain_cons; [assumption | rdw; reflexivity | rdw; reflexivity |].
        apply free_chain_frame with (m := m); [exact Hcl'|].
        apply spaced_in in Ttail; [|lia].
        eapply Forall_impl; [|exact Ttail]. unf. intros z Hz. split; rdw; reflexivity.
      * cbn [hd_size snd]. rdw. reflexivity.
      * eapply same_outside_trans; apply same_outside_wr; simpl; lia.
    + apply Z.eqb_neq in E.
      exists m. split; [|split; [|split]].
      * eapply coalesce_apart; try eassumption; try lia; rewrite <- Hy, <- Hs; lia.
      * exact Hc.
      * cbn [hd_size snd]. auto.
      * apply same_outside_refl.
Qed.

Lemma free_insert_empty m c s :
  rd m (a + 16) 8 = 0 ->
  a + 40 <= c -> 0 < s -> c + 16 + s <= a + len -> rd m c 8 = s ->
  exists m',
    free_insert 0 a c (set_mem w m) = Ok tt (set_mem w m') /\
    (forall fuel, free_insert fuel a c (set_mem w m) = Ok tt (set_mem w m')) /\
    free_chain m' (rd m' (a + 16) 8) [(c, s)] /\
    rd m' (a + 8) 8 = s /\
    (forall x, x < a + 8 \/ a + 24 <= x -> x < c \/ c + 16 <= x -> m' x = m x).
Proof.
  intros Hfl C1 C2 C3 Hs.
  exists (wr (wr (wr m (a + 16) 8 c) (c + 8) 8 0) (a + 8) 8 s).
  assert (Hrun : forall fuel, free_insert fuel a c (set_mem w m)
                 = Ok tt (set_mem w (wr (wr (wr m (a + 16) 8 c) (c + 8) 8 0) (a + 8) 8 s))).
  { intros fuel. unfold free_insert. ld. unf. rewrite Hfl. cbn [Z.eqb].
    st. ld. rdw. st. ld. rdw. rewrite Hs.
    erewrite store64_in by side. wsimp. reflexivity. }
  split; [apply Hrun|]. split; [exact Hrun|]. split; [|split].
  - rdw. eapply free_chain_cons; [unf; lia | unf; rdw; assumption | unf; rdw; reflexivity |].
    apply free_nil.
  - rdw. reflexivity.
  - intros x X1 X2. rewrite !wr_out by (simpl; lia). reflexivity.
Qed.

Lemma free_insert_front m h sh rest c s :
  free_chain m (rd m (a + 16) 8) ((h, sh) :: rest) ->
  gapped (a + 40) (a + len) ((h, sh) :: rest) ->
  a + 40 <= c -> 0 < s -> c + 16 + s <= a + len -> rd m c 8 = s ->
  disjoint_chunks (c, s) (h, sh) ->
  c < h ->
  exists m',
    (forall fuel, free_insert fuel a c (set_mem w m) = Ok tt (set_mem w m')) /\
    free_chain m' (rd m' (a + 16) 8) (merge_right (c, s) ((h, sh) :: rest)) /\
    rd m' (a + 8) 8
    = Z.max (rd m (a + 8) 8) (hd_size (merge_right (c, s) ((h, sh) :: rest))) /\
    (forall x, x < a + 8 \/ a + 24 <= x -> x < c \/ c + 16 <= x -> m' x = m x).
Proof.
  intros Hc Hg C1 C2 C3 Hs Hd Hlt.
  pose proof Hc as Hc'. apply free_chain_head in Hc' as [Hnz [Hh _]]. cbn [fst] in Hh.
  rewrite <- Hh in Hc.
  pose proof (spaced_in 1 _ _ _ ltac:(lia) Hg) as Hb.
  pose proof (Forall_inv Hb) as Bh.
  pose proof (spaced_lower 1 (h, sh) rest ltac:(lia)
                ltac:(apply Bh) (spaced_tail_lower 1 _ _ _ _ ltac:(lia) Hg)) as Hlow.
  unf. cbn [fst snd] in Bh, Hlow.
  assert (Hend : c + 16 + s <= h).
  { pose proof (disjoint_above (c, s) (h, sh)) as D. unf. cbn [fst snd] in D.
    apply D; auto; lia. }
  set (m2 := wr (wr m (c + 8) 8 h) (a + 16) 8 c).
  assert (Hc2 : free_chain m2 c ((c, s) :: (h, sh) :: rest)).
  { eapply free_chain_cons; [unf; lia | unfold m2; unf; rdw; assumption
                            | unfold m2; unf; rdw; reflexivity |].
    apply free_chain_frame with (m := m); [exact Hc|].
    rewrite Forall_forall in *. intros y Hy. specialize (Hb y Hy). specialize (Hlow y Hy).
    unf. cbn beta in *. unfold m2. split; rdw; reflexivity. }
  destruct (coalesce_chain m2 c s ((h, sh) :: rest) (a + 40)) as [m3 [Hco [Hc3 [Hsz3 Hout3]]]];
    [lia | exact Hc2 | |].
  { apply spaced_cons; unf; cbn [fst snd]; try lia.
    eapply spaced_relax with (g := 1); [|lia].
    eapply spaced_rebase; [exact Hg | cbn [fst]; lia]. }
  pose proof (rd8_range m3 c) as R3.
  destruct (raise_max_spec m3 a (rd m3 c 8) R3) as [Hmx4 Hout4].
  exists (raise_max m3 a (rd m3 c 8)). split; [|split; [|split]].
  - intros fuel. unfold free_insert. ld. unf. rewrite <- Hh.
    rewrite (proj2 (Z.eqb_neq h 0)) by lia.
    ld. rewrite <- Hh. rewrite (proj2 (Z.ltb_lt c h)) by lia.
    ld. rewrite <- Hh. st. st. fold m2.
    erewrite bind_ok by exact Hco.
    eapply adjust_spec; try eassumption; lia.
  - rewrite (rd8_same_outside _ _ _ _ (a + 16) Hout4) by lia.
    rewrite (rd8_same_outside _ _ _ _ (a + 16) Hout3) by lia.
    replace (rd m2 (a + 16) 8) with c by (unfold m2; rdw; reflexivity).
    apply free_chain_frame with (m := m3); [exact Hc3|].
    assert (Hb3 : Forall (fun y => a + 40 <= fst y)
                    (merge_right (c, s) ((h, sh) :: rest))).
    { cbn [merge_right]. destruct (_ =? _).
      - constructor; [cbn [fst]; lia|].
        apply Forall_inv_tail in Hb. eapply Forall_impl; [|exact Hb].
        intros y Hy. cbn beta in Hy. lia.
      - constructor; [cbn [fst]; lia|].
        eapply Forall_impl; [|exact Hb]. intros y Hy. cbn beta in Hy. lia. }
    eapply Forall_impl; [|exact Hb3]. intros y Hy. unf.
    split; apply (rd8_same_outside _ _ _ _ _ Hout4); lia.
  - rewrite Hmx4. rewrite Hsz3.
    rewrite (rd8_same_outside _ _ _ _ (a + 8) Hout3) by lia.
    unfold m2. rdw. reflexivity.
  - intros x X1 X2. rewrite Hout4 by lia. rewrite Hout3 by lia.
    unfold m2. rewrite !wr_out by (simpl; lia). reflexivity.
Qed.

Lemma free_insert_middle m h sh rest c s :
  free_chain m (rd m (a + 16) 8) ((h, sh) :: rest) ->
  gapped (a + 40) (a + len) ((h, sh) :: rest) ->
  a + 40 <= c -> 0 < s -> c + 16 + s <= a + len -> rd m c 8 = s ->
  Forall (disjoint_chunks (c, s)) ((h, sh) :: rest) ->
  rd m (a + 8) 8 = maxsize ((h, sh) :: rest) ->
  h < c ->
  exists m',
    (forall fuel,
        res fuel (S (length rest)) (free_insert fuel a c (set_mem w m)) tt (set_mem w m')) /\
    free_chain m' (rd m' (a + 16) 8) (insert_chunk (c, s) ((h, sh) :: rest)) /\
    rd m' (a + 8) 8 = maxsize (insert_chunk (c, s) ((h, sh) :: rest)) /\
    (forall x, x < a + 8 \/ a + 24 <= x -> x < c \/ c + 16 <= x ->
               Forall (fun y => x < fst y \/ fst y + 16 <= x) ((h, sh) :: rest) ->
               m' x = m x).
Proof.
  intros Hc Hg C1 C2 C3 Hs Hd Hmax Hlt.
  pose proof Hc as Hc'. apply free_chain_head in Hc' as [Hnz [Hh _]]. cbn [fst] in Hh.
  pose proof (spaced_in 1 _ _ _ ltac:(lia) Hg) as Hb.
  destruct (insert_chunk_split (c, s) (a + 40) (a + len) rest h sh Hlt C2 Hg Hd)
    as [pre [ib [sib [post [Efl [Eip [Eins [Hibc Hpost]]]]]]]].
  cbn [fst] in Eip. rewrite Eins. rewrite Efl in *.
  destruct (free_chain_split _ _ _ _ _ Hc) as [Hcib Hcont]. cbn [fst] in Hcib, Hcont.
  pose proof Hcib as Hcib'. apply free_chain_head in Hcib' as [Hibnz [_ [Hsib Hcpost]]].
  cbn [snd] in Hsib.
  pose proof (spaced_before 1 _ _ _ _ _ ltac:(lia) Hg) as Hpre.
  pose proof Hb as Hb'. apply Forall_app in Hb' as [Hbpre Hb'].
  apply Forall_cons_iff in Hb' as [Bib Hbpost].
  assert (Hgpost : spaced 1 (a + 40) (a + len) post).
  { change (pre ++ (ib, sib) :: post) with (pre ++ [(ib, sib)] ++ post) in Hg.
    rewrite app_assoc in Hg. eapply spaced_drop; [|exact Hg]. lia. }
  assert (Hppost : Forall (fun y => 0 < snd y) post).
  { eapply Forall_impl; [|exact Hbpost]. intros y Hy. cbn beta in Hy. lia. }
  unf. cbn [fst snd] in *.
  set (nx := rd m (ib + 8) 8) in *.
  pose proof (rd8_range m (ib + 8)) as Rnx. fold nx in Rnx.
  set (m2 := wr (wr m (c + 8) 8 nx) (ib + 8) 8 c).
  assert (Hc2 : free_chain m2 c ((c, s) :: post)).
  { eapply free_chain_cons; [unf; lia | unfold m2; unf; rdw; assumption
                            | unfold m2; unf; rdw; reflexivity |].
    apply free_chain_frame with (m := m); [exact Hcpost|].
    rewrite Forall_forall in *. intros y Hy. specialize (Hbpost y Hy).
    specialize (Hpost y Hy). unf. cbn beta in *. unfold m2. split; rdw; reflexivity. }
  assert (Hsp2 : spaced 0 (a + 40) (a + len) ((c, s) :: post)).
  { apply spaced_cons; unf; cbn [fst snd]; try lia.
    eapply spaced_raise; [eapply spaced_relax with (g := 1); [exact Hgpost | lia]|].
    eapply Forall_impl; [|exact Hpost]. intros y Hy. cbn beta in Hy. lia. }
  destruct (coalesce_chain m2 c s post (a + 40)) as [m3 [Hco3 [Hc3 [Hsz3 Hout3]]]];
    [lia | exact Hc2 | exact Hsp2 |].
  set (mr1 := merge_right (c, s) post) in *.
  assert (Hsp3 : spaced 1 (a + 40) (a + len) mr1).
  { apply merge_right_spaced; [exact Hsp2|].
    intros lo' H0. eapply spaced_tighten; eassumption. }
  destruct (merge_right_max (c, s) post ltac:(cbn [snd]; lia) Hppost) as [M1 [M2 [l1 M3]]].
  fold mr1 in M1, M2, M3. cbn [fst snd] in M2, M3.
  pose proof (rd8_range m3 c) as R3.
  destruct (raise_max_spec m3 a (rd m3 c 8) R3) as [Hmx4 Hout4].
  set (m4 := raise_max m3 a (rd m3 c 8)) in *.
  pose proof (spaced_in 1 _ _ _ ltac:(lia) Hsp3) as Hb3.
  assert (Hc4 : free_chain m4 ib ((ib, sib) :: mr1)).
  { eapply free_chain_cons; [unf; lia | | |].
    - unf. rewrite (rd8_same_outside _ _ _ _ ib Hout4) by lia.
      rewrite (rd8_same_outside _ _ _ _ ib Hout3) by lia.
      unfold m2. rdw. symmetry. exact Hsib.
    - unf. rewrite (rd8_same_outside _ _ _ _ (ib + 8) Hout4) by lia.
      rewrite (rd8_same_outside _ _ _ _ (ib + 8) Hout3) by lia.
      unfold m2. rdw. reflexivity.
    - apply free_chain_frame with (m := m3); [exact Hc3|].
      eapply Forall_impl; [|exact Hb3]. intros y Hy. unf. cbn beta in Hy.
      split; apply (rd8_same_outside _ _ _ _ _ Hout4); lia. }
  assert (Hsp4 : spaced 0 (a + 40) (a + len) ((ib, sib) :: mr1)).
  { apply spaced_cons; unf; cbn [fst snd]; try lia.
    eapply spaced_relax with (g := 1); [|lia].
    rewrite M3. rewrite M3 in Hsp3. eapply spaced_rebase; [exact Hsp3 | cbn [fst]; lia]. }
  destruct (coalesce_chain m4 ib sib mr1 (a + 40)) as [m5 [Hco5 [Hc5 [Hsz5 Hout5]]]];
    [lia | exact Hc4 | exact Hsp4 |].
  set (mr2 := merge_right (ib, sib) mr1) in *.
  assert (Hsp5 : spaced 1 (a + 40) (a + len) mr2).
  { apply merge_right_spaced; [exact Hsp4|].
    intros lo' H0. eapply spaced_tighten; eassumption. }
  pose proof (spaced_in 1 _ _ _ ltac:(lia) Hsp5) as Hb5.
  pose proof (rd8_range m5 ib) as R5.
  destruct (raise_max_spec m5 a (rd m5 ib 8) R5) as [Hmx6 Hout6].
  set (m6 := raise_max m5 a (rd m5 ib 8)) in *.
  assert (F : forall x, x < a + 8 \/ a + 16 <= x -> x < c \/ c + 16 <= x ->
                        x < ib \/ ib + 16 <= x -> m6 x = m x).
  { intros x X1 X2 X3. rewrite Hout6 by lia. rewrite Hout5 by lia.
    rewrite Hout4 by lia. rewrite Hout3 by lia.
    unfold m2. rewrite !wr_out by (simpl; lia). reflexivity. }
  assert (Frd : forall b, b + 8 <= a + 8 \/ a + 16 <= b -> b + 8 <= c \/ c + 16 <= b ->
                          b + 8 <= ib \/ ib + 16 <= b -> rd m6 b 8 = rd m b 8).
  { intros b B1 B2 B3. apply rd_ext. intros i Hi. simpl in Hi. apply F; lia. }
  exists m6. split; [|split; [|split]].
  - intros fuel. unfold free_insert. ld. unf. rewrite <- Hh.
    rewrite (proj2 (Z.eqb_neq h 0)) by lia.
    ld. rewrite <- Hh. rewrite (proj2 (Z.ltb_ge c h)) by lia.
    ld. rewrite <- Hh.
    eapply res_bind_same.
    { rewrite <- Efl in Hc, Hb. rewrite <- Hh in Hc.
      eapply insert_after_loop_spec; try eassumption.
      eapply Forall_impl; [|exact Hb]. intros y Hy. cbn beta in Hy. lia. }
    rewrite Eip. apply res_ok.
    ld. fold nx. st. st. fold m2.
    erewrite bind_ok by exact Hco3.
    erewrite bind_ok by (eapply adjust_spec; try eassumption; lia).
    fold m4. erewrite bind_ok by exact Hco5.
    eapply adjust_spec; try eassumption; lia.
  - rewrite Frd by lia.
    apply Hcont.
    + rewrite Forall_forall in *. intros y Hy. specialize (Hbpre y Hy).
      specialize (Hpre y Hy). unf. cbn beta in *. split; apply Frd; lia.
    + intros _. unfold mr2. destruct (merge_right_max (ib, sib) mr1) as [_ [_ [l2 E2]]];
        [cbn [snd]; lia | | rewrite E2; discriminate].
      eapply Forall_impl; [|exact Hb3]. intros y Hy. cbn beta in Hy. lia.
    + apply free_chain_frame with (m := m5); [exact Hc5|].
      eapply Forall_impl; [|exact Hb5]. intros y Hy. unf. cbn beta in Hy.
      split; apply (rd8_same_outside _ _ _ _ _ Hout6); lia.
  - fold m6 in Hmx6. rewrite Hmx6, Hsz5.
    rewrite (rd8_same_outside _ _ _ _ (a + 8) Hout5) by lia.
    fold m4 in Hmx4. rewrite Hmx4, Hsz3.
    rewrite (rd8_same_outside _ _ _ _ (a + 8) Hout3) by lia.
    replace (rd m2 (a + 8) 8) with (rd m (a + 8) 8) by (unfold m2; rdw; reflexivity).
    unfold mr2, mr1. rewrite (insert_max pre (ib, sib) (c, s) post); cbn [snd]; try lia;
      try assumption.
  - intros x X1 X2 X3. apply F; try lia.
    rewrite Forall_forall in X3. specialize (X3 (ib, sib)).
    cbn [fst] in X3. apply X3. apply in_or_app. right. left. reflexivity.
Qed.

Lemma free_insert_spec m fl c s :
  free_chain m (rd m (a + 16) 8) fl ->
  gapped (a + 40) (a + len) fl ->
  rd m (a + 8) 8 = maxsize fl ->
  a + 40 <= c -> 0 < s -> c + 16 + s <= a + len -> rd m c 8 = s ->
  Forall (disjoint_chunks (c, s)) fl ->
  exists m',
    (forall fuel,
        res fuel (S (length fl)) (free_insert fuel a c (set_mem w m)) tt (set_mem w m')) /\
    free_chain m' (rd m' (a + 16) 8) (free_list_insert (c, s) fl) /\
    rd m' (a + 8) 8 = maxsize (free_list_insert (c, s) fl) /\
    (forall x, x < a + 8 \/ a + 24 <= x -> x < c \/ c + 16 <= x ->
               Forall (fun y => x < fst y \/ fst y + 16 <= x) fl ->
               m' x = m x).
Proof.
  intros Hc Hg Hmax C1 C2 C3 Hs Hd.
  destruct fl as [|[h sh] rest].
  - apply free_chain_nil in Hc. unf.
    destruct (free_insert_empty m c s Hc C1 C2 C3 Hs) as [m' [_ [Hrun [Hc' [Hmx F]]]]].
    exists m'. split; [|split; [|split]].
    + intros fuel. apply res_ok. apply Hrun.
    + exact Hc'.
    + rewrite Hmx. cbn [free_list_insert maxsize snd]. lia.
    + intros x X1 X2 _. apply F; assumption.
  - pose proof (spaced_in 1 _ _ _ ltac:(lia) Hg) as Hb.
    pose proof (Forall_inv Hb) as Bh. cbn [fst snd] in Bh.
    pose proof (Forall_inv Hd) as Dh.
    cbn [free_list_insert fst].
    destruct (c <? h) eqn:E.
    + apply Z.ltb_lt in E.
      destruct (free_insert_front m h sh rest c s Hc Hg C1 C2 C3 Hs Dh E)
        as [m' [Hrun [Hc' [Hmx F]]]].
      exists m'. split; [|split; [|split]].
      * intros fuel. apply res_ok. apply Hrun.
      * exact Hc'.
      * rewrite Hmx, Hmax.
        destruct (merge_right_max (c, s) ((h, sh) :: rest)) as [M1 _].
        { cbn [snd]; lia. }
        { eapply Forall_impl; [|exact Hb]. intros y Hy. cbn beta in Hy. lia. }
        rewrite M1. lia.
      * intros x X1 X2 _. apply F; assumption.
    + apply Z.ltb_ge in E.
      assert (Hlt : h < c).
      { unfold disjoint_chunks in Dh. unf. cbn [fst snd] in Dh. lia. }
      destruct (free_insert_middle m h sh rest c s Hc Hg C1 C2 C3 Hs Hd Hmax Hlt)
        as [m' [Hrun [Hc' [Hmx F]]]].
      exists m'. split; [|split; [|split]]; try assumption.
      intros fuel. eapply res_weaken; [apply Hrun | cbn [length]; lia].
Qed.

End Insert.

(** *** What the insertion keeps *)

Lemma merge_right_disjoint (b x : Z * Z) l :
  0 < snd b -> 0 < snd x ->
  disjoint_chunks b x -> Forall (disjoint_chunks b) l ->
  Forall (disjoint_chunks b) (merge_right x l).
Proof.
  intros Hb Hx Dx Dl. destruct l as [|y l]; cbn [merge_right]; [constructor; auto|].
  destruct (fst y =? chunk_end x) eqn:E; [|constructor; assumption].
  apply Z.eqb_eq in E. pose proof (Forall_inv Dl) as Dy.
  constructor; [|apply Forall_inv_tail in Dl; exact Dl].
  unfold disjoint_chunks in *. unf. cbn [fst snd]. lia.
Qed.

Lemma free_list_insert_props lo hi (x : Z * Z) fl :
  gapped lo hi fl ->
  lo <= fst x -> 0 < snd x -> chunk_end x <= hi ->
  Forall (disjoint_chunks x) fl ->
  gapped lo hi (free_list_insert x fl) /\
  (forall b, 0 < snd b -> disjoint_chunks b x -> Forall (disjoint_chunks b) fl ->
             Forall (disjoint_chunks b) (free_list_insert x fl)).
Proof.
  intros Hg X1 X2 X3 Hd. unfold gapped in *.
  pose proof (spaced_in 1 _ _ _ ltac:(lia) Hg) as Hb.
  destruct fl as [|[h sh] rest].
  - cbn [free_list_insert]. split.
    + apply spaced_cons; auto; exact I.
    + intros b _ Db _. constructor; [exact Db | constructor].
  - cbn [free_list_insert fst].
    pose proof (Forall_inv Hb) as Bh. cbn [fst snd] in Bh.
    pose proof (Forall_inv Hd) as Dh.
    destruct (fst x <? h) eqn:E.
    + apply Z.ltb_lt in E. split.
      * apply merge_right_spaced.
        -- apply spaced_cons; auto.
           eapply spaced_relax with (g := 1); [|lia].
           eapply spaced_rebase; [exact Hg|]. cbn [fst].
           pose proof (disjoint_above x (h, sh)) as D. cbn [fst snd] in D.
           specialize (D X2 ltac:(lia) Dh ltac:(lia)). lia.
        -- intros lo' H0. eapply spaced_tighten; eassumption.
      * intros b B1 Db Dl. apply merge_right_disjoint; assumption.
    + apply Z.ltb_ge in E.
      assert (Hlt : h < fst x).
      { unfold disjoint_chunks in Dh. unf. cbn [fst snd] in Dh. lia. }
      destruct (insert_chunk_split x lo hi rest h sh Hlt X2 Hg Hd)
        as [pre [ib [sib [post [Efl [Eip [Eins [Hibc Hpost]]]]]]]].
      rewrite Eins. rewrite Efl in *.
      pose proof Hb as Hb'. apply Forall_app in Hb' as [Hbpre Hb'].
      apply Forall_cons_iff in Hb' as [Bib Hbpost]. cbn [fst snd] in Bib.
      assert (Hgpost : spaced 1 lo hi post).
      { change (pre ++ (ib, sib) :: post) with (pre ++ [(ib, sib)] ++ post) in Hg.
        rewrite app_assoc in Hg. eapply spaced_drop; [|exact Hg]. lia. }
      assert (Hsp2 : spaced 0 lo hi (x :: post)).
      { apply spaced_cons; auto.
        eapply spaced_raise; [eapply spaced_relax with (g := 1); [exact Hgpost | lia]|].
        eapply Forall_impl; [|exact Hpost]. intros y Hy. cbn beta in Hy. lia. }
      assert (Hsp3 : spaced 1 lo hi (merge_right x post)).
      { apply merge_right_spaced; [exact Hsp2|].
        intros lo' H0. eapply spaced_tighten; eassumption. }
      assert (Hppost : Forall (fun y => 0 < snd y) post).
      { eapply Forall_impl; [|exact Hbpost]. intros y Hy. cbn beta in Hy. lia. }
      destruct (merge_right_max x post ltac:(lia) Hppost) as [_ [_ [l1 M3]]].
      assert (Hsp4 : spaced 0 lo hi ((ib, sib) :: merge_right x post)).
      { apply spaced_cons; cbn [fst snd]; try lia.
        eapply spaced_relax with (g := 1); [|lia].
        rewrite M3. rewrite M3 in Hsp3. eapply spaced_rebase; [exact Hsp3 | cbn [fst]; lia]. }
      assert (Hsp5 : spaced 1 lo hi (merge_right (ib, sib) (merge_right x post))).
      { apply merge_right_spaced; [exact Hsp4|].
        intros lo' H0. eapply spaced_tighten; eassumption. }
      split.
      * apply spaced_app. apply spaced_app in Hg as [Hg1 Hg2]. split; [exact Hg1|].
        destruct (merge_right_max (ib, sib) (merge_right x post)) as [_ [_ [l2 M4]]].
        { cbn [snd]; lia. }
        { apply merge_right_pos; assumption. }
        rewrite M4. rewrite M4 in Hsp5. eapply spaced_rebase; [exact Hsp5|].
        cbn [fst]. destruct Hg2 as [Hg2 _]. exact Hg2.
      * intros b B1 Db Dl. apply Forall_app in Dl as [Dpre Dl].
        apply Forall_cons_iff in Dl as [Dib Dpost].
        apply Forall_app. split; [exact Dpre|].
        apply merge_right_disjoint; auto; [cbn [snd]; lia|].
        apply merge_right_disjoint; auto.
Qed.

(** ** One arena under an allocation and under a release *)

Lemma remainder_within size (h : Z * Z) :
  0 < size <= snd h ->
  Forall (fun y => fst h + 16 + granted size h <= fst y /\ chunk_end y <= chunk_end h /\
                   0 < snd y) (remainder size h).
Proof.
  intros Hs. unfold remainder, granted. unf.
  destruct (16 <? snd h - size) eqn:E; [|constructor].
  apply Z.ltb_lt in E. constructor; [|constructor]. cbn [fst snd]. lia.
Qed.

Lemma granted_bounds size (h : Z * Z) :
  0 < size <= snd h -> size <= granted size h <= snd h.
Proof. intros Hs. unfold granted. unf. destruct (_ <? _); lia. Qed.

Lemma carve_props lo hi n fl lb pre h post :
  gapped lo hi fl ->
  split_fit n fl = Some (pre, h, post) ->
  0 < n ->
  Forall (fun b => 0 < snd b) lb ->
  Forall (fun b => Forall (disjoint_chunks b) fl) lb ->
  gapped lo hi (carve_list n fl) /\
  (lo <= fst h /\ chunk_end (fst h, granted n h) <= hi) /\
  Forall (disjoint_chunks (fst h, granted n h)) (carve_list n fl) /\
  Forall (disjoint_chunks (fst h, granted n h)) lb /\
  Forall (fun b => Forall (disjoint_chunks b) (carve_list n fl)) lb.
Proof.
  intros Hg Hsplit Hn Hpos Hd. unfold carve_list. rewrite Hsplit.
  apply split_fit_spec in Hsplit as [Hfl [Hpre Hh]]. subst fl.
  unfold gapped in *.
  pose proof (spaced_in 1 _ _ _ ltac:(lia) Hg) as Hb.
  pose proof Hb as Hb'. apply Forall_app in Hb' as [Hbpre Hb'].
  apply Forall_cons_iff in Hb' as [Bh Hbpost].
  pose proof (spaced_before 1 _ _ _ _ _ ltac:(lia) Hg) as Hbefore.
  pose proof (spaced_tail_lower 1 _ _ _ _ ltac:(lia) (spaced_drop 1 _ _ _ _ ltac:(lia) Hg))
    as Hafter.
  pose proof (granted_bounds n h ltac:(lia)) as Hgr.
  pose proof (remainder_within n h ltac:(lia)) as Hrem.
  assert (Hfirst : forall y, In y (firstn 1 pre) -> In y pre).
  { intros y Hy. destruct pre; [destruct Hy|]. destruct Hy as [<- | []]. left. reflexivity. }
  split; [|split; [|split; [|split]]].
  - apply carve_spaced; [lia | lia | exact Hg].
  - unf. cbn [fst snd]. lia.
  - apply Forall_app. split; [|apply Forall_app; split].
    + rewrite Forall_forall in *. intros y Hy. specialize (Hbefore y (Hfirst y Hy)).
      specialize (Hbpre y (Hfirst y Hy)).
      unfold disjoint_chunks. unf. cbn [fst snd] in *. lia.
    + eapply Forall_impl; [|exact Hrem]. intros y Hy.
      unfold disjoint_chunks. unf. cbn [fst snd] in *. lia.
    + rewrite Forall_forall in *. intros y Hy. specialize (Hafter y Hy).
      unfold disjoint_chunks. unf. cbn [fst snd] in *. lia.
  - rewrite Forall_forall in *. intros b Hb0. specialize (Hd b Hb0). specialize (Hpos b Hb0).
    rewrite Forall_forall in Hd. specialize (Hd h ltac:(apply in_or_app; right; left; reflexivity)).
    unfold disjoint_chunks in *. unf. cbn [fst snd] in *. lia.
  - rewrite Forall_forall in *. intros b Hb0. specialize (Hd b Hb0). specialize (Hpos b Hb0).
    rewrite Forall_forall in Hd.
    pose proof (Hd h ltac:(apply in_or_app; right; left; reflexivity)) as Dh.
    apply Forall_app. split; [|apply Forall_app; split].
    + rewrite Forall_forall. intros y Hy. apply Hd. apply in_or_app. left. auto.
    + rewrite Forall_forall. intros y Hy. specialize (Hrem y Hy).
      unfold disjoint_chunks in *. unf. cbn [fst snd] in *. lia.
    + rewrite Forall_forall. intros y Hy. apply Hd. apply in_or_app. right. right. exact Hy.
Qed.

Lemma arena_ok_frame m m' maps maps' a fl lb :
  arena_ok m maps a fl lb ->
  In (a, rd m (arena_allocated a) 8) maps' ->
  (forall x, arena_reads a fl lb x -> m' x = m x) ->
  arena_ok m' maps' a fl lb.
Proof.
  intros [A1 [A2 [A3 [A4 [A5 [A6 [A7 [A8 [A9 A10]]]]]]]]] Hin F.
  assert (Fa : forall b, a <= b -> b + 8 <= a + 24 -> rd m' b 8 = rd m b 8).
  { intros b B1 B2. apply rd_ext. intros i Hi. simpl in Hi. apply F. left. lia. }
  unfold arena_ok. unf. rewrite !Fa by lia.
  split; [exact Hin|]. split; [exact A2|]. split; [exact A3|]. split; [exact A4|].
  split; [|split; [exact A6|]]; [|split; [exact A7|]]; [|split; [|split; [exact A9 | exact A10]]].
  - apply free_chain_frame with (m := m); [exact A5|].
    rewrite Forall_forall. intros y Hy. unf.
    split; apply rd_ext; intros i Hi; simpl in Hi; apply F; right; left;
      apply Exists_exists; exists y; (split; [exact Hy | lia]).
  - rewrite Forall_forall in *. intros b Hb. specialize (A8 b Hb).
    unfold live_block in *. unf.
    assert (R1 : rd m' (fst b) 8 = rd m (fst b) 8).
    { apply rd_ext; intros i Hi; simpl in Hi; apply F; right; right;
        apply Exists_exists; exists b; (split; [exact Hb | lia]). }
    assert (R2 : rd m' (fst b + 8) 4 = rd m (fst b + 8) 4).
    { apply rd_ext; intros i Hi; simpl in Hi; apply F; right; right;
        apply Exists_exists; exists b; (split; [exact Hb | lia]). }
    rewrite R1, R2. exact A8.
Qed.

Lemma arena_malloc_step w a fl lb n :
  arena_ok (w_mem w) (os_maps (w_os w)) a fl lb ->
  0 < n <= maxsize fl ->
  exists m' pre h post,
    split_fit n fl = Some (pre, h, post) /\
    (forall fuel, res fuel (S (length fl)) (malloc_carve fuel a n w) (fst h + 16)
                    (set_mem w m')) /\
    arena_ok m' (os_maps (w_os w)) a (carve_list n fl) ((fst h, granted n h) :: lb) /\
    n <= granted n h /\ a + 40 <= fst h /\
    fst h + 16 + granted n h <= a + rd (w_mem w) a 8 /\
    (forall x, x < a + 8 \/ a + 24 <= x < a + 40 \/ a + rd (w_mem w) a 8 <= x ->
               m' x = w_mem w x).
Proof.
  intros [A1 [A2 [A3 [A4 [A5 [A6 [A7 [A8 [A9 A10]]]]]]]]] Hn.
  set (m := w_mem w) in *. set (len := rd m (arena_allocated a) 8) in *. unf.
  destruct (split_fit_exists n fl ltac:(lia) ltac:(lia)) as [pre [h [post Hsplit]]].
  destruct (malloc_carve_spec w a len A1 A4 A2 A3 m fl n pre h post A5 A6 A7 ltac:(lia) Hsplit)
    as [m' [Hrun [Hc' [Hmax' [Hsz [Hmagic F]]]]]].
  assert (Hpos : Forall (fun b => 0 < snd b) lb).
  { eapply Forall_impl; [|exact A8]. intros b Hb. apply Hb. }
  destruct (carve_props _ _ _ _ lb _ _ _ A6 Hsplit ltac:(lia) Hpos A9)
    as [P1 [[P2 P3] [P4 [P5 P6]]]].
  pose proof (split_fit_spec _ _ _ _ _ Hsplit) as [Hfl [Hpre Hh]].
  pose proof (granted_bounds n h ltac:(lia)) as Hgr.
  unfold gapped in A6. pose proof (spaced_in 1 _ _ _ ltac:(lia) A6) as Hb.
  assert (Hhin : In h fl) by (subst fl; apply in_or_app; right; left; reflexivity).
  pose proof (proj1 (Forall_forall _ _) Hb h Hhin) as Bh. cbn beta in Bh.
  assert (Hc0 : fl <> [] -> In (rd m (a + 16) 8, hd_size fl) fl).
  { destruct fl as [|[c0 s0] fl']; [congruence|]. intros _.
    apply free_chain_head in A5 as [_ [E1 _]]. cbn [fst] in E1. rewrite <- E1.
    left. reflexivity. }
  assert (Hfl0 : fl <> []) by (subst fl; destruct pre; discriminate).
  specialize (Hc0 Hfl0).
  pose proof (proj1 (Forall_forall _ _) Hb _ Hc0) as Bc0. cbn [fst snd] in Bc0.
  assert (Fr : forall x, (x < a + 8 \/ a + 24 <= x) -> (x < fst h \/ chunk_end h <= x) ->
                         (x < rd m (a + 16) 8 \/ rd m (a + 16) 8 + 16 + hd_size fl <= x) ->
                         m' x = m x).
  { intros x X1 X2 X3. apply F. unfold carve_touched. unf. lia. }
  exists m', pre, h, post. split; [exact Hsplit|].
  split; [intros fuel; specialize (Hrun fuel); unfold m in Hrun;
          rewrite set_mem_same in Hrun; exact Hrun|]. split; [|split; [lia | split; [unf; lia | split; [unf; lia|]]]].
  - assert (Fa : forall b, a <= b -> b + 8 <= a + 8 -> rd m' b 8 = rd m b 8).
    { intros b B1 B2. apply rd_ext. intros i Hi. simpl in Hi. apply Fr; unf; lia. }
    unfold arena_ok. unf. rewrite (Fa a) by lia. fold len.
    split; [exact A1|]. split; [exact A2|]. split; [exact A3|]. split; [exact A4|].
    split; [exact Hc'|]. split; [exact P1|]. split; [exact Hmax'|].
    split; [|split; [constructor; assumption|]].
    + constructor.
      * unfold live_block. unf. cbn [fst snd]. rewrite Hsz, Hmagic. lia.
      * rewrite Forall_forall in *. intros b Hb0. specialize (A8 b Hb0).
        specialize (Hpos b Hb0). specialize (A9 b Hb0). rewrite Forall_forall in A9.
        pose proof (A9 h Hhin) as Dh. pose proof (A9 _ Hc0) as Dc0.
        unfold disjoint_chunks in Dh, Dc0. unfold live_block in *. unf. cbn [fst snd] in *.
        assert (R1 : rd m' (fst b) 8 = rd m (fst b) 8).
        { apply rd_ext; intros i Hi; simpl in Hi; apply Fr; unf; lia. }
        assert (R2 : rd m' (fst b + 8) 4 = rd m (fst b + 8) 4).
        { apply rd_ext; intros i Hi; simpl in Hi; apply Fr; unf; lia. }
        rewrite R1, R2. exact A8.
    + cbn [pairwise_disjoint]. split; [exact P5 | exact A10].
  - intros x Hx. change (rd (w_mem w) a 8) with len in Hx. apply Fr; unf; cbn [fst snd] in *; lia.
Qed.

(** ** Blocks in use *)

Lemma disjoint_chunks_sym (x y : Z * Z) : disjoint_chunks x y -> disjoint_chunks y x.
Proof. unfold disjoint_chunks. tauto. Qed.

Lemma pairwise_in (l : list (Z * Z)) : forall x y,
  pairwise_disjoint l -> In x l -> In y l -> x <> y -> disjoint_chunks x y.
Proof.
  induction l as [|z l IH]; intros x y Hp Hx Hy Hne; [contradiction|].
  destruct Hp as [Hz Hp]. rewrite Forall_forall in Hz.
  destruct Hx as [-> | Hx], Hy as [-> | Hy].
  - congruence.
  - apply Hz. exact Hy.
  - apply disjoint_chunks_sym. apply Hz. exact Hx.
  - apply IH; assumption.
Qed.

Lemma pairwise_filter (f : Z * Z -> bool) (l : list (Z * Z)) :
  pairwise_disjoint l -> pairwise_disjoint (filter f l).
Proof.
  induction l as [|z l IH]; intros Hp; [exact I|].
  destruct Hp as [Hz Hp]. cbn [filter]. destruct (f z).
  - split; [|apply IH; exact Hp].
    rewrite Forall_forall in *. intros y Hy. apply Hz.
    apply filter_In in Hy. tauto.
  - apply IH; exact Hp.
Qed.

Lemma in_drop_block c (lb : list (Z * Z)) b :
  In b (drop_block c lb) <-> In b lb /\ fst b <> c.
Proof.
  unfold drop_block. rewrite filter_In. rewrite negb_true_iff, Z.eqb_neq. tauto.
Qed.

Lemma arena_free_step w a fl lb c s :
  arena_ok (w_mem w) (os_maps (w_os w)) a fl lb ->
  In (c, s) lb ->
  exists m',
    (forall fuel, res fuel (S (length fl)) (free_insert fuel a c w) tt (set_mem w m')) /\
    arena_ok m' (os_maps (w_os w)) a (free_list_insert (c, s) fl) (drop_block c lb) /\
    (forall x, x < a + 8 \/ a + 24 <= x < a + 40 \/ a + rd (w_mem w) a 8 <= x ->
               m' x = w_mem w x).
Proof.
  intros [A1 [A2 [A3 [A4 [A5 [A6 [A7 [A8 [A9 A10]]]]]]]]] Hcs.
  set (m := w_mem w) in *. set (len := rd m (arena_allocated a) 8) in *. unf.
  rewrite Forall_forall in A8, A9.
  pose proof (A8 _ Hcs) as [L1 [L2 [L3 [L4 L5]]]]. unf. cbn [fst snd] in *.
  pose proof (A9 _ Hcs) as Dc.
  destruct (free_insert_spec w a len A1 A4 A2 A3 m fl c s A5 A6 A7 L1 L2 L3 L4 Dc)
    as [m' [Hrun [Hc' [Hmax' F]]]].
  destruct (free_list_insert_props _ _ (c, s) fl A6 L1 L2 L3 Dc) as [G1 G2].
  unfold gapped in A6. pose proof (spaced_in 1 _ _ _ ltac:(lia) A6) as Hb.
  rewrite Forall_forall in Hb.
  assert (Fhdr : forall x, Forall (fun y : Z * Z => x < fst y \/ fst y + 16 <= x) fl <->
                           (forall y, In y fl -> x < fst y \/ fst y + 16 <= x)).
  { intros x. apply Forall_forall. }
  exists m'.
  split; [intros fuel; specialize (Hrun fuel); unfold m in Hrun;
          rewrite set_mem_same in Hrun; exact Hrun|].
  change (rd (w_mem w) a 8) with len.
  assert (Fo : forall x, x < a + 8 \/ a + 24 <= x < a + 40 \/ a + len <= x -> m' x = m x).
  { intros x Hx. apply F; [lia | lia |]. apply Fhdr. intros y Hy.
    specialize (Hb y Hy). unf. cbn beta in Hb. lia. }
  split; [|exact Fo].
  assert (Ra : rd m' a 8 = rd m a 8).
  { apply rd_ext. intros i Hi. simpl in Hi. apply Fo. lia. }
  unfold arena_ok. unf. rewrite Ra. fold len.
  split; [exact A1|]. split; [exact A2|]. split; [exact A3|]. split; [exact A4|].
  split; [exact Hc'|]. split; [exact G1|]. split; [exact Hmax'|].
  assert (Hdis : forall b, In b (drop_block c lb) -> disjoint_chunks b (c, s)).
  { intros b Hb0. apply in_drop_block in Hb0 as [Hb0 Hne].
    apply (pairwise_in lb); try assumption. intros ->. apply Hne. reflexivity. }
  split; [|split].
  - apply Forall_forall. intros b Hb0. pose proof (Hdis b Hb0) as Db.
    apply in_drop_block in Hb0 as [Hb0 Hne].
    pose proof (A8 b Hb0) as [B1 [B2 [B3 [B4 B5]]]]. pose proof (A9 b Hb0) as B6.
    rewrite Forall_forall in B6. unfold disjoint_chunks in Db. unf. cbn [fst snd] in *.
    assert (Fb : forall x, fst b <= x < fst b + 12 -> m' x = m x).
    { intros x Hx. apply F; [lia | lia |]. apply Fhdr. intros y Hy.
      specialize (B6 y Hy). specialize (Hb y Hy). unfold disjoint_chunks in B6.
      unf. cbn beta in Hb. lia. }
    assert (R1 : rd m' (fst b) 8 = rd m (fst b) 8).
    { apply rd_ext; intros i Hi; simpl in Hi; apply Fb; lia. }
    assert (R2 : rd m' (fst b + 8) 4 = rd m (fst b + 8) 4).
    { apply rd_ext; intros i Hi; simpl in Hi; apply Fb; lia. }
    unfold live_block. unf. rewrite R1, R2. lia.
  - apply Forall_forall. intros b Hb0. pose proof (Hdis b Hb0) as Db.
    apply in_drop_block in Hb0 as [Hb0 Hne].
    pose proof (A8 b Hb0) as [B1 [B2 _]].
    apply G2; [exact B2 | exact Db | apply A9; exact Hb0].
  - apply pairwise_filter. exact A10.
Qed.

(** ** Mappings *)

Lemma disjoint_region_spec a len r :
  disjoint_region a len r = true <-> a + len <= fst r \/ fst r + snd r <= a.
Proof.
  unfold disjoint_region. rewrite orb_true_iff, !Z.leb_le. tauto.
Qed.

Lemma region_ok_spec o a len :
  region_ok o a len = true ->
  0 < len /\ 0 < a /\ a mod os_pagesize o = 0 /\ a + len < 2 ^ 64 /\
  forall r, In r (os_maps o) -> a + len <= fst r \/ fst r + snd r <= a.
Proof.
  unfold region_ok. rewrite !andb_true_iff, !Z.ltb_lt, Z.eqb_eq, forallb_forall.
  intros [[[[H1 H2] H3] H4] H5]. repeat split; try assumption.
  intros r Hr. apply disjoint_region_spec. apply H5. exact Hr.
Qed.

Lemma maps_ok_in ps maps r :
  maps_ok ps maps -> In r maps ->
  0 < fst r /\ fst r mod ps = 0 /\ 0 < snd r /\ fst r + snd r < 2 ^ 64.
Proof.
  induction maps as [|x maps IH]; intros Hm Hin; [contradiction|].
  destruct Hm as [H1 [H2 [H3 [H4 [H5 H6]]]]].
  destruct Hin as [-> | Hin]; [tauto | apply IH; assumption].
Qed.

Lemma maps_ok_apart ps maps :
  maps_ok ps maps -> forall r1 r2, In r1 maps -> In r2 maps ->
  r1 = r2 \/ fst r1 + snd r1 <= fst r2 \/ fst r2 + snd r2 <= fst r1.
Proof.
  induction maps as [|x maps IH]; intros Hm r1 r2 Hr1 Hr2; [contradiction|].
  destruct Hm as [H1 [H2 [H3 [H4 [H5 H6]]]]]. rewrite forallb_forall in H5.
  destruct Hr1 as [-> | Hr1], Hr2 as [-> | Hr2].
  - left. reflexivity.
  - right. apply disjoint_region_spec. apply H5. exact Hr2.
  - right. apply or_comm. apply disjoint_region_spec. apply H5. exact Hr1.
  - apply IH; assumption.
Qed.

Lemma maps_ok_base ps maps a l1 l2 :
  maps_ok ps maps -> In (a, l1) maps -> In (a, l2) maps -> l1 = l2.
Proof.
  intros Hm H1 H2.
  pose proof (maps_ok_in _ _ _ Hm H1) as [_ [_ [P1 _]]].
  pose proof (maps_ok_in _ _ _ Hm H2) as [_ [_ [P2 _]]].
  destruct (maps_ok_apart _ _ Hm _ _ H1 H2) as [E | E]; [congruence|].
  cbn [fst snd] in *. lia.
Qed.

Lemma maps_ok_filter ps maps f :
  maps_ok ps maps -> maps_ok ps (filter f maps).
Proof.
  induction maps as [|x maps IH]; intros Hm; [exact I|].
  destruct Hm as [H1 [H2 [H3 [H4 [H5 H6]]]]]. cbn [filter].
  destruct (f x); [|apply IH; exact H6].
  cbn [maps_ok]. repeat split; try assumption; [|apply IH; exact H6].
  rewrite forallb_forall in *. intros r Hr. apply H5.
  apply filter_In in Hr. tauto.
Qed.

Lemma maps_ok_cons o a len :
  maps_ok (os_pagesize o) (os_maps o) -> region_ok o a len = true ->
  maps_ok (os_pagesize o) ((a, len) :: os_maps o).
Proof.
  intros Hm Hr. pose proof (region_ok_spec _ _ _ Hr) as [H1 [H2 [H3 [H4 H5]]]].
  cbn [maps_ok fst snd]. repeat split; try assumption.
  unfold region_ok in Hr. rewrite !andb_true_iff in Hr. tauto.
Qed.

Lemma is_mapped_inv maps x k :
  is_mapped maps x k = true ->
  exists r, In r maps /\ fst r <= x /\ x + k <= fst r + snd r.
Proof.
  unfold is_mapped. rewrite existsb_exists. intros [r [Hin Hr]].
  unfold in_region in Hr. rewrite andb_true_iff, !Z.leb_le in Hr.
  exists r. tauto.
Qed.

(** ** The arena sequence *)

Lemma arena_chain_suffix m l1 : forall hd a l2,
  arena_chain m hd (l1 ++ a :: l2) -> arena_chain m a (a :: l2).
Proof.
  induction l1 as [|x l1 IH]; intros hd a l2 H; inversion H; subst.
  - exact H.
  - eapply IH. eassumption.
Qed.

Lemma arena_chain_head m hd a l : arena_chain m hd (a :: l) -> hd = a /\ a <> NULL.
Proof. intros H. inversion H; subst. auto. Qed.

Lemma arena_chain_nonnull m l : forall hd, arena_chain m hd l -> ~ In NULL l.
Proof.
  induction l as [|x l IH]; intros hd H; inversion H; subst; [tauto|].
  intros [E | E]; [congruence | eapply IH; eassumption].
Qed.

Lemma arena_chain_nodup m l : forall hd, arena_chain m hd l -> NoDup l.
Proof.
  induction l as [|x l IH]; intros hd H; [constructor|].
  inversion H as [|? ? Hx Hc]; subst. constructor; [|eapply IH; eassumption].
  intros Hin. apply in_split in Hin as [l1 [l2 ->]].
  pose proof (arena_chain_suffix _ _ _ _ _ Hc) as Hs.
  pose proof (arena_chain_unique _ _ _ _ H Hs) as E.
  apply (f_equal (@length Z)) in E. cbn [length] in E.
  rewrite length_app in E. cbn [length] in E. lia.
Qed.

Lemma arena_chain_last m l1 : forall hd a,
  arena_chain m hd (l1 ++ [a]) -> rd m (arena_next a) 8 = NULL.
Proof.
  induction l1 as [|x l1 IH]; intros hd a H; inversion H as [|? ? Hx Hc]; subst.
  - inversion Hc. reflexivity.
  - eapply IH. eassumption.
Qed.

Lemma arena_chain_snoc m m' l : forall hd a b,
  arena_chain m hd (l ++ [a]) ->
  Forall (fun x => rd m' (arena_next x) 8 = rd m (arena_next x) 8) l ->
  rd m' (arena_next a) 8 = b -> b <> NULL -> rd m' (arena_next b) 8 = NULL ->
  arena_chain m' hd (l ++ [a; b]).
Proof.
  induction l as [|x l IH]; intros hd a b H Hf; inversion H as [|? ? Hx Hc]; subst;
    intros Ha Hb Hbn.
  - cbn [app]. apply chain_cons; [assumption|]. rewrite Ha.
    apply chain_cons; [assumption|]. rewrite Hbn. apply chain_nil.
  - apply Forall_cons_iff in Hf as [F1 F2]. cbn [app].
    apply chain_cons; [assumption|]. rewrite F1. eapply IH; eauto.
Qed.

Lemma arena_ok_mapped w a fl lb :
  arena_ok (w_mem w) (os_maps (w_os w)) a fl lb -> arena_mapped w a.
Proof.
  intros [A1 [A2 [A3 _]]]. unfold arena_mapped. eapply is_mapped_in; [exact A1 | lia |].
  unf. lia.
Qed.

Lemma accommodating_loop_res w size l : forall a fuel,
  arena_chain (w_mem w) a l ->
  Forall (arena_mapped w) l ->
  res fuel (S (length l)) (accommodating_loop fuel size a w)
    (first_arena (w_mem w) size l) w.
Proof.
  induction l as [|x l IH]; intros a fuel Hc Hm;
    inversion Hc as [|? ? Hx Hc']; subst.
  - destruct fuel; [apply res_zero | left; reflexivity].
  - destruct fuel; [apply res_zero|].
    apply Forall_cons_iff in Hm as [Hmx Hm]. cbn [accommodating_loop first_arena length].
    destruct (x =? NULL) eqn:E; [apply Z.eqb_eq in E; contradiction|].
    erewrite bind_ok by (apply (load64_arena_field w x _ Hmx); arena_field).
    destruct (rd (w_mem w) (arena_max_free_space x) 8 <? size).
    + erewrite bind_ok by (apply (load64_arena_field w x _ Hmx); arena_field).
      apply res_succ. apply IH; assumption.
    + left. reflexivity.
Qed.

Lemma find_arena_loop_res w ptr l : forall a fuel,
  arena_chain (w_mem w) a l ->
  Forall (arena_mapped w) l ->
  res fuel (S (length l)) (find_arena_loop fuel ptr a w) (owner (w_mem w) ptr l) w.
Proof.
  induction l as [|x l IH]; intros a fuel Hc Hm;
    inversion Hc as [|? ? Hx Hc']; subst.
  - destruct fuel; [apply res_zero | left; reflexivity].
  - destruct fuel; [apply res_zero|].
    apply Forall_cons_iff in Hm as [Hmx Hm]. cbn [find_arena_loop owner length].
    destruct (x =? NULL) eqn:E; [apply Z.eqb_eq in E; contradiction|].
    destruct (ptr_in_arena_spec w x ptr Hmx) as [b [Hb Hiff]].
    erewrite bind_ok by exact Hb.
    assert (Eb : in_usable_rangeb (w_mem w) x ptr = b).
    { unfold in_usable_rangeb. unfold in_usable_range in Hiff.
      destruct b.
      - destruct Hiff as [Hiff _]. specialize (Hiff eq_refl).
        apply andb_true_iff. rewrite Z.leb_le, Z.ltb_lt. exact Hiff.
      - apply not_true_iff_false. intros Ht.
        apply andb_true_iff in Ht. rewrite Z.leb_le, Z.ltb_lt in Ht.
        destruct Hiff as [_ Hiff]. specialize (Hiff Ht). discriminate. }
    rewrite Eb. destruct b; [left; reflexivity|].
    erewrite bind_ok by (apply (load64_arena_field w x _ Hmx); arena_field).
    apply res_succ. apply IH; assumption.
Qed.

Lemma first_arena_null m size l :
  first_arena m size l = NULL -> ~ In NULL l ->
  Forall (fun a => rd m (arena_max_free_space a) 8 < size) l.
Proof.
  induction l as [|x l IH]; intros H Hn; [constructor|].
  cbn [first_arena] in H.
  destruct (rd m (arena_max_free_space x) 8 <? size) eqn:E.
  - apply Z.ltb_lt in E. constructor; [exact E|]. apply IH; [exact H|].
    intros Hin. apply Hn. right. exact Hin.
  - exfalso. apply Hn. left. exact H.
Qed.

Lemma first_arena_found m size l :
  first_arena m size l <> NULL ->
  exists l1 l2, l = l1 ++ first_arena m size l :: l2 /\
    Forall (fun a => rd m (arena_max_free_space a) 8 < size) l1 /\
    size <= rd m (arena_max_free_space (first_arena m size l)) 8.
Proof.
  induction l as [|x l IH]; intros H; [cbn in H; congruence|].
  cbn [first_arena] in *.
  destruct (rd m (arena_max_free_space x) 8 <? size) eqn:E.
  - apply Z.ltb_lt in E. destruct (IH H) as [l1 [l2 [E1 [E2 E3]]]].
    exists (x :: l1), l2. split; [cbn [app]; f_equal; exact E1|].
    split; [constructor; assumption | exact E3].
  - apply Z.ltb_ge in E. exists [], l. split; [reflexivity|].
    split; [constructor | exact E].
Qed.

Lemma first_arena_app m size l1 a l2 :
  Forall (fun a => rd m (arena_max_free_space a) 8 < size) l1 ->
  size <= rd m (arena_max_free_space a) 8 ->
  first_arena m size (l1 ++ a :: l2) = a.
Proof.
  induction l1 as [|x l1 IH]; intros H Ha; cbn [app first_arena].
  - apply Z.ltb_ge in Ha. rewrite Ha. reflexivity.
  - apply Forall_cons_iff in H as [H1 H2]. apply Z.ltb_lt in H1. rewrite H1.
    apply IH; assumption.
Qed.

Lemma owner_none m ptr l :
  Forall (fun a => in_usable_rangeb m a ptr = false) l -> owner m ptr l = NULL.
Proof.
  induction l as [|x l IH]; intros H; [reflexivity|].
  apply Forall_cons_iff in H as [H1 H2]. cbn [owner]. rewrite H1. apply IH. exact H2.
Qed.

Lemma owner_app m ptr l1 a l2 :
  Forall (fun a => in_usable_rangeb m a ptr = false) l1 ->
  in_usable_rangeb m a ptr = true ->
  owner m ptr (l1 ++ a :: l2) = a.
Proof.
  induction l1 as [|x l1 IH]; intros H Ha; cbn [app owner].
  - rewrite Ha. reflexivity.
  - apply Forall_cons_iff in H as [H1 H2]. rewrite H1. apply IH; assumption.
Qed.

(** ** Framing the arenas of the sequence *)

Ltac heap H :=
  destruct H as [Hi [Hps [Hmin [Hne [Hch [Hpl [Hok [Htl Hheld]]]]]]]].

Lemma arena_reads_span m maps a fl lb x :
  arena_ok m maps a fl lb -> arena_reads a fl lb x -> a <= x < a + rd m a 8.
Proof.
  intros [A1 [A2 [A3 [A4 [A5 [A6 [A7 [A8 [A9 A10]]]]]]]]] Hx.
  unfold gapped in A6. pose proof (spaced_in 1 _ _ _ ltac:(lia) A6) as Hb.
  rewrite Forall_forall in Hb, A8. unf.
  destruct Hx as [Hx | [Hx | Hx]]; [lia | |];
    apply Exists_exists in Hx as [y [Hy Hx]].
  - specialize (Hb y Hy). cbn beta in Hb. unf. lia.
  - specialize (A8 y Hy). unfold live_block in A8. unf. lia.
Qed.

Lemma arena_ok_keep m m' maps maps' a fl lb :
  arena_ok m maps a fl lb ->
  In (a, rd m a 8) maps' ->
  (forall x, a <= x < a + rd m a 8 -> m' x = m x) ->
  arena_ok m' maps' a fl lb.
Proof.
  intros H Hin F. eapply arena_ok_frame; [exact H | exact Hin |].
  intros x Hx. apply F. eapply arena_reads_span; eassumption.
Qed.

Lemma arena_links_keep m m' maps a fl lb :
  arena_ok m maps a fl lb ->
  (forall x, a + 24 <= x < a + 40 -> m' x = m x) ->
  rd m' (arena_next a) 8 = rd m (arena_next a) 8 /\
  rd m' (arena_prev a) 8 = rd m (arena_prev a) 8.
Proof.
  intros _ F. unf. split; apply rd_ext; intros i Hi; simpl in Hi; apply F; lia.
Qed.

Lemma same_heap_refl w : same_heap w w.
Proof. unfold same_heap. tauto. Qed.

Lemma same_heap_ok w w' held ars : same_heap w w' -> heap_ok w held ars -> heap_ok w' held ars.
Proof.
  intros [E1 [E2 [E3 E4]]] H. unfold heap_ok in *. rewrite E1, E2, E3, E4. exact H.
Qed.

Lemma same_heap_inv w w' held : same_heap w w' -> inv w held -> inv w' held.
Proof.
  intros Hs [H1 [H2 H3]]. pose proof Hs as [E1 [E2 [E3 E4]]].
  unfold inv. rewrite E3, E4. split; [exact H1|]. split; [exact H2|].
  destruct H3 as [H3 | [ars H3]].
  - left. unfold heap_none in *. rewrite E2, E3. exact H3.
  - right. exists ars. eapply same_heap_ok; eassumption.
Qed.

Lemma heap_ok_addrs w held ars :
  heap_ok w held ars ->
  NoDup (map av_addr ars) /\ ~ In NULL (map av_addr ars) /\
  Forall (arena_mapped w) (map av_addr ars).
Proof.
  intros H. heap H. split; [eapply arena_chain_nodup; eassumption|].
  split; [eapply arena_chain_nonnull; eassumption|].
  apply Forall_forall. intros a Ha. apply in_map_iff in Ha as [av [<- Hav]].
  rewrite Forall_forall in Hok. eapply arena_ok_mapped. apply Hok. exact Hav.
Qed.

(** Distinct arenas of the sequence lie in distinct mappings. *)
Lemma arenas_apart ps m maps (ars : list arena_view) av1 av2 :
  maps_ok ps maps ->
  Forall (fun av => arena_ok m maps (av_addr av) (av_free av) (av_live av)) ars ->
  In av1 ars -> In av2 ars -> av_addr av1 <> av_addr av2 ->
  av_addr av1 + rd m (av_addr av1) 8 <= av_addr av2 \/
  av_addr av2 + rd m (av_addr av2) 8 <= av_addr av1.
Proof.
  intros Hm Hok H1 H2 Hne. rewrite Forall_forall in Hok.
  pose proof (Hok _ H1) as [A1 _]. pose proof (Hok _ H2) as [B1 _]. unf.
  destruct (maps_ok_apart _ _ Hm _ _ A1 B1) as [E | E]; [congruence|].
  cbn [fst snd] in E. exact E.
Qed.

Lemma held_ok_update maps ars1 av ars2 fl' lb' pn :
  held_ok maps (ars1 ++ av :: ars2) pn ->
  (forall s, In (fst pn - sizeof_header, s) (av_live av) ->
             In (fst pn - sizeof_header, s) lb') ->
  held_ok maps (ars1 ++ mk_arena (av_addr av) fl' lb' :: ars2) pn.
Proof.
  intros [Hp [[av0 [s [Hin [Hb Hs]]]] | [r [Hr [Hn Hrange]]]]] Hsub; (split; [exact Hp|]).
  - left. apply in_app_or in Hin as [Hin | [<- | Hin]].
    + exists av0, s. split; [apply in_or_app; left; exact Hin | tauto].
    + exists (mk_arena (av_addr av) fl' lb'), s. split; [apply in_or_app; right; left; reflexivity|].
      cbn [av_live]. split; [apply Hsub; exact Hb | exact Hs].
    + exists av0, s. split; [apply in_or_app; right; right; exact Hin | tauto].
  - right. exists r. split; [exact Hr|]. split; [|exact Hrange].
    rewrite map_app in *. cbn [map av_addr] in *. exact Hn.
Qed.

(** One arena of the sequence changes, within its own bytes and away
    from its links. *)
Lemma heap_update w held held' ars1 av ars2 m' fl' lb' :
  maps_ok (os_pagesize (w_os w)) (os_maps (w_os w)) ->
  heap_ok w held (ars1 ++ av :: ars2) ->
  arena_ok m' (os_maps (w_os w)) (av_addr av) fl' lb' ->
  (forall x, x < av_addr av + 8 \/ av_addr av + 24 <= x < av_addr av + 40 \/
             av_addr av + rd (w_mem w) (av_addr av) 8 <= x -> m' x = w_mem w x) ->
  Forall (held_ok (os_maps (w_os w)) (ars1 ++ mk_arena (av_addr av) fl' lb' :: ars2)) held' ->
  heap_ok (set_mem w m') held' (ars1 ++ mk_arena (av_addr av) fl' lb' :: ars2).
Proof.
  intros Hm H Hav F Hheld'. pose proof (heap_ok_addrs _ _ _ H) as [Hnd _]. heap H.
  set (m := w_mem w) in *. set (a := av_addr av) in *.
  assert (Eaddrs : map av_addr (ars1 ++ mk_arena a fl' lb' :: ars2)
                   = map av_addr (ars1 ++ av :: ars2)).
  { rewrite !map_app. reflexivity. }
  assert (Hav0 : In av (ars1 ++ av :: ars2)) by (apply in_or_app; right; left; reflexivity).
  assert (Fo : forall av0, In av0 (ars1 ++ av :: ars2) -> av_addr av0 <> a ->
               forall x, av_addr av0 <= x < av_addr av0 + rd m (av_addr av0) 8 -> m' x = m x).
  { intros av0 Hin Hna x Hx. apply F.
    destruct (arenas_apart _ _ _ _ av0 av Hm Hok Hin Hav0 Hna) as [E | E]; fold a in E.
    - rewrite Forall_forall in Hok. pose proof (Hok _ Hav0) as [_ [_ [A3 _]]]. unf.
      fold a in A3. lia.
    - lia. }
  assert (Hl : forall av0, In av0 (ars1 ++ av :: ars2) ->
               rd m' (arena_next (av_addr av0)) 8 = rd m (arena_next (av_addr av0)) 8 /\
               rd m' (arena_prev (av_addr av0)) 8 = rd m (arena_prev (av_addr av0)) 8).
  { intros av0 Hin. rewrite Forall_forall in Hok. pose proof (Hok _ Hin) as Hok0.
    destruct (Z.eq_dec (av_addr av0) a) as [E | E].
    - rewrite E. unf. split; apply rd_ext; intros i Hbi; simpl in Hbi; apply F; lia.
    - eapply arena_links_keep; [exact Hok0|]. intros x Hx. apply (Fo av0 Hin E).
      destruct Hok0 as [_ [_ [A3 _]]]. unf. lia. }
  assert (Hhd : In (arena_head (w_state w)) (map av_addr (ars1 ++ av :: ars2))).
  { destruct (map av_addr (ars1 ++ av :: ars2)) as [|h t] eqn:E.
    - apply map_eq_nil in E. destruct ars1; discriminate.
    - apply arena_chain_head in Hch as [-> _]. left. reflexivity. }
  apply in_map_iff in Hhd as [avh [Ehd Hhd]].
  unfold heap_ok. cbn [set_mem w_mem w_os w_state]. rewrite Eaddrs.
  split; [exact Hi|]. split; [exact Hps|]. split; [exact Hmin|].
  split; [destruct ars1; discriminate|].
  split; [|split; [|split; [|split; [exact Htl | exact Hheld']]]].
  - eapply arena_chain_frame; [exact Hch|]. apply Forall_forall.
    intros x Hx. apply in_map_iff in Hx as [av0 [<- Hin]]. apply Hl. exact Hin.
  - rewrite <- Ehd. rewrite (proj2 (Hl avh Hhd)). rewrite Ehd.
    eapply prev_linked_frame; [exact Hpl|]. apply Forall_forall.
    intros x Hx. apply in_map_iff in Hx as [av0 [<- Hin]]. apply Hl. exact Hin.
  - apply Forall_forall. intros av0 Hin.
    assert (Hin0 : av0 = mk_arena a fl' lb' \/ (In av0 (ars1 ++ av :: ars2) /\ av0 <> av)).
    { apply in_app_or in Hin as [Hin | [<- | Hin]]; [right | left; reflexivity | right].
      - split; [apply in_or_app; left; exact Hin|].
        intros ->. rewrite map_app in Hnd. cbn [map] in Hnd.
        apply NoDup_remove_2 in Hnd. apply Hnd. apply in_or_app. left.
        apply in_map. exact Hin.
      - split; [apply in_or_app; right; right; exact Hin|].
        intros ->. rewrite map_app in Hnd. cbn [map] in Hnd.
        apply NoDup_remove_2 in Hnd. apply Hnd. apply in_or_app. right.
        apply in_map. exact Hin. }
    destruct Hin0 as [-> | [Hin0 Hne0]]; [exact Hav|].
    assert (Ha0 : av_addr av0 <> a).
    { intros E. apply Hne0. clear - Hnd Hin0 Hav0 E. unfold a in E.
      rewrite map_app in Hnd. cbn [map] in Hnd.
      apply in_app_or in Hin0 as [Hin0 | [Hin0 | Hin0]]; [| symmetry; exact Hin0 |];
        apply NoDup_remove_2 in Hnd; exfalso; apply Hnd; apply in_or_app;
        [left | right]; rewrite <- E; apply in_map; exact Hin0. }
    rewrite Forall_forall in Hok. pose proof (Hok _ Hin0) as Hok0.
    eapply arena_ok_keep; [exact Hok0 | apply Hok0 |].
    intros x Hx. eapply Fo; eassumption.
Qed.

(** ** Allocation served by an arena of the sequence *)

Lemma map_split_at {A B} (f : A -> B) (l : list A) l1 b l2 :
  map f l = l1 ++ b :: l2 ->
  exists k1 x k2, l = k1 ++ x :: k2 /\ map f k1 = l1 /\ f x = b /\ map f k2 = l2.
Proof.
  revert l1. induction l as [|y l IH]; intros l1 H.
  - destruct l1; discriminate.
  - destruct l1 as [|z l1]; cbn [map app] in H; inversion H; subst.
    + exists [], y, l. auto.
    + destruct (IH l1 H2) as [k1 [x [k2 [E1 [E2 [E3 E4]]]]]].
      exists (y :: k1), x, k2. subst. auto.
Qed.

Lemma malloc_enter w held ars fuel n :
  heap_ok w held ars -> 0 < n ->
  TAlloc_malloc fuel n w
  = (arena <- (arena_node <- accommodating_loop fuel n (arena_head (w_state w)) ;;
               if arena_node =? NULL then TAlloc_alloc_more_space n else ret arena_node) ;;
     if arena =? NULL then ret NULL else malloc_carve fuel arena n) w.
Proof.
  intros H Hn. heap H. unfold TAlloc_malloc, TAlloc_get_accommodating_arena.
  unfold bind at 1. unfold get_state at 1. rewrite Hi. cbn [Z.eqb Pos.eqb].
  unfold bind at 1. unfold ret at 1.
  destruct (n =? 0) eqn:E; [apply Z.eqb_eq in E; lia|].
  reflexivity.
Qed.

Lemma heap_carve w held ars1 av ars2 n :
  maps_ok (os_pagesize (w_os w)) (os_maps (w_os w)) ->
  heap_ok w held (ars1 ++ av :: ars2) ->
  0 < n <= maxsize (av_free av) ->
  exists pre h post m',
    split_fit n (av_free av) = Some (pre, h, post) /\
    (forall fuel, res fuel (S (length (av_free av)))
                    (malloc_carve fuel (av_addr av) n w) (fst h + 16) (set_mem w m')) /\
    heap_ok (set_mem w m') ((fst h + 16, n) :: held)
      (ars1 ++ mk_arena (av_addr av) (carve_list n (av_free av))
                 ((fst h, granted n h) :: av_live av) :: ars2) /\
    (forall x, x < av_addr av + 8 \/ av_addr av + 24 <= x < av_addr av + 40 \/
               av_addr av + rd (w_mem w) (av_addr av) 8 <= x -> m' x = w_mem w x).
Proof.
  intros Hm H Hn. pose proof H as H0. heap H.
  pose proof Hok as Hok'. rewrite Forall_forall in Hok'.
  assert (Hav : In av (ars1 ++ av :: ars2)) by (apply in_or_app; right; left; reflexivity).
  pose proof (Hok' _ Hav) as Hoka.
  destruct (arena_malloc_step w (av_addr av) _ _ n Hoka Hn)
    as [m' [pre [h [post [Hsplit [Hrun [Hok1 [G1 [G2 [G3 F]]]]]]]]]].
  exists pre, h, post, m'.
  split; [exact Hsplit|]. split; [exact Hrun|]. split; [|exact F].
  eapply heap_update; try eassumption.
  constructor.
  - split; [cbn [snd]; lia|]. left.
    exists (mk_arena (av_addr av) (carve_list n (av_free av))
              ((fst h, granted n h) :: av_live av)), (granted n h).
    split; [apply in_or_app; right; left; reflexivity|]. cbn [av_live fst snd].
    split; [left; f_equal; unf; lia | exact G1].
  - eapply Forall_impl; [|exact Hheld]. intros pn Hpn.
    eapply held_ok_update; [exact Hpn|]. intros s Hs. right. exact Hs.
Qed.

(** The allocation is served by the first arena whose cached maximum
    admits it. *)
Lemma malloc_served w held ars n :
  maps_ok (os_pagesize (w_os w)) (os_maps (w_os w)) ->
  heap_ok w held ars -> 0 < n ->
  first_arena (w_mem w) n (map av_addr ars) <> NULL ->
  exists ars1 av ars2 pre h post m',
    ars = ars1 ++ av :: ars2 /\
    Forall (fun a => rd (w_mem w) (arena_max_free_space a) 8 < n) (map av_addr ars1) /\
    split_fit n (av_free av) = Some (pre, h, post) /\
    (forall fuel, res fuel (S (length ars + length (av_free av)))
                    (TAlloc_malloc fuel n w) (fst h + 16) (set_mem w m')) /\
    heap_ok (set_mem w m') ((fst h + 16, n) :: held)
      (ars1 ++ mk_arena (av_addr av) (carve_list n (av_free av))
                 ((fst h, granted n h) :: av_live av) :: ars2) /\
    (forall x, x < av_addr av + 8 \/ av_addr av + 24 <= x < av_addr av + 40 \/
               av_addr av + rd (w_mem w) (av_addr av) 8 <= x -> m' x = w_mem w x) /\
    av_addr av = first_arena (w_mem w) n (map av_addr ars).
Proof.
  intros Hm H Hn Hfa. pose proof (heap_ok_addrs _ _ _ H) as [Hnd [Hnn Hmapped]].
  pose proof H as H0. heap H.
  destruct (first_arena_found _ _ _ Hfa) as [l1 [l2 [E1 [E2 E3]]]].
  set (a := first_arena (w_mem w) n (map av_addr ars)) in *.
  destruct (map_split_at _ _ _ _ _ E1) as [ars1 [av [ars2 [-> [<- [Ea <-]]]]]].
  pose proof Hok as Hok'. rewrite Forall_forall in Hok'.
  assert (Hav : In av (ars1 ++ av :: ars2)) by (apply in_or_app; right; left; reflexivity).
  pose proof (Hok' _ Hav) as Hoka.
  assert (Hmax : n <= maxsize (av_free av)).
  { destruct Hoka as [_ [_ [_ [_ [_ [_ [A7 _]]]]]]]. rewrite <- A7, Ea. exact E3. }
  destruct (heap_carve w held ars1 av ars2 n Hm H0 ltac:(lia))
    as [pre [h [post [m' [Hsplit [Hrun [H1 F]]]]]]].
  exists ars1, av, ars2, pre, h, post, m'.
  split; [reflexivity|]. split; [exact E2|]. split; [exact Hsplit|].
  split; [|split; [exact H1 | split; [exact F | exact Ea]]].
  intros fuel. rewrite (malloc_enter _ _ _ _ _ H0 Hn).
  eapply res_bind_same.
  - eapply res_bind_same.
    + eapply res_weaken; [apply accommodating_loop_res; eassumption|].
      rewrite length_map. lia.
    + fold a. destruct (a =? NULL) eqn:E; [apply Z.eqb_eq in E; contradiction|].
      left. reflexivity.
  - cbn beta. destruct (a =? NULL) eqn:E; [apply Z.eqb_eq in E; contradiction|].
    rewrite <- Ea. eapply res_weaken; [apply Hrun | lia].
Qed.

(** ** Releasing an arena *)

Lemma arena_reads_away m maps a fl lb x :
  arena_ok m maps a fl lb -> arena_reads a fl lb x ->
  a <= x < a + 24 \/ a + 40 <= x < a + rd m a 8.
Proof.
  intros [A1 [A2 [A3 [A4 [A5 [A6 [A7 [A8 [A9 A10]]]]]]]]] Hx.
  unfold gapped in A6. pose proof (spaced_in 1 _ _ _ ltac:(lia) A6) as Hb.
  rewrite Forall_forall in Hb, A8. unf.
  destruct Hx as [Hx | [Hx | Hx]]; [lia | |];
    apply Exists_exists in Hx as [y [Hy Hx]].
  - specialize (Hb y Hy). cbn beta in Hb. unf. lia.
  - specialize (A8 y Hy). unfold live_block in A8. unf. lia.
Qed.

(** The links of the arenas of the sequence are not among the bytes their
    well-formedness reads. *)
Lemma arenas_relink ps m m' maps maps' (ars ars' : list arena_view) :
  maps_ok ps maps ->
  Forall (fun av => arena_ok m maps (av_addr av) (av_free av) (av_live av)) ars ->
  (forall x, (forall avb, In avb ars -> ~ av_addr avb + 24 <= x < av_addr avb + 40) ->
             m' x = m x) ->
  (forall av, In av ars' -> In av ars /\ In (av_addr av, rd m (av_addr av) 8) maps') ->
  Forall (fun av => arena_ok m' maps' (av_addr av) (av_free av) (av_live av)) ars'.
Proof.
  intros Hm Hok F Hsub. apply Forall_forall. intros av Hav.
  destruct (Hsub av Hav) as [Hin Hmap]. pose proof Hok as Hok'.
  rewrite Forall_forall in Hok'. pose proof (Hok' _ Hin) as Hoka.
  eapply arena_ok_frame; [exact Hoka | exact Hmap |].
  intros x Hx. apply F. intros avb Hb Hxb.
  pose proof (arena_reads_away _ _ _ _ _ _ Hoka Hx) as Hr.
  destruct (Z.eq_dec (av_addr av) (av_addr avb)) as [E | E]; [rewrite E in Hr; lia|].
  pose proof (Hok' _ Hb) as [_ [_ [B3 _]]]. pose proof Hoka as [_ [_ [A3 _]]]. unf.
  destruct (arenas_apart _ _ _ _ av avb Hm Hok Hin Hb E); lia.
Qed.

Lemma arena_max_bound m maps a fl lb :
  arena_ok m maps a fl lb -> maxsize fl + 56 <= rd m a 8.
Proof.
  intros [A1 [A2 [A3 [A4 [A5 [A6 [A7 [A8 [A9 A10]]]]]]]]].
  unfold gapped in A6. pose proof (spaced_in 1 _ _ _ ltac:(lia) A6) as Hb. unf.
  destruct fl as [|c fl]; [cbn [maxsize]; lia|].
  destruct (maxsize_attained (c :: fl) ltac:(discriminate)) as [x [Hx Ex]].
  { eapply Forall_impl; [|exact Hb]. intros y Hy. cbn beta in Hy. tauto. }
  rewrite Forall_forall in Hb. specialize (Hb x Hx). cbn beta in Hb. unf. lia.
Qed.

Lemma full_arena_no_blocks m maps a fl lb :
  arena_ok m maps a fl lb -> rd m a 8 = maxsize fl + 56 -> lb = [].
Proof.
  intros [A1 [A2 [A3 [A4 [A5 [A6 [A7 [A8 [A9 A10]]]]]]]]] Hfull.
  unfold gapped in A6. pose proof (spaced_in 1 _ _ _ ltac:(lia) A6) as Hb. unf.
  destruct fl as [|c fl]; [cbn [maxsize] in Hfull; lia|].
  destruct (maxsize_attained (c :: fl) ltac:(discriminate)) as [x [Hx Ex]].
  { eapply Forall_impl; [|exact Hb]. intros y Hy. cbn beta in Hy. tauto. }
  rewrite Forall_forall in Hb. specialize (Hb x Hx). cbn beta in Hb. unf.
  destruct lb as [|b lb]; [reflexivity|]. exfalso.
  apply Forall_cons_iff in A8 as [[B1 [B2 [B3 _]]] _].
  apply Forall_cons_iff in A9 as [B4 _]. rewrite Forall_forall in B4.
  specialize (B4 x Hx). unfold disjoint_chunks in B4. unf. lia.
Qed.

Lemma arena_chain_delete m m' l1 : forall hd p a l2,
  arena_chain m hd (l1 ++ p :: a :: l2) ->
  Forall (fun x => rd m' (arena_next x) 8 = rd m (arena_next x) 8) (l1 ++ l2) ->
  rd m' (arena_next p) 8 = rd m (arena_next a) 8 ->
  arena_chain m' hd (l1 ++ p :: l2).
Proof.
  induction l1 as [|x l1 IH]; intros hd p a l2 H Hf Hp;
    inversion H as [|? ? Hx Hc]; subst; cbn [app] in *.
  - inversion Hc as [|? ? Ha Hc2]; subst.
    apply chain_cons; [assumption|]. rewrite Hp.
    eapply arena_chain_frame; eassumption.
  - apply Forall_cons_iff in Hf as [F1 F2].
    apply chain_cons; [assumption|]. rewrite F1. eapply IH; eassumption.
Qed.

Lemma prev_linked_delete m m' l1 : forall p0 p a l2,
  prev_linked m p0 (l1 ++ p :: a :: l2) ->
  Forall (fun x => rd m' (arena_prev x) 8 = rd m (arena_prev x) 8) (l1 ++ p :: tl l2) ->
  (forall nx l2', l2 = nx :: l2' -> rd m' (arena_prev nx) 8 = p) ->
  prev_linked m' p0 (l1 ++ p :: l2).
Proof.
  induction l1 as [|x l1 IH]; intros p0 p a l2 H Hf Hn; cbn [app prev_linked] in *.
  - destruct H as [H1 [H2 H3]]. apply Forall_cons_iff in Hf as [F1 F2].
    split; [rewrite F1; exact H1|].
    destruct l2 as [|nx l2']; [exact I|]. cbn [prev_linked tl] in *.
    split; [eapply Hn; reflexivity|].
    destruct H3 as [_ H3]. eapply prev_linked_frame; eassumption.
  - destruct H as [H1 H2]. apply Forall_cons_iff in Hf as [F1 F2].
    split; [rewrite F1; exact H1|]. eapply IH; eassumption.
Qed.

Lemma prev_linked_at m l1 : forall p0 p a l2,
  prev_linked m p0 (l1 ++ p :: a :: l2) -> rd m (arena_prev a) 8 = p.
Proof.
  induction l1 as [|x l1 IH]; intros p0 p a l2 H; cbn [app prev_linked] in *.
  - tauto.
  - destruct H as [_ H]. eapply IH; eassumption.
Qed.

Lemma arena_chain_at m l1 : forall h0 a l2,
  arena_chain m h0 (l1 ++ a :: l2) ->
  rd m (arena_next a) 8 = hd NULL l2 /\ a <> NULL.
Proof.
  intros h0 a l2 H. apply arena_chain_suffix in H.
  inversion H as [|? ? Ha Hc]; subst. split; [|assumption].
  destruct l2 as [|b l2]; inversion Hc; subst; reflexivity.
Qed.

Lemma last_app_cons {A} (l1 : list A) x l2 d :
  last (l1 ++ x :: l2) d = last (x :: l2) d.
Proof.
  induction l1 as [|y l1 IH]; [reflexivity|].
  cbn [app]. rewrite <- IH. cbn [last]. destruct (l1 ++ x :: l2) eqn:E; [|reflexivity].
  destruct l1; discriminate.
Qed.

Lemma tail_ok_delete ps m maps (ars1 : list arena_view) av ars2 t :
  maps_ok ps maps ->
  NoDup (map av_addr (ars1 ++ av :: ars2)) ->
  ars1 <> [] ->
  arena_ok m maps (av_addr av) (av_free av) (av_live av) ->
  tail_ok ps maps (map av_addr (ars1 ++ av :: ars2)) t ->
  tail_ok ps (filter (fun r => negb (same_region (av_addr av) (rd m (av_addr av) 8) r)) maps)
    (map av_addr (ars1 ++ ars2)) t.
Proof.
  intros Hm Hnd Hne Hoka Ht. set (a := av_addr av) in *. set (len := rd m a 8) in *.
  assert (Hsub : forall x, In x (map av_addr (ars1 ++ ars2)) ->
                           In x (map av_addr (ars1 ++ av :: ars2))).
  { intros x. rewrite !map_app, !in_app_iff. cbn [map In]. tauto. }
  assert (Hfl : forall r, In r (filter (fun r => negb (same_region a len r)) maps) ->
                          In r maps /\ r <> (a, len)).
  { intros r Hr. apply filter_In in Hr as [Hr Hs]. split; [exact Hr|].
    intros ->. unfold same_region in Hs. cbn [fst snd] in Hs.
    rewrite !Z.eqb_refl in Hs. discriminate. }
  destruct Hoka as [A1 [A2 [A3 [A4 _]]]]. fold a in A1, A2, A3, A4. unf. fold len in A1, A3, A4.
  pose proof (maps_ok_in _ _ _ Hm A1) as [_ [Mal _]]. cbn [fst] in Mal.
  destruct Ht as [Ht | [T1 [T2 [T3 T4]]]].
  - destruct ars2 as [|avn ars2].
    + right. rewrite app_nil_r in *. rewrite map_app in Ht, Hnd. cbn [map] in Ht, Hnd.
      rewrite last_last in Ht. subst t. fold a.
      split; [lia|]. split; [exact Mal|].
      split; [apply NoDup_remove_2 in Hnd; rewrite app_nil_r in Hnd; exact Hnd|].
      left. apply Forall_forall. intros r Hr. apply Hfl in Hr as [Hr Hne'].
      apply disjoint_region_spec.
      destruct (maps_ok_apart _ _ Hm _ _ A1 Hr) as [E | E]; [congruence|].
      cbn [fst snd] in E. unf. lia.
    + left. rewrite Ht. rewrite !map_app. cbn [map].
      rewrite !last_app_cons. reflexivity.
  - right. split; [exact T1|]. split; [exact T2|].
    split; [intros Hin; apply T3, Hsub, Hin|].
    destruct T4 as [T4 | [lt [T4 T5]]].
    + left. rewrite Forall_forall in *. intros r Hr. apply T4. apply Hfl. exact Hr.
    + right. exists lt. split; [|exact T5]. apply filter_In. split; [exact T4|].
      unfold same_region. cbn [fst snd]. apply negb_true_iff. apply andb_false_iff. left.
      apply Z.eqb_neq. intros ->. apply T3. rewrite map_app. apply in_or_app. right.
      left. reflexivity.
Qed.

Lemma fields_apart ps m maps (ars : list arena_view) avx avy z z' :
  maps_ok ps maps ->
  Forall (fun av => arena_ok m maps (av_addr av) (av_free av) (av_live av)) ars ->
  In avx ars -> In avy ars -> av_addr avx <> av_addr avy ->
  av_addr avx <= z < av_addr avx + 40 -> av_addr avy <= z' < av_addr avy + 40 ->
  z <> z'.
Proof.
  intros Hm Hok Hx Hy Hne Hz Hz'. pose proof Hok as Hok'. rewrite Forall_forall in Hok'.
  pose proof (Hok' _ Hx) as [_ [_ [A3 _]]]. pose proof (Hok' _ Hy) as [_ [_ [B3 _]]]. unf.
  destruct (arenas_apart _ _ _ _ avx avy Hm Hok Hx Hy Hne); lia.
Qed.

(** The heap after the arena [av], entirely free and mapped, is unmapped
    and unlinked: [m'] is the memory after the two link updates. *)
Lemma heap_delete w held ars1 avp av ars2 m' o' :
  maps_ok (os_pagesize (w_os w)) (os_maps (w_os w)) ->
  heap_ok w held (ars1 ++ avp :: av :: ars2) ->
  av_live av = [] ->
  os_maps o' = filter (fun r => negb (same_region (av_addr av)
                                        (rd (w_mem w) (av_addr av) 8) r))
                 (os_maps (w_os w)) ->
  os_pagesize o' = os_pagesize (w_os w) ->
  (forall x, ~ av_addr avp + 24 <= x < av_addr avp + 32 ->
             (forall avn, hd_error ars2 = Some avn ->
                          ~ av_addr avn + 32 <= x < av_addr avn + 40) ->
             m' x = w_mem w x) ->
  rd m' (arena_next (av_addr avp)) 8 = rd (w_mem w) (arena_next (av_addr av)) 8 ->
  (forall avn, hd_error ars2 = Some avn -> rd m' (arena_prev (av_addr avn)) 8 = av_addr avp) ->
  heap_ok (mk_world m' o' (w_state w)) held (ars1 ++ avp :: ars2).
Proof.
  intros Hm H Hlive Hmaps Hpsz P1 P2 P3.
  pose proof (heap_ok_addrs _ _ _ H) as [Hnd [Hnn Hmapped]]. heap H.
  set (m := w_mem w) in *. set (a := av_addr av) in *. set (p := av_addr avp) in *.
  set (ars := ars1 ++ avp :: av :: ars2) in *.
  assert (Hina : In av ars) by (apply in_or_app; right; right; left; reflexivity).
  assert (Hinp : In avp ars) by (apply in_or_app; right; left; reflexivity).
  assert (Hsub : forall av0, In av0 (ars1 ++ avp :: ars2) -> In av0 ars /\ av_addr av0 <> a).
  { intros av0 Hin. unfold ars. split.
    - apply in_app_or in Hin as [Hin | [<- | Hin]]; apply in_or_app;
        [left | right; left | right; right; right]; tauto.
    - intros E. unfold ars in Hnd. rewrite map_app in Hnd. cbn [map] in Hnd.
      change (map av_addr ars1 ++ av_addr avp :: av_addr av :: map av_addr ars2)
        with (map av_addr ars1 ++ [av_addr avp] ++ av_addr av :: map av_addr ars2) in Hnd.
      rewrite app_assoc in Hnd. apply NoDup_remove_2 in Hnd. apply Hnd.
      fold a. rewrite <- E. rewrite <- app_assoc.
      apply in_app_or in Hin as [Hin | [<- | Hin]]; apply in_or_app.
      + left. apply in_map. exact Hin.
      + right. left. reflexivity.
      + right. right. apply in_map. exact Hin. }
  assert (Hnext : forall avn, hd_error ars2 = Some avn ->
                              In avn ars /\ av_addr avn <> p /\ av_addr avn <> a /\
                              In avn (ars1 ++ avp :: ars2)).
  { intros avn Hn. destruct ars2 as [|x ars2']; [discriminate|]. inversion Hn; subst x.
    assert (Hin' : In avn (ars1 ++ avp :: avn :: ars2'))
      by (apply in_or_app; right; right; left; reflexivity).
    split; [apply (Hsub avn Hin')|]. split; [|split; [apply (Hsub avn Hin') | exact Hin']].
    unfold ars in Hnd. rewrite map_app in Hnd. cbn [map] in Hnd.
    apply NoDup_remove_2 in Hnd. intros E. apply Hnd. fold p. rewrite <- E.
    apply in_or_app. right. right. left. reflexivity. }
  assert (Fnext : forall av0, In av0 ars -> av_addr av0 <> p ->
                              rd m' (arena_next (av_addr av0)) 8 = rd m (arena_next (av_addr av0)) 8).
  { intros av0 Hin Hne0. unf. apply rd_ext. intros i Hbi. simpl in Hbi. apply P1.
    - intros Hx. eapply (fields_apart _ _ _ _ av0 avp (av_addr av0 + 24 + i) (av_addr av0 + 24 + i));
        try eassumption; try reflexivity; fold p; lia.
    - intros avn Hn Hx. destruct (Hnext avn Hn) as [N1 [N2 [N3 N4]]].
      destruct (Z.eq_dec (av_addr av0) (av_addr avn)) as [E | E]; [rewrite E in Hx; lia|].
      eapply (fields_apart _ _ _ _ av0 avn (av_addr av0 + 24 + i) (av_addr av0 + 24 + i));
        try eassumption; try reflexivity; lia. }
  assert (Fprev : forall av0, In av0 ars ->
                              (forall avn, hd_error ars2 = Some avn -> av_addr av0 <> av_addr avn) ->
                              rd m' (arena_prev (av_addr av0)) 8 = rd m (arena_prev (av_addr av0)) 8).
  { intros av0 Hin Hne0. unf. apply rd_ext. intros i Hbi. simpl in Hbi. apply P1.
    - intros Hx. destruct (Z.eq_dec (av_addr av0) p) as [E | E]; [rewrite E in Hx; lia|].
      eapply (fields_apart _ _ _ _ av0 avp (av_addr av0 + 32 + i) (av_addr av0 + 32 + i));
        try eassumption; try reflexivity; fold p; lia.
    - intros avn Hn Hx. destruct (Hnext avn Hn) as [N1 [N2 [N3 N4]]].
      eapply (fields_apart _ _ _ _ av0 avn (av_addr av0 + 32 + i) (av_addr av0 + 32 + i));
        try eassumption; try reflexivity; try lia. apply Hne0. exact Hn. }
  assert (Hnotnext : forall l (x : arena_view) avn, NoDup (map av_addr (l ++ ars2)) ->
                       In x l -> hd_error ars2 = Some avn -> av_addr x <> av_addr avn).
  { intros l x avn Hnd' Hx Hn E. destruct ars2 as [|y ars2']; [discriminate|].
    inversion Hn; subst y. rewrite map_app in Hnd'. cbn [map] in Hnd'.
    apply NoDup_remove_2 in Hnd'. apply Hnd'. rewrite <- E. apply in_or_app. left.
    apply in_map. exact Hx. }
  unfold heap_ok. cbn [w_mem w_os w_state]. rewrite Hmaps, Hpsz.
  split; [exact Hi|]. split; [exact Hps|]. split; [exact Hmin|].
  split; [destruct ars1; discriminate|].
  split; [|split; [|split; [|split]]].
  - rewrite map_app. cbn [map]. unfold ars in Hch. rewrite map_app in Hch. cbn [map] in Hch.
    eapply arena_chain_delete; [exact Hch | | exact P2].
    apply Forall_forall. intros x Hx.
    assert (Hx' : exists av0, In av0 (ars1 ++ ars2) /\ av_addr av0 = x).
    { rewrite <- map_app in Hx. apply in_map_iff in Hx as [av0 [E Hin]]. exists av0. tauto. }
    destruct Hx' as [av0 [Hin <-]]. apply Fnext.
    + unfold ars. apply in_app_or in Hin as [Hin | Hin]; apply in_or_app;
        [left | right; right; right]; exact Hin.
    + intros E. unfold ars in Hnd. rewrite map_app in Hnd. cbn [map] in Hnd.
      apply NoDup_remove_2 in Hnd. apply Hnd. fold p. rewrite <- E.
      apply in_app_or in Hin as [Hin | Hin]; apply in_or_app;
        [left | right; right]; apply in_map; exact Hin.
  - assert (Hhd : exists avh, In avh (ars1 ++ [avp]) /\ av_addr avh = arena_head (w_state w)).
    { unfold ars in Hch. destruct ars1 as [|x ars1']; cbn [app map] in Hch;
        apply arena_chain_head in Hch as [-> _].
      - exists avp. split; [left|]; reflexivity.
      - exists x. split; [left|]; reflexivity. }
    destruct Hhd as [avh [Hh Eh]].
    assert (Hnd1 : NoDup (map av_addr ((ars1 ++ [avp]) ++ ars2))).
    { unfold ars in Hnd. rewrite <- app_assoc. cbn [app]. rewrite map_app in *.
      cbn [map] in *.
      change (map av_addr ars1 ++ av_addr avp :: av_addr av :: map av_addr ars2)
        with (map av_addr ars1 ++ [av_addr avp] ++ av_addr av :: map av_addr ars2) in Hnd.
      rewrite app_assoc in Hnd. apply NoDup_remove_1 in Hnd.
      rewrite <- app_assoc in Hnd. exact Hnd. }
    assert (Hin1 : forall x, In x (ars1 ++ [avp]) -> In x ars).
    { intros x Hx. unfold ars. apply in_app_or in Hx as [Hx | [<- | []]]; apply in_or_app;
        [left; exact Hx | right; left; reflexivity]. }
    rewrite <- Eh.
    rewrite Fprev; [|apply Hin1; exact Hh|intros avn Hn; eapply Hnotnext; eassumption].
    rewrite Eh.
    rewrite map_app. cbn [map]. unfold ars in Hpl. rewrite map_app in Hpl. cbn [map] in Hpl.
    eapply prev_linked_delete; [exact Hpl | |].
    + apply Forall_forall. intros x Hx.
      assert (Hx' : exists av0, In av0 (ars1 ++ avp :: tl ars2) /\ av_addr av0 = x).
      { replace (tl (map av_addr ars2)) with (map av_addr (tl ars2)) in Hx
          by (destruct ars2; reflexivity).
        change (av_addr avp :: map av_addr (tl ars2)) with (map av_addr (avp :: tl ars2)) in Hx.
        rewrite <- map_app in Hx. apply in_map_iff in Hx as [av0 [E Hin]].
        exists av0. tauto. }
      destruct Hx' as [av0 [Hin <-]].
      assert (Htl2 : forall y, In y (tl ars2) -> In y ars2).
      { intros y Hy. destruct ars2; [contradiction | right; exact Hy]. }
      apply Fprev.
      * unfold ars. apply in_app_or in Hin as [Hin | [<- | Hin]]; apply in_or_app;
          [left; exact Hin | right; left; reflexivity | right; right; right; apply Htl2; exact Hin].
      * intros avn Hn. destruct ars2 as [|y ars2']; [discriminate|]. inversion Hn; subst y.
        cbn [tl] in Hin. intros E.
        rewrite <- app_assoc in Hnd1. cbn [app] in Hnd1. rewrite map_app in Hnd1.
        cbn [map] in Hnd1.
        change (map av_addr ars1 ++ av_addr avp :: av_addr avn :: map av_addr ars2')
          with (map av_addr ars1 ++ [av_addr avp] ++ av_addr avn :: map av_addr ars2') in Hnd1.
        rewrite app_assoc in Hnd1. apply NoDup_remove_2 in Hnd1. apply Hnd1.
        rewrite <- E. rewrite <- app_assoc.
        apply in_app_or in Hin as [Hin | [<- | Hin]]; apply in_or_app;
          [left; apply in_map; exact Hin | right; left; reflexivity
          | right; right; apply in_map; exact Hin].
    + intros nx l2' E. destruct ars2 as [|y ars2']; [discriminate|].
      cbn [map] in E. inversion E; subst. apply P3. reflexivity.
  - eapply arenas_relink; [exact Hm | exact Hok | |].
    + intros x Hx. apply P1.
      * intros Hx'. apply (Hx avp Hinp). fold p. lia.
      * intros avn Hn Hx'. destruct (Hnext avn Hn) as [N1 _]. apply (Hx avn N1). lia.
    + intros av0 Hin. destruct (Hsub av0 Hin) as [S1 S2]. split; [exact S1|].
      rewrite Forall_forall in Hok. pose proof (Hok _ S1) as [A1 _].
      apply filter_In. split; [exact A1|]. unfold same_region. cbn [fst snd].
      apply negb_true_iff. apply andb_false_iff. left. apply Z.eqb_neq. exact S2.
  - pose proof (tail_ok_delete (os_pagesize (w_os w)) m (os_maps (w_os w))
                  (ars1 ++ [avp]) av ars2 (arena_tail (w_state w)) Hm) as Ht.
    rewrite <- !app_assoc in Ht. cbn [app] in Ht. apply Ht.
    + exact Hnd.
    + destruct ars1; discriminate.
    + rewrite Forall_forall in Hok. apply Hok. exact Hina.
    + exact Htl.
  - apply Forall_forall. intros pn Hpn. rewrite Forall_forall in Hheld.
    destruct (Hheld pn Hpn) as [Hp [[av0 [s [Hin [Hb Hs]]]] | [r [Hr [Hn Hrange]]]]];
      (split; [exact Hp|]).
    + left. exists av0, s. split; [|tauto].
      apply in_app_or in Hin as [Hin | [<- | [<- | Hin]]].
      * apply in_or_app. left. exact Hin.
      * apply in_or_app. right. left. reflexivity.
      * rewrite Hlive in Hb. contradiction.
      * apply in_or_app. right. right. exact Hin.
    + right. exists r. split; [|split; [|exact Hrange]].
      * apply filter_In. split; [exact Hr|]. unfold same_region. cbn [fst snd].
        apply negb_true_iff. apply andb_false_iff. left. apply Z.eqb_neq.
        intros E. apply Hn. rewrite E. apply in_map. exact Hina.
      * intros Hin. apply Hn. apply in_map_iff in Hin as [av0 [E Hin]].
        rewrite <- E. apply in_map. apply (Hsub av0 Hin).
Qed.

Lemma munmap_cases w a len :
  In (a, len) (os_maps (w_os w)) ->
  exists r o', munmap a len w = Ok r (set_os w o') /\
    os_pagesize o' = os_pagesize (w_os w) /\
    ((r <> 0 /\ os_maps o' = os_maps (w_os w)) \/
     (r = 0 /\ os_maps o' = filter (fun r => negb (same_region a len r)) (os_maps (w_os w)))).
Proof.
  intros Hin. unfold munmap.
  assert (Hex : existsb (same_region a len) (os_maps (w_os w)) = true).
  { apply existsb_exists. exists (a, len). split; [exact Hin|].
    unfold same_region. cbn [fst snd]. rewrite !Z.eqb_refl. reflexivity. }
  destruct (os_munmap_script (w_os w)) as [|[|] rest].
  - eexists _, _. split; [reflexivity|]. split; [reflexivity|]. left. split; [lia | reflexivity].
  - rewrite Hex. eexists _, _. split; [reflexivity|]. split; [reflexivity|]. right.
    split; reflexivity.
  - eexists _, _. split; [reflexivity|]. split; [reflexivity|]. left. split; [lia | reflexivity].
Qed.

Lemma release_spec w held ars1 av ars2 :
  maps_ok (os_pagesize (w_os w)) (os_maps (w_os w)) ->
  heap_ok w held (ars1 ++ av :: ars2) ->
  exists w', release_if_unused (av_addr av) w = Ok tt w' /\
    (same_heap w w' \/
     (os_maps (w_os w')
      = filter (fun r => negb (same_region (av_addr av) (rd (w_mem w) (av_addr av) 8) r))
          (os_maps (w_os w)) /\
      os_pagesize (w_os w') = os_pagesize (w_os w) /\
      heap_ok w' held (ars1 ++ ars2))).
Proof.
  intros Hm H. pose proof (heap_ok_addrs _ _ _ H) as [Hnd [Hnn Hmapped]].
  pose proof H as H0. heap H.
  set (m := w_mem w) in *. set (a := av_addr av) in *.
  assert (Hina : In av (ars1 ++ av :: ars2)) by (apply in_or_app; right; left; reflexivity).
  pose proof Hok as Hok'. rewrite Forall_forall in Hok'.
  pose proof (Hok' _ Hina) as Hoka. fold a in Hoka.
  pose proof (arena_ok_mapped w _ _ _ Hoka) as Hma.
  unfold release_if_unused. erewrite bind_ok by reflexivity.
  destruct (a =? arena_head (w_state w)) eqn:E.
  { exists w. split; [reflexivity | left; apply same_heap_refl]. }
  apply Z.eqb_neq in E.
  erewrite bind_ok by (apply (load64_arena_field w a _ Hma); arena_field).
  erewrite bind_ok by (apply (load64_arena_field w a _ Hma); arena_field).
  fold m. pose proof (arena_max_bound _ _ _ _ _ Hoka) as Hmb.
  pose proof Hoka as [A1 [A2 [A3 [A4 [A5 [A6 [A7 _]]]]]]].
  rewrite A7. pose proof (maxsize_nonneg (av_free av)) as Hmn.
  unfold TALLOC_ARENA_OVERHEAD. rewrite wrap_small by (unf; lia).
  change (sizeof_arena + sizeof_chunk) with 56.
  destruct (rd m (arena_allocated a) 8 =? maxsize (av_free av) + 56) eqn:E2;
    [|exists w; split; [reflexivity | left; apply same_heap_refl]].
  apply Z.eqb_eq in E2.
  pose proof (full_arena_no_blocks _ _ _ _ _ Hoka E2) as Hlive.
  destruct (exists_last (l := ars1)) as [ars1' [avp ->]].
  { intros ->. cbn [app map] in Hch. apply arena_chain_head in Hch as [Eh _]. unfold a in E. congruence. }
  rewrite <- app_assoc in *. cbn [app] in *.
  set (ars := ars1' ++ avp :: av :: ars2) in *. set (p := av_addr avp) in *.
  assert (Hinp : In avp ars) by (apply in_or_app; right; left; reflexivity).
  pose proof (Hok' _ Hinp) as Hokp. fold p in Hokp.
  assert (Eprev : rd m (arena_prev a) 8 = p).
  { unfold ars in Hpl. rewrite map_app in Hpl. cbn [map] in Hpl.
    eapply prev_linked_at. exact Hpl. }
  assert (Enext : rd m (arena_next a) 8 = hd NULL (map av_addr ars2)).
  { unfold ars in Hch. rewrite map_app in Hch. cbn [map] in Hch.
    change (map av_addr ars1' ++ av_addr avp :: av_addr av :: map av_addr ars2)
      with (map av_addr ars1' ++ [av_addr avp] ++ av_addr av :: map av_addr ars2) in Hch.
    rewrite app_assoc in Hch. apply arena_chain_at in Hch. apply Hch. }
  unfold TAlloc_free_arena.
  erewrite bind_ok by (apply (load64_arena_field w a _ Hma); arena_field).
  erewrite bind_ok by (apply (load64_arena_field w a _ Hma); arena_field).
  erewrite bind_ok by (apply (load64_arena_field w a _ Hma); arena_field).
  fold m. rewrite Eprev.
  destruct (munmap_cases w a (rd m (arena_allocated a) 8) A1) as [r [o' [Hmun [Hpsz Hr]]]].
  erewrite bind_ok by exact Hmun.
  destruct Hr as [[Hr Hmaps] | [-> Hmaps]].
  { apply Z.eqb_neq in Hr. rewrite Hr. eexists. split; [reflexivity|]. left.
    unfold same_heap. cbn [set_os w_mem w_os w_state]. tauto. }
  cbn [Z.eqb].
  assert (Hp' : In (p, rd m p 8) (os_maps o')).
  { rewrite Hmaps. apply filter_In. destruct Hokp as [B1 _]. split; [exact B1|].
    unfold same_region. cbn [fst snd]. apply negb_true_iff, andb_false_iff. left.
    apply Z.eqb_neq. intros Ep. unfold ars in Hnd. rewrite map_app in Hnd. cbn [map] in Hnd.
    apply NoDup_remove_2 in Hnd. apply Hnd. fold p. rewrite Ep. fold a.
    apply in_or_app. right. left. reflexivity. }
  pose proof Hokp as [_ [B2 [B3 [B4 _]]]].
  erewrite bind_ok by (eapply (store64_in (set_os w o') p (rd m p 8));
                       [exact Hp' | unf; lia | unf; lia]).
  cbn [set_os w_mem]. fold m.
  assert (Hp64 : 0 <= p < 2 ^ 64) by (unf; pose proof (rd8_range m p); lia).
  destruct ars2 as [|avn ars2'].
  - rewrite Enext. cbn [map hd]. change (NULL =? NULL) with true. cbv iota.
    eexists. split; [reflexivity|]. right. cbn [set_mem w_os w_mem w_state].
    split; [exact Hmaps|]. split; [exact Hpsz|].
    eapply (heap_delete w held ars1' avp av [] _ o'); try eassumption.
    + intros x Hx _. apply wr_out. unf. simpl. lia.
    + fold p. fold a. fold m. rewrite Enext. cbn [map hd].
      apply rd8_wr8_same. unf. rewrite two64. lia.
    + intros avn Hn. discriminate.
  - assert (Hinn : In avn ars) by (apply in_or_app; right; right; right; left; reflexivity).
    pose proof (Hok' _ Hinn) as Hokn. set (nx := av_addr avn) in *.
    assert (Ennx : rd m (arena_next a) 8 = nx) by (rewrite Enext; reflexivity).
    rewrite Ennx.
    assert (Hnxp : nx <> p).
    { intros Ep. unfold ars in Hnd. rewrite map_app in Hnd. cbn [map] in Hnd.
      apply NoDup_remove_2 in Hnd. apply Hnd. fold p. rewrite <- Ep.
      apply in_or_app. right. right. left. reflexivity. }
    assert (Hnxa : nx <> a).
    { intros Ep. unfold ars in Hnd. rewrite map_app in Hnd. cbn [map] in Hnd.
      change (map av_addr ars1' ++ av_addr avp :: av_addr av :: av_addr avn :: map av_addr ars2')
        with (map av_addr ars1' ++ [av_addr avp] ++ av_addr av :: av_addr avn :: map av_addr ars2')
        in Hnd.
      rewrite app_assoc in Hnd. apply NoDup_remove_2 in Hnd. apply Hnd. fold a. rewrite <- Ep.
      apply in_or_app. right. left. reflexivity. }
    assert (Hnz : nx <> NULL).
    { intros En. apply Hnn. rewrite <- En. apply in_map. exact Hinn. }
    apply Z.eqb_neq in Hnz. rewrite Hnz.
    pose proof Hokn as [C1 [C2 [C3 [C4 _]]]]. fold nx in C1, C2, C3, C4.
    assert (Hn' : In (nx, rd m nx 8) (os_maps o')).
    { rewrite Hmaps. apply filter_In. split; [exact C1|].
      unfold same_region. cbn [fst snd]. apply negb_true_iff, andb_false_iff. left.
      apply Z.eqb_neq. exact Hnxa. }
    erewrite (store64_in _ nx (rd m nx 8)); [| exact Hn' | unf; lia | unf; cbn [set_mem w_mem]; lia].
    eexists. split; [reflexivity|]. right. cbn [set_mem w_os w_mem w_state].
    split; [exact Hmaps|]. split; [exact Hpsz|].
    pose proof (fields_apart _ _ _ _ avn avp (nx + 32) (p + 24) Hm Hok Hinn Hinp) as Hfa.
    eapply (heap_delete w held ars1' avp av (avn :: ars2') _ o'); try eassumption.
    + intros x Hx Hx'. specialize (Hx' avn eq_refl). fold nx in Hx'.
      rewrite wr_out by (unf; simpl; lia). apply wr_out. unf. simpl. lia.
    + fold p. fold a. fold m. rewrite Ennx.
      rewrite rd8_wr8_other.
      * apply rd8_wr8_same. unf. pose proof (rd8_range m nx). lia.
      * pose proof (fields_apart _ _ _ _ avn avp (nx + 32) (p + 24) Hm Hok Hinn Hinp) as F0.
        pose proof (fields_apart _ _ _ _ avn avp (nx + 32) (p + 31) Hm Hok Hinn Hinp) as F1.
        pose proof (fields_apart _ _ _ _ avn avp (nx + 39) (p + 24) Hm Hok Hinn Hinp) as F2.
        fold nx in F0, F1, F2. fold p in F0, F1, F2. unf.
        specialize (F0 Hnxp ltac:(lia) ltac:(lia)).
        specialize (F1 Hnxp ltac:(lia) ltac:(lia)).
        specialize (F2 Hnxp ltac:(lia) ltac:(lia)).
        destruct (arenas_apart _ _ _ _ avn avp Hm Hok Hinn Hinp Hnxp) as [Ea | Ea];
          fold nx in Ea; fold p in Ea; fold m in Ea; unf; lia.
    + intros avn' Hn. inversion Hn; subst avn'. fold nx. fold p.
      apply rd8_wr8_same. exact Hp64.
Qed.

(** ** Releasing a block in use *)

Lemma owner_of_block ps w held ars1 av ars2 c s :
  maps_ok ps (os_maps (w_os w)) ->
  heap_ok w held (ars1 ++ av :: ars2) ->
  In (c, s) (av_live av) ->
  owner (w_mem w) (c + 16) (map av_addr (ars1 ++ av :: ars2)) = av_addr av.
Proof.
  intros Hm H Hb. pose proof (heap_ok_addrs _ _ _ H) as [Hnd _]. heap H.
  set (m := w_mem w) in *. set (a := av_addr av) in *.
  assert (Hina : In av (ars1 ++ av :: ars2)) by (apply in_or_app; right; left; reflexivity).
  pose proof Hok as Hok'. rewrite Forall_forall in Hok'.
  pose proof (Hok' _ Hina) as [A1 [A2 [A3 [A4 [_ [_ [_ [A8 _]]]]]]]]. fold a in A1, A2, A3, A4, A8.
  rewrite Forall_forall in A8. pose proof (A8 _ Hb) as [L1 [L2 [L3 _]]].
  unf. cbn [fst snd] in *.
  rewrite map_app. cbn [map]. apply owner_app.
  - apply Forall_forall. intros x Hx. apply in_map_iff in Hx as [av0 [<- Hin0]].
    assert (Hin0' : In av0 (ars1 ++ av :: ars2)) by (apply in_or_app; left; exact Hin0).
    assert (Hne0 : av_addr av0 <> a).
    { intros E. rewrite map_app in Hnd. cbn [map] in Hnd. apply NoDup_remove_2 in Hnd.
      apply Hnd. fold a. rewrite <- E. apply in_or_app. left. apply in_map. exact Hin0. }
    pose proof (Hok' _ Hin0') as [B1 [B2 [B3 [B4 _]]]]. unf.
    unfold in_usable_rangeb. unf. rewrite !wrap_small by (pose proof (rd8_range m (av_addr av0)); lia).
    apply andb_false_iff. rewrite Z.leb_gt, Z.ltb_ge.
    destruct (arenas_apart _ _ _ _ av0 av Hm Hok Hin0' Hina Hne0) as [E | E];
      fold a in E; fold m in E; lia.
  - unfold in_usable_rangeb. unf. fold a. rewrite !wrap_small by lia.
    apply andb_true_iff. rewrite Z.leb_le, Z.ltb_lt. lia.
Qed.

Lemma free_run w fuel p a N w1 w2 :
  initialized (w_state w) = 1 ->
  res fuel N (find_arena_loop fuel p (arena_head (w_state w)) w) a w ->
  a <> NULL ->
  is_mapped (os_maps (w_os w)) (header_magic (wrap (p - sizeof_header))) 4 = true ->
  rd (w_mem w) (header_magic (wrap (p - sizeof_header))) 4 = TALLOC_MAGIC ->
  res fuel N (free_insert fuel a (wrap (p - sizeof_header)) w) tt w1 ->
  release_if_unused a w1 = Ok tt w2 ->
  res fuel N (TAlloc_free fuel p w) tt w2.
Proof.
  intros Hi Hfind Ha Hmap Hmagic Hins Hrel. unfold TAlloc_free.
  eapply res_bind_same; [left; reflexivity|]. cbn beta. rewrite Hi.
  change (1 =? 0) with false. cbv iota.
  eapply res_bind_same.
  { unfold TAlloc_find_arena. eapply res_bind_same; [left; reflexivity|]. exact Hfind. }
  cbn beta. apply Z.eqb_neq in Ha. rewrite Ha.
  eapply res_bind_same; [left; apply load_mapped; exact Hmap|]. cbn beta.
  rewrite Hmagic, Z.eqb_refl. cbn [negb].
  eapply res_bind_same; [exact Hins|]. left. exact Hrel.
Qed.

Lemma free_skip w fuel p N :
  initialized (w_state w) = 1 ->
  res fuel N (find_arena_loop fuel p (arena_head (w_state w)) w) NULL w ->
  res fuel N (TAlloc_free fuel p w) tt w.
Proof.
  intros Hi Hfind. unfold TAlloc_free.
  eapply res_bind_same; [left; reflexivity|]. cbn beta. rewrite Hi.
  change (1 =? 0) with false. cbv iota.
  eapply res_bind_same.
  { unfold TAlloc_find_arena. eapply res_bind_same; [left; reflexivity|]. exact Hfind. }
  left. reflexivity.
Qed.

Lemma free_block w held held' ars1 av ars2 c s :
  maps_ok (os_pagesize (w_os w)) (os_maps (w_os w)) ->
  heap_ok w held (ars1 ++ av :: ars2) ->
  In (c, s) (av_live av) ->
  Forall (held_ok (os_maps (w_os w))
            (ars1 ++ mk_arena (av_addr av) (free_list_insert (c, s) (av_free av))
                       (drop_block c (av_live av)) :: ars2)) held' ->
  exists m1 w',
    (forall fuel, res fuel (S (length (ars1 ++ av :: ars2) + length (av_free av)))
                    (TAlloc_free fuel (c + 16) w) tt w') /\
    heap_ok (set_mem w m1) held'
      (ars1 ++ mk_arena (av_addr av) (free_list_insert (c, s) (av_free av))
                 (drop_block c (av_live av)) :: ars2) /\
    (forall x, x < av_addr av + 8 \/ av_addr av + 24 <= x < av_addr av + 40 \/
               av_addr av + rd (w_mem w) (av_addr av) 8 <= x -> m1 x = w_mem w x) /\
    (same_heap (set_mem w m1) w' \/
     (os_maps (w_os w')
      = filter (fun r => negb (same_region (av_addr av) (rd (w_mem w) (av_addr av) 8) r))
          (os_maps (w_os w)) /\
      os_pagesize (w_os w') = os_pagesize (w_os w) /\
      heap_ok w' held' (ars1 ++ ars2))).
Proof.
  intros Hm H Hb Hheld'. pose proof (heap_ok_addrs _ _ _ H) as [Hnd [Hnn Hmapped]].
  pose proof (owner_of_block _ _ _ _ _ _ _ _ Hm H Hb) as Hown.
  pose proof H as H0. heap H.
  set (m := w_mem w) in *. set (a := av_addr av) in *.
  assert (Hina : In av (ars1 ++ av :: ars2)) by (apply in_or_app; right; left; reflexivity).
  pose proof Hok as Hok'. rewrite Forall_forall in Hok'.
  pose proof (Hok' _ Hina) as Hoka. fold a in Hoka.
  destruct (arena_free_step w a _ _ c s Hoka Hb) as [m1 [Hrun [Hok1 F]]].
  pose proof (heap_update w held held' ars1 av ars2 m1 _ _ Hm H0 Hok1 F Hheld') as H1.
  destruct (release_spec (set_mem w m1) held' ars1
              (mk_arena a (free_list_insert (c, s) (av_free av)) (drop_block c (av_live av)))
              ars2 Hm H1) as [w' [Hrel Hcases]].
  cbn [av_addr] in Hrel, Hcases.
  pose proof Hoka as [A1 [A2 [A3 [A4 [_ [_ [_ [A8 _]]]]]]]].
  rewrite Forall_forall in A8. pose proof (A8 _ Hb) as [L1 [L2 [L3 [L4 L5]]]].
  unf. cbn [fst snd] in *.
  assert (Hc : wrap (c + 16 - 16) = c).
  { replace (c + 16 - 16) with c by lia. apply wrap_small. lia. }
  assert (Ea : rd m1 a 8 = rd m a 8).
  { apply rd_ext. intros i Hbi. simpl in Hbi. apply F. lia. }
  exists m1, w'. split; [|split; [exact H1|split; [exact F|]]].
  - intros fuel. eapply (free_run w fuel (c + 16) a _ (set_mem w m1) w'); unf.
    + exact Hi.
    + rewrite <- Hown. eapply res_weaken; [apply find_arena_loop_res; eassumption|].
      rewrite !length_map. lia.
    + intros E. apply Hnn. rewrite <- E. apply in_map. exact Hina.
    + rewrite Hc. eapply is_mapped_in; [exact A1 | lia | lia].
    + rewrite Hc. exact L5.
    + rewrite Hc. eapply res_weaken; [apply Hrun | lia].
    + exact Hrel.
  - cbn [set_mem w_mem w_os] in Hcases. rewrite Ea in Hcases. exact Hcases.
Qed.

Lemma held_ok_drop maps ars1 av ars2 c s held p :
  p = c + 16 ->
  Forall (held_ok maps (ars1 ++ av :: ars2)) held ->
  Forall (held_ok maps
            (ars1 ++ mk_arena (av_addr av) (free_list_insert (c, s) (av_free av))
                       (drop_block c (av_live av)) :: ars2)) (drop_held p held).
Proof.
  intros Hp Hheld. apply Forall_forall. intros pn Hpn.
  unfold drop_held in Hpn. apply filter_In in Hpn as [Hpn Hne].
  apply negb_true_iff, Z.eqb_neq in Hne.
  rewrite Forall_forall in Hheld. eapply held_ok_update; [apply Hheld; exact Hpn|].
  intros s' Hs'. apply in_drop_block. split; [exact Hs'|]. cbn [fst]. unf. lia.
Qed.

Lemma owner_foreign ps w held ars r p n :
  maps_ok ps (os_maps (w_os w)) ->
  heap_ok w held ars ->
  In r (os_maps (w_os w)) -> ~ In (fst r) (map av_addr ars) ->
  fst r <= p -> p + n <= fst r + snd r -> 0 < n ->
  owner (w_mem w) p (map av_addr ars) = NULL.
Proof.
  intros Hm H Hr Hn H1 H2 H3. heap H. apply owner_none.
  apply Forall_forall. intros x Hx. pose proof Hx as Hx'.
  apply in_map_iff in Hx as [av0 [<- Hin0]].
  rewrite Forall_forall in Hok. pose proof (Hok _ Hin0) as [B1 [B2 [B3 [B4 _]]]]. unf.
  unfold in_usable_rangeb. unf.
  rewrite !wrap_small by (pose proof (rd8_range (w_mem w) (av_addr av0)); lia).
  apply andb_false_iff. rewrite Z.leb_gt, Z.ltb_ge.
  destruct (maps_ok_apart _ _ Hm _ _ B1 Hr) as [E | E].
  - exfalso. apply Hn. rewrite <- E. exact Hx'.
  - cbn [fst snd] in E. lia.
Qed.

Lemma free_preserves w held fuel p n w' :
  inv w held -> In (p, n) held -> TAlloc_free fuel p w = Ok tt w' ->
  inv w' (drop_held p held).
Proof.
  intros [Hpg [Hm Hh]] Hin Hrun.
  destruct Hh as [[_ [_ [_ [_ ->]]]] | [ars H]]; [contradiction|].
  pose proof (heap_ok_addrs _ _ _ H) as [Hnd [Hnn Hmapped]].
  pose proof H as H0. heap H. rewrite Forall_forall in Hheld.
  destruct (Hheld _ Hin) as [Hp [[av [s [Hav [Hb Hs]]]] | [r [Hr [Hn Hrange]]]]];
    cbn [fst snd] in *.
  - apply in_split in Hav as [ars1 [ars2 ->]].
    assert (Ep : p = (p - sizeof_header) + 16) by (unf; lia).
    destruct (free_block w held (drop_held p held) ars1 av ars2 _ s Hm H0 Hb)
      as [m1 [w1 [Hres [H1 [F Hcases]]]]].
    { apply held_ok_drop; [exact Ep|]. apply Forall_forall. exact Hheld. }
    specialize (Hres fuel). rewrite <- Ep in Hres.
    destruct (res_inv _ _ _ _ _ _ _ Hres Hrun) as [_ ->].
    destruct Hcases as [Hsame | [Hmaps [Hpsz H2]]].
    + eapply same_heap_inv; [exact Hsame|].
      split; [exact Hpg|]. split; [exact Hm|]. right. eexists. exact H1.
    + unfold inv. rewrite Hpsz, Hmaps. split; [exact Hpg|].
      split; [apply maps_ok_filter; exact Hm|]. right. eexists. exact H2.
  - assert (Hlo : fst r <= p) by (unf; lia).
    pose proof (owner_foreign _ _ _ _ _ _ _ Hm H0 Hr Hn Hlo (proj2 Hrange) Hp)
      as Hown.
    assert (Hres : res fuel (S (length (map av_addr ars))) (TAlloc_free fuel p w) tt w).
    { apply free_skip; [exact Hi|]. rewrite <- Hown.
      apply find_arena_loop_res; assumption. }
    destruct (res_inv _ _ _ _ _ _ _ Hres Hrun) as [_ ->].
    split; [exact Hpg|]. split; [exact Hm|]. right. exists ars.
    unfold heap_ok. repeat (split; [assumption|]).
    apply Forall_forall. intros pn Hpn. apply Hheld.
    unfold drop_held in Hpn. apply filter_In in Hpn. tauto.
Qed.

(** ** Writes of the client *)

Lemma heap_frame w held ars m' :
  heap_ok w held ars ->
  (forall av x, In av ars ->
     av_addr av + 24 <= x < av_addr av + 40 \/
     arena_reads (av_addr av) (av_free av) (av_live av) x ->
     m' x = w_mem w x) ->
  heap_ok (set_mem w m') held ars.
Proof.
  intros H F. heap H. set (m := w_mem w) in *.
  assert (Hl : forall av0, In av0 ars ->
               rd m' (arena_next (av_addr av0)) 8 = rd m (arena_next (av_addr av0)) 8 /\
               rd m' (arena_prev (av_addr av0)) 8 = rd m (arena_prev (av_addr av0)) 8).
  { intros av0 Hin. unf.
    split; apply rd_ext; intros i Hbi; simpl in Hbi; apply (F av0); try exact Hin; left; lia. }
  assert (Hhd : In (arena_head (w_state w)) (map av_addr ars)).
  { destruct ars as [|h t]; [congruence|]. cbn [map] in *.
    apply arena_chain_head in Hch as [-> _]. left. reflexivity. }
  apply in_map_iff in Hhd as [avh [Ehd Hhd]].
  unfold heap_ok. cbn [set_mem w_mem w_os w_state].
  split; [exact Hi|]. split; [exact Hps|]. split; [exact Hmin|]. split; [exact Hne|].
  split; [|split; [|split; [|split; [exact Htl | exact Hheld]]]].
  - eapply arena_chain_frame; [exact Hch|]. apply Forall_forall.
    intros x Hx. apply in_map_iff in Hx as [av0 [<- Hin]]. apply Hl. exact Hin.
  - rewrite <- Ehd. rewrite (proj2 (Hl avh Hhd)). rewrite Ehd.
    eapply prev_linked_frame; [exact Hpl|]. apply Forall_forall.
    intros x Hx. apply in_map_iff in Hx as [av0 [<- Hin]]. apply Hl. exact Hin.
  - apply Forall_forall. intros av0 Hin. rewrite Forall_forall in Hok.
    pose proof (Hok _ Hin) as Hok0.
    eapply arena_ok_frame; [exact Hok0 | apply Hok0 |].
    intros x Hx. apply (F av0); [exact Hin | right; exact Hx].
Qed.

Lemma poke_heap w held ars p n x b :
  maps_ok (os_pagesize (w_os w)) (os_maps (w_os w)) -> heap_ok w held ars ->
  In (p, n) held -> p <= x < p + n -> heap_ok (poke w x b) held ars.
Proof.
  intros Hm H Hin Hx.
  pose proof H as H0. heap H. rewrite Forall_forall in Hheld.
  unfold poke.
  apply heap_frame; [exact H0|].
  intros av0 y Hin0 Hy. destruct (y =? x) eqn:E; [|reflexivity].
  apply Z.eqb_eq in E. subst y. exfalso.
  pose proof Hok as Hok'. rewrite Forall_forall in Hok'.
  pose proof (Hok' _ Hin0) as Hok0.
  assert (Hspan : av_addr av0 <= x < av_addr av0 + rd (w_mem w) (av_addr av0) 8).
  { destruct Hy as [Hy | Hy]; [|eapply arena_reads_span; eassumption].
    destruct Hok0 as [_ [_ [A3 _]]]. unf. lia. }
  destruct (Hheld _ Hin) as [Hp [[av [s [Hav [Hb Hs]]]] | [r [Hr [Hn Hrange]]]]];
    cbn [fst snd] in *.
  - pose proof (Hok' _ Hav) as Hoka.
    pose proof Hoka as [A1 [A2 [A3 [A4 [A5 [A6 [A7 [A8 [A9 A10]]]]]]]]].
    rewrite Forall_forall in A8, A9. pose proof (A8 _ Hb) as [L1 [L2 [L3 _]]].
    pose proof (A9 _ Hb) as Dfl. rewrite Forall_forall in Dfl. unf. cbn [fst snd] in *.
    destruct (Z.eq_dec (av_addr av0) (av_addr av)) as [Ea | Ea].
    + assert (av0 = av).
      { pose proof (heap_ok_addrs _ _ _ H0) as [Hnd _].
        clear - Hnd Hin0 Hav Ea. induction ars as [|z ars IH]; [contradiction|].
        cbn [map] in Hnd. inversion Hnd as [|? ? Hz Hnd']; subst.
        destruct Hin0 as [-> | Hin0], Hav as [-> | Hav]; try reflexivity.
        - exfalso. apply Hz. rewrite Ea. apply in_map. exact Hav.
        - exfalso. apply Hz. rewrite <- Ea. apply in_map. exact Hin0.
        - apply IH; assumption. }
      subst av0. destruct Hy as [Hy | [Hy | [Hy | Hy]]]; try lia.
      * apply Exists_exists in Hy as [y [Hy1 Hy2]].
        specialize (Dfl y Hy1). unfold disjoint_chunks in Dfl. unf. cbn [fst snd] in *.
        unfold gapped in A6. pose proof (spaced_in 1 _ _ _ ltac:(lia) A6) as Hbd.
        rewrite Forall_forall in Hbd. specialize (Hbd y Hy1). cbn beta in Hbd. unf. lia.
      * apply Exists_exists in Hy as [y [Hy1 Hy2]].
        destruct (A8 _ Hy1) as [Y1 [Y2 [Y3 _]]]. unf.
        destruct y as [cy sy]. cbn [fst snd] in *.
        destruct (Z.eq_dec cy (p - 16)) as [Ec | Ec]; [lia|].
        assert (Hd : disjoint_chunks (cy, sy) (p - 16, s)).
        { apply (pairwise_in (av_live av)); try assumption. congruence. }
        unfold disjoint_chunks in Hd. unf. cbn [fst snd] in Hd. lia.
    + destruct (arenas_apart _ _ _ _ av0 av Hm Hok Hin0 Hav Ea); lia.
  - pose proof Hok0 as [B1 _]. unf.
    destruct (maps_ok_apart _ _ Hm _ _ B1 Hr) as [E | E].
    + apply Hn. rewrite <- E. cbn [fst]. apply in_map. exact Hin0.
    + cbn [fst snd] in E. lia.
Qed.

Lemma poke_preserves w held p n x b :
  inv w held -> In (p, n) held -> p <= x < p + n -> inv (poke w x b) held.
Proof.
  intros [Hpg [Hm Hh]] Hin Hx.
  destruct Hh as [[_ [_ [_ [_ ->]]]] | [ars H]]; [contradiction|].
  split; [exact Hpg|]. split; [exact Hm|]. right. exists ars.
  eapply poke_heap; eassumption.
Qed.

(** ** Fresh arenas *)

Lemma init_arena_spec w a len :
  In (a, len) (os_maps (w_os w)) -> 0 < a -> 56 < len -> a + len < 2 ^ 64 ->
  exists m1,
    TAlloc_init_arena a len w = Ok tt (set_mem w m1) /\
    arena_ok m1 (os_maps (w_os w)) a [(a + 40, len - 56)] [] /\
    rd m1 (arena_next a) 8 = NULL /\ rd m1 (arena_prev a) 8 = NULL /\
    (forall x, x < a \/ a + 56 <= x -> m1 x = w_mem w x).
Proof.
  intros Hin Ha Hlen Hend. unfold TAlloc_init_arena.
  st. st. st. st. wr_small. ld. rdw. st. st.
  erewrite store64_in by side. wsimp.
  eexists. split; [reflexivity|].
  split; [|split; [|split]].
  - unfold arena_ok. unf. rdw.
    split; [exact Hin|]. split; [exact Ha|]. split; [lia|]. split; [exact Hend|].
    split; [|split; [|split; [|split; [constructor | split; [constructor | exact I]]]]].
    + eapply free_chain_cons; [unf; lia | | | apply free_nil]; unf; rdw; reflexivity.
    + unfold gapped. cbn [spaced fst snd]. unf. cbn [fst snd]. lia.
    + cbn [maxsize snd]. lia.
  - unf. rdw. reflexivity.
  - unf. rdw. reflexivity.
  - intros x Hx. rewrite !wr_out by (unf; simpl; lia). reflexivity.
Qed.

Lemma mmap_cases w len :
  exists r w', mmap len w = Ok r w' /\
    ((r = MAP_FAILED /\ same_heap w w') \/
     (region_ok (w_os w) r len = true /\
      w_mem w' = zero_fill (w_mem w) r len /\
      os_maps (w_os w') = (r, len) :: os_maps (w_os w) /\
      os_pagesize (w_os w') = os_pagesize (w_os w) /\
      w_state w' = w_state w)).
Proof.
  unfold mmap. destruct (os_mmap_script (w_os w)) as [|[a|] rest].
  - eexists _, _. split; [reflexivity|]. left. split; [reflexivity|].
    unfold same_heap. cbn. tauto.
  - destruct (region_ok (w_os w) a len) eqn:E.
    + eexists _, _. split; [reflexivity|]. right. cbn. tauto.
    + eexists _, _. split; [reflexivity|]. left. split; [reflexivity|].
      unfold same_heap. cbn. tauto.
  - eexists _, _. split; [reflexivity|]. left. split; [reflexivity|].
    unfold same_heap. cbn. tauto.
Qed.

Lemma page_ok_bounds ps : page_ok ps -> 64 <= ps <= 2 ^ 30 /\ 2 ^ 64 mod ps = 0.
Proof.
  intros [k [Hk ->]]. split.
  - split.
    + change 64 with (2 ^ 6). apply Z.pow_le_mono_r; lia.
    + apply Z.pow_le_mono_r; lia.
  - replace 64 with ((64 - k) + k) by lia. rewrite Z.pow_add_r by lia.
    apply Z.mod_mul. apply Z.pow_nonzero; lia.
Qed.

Lemma to_allocate_spec total ps len :
  page_ok ps -> 0 <= total < 2 ^ 64 ->
  to_allocate total (ps * TALLOC_ALLOC_PAGES) ps = Some len ->
  len = 0 \/ (total <= len /\ 56 < len /\ len < 2 ^ 64).
Proof.
  intros Hpg Ht. destruct (page_ok_bounds _ Hpg) as [[P1 P2] P3].
  unfold to_allocate, TALLOC_ALLOC_PAGES.
  change (2 ^ 30) with 1073741824 in P2. rewrite two64 in *.
  destruct (total <? ps * 1000) eqn:E1.
  { apply Z.ltb_lt in E1. intros H. inversion H; subst. right. lia. }
  destruct (ps * 1000 <? total) eqn:E2; [|discriminate].
  apply Z.ltb_lt in E2. intros H. inversion H; subst. clear H.
  set (add := if 0 <? total mod ps then 1 else 0).
  assert (Hadd : 0 <= add <= 1 /\ (total mod ps = 0 -> add = 0) /\ (0 < total mod ps -> add = 1)).
  { unfold add. destruct (0 <? total mod ps) eqn:E3.
    - apply Z.ltb_lt in E3. lia.
    - apply Z.ltb_ge in E3. lia. }
  pose proof (Z.div_mod total ps ltac:(lia)) as Hdm.
  pose proof (Z.mod_pos_bound total ps ltac:(lia)) as Hmb.
  assert (Hq : 0 <= total / ps) by (apply Z.div_pos; lia).
  assert (Hq2 : total / ps <= total) by (apply Z.div_le_upper_bound; nia).
  rewrite (wrap_small (total / ps + add)) by (rewrite two64; lia).
  set (P := ps * (total / ps + add)).
  assert (HP : total <= P < total + ps).
  { unfold P. destruct (Z.eq_dec (total mod ps) 0) as [E | E].
    - destruct Hadd as [_ [Ha _]]. rewrite (Ha E). lia.
    - destruct Hadd as [_ [_ Ha]]. rewrite (Ha ltac:(lia)). lia. }
  destruct (Z_lt_dec P 18446744073709551616) as [Hlt | Hge].
  - right. rewrite wrap_small by (rewrite two64; lia). lia.
  - left. apply Z.mod_divide in P3; [|lia]. destruct P3 as [J HJ].
    assert (HPJ : P = ps * J).
    { unfold P in *. assert (total / ps + add = J) by nia. subst J. reflexivity. }
    unfold wrap. rewrite two64, HJ, HPJ. rewrite Z.mul_comm. apply Z.mod_same. lia.
Qed.

Lemma create_arena_spec w n r w' :
  page_ok (os_pagesize (w_os w)) ->
  pagesize (w_state w) = os_pagesize (w_os w) ->
  minallocsize (w_state w) = os_pagesize (w_os w) * TALLOC_ALLOC_PAGES ->
  0 < n < 2 ^ 64 ->
  TAlloc_create_arena n w = Ok r w' ->
  (r = NULL /\ same_heap w w') \/
  (exists len,
     region_ok (w_os w) r len = true /\ n + 56 <= len /\
     os_maps (w_os w') = (r, len) :: os_maps (w_os w) /\
     os_pagesize (w_os w') = os_pagesize (w_os w) /\
     w_state w' = w_state w /\
     arena_ok (w_mem w') (os_maps (w_os w')) r [(r + 40, len - 56)] [] /\
     rd (w_mem w') (arena_next r) 8 = NULL /\ rd (w_mem w') (arena_prev r) 8 = NULL /\
     (forall x, x < r \/ r + len <= x -> w_mem w' x = w_mem w x)).
Proof.
  intros Hpg Hps Hmin Hn. destruct (page_ok_bounds _ Hpg) as [[P1 P2] P3].
  unfold TAlloc_create_arena, TALLOC_ARENA_OVERHEAD.
  change (sizeof_arena + sizeof_chunk) with 56.
  destruct (wrap (n + 56) <? n) eqn:E.
  { intros H. inversion H; subst. left. split; [reflexivity | apply same_heap_refl]. }
  apply Z.ltb_ge in E.
  assert (Hsmall : n + 56 < 2 ^ 64).
  { destruct (Z_lt_dec (n + 56) (2 ^ 64)) as [Hl | Hl]; [exact Hl|]. exfalso.
    unfold wrap in E. rewrite two64 in *.
    replace (n + 56) with ((n + 56 - 18446744073709551616) + 1 * 18446744073709551616) in E by lia.
    rewrite Z.mod_add in E by lia. rewrite Z.mod_small in E by lia. lia. }
  rewrite (wrap_small (n + 56)) by lia.
  erewrite bind_ok by reflexivity. rewrite Hps, Hmin.
  rewrite (proj2 (Z.eqb_neq (os_pagesize (w_os w)) 0)) by lia. rewrite andb_false_r.
  destruct (to_allocate (n + 56) _ _) as [len|] eqn:Eto; [|intros H; discriminate].
  pose proof (to_allocate_spec (n + 56) _ len Hpg ltac:(lia) Eto) as Hlen.
  destruct (mmap_cases w len) as [a [w1 [Hmm Hcases]]].
  erewrite bind_ok by exact Hmm.
  destruct Hcases as [[-> Hsame] | [Hreg [Hmem [Hmaps [Hpsz Hst]]]]].
  { rewrite Z.eqb_refl. intros H. inversion H; subst. left. split; [reflexivity | exact Hsame]. }
  pose proof (region_ok_spec _ _ _ Hreg) as [R1 [R2 [R3 [R4 R5]]]].
  destruct Hlen as [-> | [L1 [L2 L3]]]; [lia|].
  assert (Ea : (a =? MAP_FAILED) = false).
  { apply Z.eqb_neq. unfold MAP_FAILED. lia. }
  rewrite Ea.
  assert (Hin1 : In (a, len) (os_maps (w_os w1))) by (rewrite Hmaps; left; reflexivity).
  destruct (init_arena_spec w1 a len Hin1 ltac:(lia) ltac:(lia) ltac:(lia))
    as [m1 [Hinit [Hok [Hnx [Hpv F]]]]].
  erewrite bind_ok by exact Hinit. intros H. inversion H; subst r w'. clear H.
  right. exists len. cbn [set_mem w_mem w_os w_state].
  split; [exact Hreg|]. split; [exact L1|]. split; [exact Hmaps|]. split; [exact Hpsz|].
  split; [exact Hst|]. split; [exact Hok|]. split; [exact Hnx|]. split; [exact Hpv|].
  intros x Hx. rewrite F by lia. rewrite Hmem. unfold zero_fill.
  destruct (a <=? x) eqn:E1; [|reflexivity]. destruct (x <? a + len) eqn:E2; [|reflexivity].
  apply Z.leb_le in E1. apply Z.ltb_lt in E2. lia.
Qed.

(** ** Growing the heap *)

Lemma bind_inv {A B} (m : M A) (f : A -> M B) w b w2 :
  bind m f w = Ok b w2 -> exists a w1, m w = Ok a w1 /\ f a w1 = Ok b w2.
Proof.
  unfold bind. destruct (m w) as [a w1| | |]; intros H; try discriminate.
  exists a, w1. split; [reflexivity | exact H].
Qed.

Lemma heap_move w w' held held' ars :
  heap_ok w held ars ->
  initialized (w_state w') = 1 ->
  pagesize (w_state w') = os_pagesize (w_os w') ->
  minallocsize (w_state w') = os_pagesize (w_os w') * TALLOC_ALLOC_PAGES ->
  arena_head (w_state w') = arena_head (w_state w) ->
  (forall av, In av ars ->
     In (av_addr av, rd (w_mem w) (av_addr av) 8) (os_maps (w_os w'))) ->
  (forall av x, In av ars ->
     av_addr av + 24 <= x < av_addr av + 40 \/
     arena_reads (av_addr av) (av_free av) (av_live av) x ->
     w_mem w' x = w_mem w x) ->
  tail_ok (os_pagesize (w_os w')) (os_maps (w_os w')) (map av_addr ars)
    (arena_tail (w_state w')) ->
  Forall (held_ok (os_maps (w_os w')) ars) held' ->
  heap_ok w' held' ars.
Proof.
  intros H Hi' Hps' Hmin' Hhd' Hmaps' F Htl' Hheld'. heap H.
  set (m := w_mem w) in *. set (m' := w_mem w') in *.
  assert (Hl : forall av0, In av0 ars ->
               rd m' (arena_next (av_addr av0)) 8 = rd m (arena_next (av_addr av0)) 8 /\
               rd m' (arena_prev (av_addr av0)) 8 = rd m (arena_prev (av_addr av0)) 8).
  { intros av0 Hin. unf.
    split; apply rd_ext; intros i Hbi; simpl in Hbi; apply (F av0); try exact Hin; left; lia. }
  assert (Hhd : In (arena_head (w_state w)) (map av_addr ars)).
  { destruct ars as [|h t]; [congruence|]. cbn [map] in *.
    apply arena_chain_head in Hch as [-> _]. left. reflexivity. }
  apply in_map_iff in Hhd as [avh [Ehd Hhd]].
  unfold heap_ok. fold m'. rewrite Hhd'.
  split; [exact Hi'|]. split; [exact Hps'|]. split; [exact Hmin'|]. split; [exact Hne|].
  split; [|split; [|split; [|split; [exact Htl' | exact Hheld']]]].
  - eapply arena_chain_frame; [exact Hch|]. apply Forall_forall.
    intros x Hx. apply in_map_iff in Hx as [av0 [<- Hin]]. apply Hl. exact Hin.
  - rewrite <- Ehd. rewrite (proj2 (Hl avh Hhd)). rewrite Ehd.
    eapply prev_linked_frame; [exact Hpl|]. apply Forall_forall.
    intros x Hx. apply in_map_iff in Hx as [av0 [<- Hin]]. apply Hl. exact Hin.
  - apply Forall_forall. intros av0 Hin. rewrite Forall_forall in Hok.
    pose proof (Hok _ Hin) as Hok0.
    eapply arena_ok_frame; [exact Hok0 | apply Hmaps'; exact Hin |].
    intros x Hx. apply (F av0); [exact Hin | right; exact Hx].
Qed.

Lemma prev_linked_snoc m m' l : forall p0 t r,
  prev_linked m p0 (l ++ [t]) ->
  Forall (fun x => rd m' (arena_prev x) 8 = rd m (arena_prev x) 8) (l ++ [t]) ->
  rd m' (arena_prev r) 8 = t ->
  prev_linked m' p0 (l ++ [t; r]).
Proof.
  induction l as [|x l IH]; intros p0 t r H Hf Hr; cbn [app prev_linked] in *.
  - destruct H as [H1 _]. apply Forall_cons_iff in Hf as [F1 _].
    split; [rewrite F1; exact H1|]. split; [exact Hr | exact I].
  - destruct H as [H1 H2]. apply Forall_cons_iff in Hf as [F1 F2].
    split; [rewrite F1; exact H1|]. eapply IH; eassumption.
Qed.

(** The metadata of the arenas of the sequence lies in their mappings. *)
Lemma metadata_span m maps av x :
  arena_ok m maps (av_addr av) (av_free av) (av_live av) ->
  av_addr av + 24 <= x < av_addr av + 40 \/
  arena_reads (av_addr av) (av_free av) (av_live av) x ->
  av_addr av <= x < av_addr av + rd m (av_addr av) 8.
Proof.
  intros Hok [Hx | Hx]; [|eapply arena_reads_span; eassumption].
  destruct Hok as [_ [_ [A3 _]]]. unf. lia.
Qed.

Lemma aligned_apart ps t r :
  64 <= ps -> t mod ps = 0 -> r mod ps = 0 -> r <= t + 24 -> t = r \/ r + 64 <= t.
Proof.
  intros Hps Ht Hr Hle.
  apply Z.mod_divide in Ht; [|lia]. apply Z.mod_divide in Hr; [|lia].
  destruct Ht as [k1 ->]. destruct Hr as [k2 ->].
  destruct (Z.lt_trichotomy k1 k2) as [Hk | [Hk | Hk]].
  - exfalso. assert (1 <= k2 - k1) by lia. nia.
  - left. subst. reflexivity.
  - right. assert (1 <= k1 - k2) by lia. nia.
Qed.

Lemma held_ok_more maps maps' ars ars' pn :
  held_ok maps ars pn ->
  (forall r, In r maps -> In r maps') ->
  (forall av, In av ars -> In av ars') ->
  (forall r, In r maps -> ~ In (fst r) (map av_addr ars) -> ~ In (fst r) (map av_addr ars')) ->
  held_ok maps' ars' pn.
Proof.
  intros [Hp [[av [s [Hin [Hb Hs]]]] | [r [Hr [Hn Hrange]]]]] Hmaps Hars Hoff;
    (split; [exact Hp|]).
  - left. exists av, s. split; [apply Hars; exact Hin | tauto].
  - right. exists r. split; [apply Hmaps; exact Hr|]. split; [apply Hoff; assumption | exact Hrange].
Qed.

Lemma alloc_more_space_spec w held ars n r w1 :
  page_ok (os_pagesize (w_os w)) ->
  maps_ok (os_pagesize (w_os w)) (os_maps (w_os w)) ->
  heap_ok w held ars -> 0 < n < 2 ^ 64 ->
  TAlloc_alloc_more_space n w = Ok r w1 ->
  (r = NULL /\ same_heap w w1) \/
  (exists len,
     region_ok (w_os w) r len = true /\ n + 56 <= len /\
     os_maps (w_os w1) = (r, len) :: os_maps (w_os w) /\
     os_pagesize (w_os w1) = os_pagesize (w_os w) /\
     arena_ok (w_mem w1) (os_maps (w_os w1)) r [(r + 40, len - 56)] [] /\
     Forall (fun a => rd (w_mem w1) (arena_max_free_space a) 8
                      = rd (w_mem w) (arena_max_free_space a) 8) (map av_addr ars) /\
     (heap_ok w1 held (ars ++ [mk_arena r [(r + 40, len - 56)] []]) \/
      (heap_ok w1 held ars /\ ~ In r (map av_addr ars)))).
Proof.
  intros Hpg Hm H Hn Hrun. pose proof (heap_ok_addrs _ _ _ H) as [Hnd [Hnn Hmapped]].
  destruct (page_ok_bounds _ Hpg) as [[P1 P2] P3].
  pose proof H as H0. heap H.
  unfold TAlloc_alloc_more_space in Hrun.
  apply bind_inv in Hrun as [r0 [w0 [Hcreate Hrest]]].
  destruct (create_arena_spec _ _ _ _ Hpg Hps Hmin Hn Hcreate)
    as [[-> Hsame] | [len [Hreg [Hlen [Hmaps [Hpsz [Hst [Hnew [Hnx [Hpv F]]]]]]]]]].
  { change (NULL =? NULL) with true in Hrest. cbv iota in Hrest.
    inversion Hrest; subst. left. split; [reflexivity | exact Hsame]. }
  pose proof (region_ok_spec _ _ _ Hreg) as [R1 [R2 [R3 [R4 R5]]]].
  rewrite (proj2 (Z.eqb_neq r0 NULL)) in Hrest by (unf; lia).
  erewrite bind_ok in Hrest by reflexivity. rewrite Hst in Hrest.
  set (t := arena_tail (w_state w)) in *.
  apply bind_inv in Hrest as [u [w2 [Hst1 Hrest]]].
  unfold store64, store in Hst1.
  match type of Hst1 with
  | context [if ?b then _ else _] => destruct b eqn:Emap; [|discriminate Hst1]
  end.
  inversion Hst1; subst u w2. clear Hst1.
  erewrite bind_ok in Hrest
    by (eapply (store64_in _ r0 len); [cbn [set_mem w_os]; rewrite Hmaps; left; reflexivity
                                      | unf; lia | unf; lia]).
  cbn [set_mem w_mem w_os w_state] in Hrest.
  unfold set_arena_tail in Hrest.
  erewrite bind_ok in Hrest by (erewrite bind_ok by reflexivity; reflexivity).
  cbn [set_state set_mem w_mem w_os w_state] in Hrest.
  inversion Hrest; subst r w1. clear Hrest.
  cbn [set_state set_mem w_mem w_os w_state]. rewrite Hst.
  set (m := w_mem w) in *. set (m0 := w_mem w0) in *.
  set (m2 := wr (wr m0 (arena_next t) 8 r0) (arena_prev r0) 8 t).
  set (st' := mk_state _ _ _ _ _).
  pose proof Hok as Hok'. rewrite Forall_forall in Hok'.
  assert (Hm2new : forall x, ~ t + 24 <= x < t + 32 -> ~ r0 + 32 <= x < r0 + 40 ->
                             m2 x = m0 x).
  { intros x X1 X2. unfold m2. rewrite !wr_out by (unf; simpl; lia). reflexivity. }
  assert (Hm2 : forall x, x < r0 \/ r0 + len <= x -> ~ t + 24 <= x < t + 32 -> m2 x = m x).
  { intros x X1 X2. rewrite Hm2new by lia. apply F. exact X1. }
  assert (Hold : forall av, In av ars ->
                 av_addr av + rd m (av_addr av) 8 <= r0 \/ r0 + len <= av_addr av).
  { intros av Hav. pose proof (Hok' _ Hav) as [A1 _]. unf.
    destruct (R5 _ A1) as [E | E]; cbn [fst snd] in E; lia. }
  assert (Hnotin : ~ In r0 (map av_addr ars)).
  { intros Hin. apply in_map_iff in Hin as [av [E Hav]].
    pose proof (Hok' _ Hav) as [_ [_ [A3 _]]]. pose proof (Hold _ Hav) as Ho.
    fold m in A3. unf. rewrite E in *. lia. }
  assert (Hheld0 : forall ars', (forall av, In av ars -> In av ars') ->
                     (forall x, In x (map av_addr ars') -> In x (map av_addr ars) \/ x = r0) ->
                     Forall (held_ok (os_maps (w_os w0)) ars') held).
  { intros ars' Hsub Haddr. eapply Forall_impl; [|exact Hheld]. intros pn Hpn.
    eapply held_ok_more; [exact Hpn | | exact Hsub |].
    - intros x Hx. rewrite Hmaps. right. exact Hx.
    - intros x Hx Hno Hin. destruct (Haddr _ Hin) as [Hin' | E]; [tauto|].
      destruct (R5 _ Hx) as [E' | E'];
        pose proof (maps_ok_in _ _ _ Hm Hx) as [_ [_ [Hpos _]]]; lia. }
  assert (Ht64 : forall av, In av ars -> 0 <= av_addr av < 2 ^ 64).
  { intros av Hav. pose proof (Hok' _ Hav) as [_ [A2 [A3 [A4 _]]]]. unf. fold m in A3, A4. lia. }
  right. exists len. split; [exact Hreg|]. split; [exact Hlen|]. split; [exact Hmaps|].
  split; [exact Hpsz|].
  destruct Htl as [Htl | [T1 [T2 [T3 T4]]]].
  - (* the tail is the last arena of the sequence *)
    destruct (exists_last Hne) as [ars' [avl Ears]].
    assert (Et : t = av_addr avl).
    { rewrite Htl, Ears, map_app. cbn [map]. apply last_last. }
    assert (Havl : In avl ars) by (rewrite Ears; apply in_or_app; right; left; reflexivity).
    pose proof (Hok' _ Havl) as Hokl. pose proof Hokl as [L1 [L2 [L3 [L4 _]]]].
    rewrite <- Et in L1, L2, L3, L4. fold m in L1, L3, L4. unf.
    pose proof (Hold _ Havl) as Holdl. rewrite <- Et in Holdl.
    assert (Hmeta : forall av x, In av ars ->
              av_addr av + 24 <= x < av_addr av + 40 \/
              arena_reads (av_addr av) (av_free av) (av_live av) x ->
              ~ t + 24 <= x < t + 32 -> m2 x = m x).
    { intros av x Hav Hx Hxt. apply Hm2; [|exact Hxt].
      pose proof (metadata_span _ _ _ _ (Hok' _ Hav) Hx) as Hsp. fold m in Hsp.
      pose proof (Hold _ Hav). lia. }
    assert (Hreads : forall av x, In av ars ->
              arena_reads (av_addr av) (av_free av) (av_live av) x -> m2 x = m x).
    { intros av x Hav Hx. apply (Hmeta av x Hav); [right; exact Hx|].
      pose proof (arena_reads_away _ _ _ _ _ _ (Hok' _ Hav) Hx) as Hr. fold m in Hr.
      destruct (Z.eq_dec (av_addr av) t) as [E | E]; [rewrite E in Hr; lia|].
      pose proof (Hok' _ Hav) as [_ [_ [A3 _]]]. fold m in A3. unf.
      rewrite Et in E.
      destruct (arenas_apart _ _ _ _ av avl Hm Hok Hav Havl E) as [E' | E'];
        fold m in E'; rewrite <- Et in E'; lia. }
    assert (Hnext : forall av, In av ars -> av_addr av <> t ->
              rd m2 (arena_next (av_addr av)) 8 = rd m (arena_next (av_addr av)) 8).
    { intros av Hav Hne'. unf. apply rd_ext. intros i Hbi. simpl in Hbi.
      apply (Hmeta av); [exact Hav | left; lia |].
      pose proof (Hok' _ Hav) as [_ [_ [A3 _]]]. fold m in A3. unf. rewrite Et in Hne'.
      destruct (arenas_apart _ _ _ _ av avl Hm Hok Hav Havl Hne') as [E' | E'];
        fold m in E'; rewrite <- Et in E'; lia. }
    assert (Hprev : forall av, In av ars ->
              rd m2 (arena_prev (av_addr av)) 8 = rd m (arena_prev (av_addr av)) 8).
    { intros av Hav. unf. apply rd_ext. intros i Hbi. simpl in Hbi.
      apply (Hmeta av); [exact Hav | left; lia |].
      destruct (Z.eq_dec (av_addr av) t) as [E | E]; [rewrite E; lia|].
      pose proof (Hok' _ Hav) as [_ [_ [A3 _]]]. fold m in A3. unf. rewrite Et in E.
      destruct (arenas_apart _ _ _ _ av avl Hm Hok Hav Havl E) as [E' | E'];
        fold m in E'; rewrite <- Et in E'; lia. }
    assert (Hnew2 : arena_ok m2 (os_maps (w_os w0)) r0 [(r0 + 40, len - 56)] []).
    { eapply arena_ok_frame; [exact Hnew | apply Hnew |].
      intros x Hx. apply Hm2new.
      - pose proof (arena_reads_span _ _ _ _ _ _ Hnew Hx) as Hsp.
        destruct Hnew as [N1 _]. unf. rewrite Hmaps in N1.
        destruct N1 as [N1 | N1].
        + inversion N1 as [N2]. fold m0 in Hsp. rewrite <- N2 in Hsp. lia.
        + exfalso. destruct (R5 _ N1) as [E | E]; cbn [fst snd] in E;
            pose proof (rd8_range (w_mem w0) r0); lia.
      - pose proof (arena_reads_away _ _ _ _ _ _ Hnew Hx) as Hr. lia. }
    split; [exact Hnew2|]. split.
    { apply Forall_forall. intros x Hx. apply in_map_iff in Hx as [av [<- Hav]].
      unf. apply rd_ext. intros i Hbi. simpl in Hbi. apply (Hreads av); [exact Hav|].
      left. lia. }
    left. unfold heap_ok. cbn [w_mem w_os w_state]. unfold st'. cbn [initialized pagesize
      set_state set_mem w_mem w_os w_state minallocsize arena_head arena_tail]. rewrite Hpsz.
    split; [exact Hi|]. split; [exact Hps|]. split; [exact Hmin|].
    split; [destruct ars; discriminate|].
    assert (Hr2 : rd m2 (arena_next t) 8 = r0).
    { unfold m2. unf. rewrite rd8_wr8_other by lia. apply rd8_wr8_same. lia. }
    assert (Hhd : In (arena_head (w_state w)) (map av_addr ars)).
    { destruct ars as [|h0 t0]; [congruence|]. cbn [map] in *.
      apply arena_chain_head in Hch as [-> _]. left. reflexivity. }
    apply in_map_iff in Hhd as [avh [Ehd Hhd]].
    split; [|split; [|split; [|split]]].
    + rewrite map_app. cbn [map av_addr].
      rewrite Ears, map_app in Hch |- *. cbn [map] in Hch |- *.
      rewrite <- app_assoc. cbn [app]. rewrite <- Et in *.
      eapply arena_chain_snoc; [exact Hch | | exact Hr2 | unf; lia |].
      * apply Forall_forall. intros x Hx. apply in_map_iff in Hx as [av [<- Hav]].
        apply Hnext.
        -- rewrite Ears. apply in_or_app. left. exact Hav.
        -- intros E. rewrite Ears, map_app in Hnd. cbn [map] in Hnd.
           apply NoDup_remove_2 in Hnd. apply Hnd. rewrite app_nil_r.
           rewrite <- Et, <- E. apply in_map. exact Hav.
      * transitivity (rd m0 (arena_next r0) 8); [|exact Hnx].
        unf. apply rd_ext. intros i Hbi. simpl in Hbi. apply Hm2new; lia.
    + rewrite <- Ehd. rewrite (Hprev avh Hhd). rewrite Ehd.
      rewrite map_app. cbn [map av_addr].
      rewrite Ears, map_app in Hpl |- *. cbn [map] in Hpl |- *.
      rewrite <- app_assoc. cbn [app]. rewrite <- Et in *.
      eapply prev_linked_snoc; [exact Hpl | |].
      * apply Forall_forall. intros x Hx.
        assert (Hx' : exists av, In av ars /\ av_addr av = x).
        { apply in_app_or in Hx as [Hx | [<- | []]].
          - apply in_map_iff in Hx as [av [E Hav]]. exists av.
            split; [rewrite Ears; apply in_or_app; left; exact Hav | exact E].
          - exists avl. split; [exact Havl | symmetry; exact Et]. }
        destruct Hx' as [av [Hav <-]]. apply Hprev. exact Hav.
      * unfold m2. unf. apply rd8_wr8_same. lia.
    + apply Forall_app. split.
      * apply Forall_forall. intros av Hav.
        eapply arena_ok_frame; [apply Hok'; exact Hav | | ].
        -- rewrite Hmaps. right. apply (Hok' _ Hav).
        -- intros x Hx. apply (Hreads av); assumption.
      * constructor; [exact Hnew2 | constructor].
    + left. rewrite map_app. cbn [map av_addr]. rewrite last_last. reflexivity.
    + apply Hheld0.
      * intros av Hav. apply in_or_app. left. exact Hav.
      * intros x Hx. rewrite map_app in Hx. cbn [map av_addr] in Hx.
        apply in_app_or in Hx as [Hx | [<- | []]]; [left; exact Hx | right; reflexivity].
  - (* the tail is outside the sequence *)
    assert (Hwr : (r0 <= t + 24 /\ t + 32 <= r0 + len /\ (t = r0 \/ r0 + 64 <= t)) \/
                  (exists lt, In (t, lt) (os_maps (w_os w)) /\ 56 < lt)).
    { destruct T4 as [T4 | [lt [T4 T5]]]; [left | right; exists lt; unf; tauto].
      apply is_mapped_inv in Emap as [r' [Hr' [E1 E2]]]. unf.
      rewrite Hmaps in Hr'. destruct Hr' as [<- | Hr'].
      - cbn [fst snd] in *. split; [lia|]. split; [lia|].
        apply (aligned_apart (os_pagesize (w_os w))); try assumption; lia.
      - exfalso. rewrite Forall_forall in T4. specialize (T4 _ Hr').
        apply disjoint_region_spec in T4. unf. lia. }
    assert (Hspan : forall av x, In av ars ->
              av_addr av <= x < av_addr av + rd m (av_addr av) 8 -> m2 x = m x).
    { intros av x Hav Hx. pose proof (Hold _ Hav) as Ho. apply Hm2; [lia|].
      destruct Hwr as [[W1 [W2 W3]] | [lt [W1 W2]]]; [lia|].
      pose proof (Hok' _ Hav) as [A1 _]. unf. fold m in A1.
      destruct (maps_ok_apart _ _ Hm _ _ A1 W1) as [E | E].
      - exfalso. apply T3. inversion E. apply in_map. exact Hav.
      - cbn [fst snd] in E. lia. }
    assert (Hnew2 : arena_ok m2 (os_maps (w_os w0)) r0 [(r0 + 40, len - 56)] []).
    { eapply arena_ok_frame; [exact Hnew | apply Hnew |].
      intros x Hx. pose proof (arena_reads_away _ _ _ _ _ _ Hnew Hx) as Hr.
      assert (Hx56 : r0 <= x < r0 + 24 \/ r0 + 40 <= x < r0 + 56).
      { destruct Hx as [Hx | [Hx | Hx]]; [lia | |].
        - apply Exists_exists in Hx as [y [[<- | []] Hy]]. cbn [fst] in Hy. lia.
        - apply Exists_exists in Hx as [y [[] _]]. }
      apply Hm2new; [|lia].
      destruct Hwr as [[W1 [W2 W3]] | [lt [W1 W2]]]; [lia|].
      destruct (R5 _ W1) as [E | E]; cbn [fst snd] in E; lia. }
    split; [exact Hnew2|]. split.
    { apply Forall_forall. intros x Hx. apply in_map_iff in Hx as [av [<- Hav]].
      unf. apply rd_ext. intros i Hbi. simpl in Hbi. apply (Hspan av); [exact Hav|].
      pose proof (Hok' _ Hav) as [_ [_ [A3 _]]]. fold m in A3. unf. lia. }
    right. split; [|exact Hnotin]. unfold st'.
    eapply heap_move; [exact H0 | | | | | | | |];
      cbn [set_state set_mem w_mem w_os w_state initialized pagesize minallocsize
             arena_head arena_tail].
    + exact Hi.
    + rewrite Hpsz. exact Hps.
    + rewrite Hpsz. exact Hmin.
    + reflexivity.
    + intros av Hav. rewrite Hmaps. right. apply (Hok' _ Hav).
    + intros av x Hav Hx. apply (Hspan av); [exact Hav|].
      eapply metadata_span; [apply Hok'; exact Hav | exact Hx].
    + right. rewrite Hpsz. split; [lia|]. split; [exact R3|]. split; [exact Hnotin|].
      right. exists len. split; [rewrite Hmaps; left; reflexivity | unf; lia].
    + apply Hheld0; [tauto | intros x Hx; left; exact Hx].
Qed.

(** ** Allocation on an initialised heap *)

Lemma heap_ok_held w held held' ars :
  heap_ok w held ars -> Forall (held_ok (os_maps (w_os w)) ars) held' ->
  heap_ok w held' ars.
Proof.
  intros H Hh. heap H. unfold heap_ok. repeat (split; [assumption|]). exact Hh.
Qed.

Lemma others_keep w held ars1 av ars2 m' b :
  maps_ok (os_pagesize (w_os w)) (os_maps (w_os w)) ->
  heap_ok w held (ars1 ++ av :: ars2) ->
  (forall x, x < av_addr av + 8 \/ av_addr av + 24 <= x < av_addr av + 40 \/
             av_addr av + rd (w_mem w) (av_addr av) 8 <= x -> m' x = w_mem w x) ->
  In b (map av_addr ars1) ->
  rd m' (arena_max_free_space b) 8 = rd (w_mem w) (arena_max_free_space b) 8.
Proof.
  intros Hm H F Hb. pose proof (heap_ok_addrs _ _ _ H) as [Hnd _]. heap H.
  apply in_map_iff in Hb as [av0 [<- Hin0]].
  assert (Hin : In av0 (ars1 ++ av :: ars2)) by (apply in_or_app; left; exact Hin0).
  assert (Hav : In av (ars1 ++ av :: ars2)) by (apply in_or_app; right; left; reflexivity).
  assert (Hne0 : av_addr av0 <> av_addr av).
  { intros E. rewrite map_app in Hnd. cbn [map] in Hnd. apply NoDup_remove_2 in Hnd.
    apply Hnd. rewrite <- E. apply in_or_app. left. apply in_map. exact Hin0. }
  pose proof Hok as Hok'. rewrite Forall_forall in Hok'.
  pose proof (Hok' _ Hin) as [_ [_ [A3 _]]]. pose proof (Hok' _ Hav) as [_ [_ [B3 _]]]. unf.
  apply rd_ext. intros i Hbi. simpl in Hbi. apply F.
  destruct (arenas_apart _ _ _ _ av0 av Hm Hok Hin Hav Hne0); lia.
Qed.

Lemma malloc_heap w held ars fuel n p w' :
  page_ok (os_pagesize (w_os w)) ->
  maps_ok (os_pagesize (w_os w)) (os_maps (w_os w)) ->
  heap_ok w held ars -> 0 < n < 2 ^ 64 ->
  TAlloc_malloc fuel n w = Ok p w' ->
  os_pagesize (w_os w') = os_pagesize (w_os w) /\
  ((p = NULL /\ same_heap w w') \/
   (p <> NULL /\ maps_ok (os_pagesize (w_os w)) (os_maps (w_os w')) /\
    ((exists ars', heap_ok w' ((p, n) :: held) ars' /\ served w' n p ars') \/
     (heap_ok w' ((p, n) :: held) ars /\
      exists r, In r (os_maps (w_os w')) /\ ~ In (fst r) (map av_addr ars) /\
                fst r <= p /\ p + n <= fst r + snd r)))).
Proof.
  intros Hpg Hm H Hn Hrun. pose proof (heap_ok_addrs _ _ _ H) as [Hnd [Hnn Hmapped]].
  pose proof H as H0. heap H. set (m := w_mem w) in *.
  destruct (Z.eq_dec (first_arena m n (map av_addr ars)) NULL) as [Efa | Efa].
  - (* no arena of the sequence admits the request *)
    rewrite (malloc_enter w held ars fuel n H0 ltac:(lia)) in Hrun.
    apply bind_inv in Hrun as [arena [w1 [Hacc Hrest]]].
    apply bind_inv in Hacc as [node [w0 [Hloop Hnode]]].
    destruct (res_inv _ _ _ _ _ _ _ (accommodating_loop_res w n _ _ fuel Hch Hmapped) Hloop)
      as [-> ->].
    fold m in Hnode. rewrite Efa in Hnode. change (NULL =? NULL) with true in Hnode.
    cbv iota in Hnode.
    destruct (alloc_more_space_spec _ _ _ _ _ _ Hpg Hm H0 Hn Hnode)
      as [[-> Hsame] | [len [Hreg [Hlen [Hmaps [Hpsz [Hnew [Hkeep Hcases]]]]]]]].
    { change (NULL =? NULL) with true in Hrest. cbv iota in Hrest.
      inversion Hrest; subst. split; [apply Hsame|]. left. split; [reflexivity | exact Hsame]. }
    pose proof (region_ok_spec _ _ _ Hreg) as [R1 [R2 [R3 [R4 R5]]]].
    rewrite (proj2 (Z.eqb_neq arena NULL)) in Hrest by (unf; lia).
    assert (Hm1 : maps_ok (os_pagesize (w_os w1)) (os_maps (w_os w1))).
    { rewrite Hpsz, Hmaps. apply maps_ok_cons; assumption. }
    assert (Elen : rd (w_mem w1) arena 8 = len).
    { destruct Hnew as [N1 _]. unf.
      eapply (maps_ok_base _ _ _ _ _ Hm1 N1). rewrite Hmaps. left. reflexivity. }
    pose proof (first_arena_null _ _ _ Efa Hnn) as Hsmall.
    destruct Hcases as [H1 | [H1 Hoff]].
    + (* the new arena joins the sequence *)
      destruct (heap_carve w1 held ars (mk_arena arena [(arena + 40, len - 56)] []) [] n Hm1 H1)
        as [pre [h [post [m' [Hsplit [Hres [H2 F]]]]]]].
      { cbn [av_free maxsize snd]. lia. }
      cbn [av_addr av_free av_live] in *.
      destruct (res_inv _ _ _ _ _ _ _ (Hres fuel) Hrest) as [-> ->].
      cbn [set_mem w_os w_mem]. split; [exact Hpsz|]. right.
      pose proof (split_fit_spec _ _ _ _ _ Hsplit) as [Efl [_ Hfit]].
      assert (Eh : h = (arena + 40, len - 56) /\ pre = [] /\ post = []).
      { destruct pre as [|x pre]; cbn [app] in Efl; inversion Efl as [[E1 E2]].
        - auto.
        - destruct pre; discriminate. }
      destruct Eh as [-> [-> ->]]. cbn [fst snd] in *.
      split; [unf; lia|]. split; [rewrite <- Hpsz; exact Hm1|]. left.
      eexists. split; [exact H2|].
      exists ars, (mk_arena arena (carve_list n [(arena + 40, len - 56)])
                     [(arena + 40, granted n (arena + 40, len - 56))]), [],
        [(arena + 40, len - 56)], [], (arena + 40, len - 56), [].
      cbn [av_addr av_free av_live set_mem w_mem fst snd].
      split; [reflexivity|]. split; [|split; [|split; [exact Hsplit|split; [reflexivity|]]]].
      * apply Forall_forall. intros b Hb.
        rewrite (others_keep w1 held ars _ [] m' b Hm1 H1 F Hb).
        rewrite Forall_forall in Hkeep, Hsmall. rewrite (Hkeep b Hb). apply Hsmall. exact Hb.
      * assert (Er : rd m' arena 8 = len).
        { rewrite <- Elen. apply rd_ext. intros i Hbi. simpl in Hbi. apply F. lia. }
        unf. rewrite Er. destruct Hnew as [_ [_ [_ [_ [_ [N6 _]]]]]]. unf.
        rewrite Elen in N6. exact N6.
      * split; [left; reflexivity | unf; reflexivity].
    + (* the new arena stays outside the sequence *)
      destruct (arena_malloc_step w1 arena _ _ n Hnew)
        as [m' [pre [h [post [Hsplit [Hres [Hok1 [G1 [G2 [G3 F]]]]]]]]]].
      { cbn [maxsize snd]. lia. }
      destruct (res_inv _ _ _ _ _ _ _ (Hres fuel) Hrest) as [-> ->].
      cbn [set_mem w_os w_mem]. split; [exact Hpsz|]. right.
      split; [unf; lia|]. split; [rewrite <- Hpsz; exact Hm1|]. right.
      assert (Hr : In (arena, len) (os_maps (w_os w1))) by (rewrite Hmaps; left; reflexivity).
      assert (Hnewheld : held_ok (os_maps (w_os w1)) ars (fst h + 16, n)).
      { split; [cbn [snd]; lia|]. right. exists (arena, len). cbn [fst snd].
        split; [exact Hr|]. split; [exact Hoff|]. rewrite Elen in G3. unf. lia. }
      split.
      * pose proof H1 as [_ [_ [_ [_ [_ [_ [Hok0 [_ Hheld0]]]]]]]].
        apply (heap_ok_held _ held); [|constructor; [exact Hnewheld | exact Hheld0]].
        apply heap_frame; [exact H1|].
        intros av x Hav Hx. apply F.
        rewrite Forall_forall in Hok0.
        pose proof (metadata_span _ _ _ _ (Hok0 _ Hav) Hx) as Hsp.
        pose proof (Hok0 _ Hav) as [B1 _]. unf.
        destruct (maps_ok_apart _ _ Hm1 _ _ B1 Hr) as [E | E].
        -- exfalso. apply Hoff. inversion E. apply in_map. exact Hav.
        -- cbn [fst snd] in E. rewrite Elen. lia.
      * exists (arena, len). cbn [fst snd]. split; [exact Hr|]. split; [exact Hoff|].
        rewrite Elen in G3. lia.
  - (* an arena of the sequence serves the request *)
    destruct (malloc_served w held ars n Hm H0 ltac:(lia) Efa)
      as [ars1 [av [ars2 [pre [h [post [m' [Ears [Hsmall [Hsplit [Hres [H1 [F _]]]]]]]]]]]]].
    destruct (res_inv _ _ _ _ _ _ _ (Hres fuel) Hrun) as [-> ->].
    cbn [set_mem w_os w_mem]. split; [reflexivity|]. right.
    subst ars. pose proof Hok as Hok'. rewrite Forall_forall in Hok'.
    assert (Hav : In av (ars1 ++ av :: ars2)) by (apply in_or_app; right; left; reflexivity).
    pose proof (Hok' _ Hav) as [A1 [A2 [A3 [A4 [A5 [A6 A7]]]]]].
    pose proof (split_fit_spec _ _ _ _ _ Hsplit) as [Efl [_ Hfit]].
    assert (Hh : av_addr av + 40 <= fst h).
    { unfold gapped in A6. pose proof (spaced_in 1 _ _ _ ltac:(lia) A6) as Hb.
      rewrite Forall_forall in Hb. unf.
      apply (Hb h). rewrite Efl. apply in_or_app. right. left. reflexivity. }
    split; [unf; lia|]. split; [exact Hm|]. left.
    eexists. split; [exact H1|].
    exists ars1, (mk_arena (av_addr av) (carve_list n (av_free av))
                    ((fst h, granted n h) :: av_live av)), ars2, (av_free av), pre, h, post.
    cbn [av_addr av_free av_live set_mem w_mem].
    split; [reflexivity|]. split; [|split; [|split; [exact Hsplit|split; [reflexivity|]]]].
    + apply Forall_forall. intros b Hb.
      rewrite (others_keep w held ars1 av ars2 m' b Hm H0 F Hb).
      rewrite Forall_forall in Hsmall. apply Hsmall. exact Hb.
    + assert (Er : rd m' (av_addr av) 8 = rd m (av_addr av) 8).
      { apply rd_ext. intros i Hbi. simpl in Hbi. apply F. lia. }
      unf. rewrite Er. exact A6.
    + split; [left; reflexivity | unf; reflexivity].
Qed.

(** ** The first call *)

Lemma initialize_spec w :
  page_ok (os_pagesize (w_os w)) -> heap_none w [] ->
  exists w1, TAlloc_initialize w = Ok tt w1 /\
    os_pagesize (w_os w1) = os_pagesize (w_os w) /\
    pagesize (w_state w1) = os_pagesize (w_os w) /\
    minallocsize (w_state w1) = os_pagesize (w_os w) * TALLOC_ALLOC_PAGES /\
    ((heap_none w1 [] /\ w_mem w1 = w_mem w) \/
     (maps_ok (os_pagesize (w_os w)) (os_maps (w_os w1)) /\
      exists a len, heap_ok w1 [] [mk_arena a [(a + 40, len - 56)] []] /\
        os_maps (w_os w1) = [(a, os_pagesize (w_os w) * TALLOC_ALLOC_PAGES)] /\
        len = os_pagesize (w_os w) * TALLOC_ALLOC_PAGES)).
Proof.
  intros Hpg [Hi [Hhd [Htl [Hmaps _]]]]. destruct (page_ok_bounds _ Hpg) as [[P1 P2] P3].
  change (2 ^ 30) with 1073741824 in P2.
  set (ps := os_pagesize (w_os w)) in *.
  unfold TAlloc_initialize.
  erewrite bind_ok by reflexivity. fold ps.
  rewrite (wrap_small ps) by (rewrite two64; lia).
  unfold TALLOC_ALLOC_PAGES. rewrite (wrap_small (ps * 1000)) by (rewrite two64; lia).
  erewrite bind_ok by reflexivity.
  erewrite bind_ok by reflexivity.
  erewrite bind_ok by reflexivity.
  cbn [set_state w_state w_mem w_os minallocsize pagesize arena_head arena_tail initialized].
  match goal with
  | |- context [bind (mmap ?len) _ ?w0] =>
      destruct (mmap_cases w0 len) as [a [w1 [Hmm Hcases]]]
  end.
  erewrite bind_ok by exact Hmm.
  erewrite bind_ok by reflexivity.
  unfold same_heap in Hcases.
  cbn [set_state w_state w_mem w_os minallocsize pagesize arena_head arena_tail initialized]
    in Hcases.
  destruct Hcases as [[-> [S1 [S2 [S3 S4]]]] | [Hreg [Hmem [Hmaps1 [Hpsz Hst]]]]].
  - rewrite Z.eqb_refl. eexists. split; [reflexivity|].
    cbn [set_state w_state w_mem w_os minallocsize pagesize arena_head arena_tail initialized].
    rewrite S2. cbn [minallocsize pagesize initialized arena_tail].
    split; [exact S4|]. split; [reflexivity|]. split; [reflexivity|]. left.
    split; [|exact S1]. unfold heap_none.
    cbn [set_state w_state w_mem w_os minallocsize pagesize arena_head arena_tail initialized].
    rewrite S3. tauto.
  - unfold region_ok in Hreg.
    cbn [set_state w_state w_mem w_os] in Hreg. fold (region_ok (w_os w) a (ps * 1000)) in Hreg.
    pose proof (region_ok_spec _ _ _ Hreg) as [R1 [R2 [R3 [R4 R5]]]].
    rewrite (proj2 (Z.eqb_neq a MAP_FAILED)) by (unfold MAP_FAILED; lia).
    erewrite bind_ok by reflexivity.
    cbn [set_state w_state w_mem w_os minallocsize pagesize arena_head arena_tail initialized].
    rewrite Hst.
    cbn [set_state w_state w_mem w_os minallocsize pagesize arena_head arena_tail initialized].
    match goal with
    | |- context [bind (TAlloc_init_arena a ?len) _ ?w0] =>
        destruct (init_arena_spec w0 a len) as [m1 [Hinit [Hok [Hnx [Hpv F]]]]]
    end.
    { cbn [set_state w_os]. rewrite Hmaps1. left. reflexivity. }
    { lia. }
    { lia. }
    { lia. }
    erewrite bind_ok by exact Hinit.
    eexists. split; [reflexivity|].
    cbn [set_state set_mem w_state w_mem w_os minallocsize pagesize arena_head arena_tail
           initialized] in *.
    split; [exact Hpsz|]. split; [reflexivity|]. split; [reflexivity|]. right.
    rewrite Hmaps1 in *. rewrite Hmaps in *.
    split.
    { cbn [maps_ok fst snd forallb]. repeat split; try lia. exact R3. }
    exists a, (ps * 1000). split; [|split; reflexivity]. unfold heap_ok.
    cbn [set_state set_mem w_state w_mem w_os minallocsize pagesize arena_head arena_tail
           initialized map av_addr av_free av_live].
    rewrite ?Hmaps1, ?Hmaps, ?Hpsz.
    split; [reflexivity|]. split; [reflexivity|]. split; [reflexivity|].
    split; [discriminate|].
    split; [|split; [|split; [|split]]].
    + apply chain_cons; [unf; lia|]. rewrite Hnx. apply chain_nil.
    + cbn [prev_linked]. tauto.
    + constructor; [exact Hok | constructor].
    + left. reflexivity.
    + constructor.
Qed.

Lemma malloc_initialized w fuel n :
  initialized (w_state w) = 1 ->
  TAlloc_malloc fuel n w
  = (if n =? 0 then ret NULL
     else arena <- TAlloc_get_accommodating_arena fuel n ;;
          if arena =? NULL then ret NULL else malloc_carve fuel arena n) w.
Proof.
  intros Hi. unfold TAlloc_malloc. erewrite bind_ok by reflexivity. rewrite Hi.
  change (1 =? 0) with false. cbv iota. erewrite bind_ok by reflexivity. reflexivity.
Qed.

Lemma malloc_uninitialized w fuel n w1 :
  initialized (w_state w) = 0 -> TAlloc_initialize w = Ok tt w1 ->
  TAlloc_malloc fuel n w
  = (if n =? 0 then ret NULL
     else arena <- TAlloc_get_accommodating_arena fuel n ;;
          if arena =? NULL then ret NULL else malloc_carve fuel arena n) w1.
Proof.
  intros Hi Hinit. unfold TAlloc_malloc. erewrite bind_ok by reflexivity. rewrite Hi.
  change (0 =? 0) with true. cbv iota. erewrite bind_ok by exact Hinit. reflexivity.
Qed.

(** After a failed initialisation the call does not return a block: it
    returns NULL, or the append of a fresh arena faults. *)
Lemma malloc_body_none w fuel n p w' :
  page_ok (os_pagesize (w_os w)) -> heap_none w [] ->
  pagesize (w_state w) = os_pagesize (w_os w) ->
  minallocsize (w_state w) = os_pagesize (w_os w) * TALLOC_ALLOC_PAGES ->
  0 <= n < 2 ^ 64 ->
  (if n =? 0 then ret NULL
   else arena <- TAlloc_get_accommodating_arena fuel n ;;
        if arena =? NULL then ret NULL else malloc_carve fuel arena n) w = Ok p w' ->
  p = NULL /\ same_heap w w'.
Proof.
  intros Hpg [Hi [Hhd [Htl [Hmaps _]]]] Hps Hmin Hn Hrun.
  destruct (page_ok_bounds _ Hpg) as [[P1 P2] P3].
  destruct (n =? 0) eqn:En.
  { inversion Hrun; subst. split; [reflexivity | apply same_heap_refl]. }
  apply Z.eqb_neq in En.
  apply bind_inv in Hrun as [arena [w1 [Hacc Hrest]]].
  unfold TAlloc_get_accommodating_arena in Hacc.
  erewrite bind_ok in Hacc by reflexivity. rewrite Hhd in Hacc.
  apply bind_inv in Hacc as [node [w0 [Hloop Hnode]]].
  destruct fuel as [|k]; [discriminate Hloop|].
  cbn [accommodating_loop] in Hloop. change (NULL =? NULL) with true in Hloop.
  cbv iota in Hloop. inversion Hloop; subst node w0. clear Hloop.
  change (NULL =? NULL) with true in Hnode. cbv iota in Hnode.
  unfold TAlloc_alloc_more_space in Hnode.
  apply bind_inv in Hnode as [r0 [w0 [Hcreate Hnode]]].
  destruct (create_arena_spec w n r0 w0 Hpg Hps Hmin ltac:(lia) Hcreate)
    as [[-> Hsame] | [len [Hreg [Hlen [Hmaps0 [Hpsz [Hst _]]]]]]].
  - change (NULL =? NULL) with true in Hnode. cbv iota in Hnode.
    inversion Hnode; subst arena w1. change (NULL =? NULL) with true in Hrest.
    cbv iota in Hrest. inversion Hrest; subst. split; [reflexivity | exact Hsame].
  - exfalso. pose proof (region_ok_spec _ _ _ Hreg) as [R1 [R2 [R3 [R4 R5]]]].
    rewrite (proj2 (Z.eqb_neq r0 NULL)) in Hnode by (unf; lia).
    erewrite bind_ok in Hnode by reflexivity. rewrite Hst, Htl in Hnode.
    apply bind_inv in Hnode as [u [w2 [Hst1 _]]].
    unfold store64, store in Hst1. rewrite Hmaps0, Hmaps in Hst1.
    assert (Em : is_mapped [(r0, len)] (arena_next NULL) (Z.of_nat 8) = false).
    { unfold is_mapped, in_region. cbn [existsb fst snd]. rewrite orb_false_r.
      apply andb_false_iff. left. apply Z.leb_gt. unf.
      apply (aligned_apart (os_pagesize (w_os w)) r0 0) in R3; [lia | lia | | lia].
      apply Z.mod_0_l. lia. }
    rewrite Em in Hst1. discriminate Hst1.
Qed.

(** ** The invariant along a run *)

Lemma malloc_zero w fuel :
  initialized (w_state w) = 1 -> TAlloc_malloc fuel 0 w = Ok NULL w.
Proof. intros Hi. rewrite malloc_initialized by exact Hi. reflexivity. Qed.

Lemma malloc_preserves w held fuel n p w' :
  inv w held -> 0 <= n < 2 ^ 64 -> TAlloc_malloc fuel n w = Ok p w' ->
  (p = NULL /\ inv w' held) \/
  (p <> NULL /\ 0 < n /\ inv w' ((p, n) :: held) /\
   ((exists ars', heap_ok w' ((p, n) :: held) ars' /\ served w' n p ars') \/
    (exists ars r, heap_ok w' ((p, n) :: held) ars /\
       In r (os_maps (w_os w')) /\ ~ In (fst r) (map av_addr ars) /\
       fst r <= p /\ p + n <= fst r + snd r))).
Proof.
  intros [Hpg [Hm Hh]] Hn Hrun.
  assert (Hinit : forall w1 held1 ars, page_ok (os_pagesize (w_os w1)) ->
            maps_ok (os_pagesize (w_os w1)) (os_maps (w_os w1)) ->
            heap_ok w1 held1 ars -> TAlloc_malloc fuel n w1 = Ok p w' ->
            (p = NULL /\ inv w' held1) \/
            (p <> NULL /\ 0 < n /\ inv w' ((p, n) :: held1) /\
             ((exists ars', heap_ok w' ((p, n) :: held1) ars' /\ served w' n p ars') \/
              (exists ars r, heap_ok w' ((p, n) :: held1) ars /\
                 In r (os_maps (w_os w')) /\ ~ In (fst r) (map av_addr ars) /\
                 fst r <= p /\ p + n <= fst r + snd r)))).
  { intros w1 held1 ars Hpg1 Hm1 H1 Hrun1.
    destruct (Z.eq_dec n 0) as [-> | En].
    - rewrite malloc_zero in Hrun1 by apply H1. inversion Hrun1; subst.
      left. split; [reflexivity|]. split; [exact Hpg1|]. split; [exact Hm1|].
      right. exists ars. exact H1.
    - destruct (malloc_heap w1 held1 ars fuel n p w' Hpg1 Hm1 H1 ltac:(lia) Hrun1)
        as [Hpsz [[-> Hsame] | [Hp [Hm' Hcases]]]].
      + left. split; [reflexivity|]. eapply same_heap_inv; [exact Hsame|].
        split; [exact Hpg1|]. split; [exact Hm1|]. right. exists ars. exact H1.
      + right. split; [exact Hp|]. split; [lia|]. split.
        * unfold inv. rewrite Hpsz. split; [exact Hpg1|]. split; [exact Hm'|]. right.
          destruct Hcases as [[ars' [H2 _]] | [H2 _]]; eexists; exact H2.
        * destruct Hcases as [Hc | [H2 Hr]]; [left; exact Hc|].
          right. exists ars. destruct Hr as [r Hr]. exists r. tauto. }
  destruct Hh as [Hnone | [ars H]]; [|eapply Hinit; eassumption].
  pose proof Hnone as [Hi [_ [_ [_ ->]]]].
  destruct (initialize_spec w Hpg Hnone) as [w1 [Hini [Hpsz [Hps1 [Hmin1 Hcases]]]]].
  destruct Hcases as [[Hnone1 Hmem] | [Hm1 [a [len [H1 _]]]]].
  - rewrite (malloc_uninitialized _ _ _ _ Hi Hini) in Hrun.
    rewrite <- Hpsz in Hps1, Hmin1, Hpg.
    destruct (malloc_body_none w1 fuel n p w' Hpg Hnone1 Hps1 Hmin1 Hn Hrun) as [-> Hsame].
    left. split; [reflexivity|]. eapply same_heap_inv; [exact Hsame|].
    split; [exact Hpg|]. split; [|left; exact Hnone1].
    destruct Hnone1 as [_ [_ [_ [-> _]]]]. exact I.
  - rewrite (malloc_uninitialized _ _ _ _ Hi Hini) in Hrun.
    rewrite <- (malloc_initialized w1 fuel n) in Hrun by apply H1.
    rewrite <- Hpsz in Hpg, Hm1. eapply Hinit; eassumption.
Qed.

Lemma init_world_inv m ps maps unmaps :
  page_ok ps -> inv (init_world m ps maps unmaps) [].
Proof.
  intros Hpg. split; [exact Hpg|]. split; [exact I|]. left.
  unfold heap_none. cbn. tauto.
Qed.

Lemma reachable_inv w held : reachable w held -> inv w held.
Proof.
  induction 1 as [m ps maps unmaps Hpg
                 | w held fuel n p w' _ IH Hn Hrun Hp
                 | w held fuel n w' _ IH Hn Hrun
                 | w held fuel p n w' _ IH Hin Hrun
                 | w held p n x b _ IH Hin Hx].
  - apply init_world_inv. exact Hpg.
  - destruct (malloc_preserves _ _ _ _ _ _ IH Hn Hrun) as [[-> _] | [_ [_ [Hinv _]]]];
      [congruence | exact Hinv].
  - destruct (malloc_preserves _ _ _ _ _ _ IH Hn Hrun) as [[_ Hinv] | [Hp _]];
      [exact Hinv | congruence].
  - eapply free_preserves; eassumption.
  - eapply poke_preserves; eassumption.
Qed.

(** * Further properties of the code *)

(** ** Looking an arena up *)

Lemma in_usable_rangeb_spec m a ptr :
  in_usable_rangeb m a ptr = true <-> in_usable_range m a ptr.
Proof.
  unfold in_usable_rangeb, in_usable_range.
  rewrite andb_true_iff, Z.leb_le, Z.ltb_lt. tauto.
Qed.

Lemma owner_cases m ptr l :
  ~ In NULL l ->
  (owner m ptr l = NULL /\ Forall (fun x => ~ in_usable_range m x ptr) l) \/
  (exists l1 l2, l = l1 ++ owner m ptr l :: l2 /\ owner m ptr l <> NULL /\
     Forall (fun x => ~ in_usable_range m x ptr) l1 /\
     in_usable_range m (owner m ptr l) ptr).
Proof.
  induction l as [|x l IH]; intros Hn.
  - left. split; [reflexivity | constructor].
  - cbn [owner]. destruct (in_usable_rangeb m x ptr) eqn:E.
    + right. exists [], l. split; [reflexivity|].
      split; [intros E0; apply Hn; left; exact E0|].
      split; [constructor | apply in_usable_rangeb_spec; exact E].
    + assert (Hx : ~ in_usable_range m x ptr).
      { intros H. apply in_usable_rangeb_spec in H. congruence. }
      destruct IH as [[E1 E2] | [l1 [l2 [E1 [E2 [E3 E4]]]]]].
      * intros Hin. apply Hn. right. exact Hin.
      * left. split; [exact E1 | constructor; assumption].
      * right. exists (x :: l1), l2. split; [cbn [app]; f_equal; exact E1|].
        split; [exact E2|]. split; [constructor; assumption | exact E4].
Qed.

Lemma one_block_chain :
  arena_chain (w_mem one_block) (arena_head (w_state one_block)) [A1].
Proof.
  replace (arena_head (w_state one_block)) with A1 by (vm_compute; reflexivity).
  apply chain_cons; [discriminate|].
  replace (rd (w_mem one_block) (arena_next A1) 8) with NULL by (vm_compute; reflexivity).
  apply chain_nil.
Qed.

Lemma one_block_mapped : Forall (arena_mapped one_block) [A1].
Proof. constructor; [vm_compute; reflexivity | constructor]. Qed.

(** X1.  On a null-terminated sequence of mapped arenas TAlloc_find_arena
    returns, leaving the whole state as it was, the first arena whose range
    from the end of its header to its end holds the pointer, and NULL when no
    arena of the sequence does. *)
Theorem find_arena_first_owner w ptr l fuel :
  arena_chain (w_mem w) (arena_head (w_state w)) l ->
  Forall (arena_mapped w) l ->
  (length l < fuel)%nat ->
  exists a, TAlloc_find_arena fuel ptr w = Ok a w /\
    ((a = NULL /\ Forall (fun x => ~ in_usable_range (w_mem w) x ptr) l) \/
     (exists l1 l2, l = l1 ++ a :: l2 /\ a <> NULL /\
        Forall (fun x => ~ in_usable_range (w_mem w) x ptr) l1 /\
        in_usable_range (w_mem w) a ptr)).
Proof.
  intros Hc Hm Hf. exists (owner (w_mem w) ptr l). split.
  - unfold TAlloc_find_arena. erewrite bind_ok by reflexivity.
    eapply res_total; [apply find_arena_loop_res; eassumption | lia].
  - apply owner_cases. eapply arena_chain_nonnull. exact Hc.
Qed.

Lemma find_arena_first_owner_witness :
  exists a, TAlloc_find_arena 2 (A1 + 56) one_block = Ok a one_block /\
    ((a = NULL /\ Forall (fun x => ~ in_usable_range (w_mem one_block) x (A1 + 56)) [A1]) \/
     (exists l1 l2, [A1] = l1 ++ a :: l2 /\ a <> NULL /\
        Forall (fun x => ~ in_usable_range (w_mem one_block) x (A1 + 56)) l1 /\
        in_usable_range (w_mem one_block) a (A1 + 56))).
Proof.
  apply (find_arena_first_owner one_block (A1 + 56) [A1] 2).
  - exact one_block_chain.
  - exact one_block_mapped.
  - simpl. lia.
Defined.

(** X2.  On a null-terminated sequence of mapped arenas
    TAlloc_get_accommodating_arena returns, leaving the state as it was, the
    first arena whose cached max_free_space is at least the size asked for;
    when no arena of the sequence qualifies the call is the call of
    TAlloc_alloc_more_space. *)
Theorem accommodating_arena_first_fit w size l fuel :
  arena_chain (w_mem w) (arena_head (w_state w)) l ->
  Forall (arena_mapped w) l ->
  (length l < fuel)%nat ->
  (forall l1 a l2,
      l = l1 ++ a :: l2 ->
      Forall (fun x => rd (w_mem w) (arena_max_free_space x) 8 < size) l1 ->
      size <= rd (w_mem w) (arena_max_free_space a) 8 ->
      TAlloc_get_accommodating_arena fuel size w = Ok a w) /\
  (Forall (fun x => rd (w_mem w) (arena_max_free_space x) 8 < size) l ->
   TAlloc_get_accommodating_arena fuel size w = TAlloc_alloc_more_space size w).
Proof.
  intros Hc Hm Hf.
  assert (Hloop : accommodating_loop fuel size (arena_head (w_state w)) w
                  = Ok (first_arena (w_mem w) size l) w).
  { eapply res_total; [apply accommodating_loop_res; eassumption | lia]. }
  pose proof (arena_chain_nonnull _ _ _ Hc) as Hnn.
  split.
  - intros l1 a l2 El Hsmall Hfit. unfold TAlloc_get_accommodating_arena.
    erewrite bind_ok by reflexivity. erewrite bind_ok by exact Hloop.
    rewrite El, first_arena_app by assumption.
    assert (Ha : a <> NULL).
    { intros E. apply Hnn. rewrite El, <- E. apply in_or_app. right. left. reflexivity. }
    apply Z.eqb_neq in Ha. rewrite Ha. reflexivity.
  - intros Hsmall. unfold TAlloc_get_accommodating_arena.
    erewrite bind_ok by reflexivity. erewrite bind_ok by exact Hloop.
    assert (E : first_arena (w_mem w) size l = NULL).
    { clear - Hsmall. induction l as [|x l IH]; [reflexivity|].
      apply Forall_cons_iff in Hsmall as [H1 H2]. cbn [first_arena].
      apply Z.ltb_lt in H1. rewrite H1. apply IH. exact H2. }
    rewrite E. reflexivity.
Qed.

Lemma accommodating_arena_first_fit_witness :
  (forall l1 a l2,
      [A1] = l1 ++ a :: l2 ->
      Forall (fun x => rd (w_mem one_block) (arena_max_free_space x) 8 < 100) l1 ->
      100 <= rd (w_mem one_block) (arena_max_free_space a) 8 ->
      TAlloc_get_accommodating_arena 2 100 one_block = Ok a one_block) /\
  (Forall (fun x => rd (w_mem one_block) (arena_max_free_space x) 8 < 100) [A1] ->
   TAlloc_get_accommodating_arena 2 100 one_block = TAlloc_alloc_more_space 100 one_block).
Proof.
  apply (accommodating_arena_first_fit one_block 100 [A1] 2).
  - exact one_block_chain.
  - exact one_block_mapped.
  - simpl. lia.
Defined.

(** ** Arena headers and chunks *)

(** X3.  TAlloc_init_arena writes the first 56 bytes of the arena and
    nothing else: the size mapped, the cached maximum and the size of the one
    free chunk -- both the size mapped less the overhead --, null links, and
    the free list starting right after the arena header. *)
Theorem init_arena_writes_header w a len :
  In (a, len) (os_maps (w_os w)) -> 0 < a -> TALLOC_ARENA_OVERHEAD <= len ->
  a + len < 2 ^ 64 ->
  exists m1,
    TAlloc_init_arena a len w = Ok tt (set_mem w m1) /\
    rd m1 (arena_allocated a) 8 = len /\
    rd m1 (arena_max_free_space a) 8 = len - TALLOC_ARENA_OVERHEAD /\
    rd m1 (arena_free_list a) 8 = a + sizeof_arena /\
    rd m1 (arena_next a) 8 = NULL /\
    rd m1 (arena_prev a) 8 = NULL /\
    rd m1 (chunk_size (a + sizeof_arena)) 8 = len - TALLOC_ARENA_OVERHEAD /\
    rd m1 (chunk_next (a + sizeof_arena)) 8 = NULL /\
    (forall x, x < a \/ a + TALLOC_ARENA_OVERHEAD <= x -> m1 x = w_mem w x).
Proof.
  intros Hin Ha Hlen Hend. unfold TAlloc_init_arena.
  st. st. st. st. wr_small. ld. rdw. st. st.
  erewrite store64_in by side. wsimp.
  eexists. split; [reflexivity|]. unf.
  repeat split; try (rdw; reflexivity).
  intros x Hx. rewrite !wr_out by (simpl; lia). reflexivity.
Qed.

Lemma init_arena_writes_header_witness :
  exists m1,
    TAlloc_init_arena A1 4096000 one_block = Ok tt (set_mem one_block m1) /\
    rd m1 (arena_allocated A1) 8 = 4096000 /\
    rd m1 (arena_max_free_space A1) 8 = 4096000 - TALLOC_ARENA_OVERHEAD /\
    rd m1 (arena_free_list A1) 8 = A1 + sizeof_arena /\
    rd m1 (arena_next A1) 8 = NULL /\
    rd m1 (arena_prev A1) 8 = NULL /\
    rd m1 (chunk_size (A1 + sizeof_arena)) 8 = 4096000 - TALLOC_ARENA_OVERHEAD /\
    rd m1 (chunk_next (A1 + sizeof_arena)) 8 = NULL /\
    (forall x, x < A1 \/ A1 + TALLOC_ARENA_OVERHEAD <= x -> m1 x = w_mem one_block x).
Proof.
  apply (init_arena_writes_header one_block A1 4096000).
  - vm_compute. left. reflexivity.
  - vm_compute. reflexivity.
  - vm_compute. discriminate.
  - vm_compute. reflexivity.
Defined.

(** X4.  TAlloc_coalesce merges a chunk with its successor exactly when
    the successor starts where the chunk ends: the chunk then takes the
    successor's size, the successor's header and the successor's link, and no
    byte outside the chunk's own header changes; otherwise nothing changes. *)
Theorem coalesce_merges_adjacent w a len c :
  In (a, len) (os_maps (w_os w)) -> 0 < a -> a + len < 2 ^ 64 -> a <= c ->
  c + sizeof_chunk + rd (w_mem w) (chunk_size c) 8 <= a + len ->
  (rd (w_mem w) (chunk_next c) 8 <> c + sizeof_chunk + rd (w_mem w) (chunk_size c) 8 ->
   TAlloc_coalesce c w = Ok tt w) /\
  (rd (w_mem w) (chunk_next c) 8 = c + sizeof_chunk + rd (w_mem w) (chunk_size c) 8 ->
   rd (w_mem w) (chunk_next c) 8 + sizeof_chunk
     + rd (w_mem w) (chunk_size (rd (w_mem w) (chunk_next c) 8)) 8 <= a + len ->
   exists m',
     TAlloc_coalesce c w = Ok tt (set_mem w m') /\
     rd m' (chunk_size c) 8
     = rd (w_mem w) (chunk_size c) 8
       + (sizeof_chunk + rd (w_mem w) (chunk_size (rd (w_mem w) (chunk_next c) 8)) 8) /\
     rd m' (chunk_next c) 8
     = rd (w_mem w) (chunk_next (rd (w_mem w) (chunk_next c) 8)) 8 /\
     (forall x, x < c \/ c + sizeof_chunk <= x -> m' x = w_mem w x)).
Proof.
  intros Hin Ha Hend Hc Hfit. set (m := w_mem w). unf. split.
  - intros Hne. rewrite <- (set_mem_same w) at 1 2. fold m.
    eapply coalesce_apart; try eassumption; fold m; lia.
  - intros He Hnext. fold m in He, Hnext.
    pose proof (rd8_range m c). pose proof (rd8_range m (c + 16 + rd m c 8)).
    pose proof (rd8_range m (c + 16 + rd m c 8 + 8)).
    rewrite He in *.
    replace (c + 16 + rd m c 8) with (c + rd m c 8 + 16) in * by lia.
    eexists. split.
    + rewrite <- (set_mem_same w) at 1. fold m.
      eapply coalesce_adjacent; try eassumption; lia.
    + split; [|split].
      * rewrite rd8_wr8_other by lia. rewrite rd8_wr8_same by (rewrite two64 in *; lia).
        reflexivity.
      * rewrite rd8_wr8_same by lia. reflexivity.
      * intros x Hx. rewrite !wr_out by (simpl; lia). reflexivity.
Qed.

Lemma coalesce_merges_adjacent_witness :
  rd (w_mem before_coalesce) (chunk_size (A1 + 57)) 8 = 100 /\
  rd (w_mem before_coalesce) (chunk_next (A1 + 57)) 8 = A1 + 173 /\
  rd (w_mem before_coalesce) (chunk_size (A1 + 173)) 8 = 4095811 /\
  rd (w_mem before_coalesce) (chunk_next (A1 + 173)) 8 = NULL /\
  exists m',
    TAlloc_coalesce (A1 + 57) before_coalesce = Ok tt (set_mem before_coalesce m') /\
    rd m' (chunk_size (A1 + 57)) 8 = 100 + (sizeof_chunk + 4095811) /\
    rd m' (chunk_next (A1 + 57)) 8 = NULL /\
    (forall x, x < A1 + 57 \/ A1 + 57 + sizeof_chunk <= x -> m' x = w_mem before_coalesce x).
Proof.
  assert (Es : rd (w_mem before_coalesce) (chunk_size (A1 + 57)) 8 = 100)
    by (vm_compute; reflexivity).
  assert (En : rd (w_mem before_coalesce) (chunk_next (A1 + 57)) 8 = A1 + 173)
    by (vm_compute; reflexivity).
  assert (Ens : rd (w_mem before_coalesce) (chunk_size (A1 + 173)) 8 = 4095811)
    by (vm_compute; reflexivity).
  assert (Enn : rd (w_mem before_coalesce) (chunk_next (A1 + 173)) 8 = NULL)
    by (vm_compute; reflexivity).
  split; [exact Es|]. split; [exact En|]. split; [exact Ens|]. split; [exact Enn|].
  destruct (proj2 (coalesce_merges_adjacent before_coalesce A1 4096000 (A1 + 57)
                     ltac:(vm_compute; left; reflexivity)
                     ltac:(vm_compute; reflexivity)
                     ltac:(vm_compute; reflexivity)
                     ltac:(vm_compute; discriminate)
                     ltac:(vm_compute; discriminate))
              ltac:(vm_compute; reflexivity)
              ltac:(vm_compute; discriminate)) as [m' [Hrun [Hsize [Hnext Hframe]]]].
  rewrite En in Hsize, Hnext. rewrite Es, Ens in Hsize. rewrite Enn in Hnext.
  exists m'. split; [exact Hrun|]. split; [exact Hsize|]. split; [exact Hnext|].
  exact Hframe.
Defined.

(** ** Sizes at the edges *)

Lemma one_block_reachable : reachable one_block [(A1 + 56, 1)].
Proof.
  assert (Hrun : TAlloc_malloc 64 1 one_map = Ok (A1 + 56) one_block).
  { pose proof (ok_projections (TAlloc_malloc 64 1 one_map) 0 one_map
                  ltac:(vm_compute; reflexivity)) as H.
    replace (value_of (TAlloc_malloc 64 1 one_map) 0) with (A1 + 56) in H
      by (vm_compute; reflexivity).
    rewrite H at 1. f_equal. }
  eapply (reach_malloc one_map [] 64 1 (A1 + 56) one_block).
  - apply reach_init. exists 12. split; [lia | reflexivity].
  - lia.
  - exact Hrun.
  - discriminate.
Qed.

(** X5.  The sizing decision of TAlloc_create_arena on a total that is not
    the minimum arena size: a smaller total gets the minimum; a larger one is
    rounded up to the next multiple of the page size, and when that multiple
    is 2^64 the product wraps and the size to map is 0. *)
Theorem arena_size_rounding ps total :
  page_ok ps -> 0 <= total < 2 ^ 64 -> total <> ps * TALLOC_ALLOC_PAGES ->
  exists len,
    to_allocate total (ps * TALLOC_ALLOC_PAGES) ps = Some len /\
    (total < ps * TALLOC_ALLOC_PAGES -> len = ps * TALLOC_ALLOC_PAGES) /\
    (ps * TALLOC_ALLOC_PAGES < total -> total <= 2 ^ 64 - ps ->
     len mod ps = 0 /\ total <= len < total + ps) /\
    (2 ^ 64 - ps < total -> len = 0).
Proof.
  intros Hpg Ht Hne. destruct (page_ok_bounds _ Hpg) as [[P1 P2] P3].
  unfold to_allocate, TALLOC_ALLOC_PAGES in *.
  change (2 ^ 30) with 1073741824 in P2. rewrite two64 in *.
  destruct (total <? ps * 1000) eqn:E1.
  { apply Z.ltb_lt in E1. eexists. split; [reflexivity|].
    split; [reflexivity|]. split; intros; lia. }
  apply Z.ltb_ge in E1.
  destruct (ps * 1000 <? total) eqn:E2; [|apply Z.ltb_ge in E2; lia].
  apply Z.ltb_lt in E2. eexists. split; [reflexivity|].
  set (add := if 0 <? total mod ps then 1 else 0).
  assert (Hadd : 0 <= add <= 1 /\ (total mod ps = 0 -> add = 0) /\ (0 < total mod ps -> add = 1)).
  { unfold add. destruct (0 <? total mod ps) eqn:E3.
    - apply Z.ltb_lt in E3. lia.
    - apply Z.ltb_ge in E3. lia. }
  pose proof (Z.div_mod total ps ltac:(lia)) as Hdm.
  pose proof (Z.mod_pos_bound total ps ltac:(lia)) as Hmb.
  assert (Hq : 0 <= total / ps) by (apply Z.div_pos; lia).
  assert (Hq2 : total / ps <= total) by (apply Z.div_le_upper_bound; nia).
  rewrite (wrap_small (total / ps + add)) by (rewrite two64; lia).
  set (P := ps * (total / ps + add)).
  assert (HP : total <= P < total + ps).
  { unfold P. destruct (Z.eq_dec (total mod ps) 0) as [E | E].
    - destruct Hadd as [_ [Ha _]]. rewrite (Ha E). lia.
    - destruct Hadd as [_ [_ Ha]]. rewrite (Ha ltac:(lia)). lia. }
  apply Z.mod_divide in P3; [|lia]. destruct P3 as [J HJ].
  split; [intros; lia|]. split.
  - intros _ Hle.
    assert (HPlt : P < 18446744073709551616).
    { destruct (Z_lt_dec P 18446744073709551616) as [Hl | Hl]; [exact Hl|]. exfalso.
      assert (total / ps + add = J) by (unfold P in *; nia).
      assert (P = 18446744073709551616) by (unfold P; rewrite H; lia).
      destruct (Z.eq_dec (total mod ps) 0) as [E | E].
      - destruct Hadd as [_ [Ha _]]. rewrite (Ha E) in H. nia.
      - lia. }
    rewrite wrap_small by (rewrite two64; lia). split; [|exact HP].
    unfold P. rewrite Z.mul_comm. apply Z.mod_mul. lia.
  - intros Hgt.
    assert (HPJ : P = ps * J).
    { unfold P in *. assert (total / ps + add = J) by nia. subst J. reflexivity. }
    unfold wrap. rewrite two64, HJ, HPJ. rewrite Z.mul_comm. apply Z.mod_same. lia.
Qed.

Lemma arena_size_rounding_witness :
  exists len,
    to_allocate 5000056 (4096 * TALLOC_ALLOC_PAGES) 4096 = Some len /\
    (5000056 < 4096 * TALLOC_ALLOC_PAGES -> len = 4096 * TALLOC_ALLOC_PAGES) /\
    (4096 * TALLOC_ALLOC_PAGES < 5000056 -> 5000056 <= 2 ^ 64 - 4096 ->
     len mod 4096 = 0 /\ 5000056 <= len < 5000056 + 4096) /\
    (2 ^ 64 - 4096 < 5000056 -> len = 0).
Proof.
  apply (arena_size_rounding 4096 5000056).
  - exists 12. split; [lia | reflexivity].
  - vm_compute. split; [discriminate | reflexivity].
  - vm_compute. discriminate.
Defined.

Lemma create_arena_overflow w n :
  2 ^ 64 - TALLOC_ARENA_OVERHEAD <= n < 2 ^ 64 -> TAlloc_create_arena n w = Ok NULL w.
Proof.
  intros Hn. unfold TAlloc_create_arena. unf. rewrite two64 in *.
  assert (E : wrap (n + (40 + 16)) = n + 56 - 18446744073709551616).
  { unfold wrap. rewrite two64.
    replace (n + (40 + 16)) with ((n + 56 - 18446744073709551616) + 1 * 18446744073709551616)
      by lia.
    rewrite Z.mod_add by lia. apply Z.mod_small. lia. }
  rewrite E. rewrite (proj2 (Z.ltb_lt _ _)) by lia. reflexivity.
Qed.

(** X6.  A request so large that adding the arena overhead wraps is
    refused without a system call: in every state a contract-keeping client
    reaches with the allocator initialised, TAlloc_malloc returns NULL and
    leaves memory, allocator state and provider as they were. *)
Theorem huge_request_refused w held n :
  reachable w held -> initialized (w_state w) = 1 ->
  2 ^ 64 - TALLOC_ARENA_OVERHEAD <= n < 2 ^ 64 ->
  exists N, forall fuel, (N <= fuel)%nat -> TAlloc_malloc fuel n w = Ok NULL w.
Proof.
  intros Hr Hinit Hn. apply reachable_inv in Hr as [Hpg [Hm Hh]].
  destruct Hh as [[Hi0 _] | [ars H]]; [congruence|].
  pose proof (heap_ok_addrs _ _ _ H) as [Hnd [Hnn Hmapped]].
  pose proof H as H0. heap H.
  exists (S (length (map av_addr ars))). intros fuel Hf.
  assert (Hsmall : first_arena (w_mem w) n (map av_addr ars) = NULL).
  { assert (Hall : Forall (fun x => rd (w_mem w) (arena_max_free_space x) 8 < n)
                     (map av_addr ars)).
    { apply Forall_forall. intros x Hx. apply in_map_iff in Hx as [av [<- Hav]].
      rewrite Forall_forall in Hok. pose proof (Hok _ Hav) as Hoka.
      pose proof (arena_max_bound _ _ _ _ _ Hoka) as Hb.
      destruct Hoka as [_ [A2 [_ [A4 [_ [_ [A7 _]]]]]]]. unf. rewrite two64 in *. lia. }
    clear - Hall. induction (map av_addr ars) as [|x l IH]; [reflexivity|].
    apply Forall_cons_iff in Hall as [H1 H2]. cbn [first_arena].
    apply Z.ltb_lt in H1. rewrite H1. apply IH. exact H2. }
  rewrite (malloc_enter w held ars fuel n H0) by (unf; rewrite two64 in *; lia).
  assert (Hloop : accommodating_loop fuel n (arena_head (w_state w)) w = Ok NULL w).
  { rewrite <- Hsmall. eapply res_total; [apply accommodating_loop_res; eassumption | lia]. }
  assert (Hget : (arena_node <- accommodating_loop fuel n (arena_head (w_state w)) ;;
                  if arena_node =? NULL then TAlloc_alloc_more_space n else ret arena_node) w
                 = Ok NULL w).
  { erewrite bind_ok by exact Hloop. change (NULL =? NULL) with true. cbv iota.
    unfold TAlloc_alloc_more_space.
    erewrite bind_ok by (apply create_arena_overflow; exact Hn). reflexivity. }
  erewrite bind_ok by exact Hget. reflexivity.
Qed.

Lemma huge_request_refused_witness :
  exists N, forall fuel, (N <= fuel)%nat ->
    TAlloc_malloc fuel (2 ^ 64 - 8) one_block = Ok NULL one_block.
Proof.
  apply (huge_request_refused one_block [(A1 + 56, 1)] (2 ^ 64 - 8)).
  - exact one_block_reachable.
  - vm_compute. reflexivity.
  - vm_compute. split; [discriminate | reflexivity].
Defined.

(** X7.  TAlloc_malloc(0) returns NULL in every state a contract-keeping
    client reaches.  On an initialised allocator nothing changes; on one that
    is not initialised the call runs TAlloc_initialize first, so it leaves the
    first arena mapped when the provider grants the mapping. *)
Theorem malloc_zero_returns_null w held fuel :
  reachable w held ->
  exists w1, TAlloc_malloc fuel 0 w = Ok NULL w1 /\
    (initialized (w_state w) = 1 -> w1 = w) /\
    (initialized (w_state w) = 0 ->
     TAlloc_initialize w = Ok tt w1 /\
     (initialized (w_state w1) = 0 \/
      (initialized (w_state w1) = 1 /\
       exists a, os_maps (w_os w1) = [(a, os_pagesize (w_os w) * TALLOC_ALLOC_PAGES)] /\
                 arena_head (w_state w1) = a))).
Proof.
  intros Hr. apply reachable_inv in Hr as [Hpg [Hm Hh]].
  destruct Hh as [Hnone | [ars H]].
  - pose proof Hnone as [Hi [_ [_ [Hmaps ->]]]].
    destruct (initialize_spec w Hpg Hnone) as [w1 [Hini [Hpsz [Hps1 [Hmin1 Hcases]]]]].
    exists w1. rewrite (malloc_uninitialized _ _ _ _ Hi Hini).
    split; [reflexivity|]. split; [congruence|]. intros _. split; [exact Hini|].
    destruct Hcases as [[[Hi1 _] _] | [Hm1 [a [len [H1 [Hmaps1 _]]]]]]; [left; exact Hi1|].
    right. destruct H1 as [Hi1 [_ [_ [_ [Hch _]]]]]. split; [exact Hi1|]. exists a.
    cbn [map av_addr] in Hch. apply arena_chain_head in Hch as [Ehd _].
    split; [exact Hmaps1 | exact Ehd].
  - pose proof H as [Hi _]. exists w. rewrite malloc_zero by exact Hi.
    split; [reflexivity|]. split; [reflexivity | congruence].
Qed.

Lemma malloc_zero_returns_null_witness :
  exists w1, TAlloc_malloc 0 0 one_map = Ok NULL w1 /\
    (initialized (w_state one_map) = 1 -> w1 = one_map) /\
    (initialized (w_state one_map) = 0 ->
     TAlloc_initialize one_map = Ok tt w1 /\
     (initialized (w_state w1) = 0 \/
      (initialized (w_state w1) = 1 /\
       exists a, os_maps (w_os w1)
                 = [(a, os_pagesize (w_os one_map) * TALLOC_ALLOC_PAGES)] /\
                 arena_head (w_state w1) = a))).
Proof.
  apply (malloc_zero_returns_null one_map [] 0).
  apply reach_init. exists 12. split; [lia | reflexivity].
Defined.

(** ** What every reachable state satisfies *)

Lemma one_block_initialized : initialized (w_state one_block) = 1.
Proof. vm_compute. reflexivity. Qed.

Lemma reachable_heap w held :
  reachable w held -> initialized (w_state w) = 1 ->
  maps_ok (os_pagesize (w_os w)) (os_maps (w_os w)) /\ exists ars, heap_ok w held ars.
Proof.
  intros Hr Hi. apply reachable_inv in Hr as [Hpg [Hm Hh]].
  destruct Hh as [[Hi0 _] | Hh]; [congruence|]. split; assumption.
Qed.

Lemma heap_free_lists w held ars :
  heap_ok w held ars ->
  free_lists w (map (fun av => (av_addr av, av_free av)) ars).
Proof.
  intros H. heap H. split.
  - rewrite map_map. cbn [fst]. exact Hch.
  - apply Forall_forall. intros al Hal. apply in_map_iff in Hal as [av [<- Hav]].
    cbn [fst snd]. rewrite Forall_forall in Hok. apply (Hok _ Hav).
Qed.



(** X9.  In every such state the cached max_free_space of every arena of
    the sequence is the largest size in its free list, 0 when the list is
    empty. *)
Theorem max_free_space_is_exact w held :
  reachable w held -> initialized (w_state w) = 1 ->
  exists L, L <> [] /\ free_lists w L /\
    Forall (fun al => rd (w_mem w) (arena_max_free_space (fst al)) 8 = maxsize (snd al)) L.
Proof.
  intros Hr Hinit. destruct (reachable_heap _ _ Hr Hinit) as [Hm [ars H]].
  exists (map (fun av => (av_addr av, av_free av)) ars).
  split; [|split; [eapply heap_free_lists; exact H|]].
  - heap H. destruct ars; [congruence | discriminate].
  - heap H. apply Forall_forall. intros al Hal. apply in_map_iff in Hal as [av [<- Hav]].
    cbn [fst snd]. rewrite Forall_forall in Hok. apply (Hok _ Hav).
Qed.

Lemma max_free_space_is_exact_witness :
  exists L, L <> [] /\ free_lists one_block L /\
    Forall (fun al => rd (w_mem one_block) (arena_max_free_space (fst al)) 8
                      = maxsize (snd al)) L.
Proof.
  apply (max_free_space_is_exact one_block [(A1 + 56, 1)]).
  - exact one_block_reachable.
  - exact one_block_initialized.
Defined.



Lemma held_ok_mapped ps w held ars p n :
  maps_ok ps (os_maps (w_os w)) -> heap_ok w held ars -> In (p, n) held ->
  0 < n /\ p <> NULL /\ is_mapped (os_maps (w_os w)) p n = true.
Proof.
  intros Hm H Hin. heap H. rewrite Forall_forall in Hheld, Hok.
  destruct (Hheld _ Hin) as [Hp [[av [s [Hav [Hb Hs]]]] | [r [Hr [Hn Hrange]]]]];
    cbn [fst snd] in *.
  - pose proof (Hok _ Hav) as [A1' [A2 [A3 [A4 [_ [_ [_ [A8 _]]]]]]]].
    rewrite Forall_forall in A8. pose proof (A8 _ Hb) as [L1 [L2 [L3 _]]].
    unf. cbn [fst snd] in *. split; [exact Hp|]. split; [lia|].
    eapply is_mapped_in; [exact A1' | lia | lia].
  - pose proof (maps_ok_in _ _ _ Hm Hr) as [M1 _].
    split; [exact Hp|]. split; [unf; lia|].
    destruct r as [ra rl]. cbn [fst snd] in *.
    eapply is_mapped_in; [exact Hr | unf; lia | lia].
Qed.

(** X11.  In every reachable state every pointer the client holds is not
    NULL and the bytes it asked for lie in one live mapping: writing to them
    does not fault. *)
Theorem held_blocks_are_mapped w held p n :
  reachable w held -> In (p, n) held ->
  0 < n /\ p <> NULL /\ is_mapped (os_maps (w_os w)) p n = true.
Proof.
  intros Hr Hin. apply reachable_inv in Hr as [Hpg [Hm Hh]].
  destruct Hh as [[_ [_ [_ [_ ->]]]] | [ars H]]; [contradiction|].
  eapply held_ok_mapped; eassumption.
Qed.

Lemma held_blocks_are_mapped_witness :
  0 < 1 /\ A1 + 56 <> NULL /\ is_mapped (os_maps (w_os one_block)) (A1 + 56) 1 = true.
Proof.
  apply (held_blocks_are_mapped one_block [(A1 + 56, 1)] (A1 + 56) 1).
  - exact one_block_reachable.
  - left. reflexivity.
Defined.

(** X12.  In every reachable state a held pointer that lies in an arena
    of the sequence still has its header: the tag is in front of it and the
    size recorded is at least the size asked for, whatever the client wrote
    to its blocks. *)
Theorem held_block_keeps_header w held p n l :
  reachable w held -> In (p, n) held ->
  arena_chain (w_mem w) (arena_head (w_state w)) l ->
  Exists (fun a => in_usable_range (w_mem w) a p) l ->
  rd (w_mem w) (header_magic (p - sizeof_header)) 4 = TALLOC_MAGIC /\
  n <= rd (w_mem w) (header_size (p - sizeof_header)) 8.
Proof.
  intros Hr Hin Hc Hex. apply reachable_inv in Hr as [Hpg [Hm Hh]].
  destruct Hh as [[_ [_ [_ [_ ->]]]] | [ars H]]; [contradiction|].
  pose proof H as H0. heap H. rewrite Forall_forall in Hheld.
  pose proof Hok as Hok'. rewrite Forall_forall in Hok'.
  destruct (Hheld _ Hin) as [Hp [[av [s [Hav [Hb Hs]]]] | [r [Hr [Hn Hrange]]]]];
    cbn [fst snd] in *.
  - pose proof (Hok' _ Hav) as [_ [_ [_ [_ [_ [_ [_ [A8 _]]]]]]]].
    rewrite Forall_forall in A8. pose proof (A8 _ Hb) as [_ [_ [_ [L4 L5]]]].
    cbn [fst snd] in *. rewrite L4, L5. split; [reflexivity | exact Hs].
  - exfalso. pose proof (arena_chain_unique _ _ _ _ Hc Hch) as ->.
    apply Exists_exists in Hex as [a [Ha Hrng]]. apply in_map_iff in Ha as [av [<- Hav]].
    pose proof (Hok' _ Hav) as [A1' [A2 [A3 [A4 _]]]]. unfold in_usable_range in Hrng. unf.
    rewrite !wrap_small in Hrng
      by (pose proof (rd8_range (w_mem w) (av_addr av)); rewrite two64 in *; lia).
    destruct (maps_ok_apart _ _ Hm _ _ A1' Hr) as [E | E].
    + apply Hn. rewrite <- E. cbn [fst]. apply in_map. exact Hav.
    + cbn [fst snd] in E. lia.
Qed.

Lemma held_block_keeps_header_witness :
  rd (w_mem one_block) (header_magic (A1 + 56 - sizeof_header)) 4 = TALLOC_MAGIC /\
  1 <= rd (w_mem one_block) (header_size (A1 + 56 - sizeof_header)) 8.
Proof.
  apply (held_block_keeps_header one_block [(A1 + 56, 1)] (A1 + 56) 1 [A1]).
  - exact one_block_reachable.
  - left. reflexivity.
  - exact one_block_chain.
  - constructor. unfold in_usable_range.
    replace (wrap (A1 + rd (w_mem one_block) (arena_allocated A1) 8))
      with (A1 + 4096000) by (vm_compute; reflexivity).
    vm_compute. split; [discriminate | reflexivity].
Defined.

(** X13.  Releasing a pointer the client holds always returns: in every
    reachable state TAlloc_free of a held pointer, given enough fuel, ends
    without a fault. *)
Theorem valid_free_returns w held p n :
  reachable w held -> In (p, n) held ->
  exists N w', forall fuel, (N <= fuel)%nat -> TAlloc_free fuel p w = Ok tt w'.
Proof.
  intros Hr Hin. apply reachable_inv in Hr as [Hpg [Hm Hh]].
  destruct Hh as [[_ [_ [_ [_ ->]]]] | [ars H]]; [contradiction|].
  pose proof (heap_ok_addrs _ _ _ H) as [Hnd [Hnn Hmapped]].
  pose proof H as H0. heap H. rewrite Forall_forall in Hheld.
  destruct (Hheld _ Hin) as [Hp [[av [s [Hav [Hb Hs]]]] | [r [Hr [Hn Hrange]]]]];
    cbn [fst snd] in *.
  - apply in_split in Hav as [ars1 [ars2 ->]].
    assert (Ep : p = (p - sizeof_header) + 16) by (unf; lia).
    destruct (free_block w held (drop_held p held) ars1 av ars2 _ s Hm H0 Hb)
      as [m1 [w1 [Hres _]]].
    { apply held_ok_drop; [exact Ep|]. apply Forall_forall. exact Hheld. }
    eexists _, w1. intros fuel Hf. specialize (Hres fuel). rewrite <- Ep in Hres.
    eapply res_total; [exact Hres | exact Hf].
  - assert (Hlo : fst r <= p) by (unf; lia).
    pose proof (owner_foreign _ _ _ _ _ _ _ Hm H0 Hr Hn Hlo (proj2 Hrange) Hp)
      as Hown.
    exists (S (length (map av_addr ars))), w. intros fuel Hf.
    eapply res_total; [|exact Hf].
    apply free_skip; [exact Hi|]. rewrite <- Hown.
    apply find_arena_loop_res; assumption.
Qed.

Lemma valid_free_returns_witness :
  exists N w', forall fuel, (N <= fuel)%nat -> TAlloc_free fuel (A1 + 56) one_block = Ok tt w'.
Proof.
  apply (valid_free_returns one_block [(A1 + 56, 1)] (A1 + 56) 1).
  - exact one_block_reachable.
  - left. reflexivity.
Defined.

(** ** Release and allocate again *)

Lemma round_trip_list lo hi n fl0 pre h post :
  gapped lo hi fl0 -> 0 < n -> split_fit n fl0 = Some (pre, h, post) ->
  free_list_insert (fst h, granted n h) (carve_list n fl0) = firstn 1 pre ++ h :: post.
Proof.
  intros Hg Hn Hs. pose proof (split_fit_spec _ _ _ _ _ Hs) as [Efl [Hpre Hfit]].
  unfold carve_list. rewrite Hs. subst fl0. destruct h as [c s]. cbn [fst snd] in *.
  unfold gapped in Hg.
  pose proof (spaced_drop 1 lo hi pre _ ltac:(lia) Hg) as Hh.
  pose proof (spaced_tail_lower 1 lo hi _ _ ltac:(lia) Hh) as Hpost.
  pose proof Hh as [_ [Hs0 _]]. cbn [snd] in Hs0.
  assert (Hmr : merge_right (c, granted n (c, s)) (remainder n (c, s) ++ post)
                = (c, s) :: post).
  { unfold granted, remainder. cbn [fst snd]. destruct (sizeof_chunk <? s - n) eqn:E.
    - cbn [app merge_right fst snd]. unfold chunk_end. cbn [fst snd].
      rewrite Z.eqb_refl. f_equal. f_equal. unfold sizeof_chunk. lia.
    - cbn [app]. destruct post as [|y post]; [reflexivity|]. cbn [merge_right].
      apply Forall_inv in Hpost.
      rewrite (proj2 (Z.eqb_neq _ _)) by lia. reflexivity. }
  assert (Hrest : Forall (fun y => c < fst y) (remainder n (c, s) ++ post)).
  { apply Forall_app. split.
    - unfold remainder. cbn [fst snd]. destruct (sizeof_chunk <? s - n); constructor;
        [cbn [fst]; unfold sizeof_chunk; lia | constructor].
    - eapply Forall_impl; [|exact Hpost]. unfold chunk_end, sizeof_chunk. cbn [fst snd].
      intros y Hy. lia. }
  destruct pre as [|p0 pre].
  - cbn [firstn app]. unfold free_list_insert.
    destruct (remainder n (c, s) ++ post) as [|y l] eqn:Er.
    + cbn [merge_right] in Hmr. exact Hmr.
    + apply Forall_inv in Hrest. cbn [fst].
      rewrite (proj2 (Z.ltb_lt _ _)) by lia. exact Hmr.
  - cbn [firstn app]. unfold free_list_insert. cbn [fst].
    pose proof (spaced_before 1 lo hi (p0 :: pre) (c, s) post ltac:(lia) Hg) as Hbef.
    apply Forall_inv in Hbef. cbn [fst] in Hbef.
    cbn [app] in Hg. pose proof Hg as [_ [Hp0 _]].
    assert (Hlt : fst p0 < c) by (unfold chunk_end, sizeof_chunk in Hbef; lia).
    rewrite (proj2 (Z.ltb_ge _ _)) by lia.
    assert (Hgo : insert_chunk (c, granted n (c, s)) (p0 :: remainder n (c, s) ++ post)
                  = merge_right p0 (merge_right (c, granted n (c, s))
                                      (remainder n (c, s) ++ post))).
    { cbn [insert_chunk]. destruct (remainder n (c, s) ++ post) as [|nx l] eqn:Er;
        [reflexivity|].
      apply Forall_inv in Hrest. cbn [fst].
      rewrite (proj2 (Z.ltb_ge _ _)) by lia. reflexivity. }
    rewrite Hgo, Hmr. cbn [merge_right fst].
    rewrite (proj2 (Z.eqb_neq _ _)) by lia. reflexivity.
Qed.

Lemma nodup_map_eq (l : list arena_view) x y :
  NoDup (map av_addr l) -> In x l -> In y l -> av_addr x = av_addr y -> x = y.
Proof.
  induction l as [|z l IH]; intros Hnd Hx Hy E; [contradiction|].
  cbn [map] in Hnd. inversion Hnd as [|? ? Hz Hnd']; subst.
  destruct Hx as [-> | Hx], Hy as [-> | Hy]; try reflexivity.
  - exfalso. apply Hz. rewrite E. apply in_map. exact Hy.
  - exfalso. apply Hz. rewrite <- E. apply in_map. exact Hx.
  - apply IH; assumption.
Qed.

Lemma filter_same {A} (f : A -> bool) (l : list A) x :
  filter f l = l -> In x l -> f x = true.
Proof. intros E Hin. rewrite <- E in Hin. apply filter_In in Hin. tauto. Qed.

Lemma foreign_not_in_sequence ps w held ars r p n :
  maps_ok ps (os_maps (w_os w)) -> heap_ok w held ars ->
  In r (os_maps (w_os w)) -> ~ In (fst r) (map av_addr ars) ->
  fst r <= p -> p + n <= fst r + snd r -> 0 < n ->
  ~ Exists (fun a => in_usable_range (w_mem w) a p) (map av_addr ars).
Proof.
  intros Hm H Hr Hn H1 H2 H3 Hex. heap H.
  apply Exists_exists in Hex as [a [Ha Hrng]]. apply in_map_iff in Ha as [av [<- Hav]].
  rewrite Forall_forall in Hok.
  pose proof (Hok _ Hav) as [A1' [A2 [A3 [A4 _]]]]. unfold in_usable_range in Hrng. unf.
  rewrite !wrap_small in Hrng
    by (pose proof (rd8_range (w_mem w) (av_addr av)); rewrite two64 in *; lia).
  destruct (maps_ok_apart _ _ Hm _ _ A1' Hr) as [E | E].
  - apply Hn. rewrite <- E. cbn [fst]. apply in_map. exact Hav.
  - cbn [fst snd] in E. lia.
Qed.

(** The pointer carved from an arena of the sequence comes back when it is
    released and the same size is asked for again, provided the release did
    not hand the arena back to the provider. *)
Lemma served_round_trip w held ars n p fuel w2 :
  maps_ok (os_pagesize (w_os w)) (os_maps (w_os w)) ->
  heap_ok w ((p, n) :: held) ars -> served w n p ars -> 0 < n ->
  TAlloc_free fuel p w = Ok tt w2 ->
  os_maps (w_os w2) = os_maps (w_os w) ->
  exists N w3, forall fuel', (N <= fuel')%nat -> TAlloc_malloc fuel' n w2 = Ok p w3.
Proof.
  intros Hm H1 Hserved Hn Hfree Hmaps.
  destruct Hserved
    as [ars1 [av [ars2 [fl0 [pre [h [post [Ears [Hsmall [Hg [Hsplit [Efree [Hlive Ep]]]]]]]]]]]]].
  subst ars. unfold sizeof_header in Ep.
  destruct (free_block w ((p, n) :: held) (drop_held p ((p, n) :: held)) ars1 av ars2
              (fst h) (granted n h) Hm H1 Hlive) as [m1 [w' [Hres [H2 [F Hk]]]]].
  { apply held_ok_drop; [exact Ep | apply H1]. }
  specialize (Hres fuel). rewrite <- Ep in Hres.
  destruct (res_inv _ _ _ _ _ _ _ Hres Hfree) as [_ ->].
  destruct Hk as [Hsame | [Hfil _]].
  2: { exfalso. rewrite Hfil in Hmaps.
       assert (Hin : In (av_addr av, rd (w_mem w) (av_addr av) 8) (os_maps (w_os w))).
       { destruct H1 as [_ [_ [_ [_ [_ [_ [Hok _]]]]]]]. rewrite Forall_forall in Hok.
         apply (Hok av). apply in_or_app. right. left. reflexivity. }
       pose proof (filter_same _ _ _ Hmaps Hin) as Hf. cbv beta in Hf.
       unfold same_region in Hf. cbn [fst snd] in Hf. rewrite !Z.eqb_refl in Hf.
       discriminate Hf. }
  pose proof (same_heap_ok _ _ _ _ Hsame H2) as H3.
  pose proof Hsame as [Em [_ [Emaps Epsz]]]. cbn [set_mem w_mem w_os] in Em, Emaps, Epsz.
  assert (Hm2 : maps_ok (os_pagesize (w_os w')) (os_maps (w_os w'))).
  { rewrite Emaps, Epsz. exact Hm. }
  pose proof (round_trip_list _ _ _ _ _ _ _ Hg Hn Hsplit) as Hrt.
  pose proof (split_fit_spec _ _ _ _ _ Hsplit) as [Efl [Hpre Hfit]].
  rewrite Efree in *.
  set (X := mk_arena (av_addr av)
              (free_list_insert (fst h, granted n h) (carve_list n fl0))
              (drop_block (fst h) (av_live av))) in *.
  assert (HX : In X (ars1 ++ X :: ars2)) by (apply in_or_app; right; left; reflexivity).
  pose proof H3 as [_ [_ [_ [_ [_ [_ [Hok3 _]]]]]]]. rewrite Forall_forall in Hok3.
  pose proof (Hok3 _ HX) as [_ [_ [_ [_ [_ [_ [A7 _]]]]]]]. cbn [av_addr av_free X] in A7.
  rewrite Hrt in A7.
  assert (Hfa : first_arena (w_mem w') n (map av_addr (ars1 ++ X :: ars2)) = av_addr av).
  { rewrite map_app. cbn [map av_addr X]. apply first_arena_app.
    - apply Forall_forall. intros b Hb. rewrite Em.
      rewrite (others_keep w _ ars1 av ars2 m1 b Hm H1 F Hb).
      rewrite Forall_forall in Hsmall. apply Hsmall. exact Hb.
    - rewrite A7. rewrite maxsize_app. cbn [maxsize]. lia. }
  assert (Hnz : av_addr av <> NULL).
  { pose proof (heap_ok_addrs _ _ _ H3) as [_ [Hnn _]]. intros E. apply Hnn.
    rewrite <- E. apply (in_map av_addr) in HX. exact HX. }
  destruct (malloc_served w' _ _ n Hm2 H3 Hn ltac:(rewrite Hfa; exact Hnz))
    as [ars1' [av' [ars2' [pre' [h' [post' [m' [Ears' [_ [Hsplit' [Hres' [_ [_ Eav']]]]]]]]]]]]].
  assert (Eav : av' = X).
  { pose proof (heap_ok_addrs _ _ _ H3) as [Hnd _].
    apply (nodup_map_eq _ _ _ Hnd); [rewrite Ears'; apply in_or_app; right; left; reflexivity
                                    | exact HX | rewrite Eav', Hfa; reflexivity]. }
  subst av'. cbn [av_free X] in Hsplit'. rewrite Hrt in Hsplit'.
  rewrite split_fit_app in Hsplit'.
  2: { destruct pre as [|p0 pre]; [constructor|]. cbn [firstn].
       apply Forall_inv in Hpre. constructor; [exact Hpre | constructor]. }
  2: { exact Hfit. }
  inversion Hsplit'; subst pre' h' post'.
  eexists _, (set_mem w' m'). intros fuel' Hf. rewrite Ep.
  eapply res_total; [apply Hres' | exact Hf].
Qed.

Lemma one_block_run : TAlloc_malloc 64 1 one_map = Ok (A1 + 56) one_block.
Proof.
  pose proof (ok_projections (TAlloc_malloc 64 1 one_map) 0 one_map
                ltac:(vm_compute; reflexivity)) as H.
  replace (value_of (TAlloc_malloc 64 1 one_map) 0) with (A1 + 56) in H
    by (vm_compute; reflexivity).
  rewrite H at 1. f_equal.
Qed.

Lemma one_released_run : TAlloc_free 64 (A1 + 56) one_block = Ok tt one_released.
Proof.
  pose proof (ok_projections (TAlloc_free 64 (A1 + 56) one_block) tt one_block
                ltac:(vm_compute; reflexivity)) as H.
  destruct (value_of _ _). exact H.
Qed.

Lemma one_block_in_range :
  Exists (fun a => in_usable_range (w_mem one_block) a (A1 + 56)) [A1].
Proof.
  constructor. unfold in_usable_range.
  replace (wrap (A1 + rd (w_mem one_block) (arena_allocated A1) 8))
    with (A1 + 4096000) by (vm_compute; reflexivity).
  vm_compute. split; [discriminate | reflexivity].
Qed.

(** X14.  Round trip.  From any reachable state, when TAlloc_malloc(n)
    returns a pointer that lies in an arena of the sequence and the release of
    that pointer unmaps nothing, the next TAlloc_malloc(n) returns the same
    pointer. *)
Theorem round_trip_within_sequence w held n p w1 w2 fuel1 fuel2 l :
  reachable w held -> 0 < n < 2 ^ 64 ->
  TAlloc_malloc fuel1 n w = Ok p w1 -> p <> NULL ->
  arena_chain (w_mem w1) (arena_head (w_state w1)) l ->
  Exists (fun a => in_usable_range (w_mem w1) a p) l ->
  TAlloc_free fuel2 p w1 = Ok tt w2 ->
  os_maps (w_os w2) = os_maps (w_os w1) ->
  exists N w3, forall fuel, (N <= fuel)%nat -> TAlloc_malloc fuel n w2 = Ok p w3.
Proof.
  intros Hr Hn Hmal Hp Hc Hex Hfree Hmaps.
  pose proof (reachable_inv _ _ Hr) as Hinv.
  assert (Hn0 : 0 <= n < 2 ^ 64) by lia.
  destruct (malloc_preserves _ _ _ _ _ _ Hinv Hn0 Hmal)
    as [[E _] | [_ [_ [Hinv1 Hcases]]]]; [congruence|].
  destruct Hinv1 as [Hpg1 [Hm1 _]].
  destruct Hcases as [[ars' [H1 Hserved]] | [ars [r [H1 [Hr1 [Hn1 Hrange]]]]]].
  - eapply served_round_trip; try eassumption. lia.
  - exfalso.
    assert (El : l = map av_addr ars).
    { destruct H1 as [_ [_ [_ [_ [Hch _]]]]]. eapply arena_chain_unique; eassumption. }
    subst l.
    destruct Hrange as [R1 R2].
    apply (foreign_not_in_sequence _ w1 _ ars r p n Hm1 H1 Hr1 Hn1 R1 R2 ltac:(lia) Hex).
Qed.

Lemma round_trip_within_sequence_witness :
  exists N w3, forall fuel, (N <= fuel)%nat ->
    TAlloc_malloc fuel 1 one_released = Ok (A1 + 56) w3.
Proof.
  apply (round_trip_within_sequence one_map [] 1 (A1 + 56) one_block one_released 64 64 [A1]).
  - apply reach_init. exists 12. split; [lia | reflexivity].
  - lia.
  - exact one_block_run.
  - discriminate.
  - exact one_block_chain.
  - exact one_block_in_range.
  - exact one_released_run.
  - vm_compute. reflexivity.
Defined.

(** X15.  The cached maximum is a sound admission test.  In a reachable
    state, when an arena of the sequence records a max_free_space of at least
    n > 0 and the arenas before it do not, TAlloc_malloc(n) makes no system
    call and returns a pointer into that arena: the n bytes lie between the
    end of the arena's first possible header and the end of the arena, and no
    byte outside the arena changes. *)
Theorem admitted_request_is_served w held n l1 a l2 :
  reachable w held -> 0 < n ->
  arena_chain (w_mem w) (arena_head (w_state w)) (l1 ++ a :: l2) ->
  Forall (fun x => rd (w_mem w) (arena_max_free_space x) 8 < n) l1 ->
  n <= rd (w_mem w) (arena_max_free_space a) 8 ->
  exists N p m',
    (forall fuel, (N <= fuel)%nat -> TAlloc_malloc fuel n w = Ok p (set_mem w m')) /\
    a + TALLOC_ARENA_OVERHEAD <= p /\
    p + n <= a + rd (w_mem w) (arena_allocated a) 8 /\
    (forall x, x < a \/ a + rd (w_mem w) (arena_allocated a) 8 <= x -> m' x = w_mem w x).
Proof.
  intros Hr Hn Hc Hsmall Hfit. apply reachable_inv in Hr as [Hpg [Hm Hh]].
  destruct Hh as [[_ [Hhd _]] | [ars H]].
  { exfalso. rewrite Hhd in Hc. destruct l1; inversion Hc; congruence. }
  pose proof H as [_ [_ [_ [_ [Hch [_ [Hok _]]]]]]].
  pose proof (arena_chain_unique _ _ _ _ Hc Hch) as El.
  assert (Hfa : first_arena (w_mem w) n (map av_addr ars) = a).
  { rewrite <- El. apply first_arena_app; assumption. }
  assert (Hnz : a <> NULL).
  { pose proof (arena_chain_nonnull _ _ _ Hc) as Hnn. intros E. apply Hnn.
    rewrite <- E. apply in_or_app. right. left. reflexivity. }
  destruct (malloc_served w held ars n Hm H Hn ltac:(rewrite Hfa; exact Hnz))
    as [ars1 [av [ars2 [pre [h [post [m' [Ears [_ [Hsplit [Hres [H1 [F Eav]]]]]]]]]]]]].
  rewrite Hfa in Eav. rewrite Eav in *.
  pose proof (split_fit_spec _ _ _ _ _ Hsplit) as [Efl [_ Hfit']].
  pose proof (granted_bounds n h ltac:(lia)) as Hgr.
  rewrite Forall_forall in Hok.
  assert (Hav : In av ars) by (rewrite Ears; apply in_or_app; right; left; reflexivity).
  pose proof (Hok _ Hav) as [_ [A2 [A3 [A4 [_ [A6 _]]]]]]. rewrite Eav in *.
  unfold gapped in A6. pose proof (spaced_in 1 _ _ _ ltac:(lia) A6) as Hb.
  rewrite Forall_forall in Hb.
  assert (Hh : In h (av_free av)) by (rewrite Efl; apply in_or_app; right; left; reflexivity).
  specialize (Hb h Hh). cbn beta in Hb. unf.
  eexists _, (fst h + 16), m'. split; [|split; [lia | split; [|]]].
  - intros fuel Hf. eapply res_total; [apply Hres | exact Hf].
  - unfold granted in Hgr. unf. destruct (16 <? snd h - n); lia.
  - intros x Hx. apply F. lia.
Qed.

Lemma admitted_request_is_served_witness :
  exists N p m',
    (forall fuel, (N <= fuel)%nat ->
       TAlloc_malloc fuel 100 one_block = Ok p (set_mem one_block m')) /\
    A1 + TALLOC_ARENA_OVERHEAD <= p /\
    p + 100 <= A1 + rd (w_mem one_block) (arena_allocated A1) 8 /\
    (forall x, x < A1 \/ A1 + rd (w_mem one_block) (arena_allocated A1) 8 <= x ->
               m' x = w_mem one_block x).
Proof.
  apply (admitted_request_is_served one_block [(A1 + 56, 1)] 100 [] A1 []).
  - exact one_block_reachable.
  - lia.
  - exact one_block_chain.
  - constructor.
  - vm_compute. discriminate.
Defined.

(** ** Blocks handed out do not overlap *)

(** Where a held pointer's bytes are: inside one live mapping. *)
Lemma held_ok_region ps w held ars pn :
  maps_ok ps (os_maps (w_os w)) -> heap_ok w held ars ->
  held_ok (os_maps (w_os w)) ars pn ->
  exists r, In r (os_maps (w_os w)) /\ fst r <= fst pn /\ fst pn + snd pn <= fst r + snd r.
Proof.
  intros Hm H [Hp [[av [s [Hav [Hb Hs]]]] | [r [Hr [Hn Hrange]]]]].
  - heap H. rewrite Forall_forall in Hok.
    pose proof (Hok _ Hav) as [A1' [A2 [A3 [A4 [_ [_ [_ [A8 _]]]]]]]].
    rewrite Forall_forall in A8. pose proof (A8 _ Hb) as [L1 [L2 [L3 _]]].
    unf. cbn [fst snd] in *. eexists. split; [exact A1'|]. cbn [fst snd]. lia.
  - exists r. split; [exact Hr|]. unf. lia.
Qed.

Lemma carve_apart w held ars1 av ars2 n pre h post :
  maps_ok (os_pagesize (w_os w)) (os_maps (w_os w)) ->
  heap_ok w held (ars1 ++ av :: ars2) -> 0 < n ->
  split_fit n (av_free av) = Some (pre, h, post) ->
  Forall (ranges_apart (fst h + 16, n)) held.
Proof.
  intros Hm H Hn Hsplit. pose proof (heap_ok_addrs _ _ _ H) as [Hnd _]. heap H.
  pose proof Hok as Hok'. rewrite Forall_forall in Hok'.
  assert (Hav : In av (ars1 ++ av :: ars2)) by (apply in_or_app; right; left; reflexivity).
  pose proof (Hok' _ Hav) as [A1' [A2 [A3 [A4 [A5 [A6 [A7 [A8 [A9 A10]]]]]]]]].
  assert (Hpos : Forall (fun b : Z * Z => 0 < snd b) (av_live av)).
  { eapply Forall_impl; [|exact A8]. intros b Hb. apply Hb. }
  destruct (carve_props _ _ _ _ (av_live av) _ _ _ A6 Hsplit Hn Hpos A9)
    as [_ [[P2 P3] [_ [P5 _]]]].
  pose proof (split_fit_spec _ _ _ _ _ Hsplit) as [_ [_ Hfit]].
  pose proof (granted_bounds n h ltac:(lia)) as Hgr.
  rewrite Forall_forall in Hheld, P5, A8. unf. cbn [fst snd] in *.
  apply Forall_forall. intros [q k] Hq. unfold ranges_apart. cbn [fst snd].
  destruct (Hheld _ Hq) as [Hk [[av0 [s [Hav0 [Hb Hs]]]] | [r [Hr [Hno Hrange]]]]];
    cbn [fst snd] in *.
  - destruct (Z.eq_dec (av_addr av0) (av_addr av)) as [E | E].
    + assert (av0 = av) by (eapply nodup_map_eq; eassumption). subst av0.
      specialize (P5 _ Hb). unfold disjoint_chunks in P5. unf. cbn [fst snd] in P5. lia.
    + pose proof (Hok' _ Hav0) as [_ [_ [_ [_ [_ [_ [_ [B8 _]]]]]]]].
      rewrite Forall_forall in B8. pose proof (B8 _ Hb) as [L1 [L2 [L3 _]]].
      unf. cbn [fst snd] in *.
      destruct (arenas_apart _ _ _ _ av0 av Hm Hok Hav0 Hav E); lia.
  - destruct (maps_ok_apart _ _ Hm _ _ A1' Hr) as [E | E].
    + exfalso. apply Hno. rewrite <- E. cbn [fst]. apply in_map. exact Hav.
    + cbn [fst snd] in E. unf. lia.
Qed.

Lemma malloc_apart w held ars fuel n p w' :
  page_ok (os_pagesize (w_os w)) ->
  maps_ok (os_pagesize (w_os w)) (os_maps (w_os w)) ->
  heap_ok w held ars -> 0 < n < 2 ^ 64 ->
  TAlloc_malloc fuel n w = Ok p w' -> p <> NULL ->
  Forall (ranges_apart (p, n)) held.
Proof.
  intros Hpg Hm H Hn Hrun Hp. pose proof (heap_ok_addrs _ _ _ H) as [Hnd [Hnn Hmapped]].
  pose proof H as H0. heap H. set (m := w_mem w) in *.
  destruct (Z.eq_dec (first_arena m n (map av_addr ars)) NULL) as [Efa | Efa].
  - rewrite (malloc_enter w held ars fuel n H0 ltac:(lia)) in Hrun.
    apply bind_inv in Hrun as [arena [w1 [Hacc Hrest]]].
    apply bind_inv in Hacc as [node [w0 [Hloop Hnode]]].
    destruct (res_inv _ _ _ _ _ _ _ (accommodating_loop_res w n _ _ fuel Hch Hmapped) Hloop)
      as [-> ->].
    fold m in Hnode. rewrite Efa in Hnode. change (NULL =? NULL) with true in Hnode.
    cbv iota in Hnode.
    destruct (alloc_more_space_spec _ _ _ _ _ _ Hpg Hm H0 Hn Hnode)
      as [[-> Hsame] | [len [Hreg [Hlen [Hmaps [Hpsz [Hnew _]]]]]]].
    { change (NULL =? NULL) with true in Hrest. cbv iota in Hrest.
      inversion Hrest; subst. congruence. }
    pose proof (region_ok_spec _ _ _ Hreg) as [R1 [R2 [R3 [R4 R5]]]].
    rewrite (proj2 (Z.eqb_neq arena NULL)) in Hrest by (unf; lia).
    assert (Hm1 : maps_ok (os_pagesize (w_os w1)) (os_maps (w_os w1))).
    { rewrite Hpsz, Hmaps. apply maps_ok_cons; assumption. }
    assert (Elen : rd (w_mem w1) arena 8 = len).
    { destruct Hnew as [N1 _]. unf.
      eapply (maps_ok_base _ _ _ _ _ Hm1 N1). rewrite Hmaps. left. reflexivity. }
    destruct (arena_malloc_step w1 arena _ _ n Hnew)
      as [m' [pre [h [post [Hsplit [Hres [Hok1 [G1 [G2 [G3 F]]]]]]]]]].
    { cbn [maxsize snd]. lia. }
    destruct (res_inv _ _ _ _ _ _ _ (Hres fuel) Hrest) as [-> ->].
    rewrite Elen in G3.
    apply Forall_forall. intros [q k] Hq. unfold ranges_apart. cbn [fst snd].
    rewrite Forall_forall in Hheld.
    destruct (held_ok_region _ _ _ _ _ Hm H0 (Hheld _ Hq)) as [r [Hr [Q1 Q2]]].
    cbn [fst snd] in Q1, Q2. destruct (R5 _ Hr); lia.
  - destruct (malloc_served w held ars n Hm H0 ltac:(lia) Efa)
      as [ars1 [av [ars2 [pre [h [post [m' [Ears [_ [Hsplit [Hres _]]]]]]]]]]].
    destruct (res_inv _ _ _ _ _ _ _ (Hres fuel) Hrun) as [-> _].
    subst ars. eapply carve_apart; try eassumption. lia.
Qed.

Lemma all_apart_filter (f : Z * Z -> bool) held :
  all_apart held -> all_apart (filter f held).
Proof.
  induction held as [|x held IH]; intros H; [exact I|].
  destruct H as [H1 H2]. cbn [filter]. destruct (f x).
  - split; [|apply IH; exact H2].
    rewrite Forall_forall in *. intros y Hy. apply H1. apply filter_In in Hy. tauto.
  - apply IH. exact H2.
Qed.

Lemma reachable_apart w held : reachable w held -> all_apart held.
Proof.
  induction 1 as [m ps maps unmaps Hpg
                 | w held fuel n p w' Hr IH Hn Hrun Hp
                 | w held fuel n w' Hr IH Hn Hrun
                 | w held fuel p n w' Hr IH Hin Hrun
                 | w held p n x b Hr IH Hin Hx].
  - exact I.
  - split; [|exact IH]. pose proof (reachable_inv _ _ Hr) as [Hpg [Hm Hh]].
    destruct Hh as [[_ [_ [_ [_ ->]]]] | [ars H]]; [constructor|].
    assert (Hn0 : 0 < n < 2 ^ 64).
    { destruct (Z.eq_dec n 0) as [-> | E]; [|lia].
      rewrite malloc_zero in Hrun by apply H. inversion Hrun; subst. congruence. }
    eapply malloc_apart; eassumption.
  - exact IH.
  - apply all_apart_filter. exact IH.
  - exact IH.
Qed.

Lemma two_blocks_run : TAlloc_malloc 64 100 one_block = Ok (A1 + 73) two_blocks.
Proof.
  pose proof (ok_projections (TAlloc_malloc 64 100 one_block) 0 one_block
                ltac:(vm_compute; reflexivity)) as H.
  replace (value_of (TAlloc_malloc 64 100 one_block) 0) with (A1 + 73) in H
    by (vm_compute; reflexivity).
  exact H.
Qed.

Lemma two_blocks_reachable : reachable two_blocks [(A1 + 73, 100); (A1 + 56, 1)].
Proof.
  eapply (reach_malloc one_block [(A1 + 56, 1)] 64 100 (A1 + 73) two_blocks).
  - exact one_block_reachable.
  - lia.
  - exact two_blocks_run.
  - discriminate.
Qed.

(** X16.  Blocks handed out never overlap.  In every reachable state the
    byte ranges [p, p + n) of any two pointers the client holds are apart;
    in particular no pointer is handed out twice while it is held. *)
Theorem held_blocks_do_not_overlap w held :
  reachable w held ->
  all_apart held /\ NoDup (map fst held).
Proof.
  intros Hr. pose proof (reachable_apart _ _ Hr) as Ha. split; [exact Ha|].
  assert (Hpos : Forall (fun pn => 0 < snd pn) held).
  { apply Forall_forall. intros [p n] Hin.
    destruct (reachable_inv _ _ Hr) as [Hpg [Hm Hh]].
    destruct Hh as [[_ [_ [_ [_ ->]]]] | [ars H]]; [contradiction|].
    destruct H as [_ [_ [_ [_ [_ [_ [_ [_ Hheld]]]]]]]].
    rewrite Forall_forall in Hheld. apply (Hheld _ Hin). }
  clear Hr. induction held as [|x held IH]; [constructor|].
  destruct Ha as [H1 H2]. apply Forall_cons_iff in Hpos as [Hx Hpos].
  cbn [map]. constructor; [|apply IH; assumption].
  intros Hin. apply in_map_iff in Hin as [y [E Hy]].
  rewrite Forall_forall in H1, Hpos. specialize (H1 y Hy). specialize (Hpos y Hy).
  unfold ranges_apart in H1. cbn beta in Hpos. lia.
Qed.

Lemma held_blocks_do_not_overlap_witness :
  all_apart [(A1 + 73, 100); (A1 + 56, 1)]
  /\ NoDup (map fst [(A1 + 73, 100); (A1 + 56, 1)]).
Proof.
  apply (held_blocks_do_not_overlap two_blocks [(A1 + 73, 100); (A1 + 56, 1)]).
  exact two_blocks_reachable.
Defined.

(** ** The walker of TAlloc_debug_print *)

Lemma laid_out_le m lo hi bs : laid_out m lo hi bs -> lo <= hi.
Proof.
  destruct bs as [|[s used] bs]; cbn [laid_out].
  - lia.
  - intros [Hs [_ [Hle _]]]. pose proof (rd_range m (chunk_size lo) 8) as R.
    rewrite Hs in R. unf. lia.
Qed.

Lemma debug_chunks_spec w a bs :
  In (a, rd (w_mem w) (arena_allocated a) 8) (os_maps (w_os w)) ->
  0 < a -> a + rd (w_mem w) (arena_allocated a) 8 < 2 ^ 64 ->
  forall lo fuel, a + sizeof_arena <= lo ->
    laid_out (w_mem w) lo (a + rd (w_mem w) (arena_allocated a) 8) bs ->
    (length bs < fuel)%nat ->
    debug_chunks fuel a lo w = Ok (lines_of lo bs) w.
Proof.
  intros Hin Ha Hhi. set (len := rd (w_mem w) (arena_allocated a) 8) in *.
  induction bs as [|[s used] bs IH]; intros lo fuel Hlo Hl Hf;
    (destruct fuel as [|k]; [cbn [length] in Hf; lia|]); cbn [debug_chunks];
    pose proof (laid_out_le _ _ _ _ Hl) as Hle;
    (erewrite bind_ok by (apply (load64_in w a len); [exact Hin | unf; lia | unf; lia]));
    fold len; rewrite (wrap_small (a + len)) by (unf; lia).
  - cbn [laid_out] in Hl. rewrite (proj2 (Z.ltb_ge lo (a + len))) by lia. reflexivity.
  - cbn [laid_out] in Hl. destruct Hl as [Hs [Hu [Hend Hrest]]].
    pose proof (rd_range (w_mem w) (chunk_size lo) 8) as R. rewrite Hs in R.
    rewrite (proj2 (Z.ltb_lt lo (a + len))) by (unf; lia).
    assert (Hmag : load32 (header_magic lo) w = Ok (rd (w_mem w) (header_magic lo) 4) w).
    { apply load_mapped. apply (is_mapped_in _ a len); [exact Hin | unf; lia | unf; cbn; lia]. }
    erewrite bind_ok by exact Hmag. rewrite Hu.
    assert (Hsz : load64 lo w = Ok s w).
    { rewrite <- Hs. apply (load64_in w a len); [exact Hin | unf; lia | unf; lia]. }
    assert (Hnext : wrap (lo + wrap (16 + s)) = lo + sizeof_chunk + s).
    { rewrite (wrap_small (16 + s)) by (unf; lia). rewrite wrap_small by (unf; lia).
      unf. lia. }
    cbn [length] in Hf.
    destruct used; unfold header_size, chunk_size, sizeof_header, sizeof_chunk in *;
      erewrite bind_ok by exact Hsz; erewrite bind_ok by exact Hsz;
      rewrite Hnext;
      (erewrite bind_ok by (apply IH; [unf; lia | exact Hrest | lia]));
      reflexivity.
Qed.

Lemma debug_arenas_spec w L :
  Forall (walkable w) L ->
  forall a fuel, arena_chain (w_mem w) a (map fst L) ->
    (length L + list_max (map (fun ab => length (snd ab)) L) < fuel)%nat ->
    debug_arenas fuel a w = Ok (arena_lines (w_mem w) L) w.
Proof.
  induction L as [|[a0 bs] L IH]; intros Hw a fuel Hc Hf;
    (destruct fuel as [|k]; [cbn in Hf; lia|]); cbn [debug_arenas].
  - inversion Hc. reflexivity.
  - cbn [map fst] in Hc. inversion Hc as [|a1 l1 Hnn Hc']; subst.
    apply Forall_cons_iff in Hw as [[Hin [Hpos [Hhi Hl]]] Hw]. cbn [fst snd] in *.
    rewrite (proj2 (Z.eqb_neq a0 NULL)) by exact Hnn.
    pose proof (laid_out_le _ _ _ _ Hl) as Hle.
    assert (Hf' : (S (length L)
                   + Nat.max (length bs) (list_max (map (fun ab => length (snd ab)) L))
                   < S k)%nat) by exact Hf.
    clear Hf.
    erewrite bind_ok
      by (apply (load64_in w a0 (rd (w_mem w) (arena_allocated a0) 8));
          [exact Hin | unf; lia | unf; lia]).
    rewrite wrap_small by (unf; lia).
    erewrite bind_ok by (apply debug_chunks_spec; [exact Hin | exact Hpos | exact Hhi
                         | lia | exact Hl | lia]).
    erewrite bind_ok
      by (apply (load64_in w a0 (rd (w_mem w) (arena_allocated a0) 8));
          [exact Hin | unf; lia | unf; lia]).
    erewrite bind_ok by (apply IH; [exact Hw | exact Hc' | lia]).
    reflexivity.
Qed.

(** X17.  TAlloc_debug_print on an initialised allocator whose arenas are
    mapped and whose chunks lie back to back by their recorded sizes: it
    prints, arena after arena in list order, the arena's line and then one
    line per chunk in address order -- "Allocated" exactly when the tag is
    in the chunk's header, "Free" otherwise -- and it changes nothing. *)
Theorem debug_print_walks_chunks w L :
  initialized (w_state w) <> 0 ->
  arena_chain (w_mem w) (arena_head (w_state w)) (map fst L) ->
  Forall (walkable w) L ->
  exists N, forall fuel, (N <= fuel)%nat ->
    TAlloc_debug_print fuel w = Ok (arena_lines (w_mem w) L) w.
Proof.
  intros Hi Hc Hw.
  exists (S (length L + list_max (map (fun ab => length (snd ab)) L))).
  intros fuel Hf. unfold TAlloc_debug_print, get_state, bind.
  rewrite (proj2 (Z.eqb_neq _ _) Hi).
  apply debug_arenas_spec; [exact Hw | exact Hc | lia].
Qed.

Lemma one_block_walkable :
  walkable one_block (A1, [(1, true); (4095927, false)]).
Proof.
  unfold walkable. cbn [fst snd laid_out].
  replace (rd (w_mem one_block) (arena_allocated A1) 8) with 4096000
    by (vm_compute; reflexivity).
  split; [vm_compute; tauto|]. split; [reflexivity|]. split; [reflexivity|].
  repeat split; vm_compute; try reflexivity; discriminate.
Qed.

Lemma debug_print_walks_chunks_witness :
  exists N, forall fuel, (N <= fuel)%nat ->
    TAlloc_debug_print fuel one_block
    = Ok (arena_lines (w_mem one_block) [(A1, [(1, true); (4095927, false)])]) one_block.
Proof.
  apply (debug_print_walks_chunks one_block [(A1, [(1, true); (4095927, false)])]).
  - vm_compute. discriminate.
  - exact one_block_chain.
  - constructor; [exact one_block_walkable | constructor].
Defined.

(** ** The bytes a call leaves alone *)

Lemma load_inv n a w v w' : load n a w = Ok v w' -> v = rd (w_mem w) a n /\ w' = w.
Proof.
  unfold load. destruct (is_mapped _ _ _); intros H; [|discriminate H].
  inversion H. split; reflexivity.
Qed.

Lemma store_inv n a v w u w' :
  store n a v w = Ok u w' -> w' = set_mem w (wr (w_mem w) a n v).
Proof.
  unfold store. destruct (is_mapped _ _ _); intros H; [|discriminate H].
  inversion H. reflexivity.
Qed.

Lemma munmap_mem a len w r w' : munmap a len w = Ok r w' -> w_mem w' = w_mem w.
Proof.
  unfold munmap. destruct (os_munmap_script (w_os w)) as [|[|] rest];
    [|destruct (existsb _ _)|]; intros H; inversion H; reflexivity.
Qed.

(** TAlloc_free_arena writes the two links around the arena it unmaps,
    and nothing else. *)
Lemma release_frame a w w' :
  release_if_unused a w = Ok tt w' ->
  forall x,
    a = arena_head (w_state w) \/
    ((x < rd (w_mem w) (arena_prev a) 8 + 24 \/ rd (w_mem w) (arena_prev a) 8 + 32 <= x) /\
     (rd (w_mem w) (arena_next a) 8 = NULL \/
      x < rd (w_mem w) (arena_next a) 8 + 32 \/ rd (w_mem w) (arena_next a) 8 + 40 <= x)) ->
    w_mem w' x = w_mem w x.
Proof.
  unfold release_if_unused. intros Hrun x Hx.
  apply bind_inv in Hrun as [s [w0 [Hs Hrun]]]. inversion Hs; subst s w0. clear Hs.
  destruct (a =? arena_head (w_state w)) eqn:E.
  { inversion Hrun. reflexivity. }
  apply Z.eqb_neq in E. destruct Hx as [Hx | [Hp Hnx]]; [contradiction|].
  apply bind_inv in Hrun as [len [w1 [Hl Hrun]]]. apply load_inv in Hl as [_ ->].
  apply bind_inv in Hrun as [mfs [w1 [Hl Hrun]]]. apply load_inv in Hl as [_ ->].
  destruct (len =? _); [|inversion Hrun; reflexivity].
  unfold TAlloc_free_arena in Hrun.
  apply bind_inv in Hrun as [prev [w1 [Hl Hrun]]]. apply load_inv in Hl as [-> ->].
  apply bind_inv in Hrun as [next [w1 [Hl Hrun]]]. apply load_inv in Hl as [-> ->].
  apply bind_inv in Hrun as [len2 [w1 [Hl Hrun]]]. apply load_inv in Hl as [_ ->].
  apply bind_inv in Hrun as [r [w1 [Hmun Hrun]]].
  pose proof (munmap_mem _ _ _ _ _ Hmun) as Em.
  destruct (r =? 0); [|inversion Hrun; subst; rewrite Em; reflexivity].
  apply bind_inv in Hrun as [u [w2 [Hst Hrun]]]. apply store_inv in Hst. subst w2.
  destruct (rd (w_mem w) (arena_next a) 8 =? NULL) eqn:En.
  - inversion Hrun; subst. cbn [set_mem w_mem].
    rewrite wr_out by (unf; simpl; lia). rewrite Em. reflexivity.
  - apply Z.eqb_neq in En. apply store_inv in Hrun. subst w'. cbn [set_mem w_mem].
    rewrite !wr_out by (unf; simpl; lia). rewrite Em. reflexivity.
Qed.

(** The carve out of an arena leaves the bodies of its blocks in use
    alone. *)
Lemma arena_malloc_keeps w a fl lb n fuel p w' :
  arena_ok (w_mem w) (os_maps (w_os w)) a fl lb ->
  0 < n <= maxsize fl ->
  malloc_carve fuel a n w = Ok p w' ->
  (forall x, x < a + 8 \/ a + rd (w_mem w) a 8 <= x -> w_mem w' x = w_mem w x) /\
  (forall b x, In b lb -> fst b + 16 <= x < chunk_end b -> w_mem w' x = w_mem w x).
Proof.
  intros [A1 [A2 [A3 [A4 [A5 [A6 [A7 [A8 [A9 A10]]]]]]]]] Hn Hrun0.
  set (m := w_mem w) in *. set (len := rd m (arena_allocated a) 8) in *. unf.
  destruct (split_fit_exists n fl ltac:(lia) ltac:(lia)) as [pre [h [post Hsplit]]].
  destruct (malloc_carve_spec w a len A1 A4 A2 A3 m fl n pre h post A5 A6 A7 ltac:(lia) Hsplit)
    as [m' [Hrun [_ [_ [_ [_ F]]]]]].
  specialize (Hrun fuel). unfold m in Hrun. rewrite set_mem_same in Hrun.
  destruct (res_inv _ _ _ _ _ _ _ Hrun Hrun0) as [_ ->]. cbn [set_mem w_mem]. fold m.
  pose proof (split_fit_spec _ _ _ _ _ Hsplit) as [Hfl [Hpre Hh]].
  unfold gapped in A6. pose proof (spaced_in 1 _ _ _ ltac:(lia) A6) as Hb.
  assert (Hhin : In h fl) by (subst fl; apply in_or_app; right; left; reflexivity).
  pose proof (proj1 (Forall_forall _ _) Hb h Hhin) as Bh. cbn beta in Bh.
  assert (Hc0 : In (rd m (a + 16) 8, hd_size fl) fl).
  { destruct fl as [|[c0 s0] fl']; [destruct pre; discriminate|].
    apply free_chain_head in A5 as [_ [E1 _]]. cbn [fst] in E1. rewrite <- E1.
    left. reflexivity. }
  pose proof (proj1 (Forall_forall _ _) Hb _ Hc0) as Bc0. cbn [fst snd] in Bc0.
  assert (Fr : forall x, (x < a + 8 \/ a + 24 <= x) -> (x < fst h \/ chunk_end h <= x) ->
                         (x < rd m (a + 16) 8 \/ rd m (a + 16) 8 + 16 + hd_size fl <= x) ->
                         m' x = m x).
  { intros x X1 X2 X3. apply F. unfold carve_touched. unf. lia. }
  split.
  - intros x Hx. change (rd m a 8) with len in Hx. apply Fr; unf; cbn [fst snd] in *; lia.
  - intros b x Hb0 Hx. rewrite Forall_forall in A8, A9.
    pose proof (A8 b Hb0) as [B1 [B2 [B3 _]]]. pose proof (A9 b Hb0) as B6.
    rewrite Forall_forall in B6.
    pose proof (B6 h Hhin) as Dh. pose proof (B6 _ Hc0) as Dc0.
    unfold disjoint_chunks in Dh, Dc0. unf. cbn [fst snd] in *.
    apply Fr; unf; lia.
Qed.

(** The insertion into the free list of an arena leaves the bodies of its
    blocks in use alone, the body of the block released included. *)
Lemma arena_free_keeps w a fl lb c s fuel w' :
  arena_ok (w_mem w) (os_maps (w_os w)) a fl lb ->
  In (c, s) lb ->
  free_insert fuel a c w = Ok tt w' ->
  (forall x, x < a + 8 \/ a + rd (w_mem w) a 8 <= x -> w_mem w' x = w_mem w x) /\
  (forall b x, In b lb -> fst b + 16 <= x < chunk_end b -> w_mem w' x = w_mem w x).
Proof.
  intros [A1 [A2 [A3 [A4 [A5 [A6 [A7 [A8 [A9 A10]]]]]]]]] Hcs Hrun0.
  set (m := w_mem w) in *. set (len := rd m (arena_allocated a) 8) in *. unf.
  rewrite Forall_forall in A8, A9.
  pose proof (A8 _ Hcs) as [L1 [L2 [L3 [L4 L5]]]]. unf. cbn [fst snd] in *.
  pose proof (A9 _ Hcs) as Dc.
  destruct (free_insert_spec w a len A1 A4 A2 A3 m fl c s A5 A6 A7 L1 L2 L3 L4 Dc)
    as [m' [Hrun [_ [_ F]]]].
  specialize (Hrun fuel). unfold m in Hrun. rewrite set_mem_same in Hrun.
  destruct (res_inv _ _ _ _ _ _ _ Hrun Hrun0) as [_ ->]. cbn [set_mem w_mem]. fold m.
  unfold gapped in A6. pose proof (spaced_in 1 _ _ _ ltac:(lia) A6) as Hb.
  rewrite Forall_forall in Hb.
  split.
  - intros x Hx. change (rd m a 8) with len in Hx. apply F; [lia | lia |].
    apply Forall_forall. intros y Hy. specialize (Hb y Hy). unf. cbn beta in Hb. lia.
  - intros b x Hb0 Hx.
    pose proof (A8 b Hb0) as [B1 [B2 [B3 _]]]. pose proof (A9 b Hb0) as B6.
    rewrite Forall_forall in B6.
    assert (Hbc : fst b = c \/ disjoint_chunks b (c, s)).
    { destruct (Z.eq_dec (fst b) c) as [E | E]; [left; exact E | right].
      apply (pairwise_in lb); try assumption. intros ->. apply E. reflexivity. }
    unf. cbn [fst snd] in *. apply F.
    + lia.
    + destruct Hbc as [E | D]; [lia|]. unfold disjoint_chunks in D. unf. cbn [fst snd] in D. lia.
    + apply Forall_forall. intros y Hy. specialize (B6 y Hy). specialize (Hb y Hy).
      unfold disjoint_chunks in B6. unf. cbn beta in Hb. lia.
Qed.

(** Where the bytes of a held pointer are. *)
Lemma held_place ps w held ars q k :
  maps_ok ps (os_maps (w_os w)) -> heap_ok w held ars -> In (q, k) held ->
  0 < k /\
  ((exists av s, In av ars /\ In (q - 16, s) (av_live av) /\ k <= s /\
                 av_addr av + 56 <= q /\
                 q + s <= av_addr av + rd (w_mem w) (av_addr av) 8) \/
   (exists r, In r (os_maps (w_os w)) /\ ~ In (fst r) (map av_addr ars) /\
              fst r + 56 <= q /\ q + k <= fst r + snd r)).
Proof.
  intros Hm H Hin. heap H. rewrite Forall_forall in Hheld, Hok.
  destruct (Hheld _ Hin) as [Hp [[av [s [Hav [Hb Hs]]]] | [r [Hr [Hn Hrange]]]]];
    cbn [fst snd] in *; (split; [exact Hp|]).
  - left. exists av, s.
    pose proof (Hok _ Hav) as [_ [_ [_ [_ [_ [_ [_ [A8 _]]]]]]]].
    rewrite Forall_forall in A8. pose proof (A8 _ Hb) as [L1 [L2 [L3 _]]].
    unf. cbn [fst snd] in *. repeat split; try assumption; lia.
  - right. exists r. unf. repeat split; try tauto; lia.
Qed.

Lemma held_away ps w held ars q k av x :
  maps_ok ps (os_maps (w_os w)) -> heap_ok w held ars -> In (q, k) held ->
  In av ars -> q <= x < q + k ->
  x < av_addr av \/ av_addr av + 56 <= x.
Proof.
  intros Hm H Hin Hav Hx.
  destruct (held_place _ _ _ _ _ _ Hm H Hin)
    as [Hk [[av0 [s [Hav0 [Hb [Hs [P1 P2]]]]]] | [r [Hr [Hno [P1 P2]]]]]];
    heap H; pose proof Hok as Hok'; rewrite Forall_forall in Hok';
    pose proof (Hok' _ Hav) as [A1' [A2 [A3 _]]]; unf.
  - destruct (Z.eq_dec (av_addr av0) (av_addr av)) as [E | E]; [rewrite <- E; lia|].
    destruct (arenas_apart _ _ _ _ av0 av Hm Hok Hav0 Hav E); lia.
  - destruct (maps_ok_apart _ _ Hm _ _ Hr A1') as [E | E].
    + exfalso. apply Hno. rewrite E. cbn [fst]. apply in_map. exact Hav.
    + cbn [fst snd] in E. lia.
Qed.

Lemma carve_keeps w held ars1 av ars2 n fuel p w' q k x :
  maps_ok (os_pagesize (w_os w)) (os_maps (w_os w)) ->
  heap_ok w held (ars1 ++ av :: ars2) ->
  0 < n <= maxsize (av_free av) ->
  malloc_carve fuel (av_addr av) n w = Ok p w' ->
  In (q, k) held -> q <= x < q + k ->
  w_mem w' x = w_mem w x.
Proof.
  intros Hm H Hn Hrun Hq Hx. pose proof (heap_ok_addrs _ _ _ H) as [Hnd _].
  destruct (held_place _ _ _ _ _ _ Hm H Hq)
    as [Hk [[av0 [s [Hav0 [Hb [Hs [P1 P2]]]]]] | [r [Hr [Hno [P1 P2]]]]]];
    heap H; pose proof Hok as Hok'; rewrite Forall_forall in Hok';
    assert (Hav : In av (ars1 ++ av :: ars2)) by (apply in_or_app; right; left; reflexivity);
    pose proof (Hok' _ Hav) as Hoka;
    destruct (arena_malloc_keeps w _ _ _ n fuel p w' Hoka Hn Hrun) as [Fc Fb];
    pose proof Hoka as [A1' [A2 [A3 _]]]; unf.
  - destruct (Z.eq_dec (av_addr av0) (av_addr av)) as [E | E].
    + assert (av0 = av) by (eapply nodup_map_eq; eassumption). subst av0.
      apply (Fb (q - 16, s)); [exact Hb | unf; cbn [fst snd]; lia].
    + apply Fc. destruct (arenas_apart _ _ _ _ av0 av Hm Hok Hav0 Hav E); lia.
  - apply Fc. destruct (maps_ok_apart _ _ Hm _ _ Hr A1') as [E | E].
    + exfalso. apply Hno. rewrite E. cbn [fst]. apply in_map. exact Hav.
    + cbn [fst snd] in E. lia.
Qed.

Lemma release_keeps w held ars1 av ars2 w' q k x :
  maps_ok (os_pagesize (w_os w)) (os_maps (w_os w)) ->
  heap_ok w held (ars1 ++ av :: ars2) ->
  release_if_unused (av_addr av) w = Ok tt w' ->
  In (q, k) held -> q <= x < q + k ->
  w_mem w' x = w_mem w x.
Proof.
  intros Hm H Hrel Hq Hx. apply (release_frame _ _ _ Hrel).
  destruct (Z.eq_dec (av_addr av) (arena_head (w_state w))) as [E | E]; [left; exact E | right].
  pose proof H as H0. heap H.
  destruct (exists_last (l := ars1)) as [ars1' [avp ->]].
  { intros ->. cbn [app map] in Hch. apply arena_chain_head in Hch as [Eh _]. congruence. }
  rewrite <- app_assoc in *. cbn [app] in *.
  assert (Eprev : rd (w_mem w) (arena_prev (av_addr av)) 8 = av_addr avp).
  { rewrite map_app in Hpl. cbn [map] in Hpl. eapply prev_linked_at. exact Hpl. }
  assert (Enext : rd (w_mem w) (arena_next (av_addr av)) 8 = hd NULL (map av_addr ars2)).
  { rewrite map_app in Hch. cbn [map] in Hch.
    change (map av_addr ars1' ++ av_addr avp :: av_addr av :: map av_addr ars2)
      with (map av_addr ars1' ++ [av_addr avp] ++ av_addr av :: map av_addr ars2) in Hch.
    rewrite app_assoc in Hch. apply arena_chain_at in Hch. apply Hch. }
  rewrite Eprev, Enext. split.
  - assert (Hinp : In avp (ars1' ++ avp :: av :: ars2))
      by (apply in_or_app; right; left; reflexivity).
    pose proof (held_away _ _ _ _ _ _ _ _ Hm H0 Hq Hinp Hx). lia.
  - destruct ars2 as [|avn ars2']; [left; reflexivity | right]. cbn [map hd].
    assert (Hinn : In avn (ars1' ++ avp :: av :: avn :: ars2'))
      by (apply in_or_app; right; right; right; left; reflexivity).
    pose proof (held_away _ _ _ _ _ _ _ _ Hm H0 Hq Hinn Hx). lia.
Qed.

Lemma alloc_more_space_keeps w held ars n r w1 q k x :
  page_ok (os_pagesize (w_os w)) ->
  maps_ok (os_pagesize (w_os w)) (os_maps (w_os w)) ->
  heap_ok w held ars -> 0 < n < 2 ^ 64 ->
  TAlloc_alloc_more_space n w = Ok r w1 ->
  In (q, k) held -> q <= x < q + k ->
  w_mem w1 x = w_mem w x.
Proof.
  intros Hpg Hm H Hn Hrun Hq Hx.
  destruct (held_ok_region _ _ _ _ (q, k) Hm H) as [rq [Hrq [Q1 Q2]]].
  { destruct H as [_ [_ [_ [_ [_ [_ [_ [_ Hheld]]]]]]]].
    rewrite Forall_forall in Hheld. apply Hheld. exact Hq. }
  cbn [fst snd] in Q1, Q2.
  pose proof (held_place _ _ _ _ _ _ Hm H Hq) as [Hk Hplace].
  assert (Hlast : forall av, In av ars -> x < av_addr av \/ av_addr av + 56 <= x).
  { intros av Hav. eapply held_away; eassumption. }
  pose proof H as H0. heap H.
  unfold TAlloc_alloc_more_space in Hrun.
  apply bind_inv in Hrun as [r0 [w0 [Hcreate Hrest]]].
  destruct (create_arena_spec _ _ _ _ Hpg Hps Hmin Hn Hcreate)
    as [[-> Hsame] | [len [Hreg [Hlen [Hmaps [Hpsz [Hst [Hnew [Hnx [Hpv F]]]]]]]]]].
  { change (NULL =? NULL) with true in Hrest. cbv iota in Hrest.
    inversion Hrest; subst. destruct Hsame as [-> _]. reflexivity. }
  pose proof (region_ok_spec _ _ _ Hreg) as [R1 [R2 [R3 [R4 R5]]]].
  rewrite (proj2 (Z.eqb_neq r0 NULL)) in Hrest by (unf; lia).
  apply bind_inv in Hrest as [s0 [w2 [Hs Hrest]]]. inversion Hs; subst s0 w2. clear Hs.
  rewrite Hst in Hrest. set (t := arena_tail (w_state w)) in *.
  apply bind_inv in Hrest as [u [w2 [Hst1 Hrest]]]. apply store_inv in Hst1. subst w2.
  apply bind_inv in Hrest as [u2 [w3 [Hst2 Hrest]]]. apply store_inv in Hst2. subst w3.
  apply bind_inv in Hrest as [u3 [w4 [Hst3 Hrest]]]. inversion Hrest; subst r w1.
  unfold set_arena_tail in Hst3.
  apply bind_inv in Hst3 as [s0 [w5 [Hs Hput]]]. inversion Hs; subst s0 w5. clear Hs.
  inversion Hput; subst w4. cbn [set_state set_mem w_mem].
  assert (Hout : x < r0 \/ r0 + len <= x).
  { destruct (R5 _ Hrq); lia. }
  assert (Ht : x < t + 24 \/ t + 32 <= x).
  { destruct Htl as [Htl | [T1 [T2 [T3 [T4 | [lt [T4 T5]]]]]]].
    - destruct (exists_last Hne) as [ars' [avl Ears]].
      assert (Et : t = av_addr avl).
      { rewrite Htl, Ears, map_app. cbn [map]. apply last_last. }
      assert (Havl : In avl ars) by (rewrite Ears; apply in_or_app; right; left; reflexivity).
      pose proof (Hlast _ Havl). lia.
    - rewrite Forall_forall in T4. specialize (T4 _ Hrq).
      apply disjoint_region_spec in T4. unf. lia.
    - rewrite Forall_forall in Hok.
      destruct Hplace as [[av0 [s [Hav0 [Hb [Hs [P1 P2]]]]]] | [r [Hr [Hno [P1 P2]]]]].
      + pose proof (Hok _ Hav0) as [B1 _]. unf.
        destruct (maps_ok_apart _ _ Hm _ _ B1 T4) as [E | E].
        * exfalso. apply T3. inversion E. apply in_map. exact Hav0.
        * cbn [fst snd] in E. lia.
      + destruct (maps_ok_apart _ _ Hm _ _ Hr T4) as [E | E].
        * rewrite E in P1. cbn [fst] in P1. lia.
        * cbn [fst snd] in E. unf. lia. }
  rewrite !wr_out by (unf; simpl; lia). apply F. exact Hout.
Qed.

Lemma malloc_keeps w held fuel n p w' q k x :
  inv w held -> 0 <= n < 2 ^ 64 -> TAlloc_malloc fuel n w = Ok p w' ->
  In (q, k) held -> q <= x < q + k ->
  w_mem w' x = w_mem w x.
Proof.
  intros [Hpg [Hm Hh]] Hn Hrun Hq Hx.
  destruct Hh as [[_ [_ [_ [_ ->]]]] | [ars H]]; [contradiction|].
  destruct (Z.eq_dec n 0) as [-> | En].
  { rewrite malloc_zero in Hrun by apply H. inversion Hrun. reflexivity. }
  assert (Hn0 : 0 < n < 2 ^ 64) by lia.
  pose proof (heap_ok_addrs _ _ _ H) as [Hnd [Hnn Hmapped]].
  pose proof H as H0. heap H.
  rewrite (malloc_enter w held ars fuel n H0 ltac:(lia)) in Hrun.
  apply bind_inv in Hrun as [arena [w1 [Hacc Hrest]]].
  apply bind_inv in Hacc as [node [w0 [Hloop Hnode]]].
  destruct (res_inv _ _ _ _ _ _ _ (accommodating_loop_res w n _ _ fuel Hch Hmapped) Hloop)
    as [-> ->].
  destruct (Z.eq_dec (first_arena (w_mem w) n (map av_addr ars)) NULL) as [Efa | Efa].
  - rewrite Efa in Hnode. change (NULL =? NULL) with true in Hnode. cbv iota in Hnode.
    pose proof (alloc_more_space_keeps _ _ _ _ _ _ q k x Hpg Hm H0 Hn0 Hnode Hq Hx) as K1.
    destruct (alloc_more_space_spec _ _ _ _ _ _ Hpg Hm H0 Hn0 Hnode)
      as [[-> Hsame] | [len [Hreg [Hlen [Hmaps [Hpsz [Hnew _]]]]]]].
    { change (NULL =? NULL) with true in Hrest. cbv iota in Hrest.
      inversion Hrest; subst. exact K1. }
    pose proof (region_ok_spec _ _ _ Hreg) as [R1 [R2 [R3 [R4 R5]]]].
    rewrite (proj2 (Z.eqb_neq arena NULL)) in Hrest by (unf; lia).
    assert (Hm1 : maps_ok (os_pagesize (w_os w1)) (os_maps (w_os w1))).
    { rewrite Hpsz, Hmaps. apply maps_ok_cons; assumption. }
    assert (Elen : rd (w_mem w1) arena 8 = len).
    { destruct Hnew as [N1 _]. unf.
      eapply (maps_ok_base _ _ _ _ _ Hm1 N1). rewrite Hmaps. left. reflexivity. }
    destruct (arena_malloc_step w1 arena _ _ n Hnew)
      as [m' [pre [h [post [Hsplit [Hres [Hok1 [G1 [G2 [G3 F]]]]]]]]]].
    { cbn [maxsize snd]. lia. }
    destruct (res_inv _ _ _ _ _ _ _ (Hres fuel) Hrest) as [-> ->].
    cbn [set_mem w_mem]. rewrite F; [exact K1|]. rewrite Elen.
    rewrite Forall_forall in Hheld.
    destruct (held_ok_region _ _ _ _ _ Hm H0 (Hheld _ Hq)) as [r [Hr [Q1 Q2]]].
    cbn [fst snd] in Q1, Q2. destruct (R5 _ Hr); lia.
  - rewrite (proj2 (Z.eqb_neq _ _) Efa) in Hnode. inversion Hnode; subst arena w1.
    rewrite (proj2 (Z.eqb_neq _ _) Efa) in Hrest.
    destruct (malloc_served w held ars n Hm H0 ltac:(lia) Efa)
      as [ars1 [av [ars2 [pre [h [post [m' [Ears [_ [Hsplit [_ [_ [_ Eav]]]]]]]]]]]]].
    rewrite <- Eav in Hrest. subst ars.
    pose proof (split_fit_spec _ _ _ _ _ Hsplit) as [Hfl [_ Hfit]].
    assert (Hmax : n <= maxsize (av_free av)).
    { assert (Hin : In h (av_free av))
        by (rewrite Hfl; apply in_or_app; right; left; reflexivity).
      pose proof (maxsize_ge _ _ Hin). lia. }
    eapply carve_keeps; try eassumption. lia.
Qed.

Lemma free_keeps w held fuel p n w' q k x :
  inv w held -> In (p, n) held -> TAlloc_free fuel p w = Ok tt w' ->
  In (q, k) held -> q <> p -> q <= x < q + k ->
  w_mem w' x = w_mem w x.
Proof.
  intros [Hpg [Hm Hh]] Hin Hrun Hq Eq Hx.
  destruct Hh as [[_ [_ [_ [_ ->]]]] | [ars H]]; [contradiction|].
  pose proof (heap_ok_addrs _ _ _ H) as [Hnd [Hnn Hmapped]].
  pose proof H as H0. heap H. pose proof Hheld as Hheld'. rewrite Forall_forall in Hheld.
  destruct (Hheld _ Hin) as [Hp [[av [s [Hav [Hb Hs]]]] | [r [Hr [Hn Hrange]]]]];
    cbn [fst snd] in *.
  - apply in_split in Hav as [ars1 [ars2 ->]].
    set (a := av_addr av) in *. unf.
    assert (Ep : p = p - 16 + 16) by lia.
    pose proof (owner_of_block _ _ _ _ _ _ _ _ Hm H0 Hb) as Hown.
    rewrite <- Ep in Hown. fold a in Hown.
    assert (Hina : In av (ars1 ++ av :: ars2)) by (apply in_or_app; right; left; reflexivity).
    pose proof Hok as Hok'. rewrite Forall_forall in Hok'.
    pose proof (Hok' _ Hina) as Hoka. fold a in Hoka.
    destruct (arena_free_step w a _ _ (p - 16) s Hoka Hb) as [m1 [Hrun1 [Hok1 F]]].
    assert (Hheld1 : Forall (held_ok (os_maps (w_os w))
              (ars1 ++ mk_arena a (free_list_insert (p - 16, s) (av_free av))
                         (drop_block (p - 16) (av_live av)) :: ars2)) (drop_held p held)).
    { apply held_ok_drop; [exact Ep | exact Hheld']. }
    pose proof (heap_update w held (drop_held p held) ars1 av ars2 m1 _ _ Hm H0 Hok1 F Hheld1)
      as H1.
    destruct (release_spec (set_mem w m1) (drop_held p held) ars1
                (mk_arena a (free_list_insert (p - 16, s) (av_free av))
                   (drop_block (p - 16) (av_live av)))
                ars2 Hm H1) as [w2 [Hrel _]].
    cbn [av_addr] in Hrel.
    pose proof Hoka as [A1' [A2 [A3 [A4 [_ [_ [_ [A8 _]]]]]]]].
    rewrite Forall_forall in A8. pose proof (A8 _ Hb) as [L1 [L2 [L3 [L4 L5]]]].
    unf. cbn [fst snd] in *.
    assert (Hc : wrap (p - 16) = p - 16) by (apply wrap_small; lia).
    assert (Hres : res fuel (S (length (ars1 ++ av :: ars2) + length (av_free av)))
                     (TAlloc_free fuel p w) tt w2).
    { eapply (free_run w fuel p a _ (set_mem w m1) w2); unf.
      - exact Hi.
      - rewrite <- Hown. eapply res_weaken; [apply find_arena_loop_res; eassumption|].
        rewrite !length_map. lia.
      - intros E. apply Hnn. rewrite <- E. apply in_map. exact Hina.
      - rewrite Hc. eapply is_mapped_in; [exact A1' | lia | lia].
      - rewrite Hc. exact L5.
      - rewrite Hc. eapply res_weaken; [apply Hrun1 | lia].
      - exact Hrel. }
    destruct (res_inv _ _ _ _ _ _ _ Hres Hrun) as [_ ->].
    pose proof (res_total _ _ _ _ _ (Hrun1 (S (length (av_free av)))) (Nat.le_refl _)) as Hins.
    destruct (arena_free_keeps w a _ _ (p - 16) s _ _ Hoka Hb Hins) as [Fc Fb].
    cbn [set_mem w_mem] in Fc, Fb.
    assert (Hq1 : In (q, k) (drop_held p held)).
    { unfold drop_held. apply filter_In. split; [exact Hq|]. cbn [fst].
      apply negb_true_iff, Z.eqb_neq. exact Eq. }
    rewrite (release_keeps (set_mem w m1) _ _ _ _ w2 q k x Hm H1 Hrel Hq1 Hx).
    cbn [set_mem w_mem].
    destruct (held_place _ _ _ _ _ _ Hm H0 Hq)
      as [Hk [[av0 [s0 [Hav0 [Hb0 [Hs0 [P1 P2]]]]]] | [r [Hr [Hno [P1 P2]]]]]].
    + destruct (Z.eq_dec (av_addr av0) a) as [E | E].
      * assert (av0 = av) by (eapply nodup_map_eq; eassumption). subst av0.
        apply (Fb (q - 16, s0)); [exact Hb0 | unf; cbn [fst snd]; lia].
      * apply Fc. destruct (arenas_apart _ _ _ _ av0 av Hm Hok Hav0 Hina E) as [E' | E'];
          fold a in E'; lia.
    + apply Fc. destruct (maps_ok_apart _ _ Hm _ _ Hr A1') as [E | E].
      * exfalso. apply Hno. rewrite E. cbn [fst]. apply in_map. exact Hina.
      * cbn [fst snd] in E. lia.
  - assert (Hlo : fst r <= p) by (unf; lia).
    pose proof (owner_foreign _ _ _ _ _ _ _ Hm H0 Hr Hn Hlo (proj2 Hrange) Hp) as Hown.
    assert (Hres : res fuel (S (length (map av_addr ars))) (TAlloc_free fuel p w) tt w).
    { apply free_skip; [exact Hi|]. rewrite <- Hown.
      apply find_arena_loop_res; assumption. }
    destruct (res_inv _ _ _ _ _ _ _ Hres Hrun) as [_ ->]. reflexivity.
Qed.

Lemma two_blocks_free_run :
  TAlloc_free 64 (A1 + 73) two_blocks
  = Ok tt (world_of (TAlloc_free 64 (A1 + 73) two_blocks) two_blocks).
Proof.
  pose proof (ok_projections (TAlloc_free 64 (A1 + 73) two_blocks) tt two_blocks
                ltac:(vm_compute; reflexivity)) as H.
  destruct (value_of _ _). exact H.
Qed.

(** X18.  TAlloc_malloc never touches the bytes of a block the client
    holds: whatever the call does -- serve from an arena, map a new arena,
    link it behind the tail, or fail -- every byte of every held block reads
    afterwards as it did before. *)
Theorem malloc_keeps_held_data w held fuel n p w' q k x :
  reachable w held -> 0 <= n < 2 ^ 64 ->
  TAlloc_malloc fuel n w = Ok p w' ->
  In (q, k) held -> q <= x < q + k ->
  w_mem w' x = w_mem w x.
Proof.
  intros Hr Hn Hrun Hq Hx.
  eapply malloc_keeps; [apply reachable_inv; exact Hr | exact Hn | exact Hrun | exact Hq | exact Hx].
Qed.

Lemma malloc_keeps_held_data_witness :
  w_mem two_blocks (A1 + 56) = w_mem one_block (A1 + 56).
Proof.
  apply (malloc_keeps_held_data one_block [(A1 + 56, 1)] 64 100 (A1 + 73) two_blocks
           (A1 + 56) 1 (A1 + 56)).
  - exact one_block_reachable.
  - lia.
  - exact two_blocks_run.
  - left. reflexivity.
  - lia.
Defined.

(** X19.  TAlloc_free of a held pointer never touches the bytes of the
    other blocks the client holds: neither the insertion into the free
    list, nor the merging of neighbours, nor the release of an emptied arena
    and the relinking around it changes a byte of theirs. *)
Theorem free_keeps_held_data w held fuel p n w' q k x :
  reachable w held -> In (p, n) held ->
  TAlloc_free fuel p w = Ok tt w' ->
  In (q, k) held -> q <> p -> q <= x < q + k ->
  w_mem w' x = w_mem w x.
Proof.
  intros Hr Hp Hrun Hq Hne Hx.
  eapply free_keeps; [apply reachable_inv; exact Hr | exact Hp | exact Hrun | exact Hq
                     | exact Hne | exact Hx].
Qed.

Lemma free_keeps_held_data_witness :
  w_mem (world_of (TAlloc_free 64 (A1 + 73) two_blocks) two_blocks) (A1 + 56)
  = w_mem two_blocks (A1 + 56).
Proof.
  apply (free_keeps_held_data two_blocks [(A1 + 73, 100); (A1 + 56, 1)] 64 (A1 + 73) 100
           (world_of (TAlloc_free 64 (A1 + 73) two_blocks) two_blocks) (A1 + 56) 1 (A1 + 56)).
  - exact two_blocks_reachable.
  - left. reflexivity.
  - exact two_blocks_free_run.
  - right. left. reflexivity.
  - vm_compute. discriminate.
  - lia.
Defined.

(** ** Where a block is placed *)

Lemma one_block_free_chain :
  free_chain (w_mem one_block) (rd (w_mem one_block) (arena_free_list A1) 8)
    [(A1 + 57, 4095927)].
Proof.
  replace (rd (w_mem one_block) (arena_free_list A1) 8) with (A1 + 57)
    by (vm_compute; reflexivity).
  replace 4095927 with (rd (w_mem one_block) (chunk_size (A1 + 57)) 8)
    by (vm_compute; reflexivity).
  apply free_cons; [discriminate|].
  replace (rd (w_mem one_block) (chunk_next (A1 + 57)) 8) with NULL
    by (vm_compute; reflexivity).
  apply free_nil.
Qed.

(** X20.  First fit: the arenas before [a] in the sequence cannot hold
    the request, and [h] is the first chunk of the free list of [a] that
    can.  TAlloc_malloc then returns the address right after the header of
    [h], and the header records the size asked for when more than a chunk
    header is left over, the whole chunk otherwise. *)
Theorem first_fit_placement w held n l1 a l2 fl pre h post :
  reachable w held -> 0 < n ->
  arena_chain (w_mem w) (arena_head (w_state w)) (l1 ++ a :: l2) ->
  Forall (fun x => rd (w_mem w) (arena_max_free_space x) 8 < n) l1 ->
  free_chain (w_mem w) (rd (w_mem w) (arena_free_list a) 8) fl ->
  split_fit n fl = Some (pre, h, post) ->
  exists N m',
    (forall fuel, (N <= fuel)%nat ->
       TAlloc_malloc fuel n w = Ok (fst h + sizeof_header) (set_mem w m')) /\
    rd m' (header_size (fst h)) 8
    = (if sizeof_chunk <? snd h - n then n else snd h) /\
    rd m' (header_magic (fst h)) 4 = TALLOC_MAGIC.
Proof.
  intros Hr Hn Hc Hsmall Hfl Hsplit. apply reachable_inv in Hr as [Hpg [Hm Hh]].
  destruct Hh as [[_ [Hhd _]] | [ars H]].
  { exfalso. rewrite Hhd in Hc. destruct l1; inversion Hc; congruence. }
  pose proof H as [_ [_ [_ [_ [Hch [_ [Hok _]]]]]]].
  pose proof (arena_chain_unique _ _ _ _ Hc Hch) as El.
  assert (Hina : In a (map av_addr ars)).
  { rewrite <- El. apply in_or_app. right. left. reflexivity. }
  apply in_map_iff in Hina as [av0 [Ea Hav0]].
  rewrite Forall_forall in Hok.
  pose proof (Hok _ Hav0) as [_ [_ [_ [_ [A5 [_ [A7 _]]]]]]]. rewrite Ea in A5, A7.
  pose proof (free_chain_unique _ _ _ _ Hfl A5) as Efl.
  pose proof (split_fit_spec _ _ _ _ _ Hsplit) as [Eh [_ Hfit]].
  assert (Hmax : n <= rd (w_mem w) (arena_max_free_space a) 8).
  { rewrite A7, <- Efl.
    assert (Hin : In h fl) by (rewrite Eh; apply in_or_app; right; left; reflexivity).
    pose proof (maxsize_ge _ _ Hin). lia. }
  assert (Hfa : first_arena (w_mem w) n (map av_addr ars) = a).
  { rewrite <- El. apply first_arena_app; assumption. }
  assert (Hnz : a <> NULL).
  { pose proof (arena_chain_nonnull _ _ _ Hc) as Hnn. intros E. apply Hnn.
    rewrite <- E. apply in_or_app. right. left. reflexivity. }
  pose proof (heap_ok_addrs _ _ _ H) as [Hnd _].
  destruct (malloc_served w held ars n Hm H Hn ltac:(rewrite Hfa; exact Hnz))
    as [ars1 [av [ars2 [pre' [h' [post' [m' [Ears [_ [Hsplit' [Hres [H1 [F Eav]]]]]]]]]]]]].
  rewrite Hfa in Eav.
  assert (Hav : In av ars) by (rewrite Ears; apply in_or_app; right; left; reflexivity).
  assert (av0 = av).
  { eapply nodup_map_eq; try eassumption. congruence. }
  subst av0. rewrite <- Efl, Hsplit in Hsplit'. inversion Hsplit'; subst pre' h' post'.
  exists (S (length ars + length (av_free av))), m'.
  split; [intros fuel Hf; eapply res_total; [apply Hres | exact Hf]|].
  destruct H1 as [_ [_ [_ [_ [_ [_ [Hok1 _]]]]]]]. rewrite Forall_forall in Hok1.
  assert (Hav1 : In (mk_arena (av_addr av) (carve_list n (av_free av))
                       ((fst h, granted n h) :: av_live av))
                   (ars1 ++ mk_arena (av_addr av) (carve_list n (av_free av))
                              ((fst h, granted n h) :: av_live av) :: ars2))
    by (apply in_or_app; right; left; reflexivity).
  pose proof (Hok1 _ Hav1) as [_ [_ [_ [_ [_ [_ [_ [A8 _]]]]]]]].
  cbn [av_addr av_free av_live set_mem w_mem] in A8.
  apply Forall_cons_iff in A8 as [[_ [_ [_ [L4 L5]]]] _]. cbn [fst snd] in L4, L5.
  split; [exact L4 | exact L5].
Qed.

Lemma first_fit_placement_witness :
  exists N m',
    (forall fuel, (N <= fuel)%nat ->
       TAlloc_malloc fuel 100 one_block
       = Ok (fst (A1 + 57, 4095927) + sizeof_header) (set_mem one_block m')) /\
    rd m' (header_size (fst (A1 + 57, 4095927))) 8
    = (if sizeof_chunk <? snd (A1 + 57, 4095927) - 100 then 100
       else snd (A1 + 57, 4095927)) /\
    rd m' (header_magic (fst (A1 + 57, 4095927))) 4 = TALLOC_MAGIC.
Proof.
  apply (first_fit_placement one_block [(A1 + 56, 1)] 100 [] A1 []
           [(A1 + 57, 4095927)] [] (A1 + 57, 4095927) []).
  - exact one_block_reachable.
  - lia.
  - exact one_block_chain.
  - constructor.
  - exact one_block_free_chain.
  - reflexivity.
Defined.

(** ** Chunks that tile an arena *)

Ltac zbool :=
  repeat match goal with
         | |- context [?a <=? ?b] => destruct (Z.leb_spec a b)
         | |- context [?a <? ?b] => destruct (Z.ltb_spec a b)
         end; cbn [andb].

Lemma covers_spec z y : covers z y = true <-> fst y <= z < chunk_end y.
Proof. unfold covers. rewrite andb_true_iff, Z.leb_le, Z.ltb_lt. tauto. Qed.

Lemma coverage_app z l1 l2 :
  coverage z (l1 ++ l2) = (coverage z l1 + coverage z l2)%nat.
Proof. induction l1 as [|x l1 IH]; cbn [app coverage]; [reflexivity | rewrite IH; lia]. Qed.

Lemma extent_app l1 l2 : extent (l1 ++ l2) = extent l1 + extent l2.
Proof. induction l1 as [|x l1 IH]; cbn [app extent]; lia. Qed.

Lemma coverage_in z y l : In y l -> covers z y = true -> (1 <= coverage z l)%nat.
Proof.
  induction l as [|x l IH]; intros Hin Hc; [contradiction|]. cbn [coverage].
  destruct Hin as [-> | Hin]; [rewrite Hc; lia | specialize (IH Hin Hc); lia].
Qed.

Lemma coverage_filter z (f : chunk -> bool) l :
  (coverage z (filter f l) <= coverage z l)%nat.
Proof.
  induction l as [|x l IH]; [apply Nat.le_refl|]. cbn [filter].
  destruct (f x); cbn [coverage]; lia.
Qed.

Lemma coverage_apart l :
  Forall (fun y => 0 < snd y) l -> (forall z, (coverage z l <= 1)%nat) ->
  pairwise_disjoint l.
Proof.
  induction l as [|x l IH]; intros Hpos Hc; [exact I|].
  apply Forall_cons_iff in Hpos as [Hx Hpos]. cbn [pairwise_disjoint]. split.
  - apply Forall_forall. intros y Hy.
    rewrite Forall_forall in Hpos. specialize (Hpos y Hy). cbn beta in Hpos.
    unfold disjoint_chunks.
    destruct (Z_le_gt_dec (chunk_end x) (fst y)) as [L | L]; [left; exact L|].
    destruct (Z_le_gt_dec (chunk_end y) (fst x)) as [L' | L']; [right; exact L'|].
    exfalso. specialize (Hc (Z.max (fst x) (fst y))). cbn [coverage] in Hc.
    assert (C1 : covers (Z.max (fst x) (fst y)) x = true) by (apply covers_spec; unf; lia).
    assert (C2 : covers (Z.max (fst x) (fst y)) y = true) by (apply covers_spec; unf; lia).
    rewrite C1 in Hc. pose proof (coverage_in _ _ _ Hy C2). lia.
  - apply IH; [exact Hpos|]. intros z. specialize (Hc z). cbn [coverage] in Hc. lia.
Qed.

Lemma pairwise_app l1 l2 :
  pairwise_disjoint (l1 ++ l2) ->
  pairwise_disjoint l1 /\ pairwise_disjoint l2 /\
  forall x y, In x l1 -> In y l2 -> disjoint_chunks x y.
Proof.
  induction l1 as [|a l1 IH]; cbn [app pairwise_disjoint].
  - intros H. split; [exact I|]. split; [exact H|]. intros x y [].
  - intros [H1 H2]. destruct (IH H2) as [I1 [I2 I3]]. apply Forall_app in H1 as [F1 F2].
    split; [split; assumption|]. split; [exact I2|]. intros x y [<- | Hx] Hy.
    + rewrite Forall_forall in F2. apply F2. exact Hy.
    + apply I3; assumption.
Qed.

Lemma merge_right_coverage z x l :
  0 < snd x -> Forall (fun y => 0 < snd y) l ->
  coverage z (merge_right x l) = coverage z (x :: l).
Proof.
  intros Hx Hl. destruct l as [|y l]; [reflexivity|]. cbn [merge_right].
  destruct (fst y =? chunk_end x) eqn:E; [|reflexivity]. apply Z.eqb_eq in E.
  apply Forall_cons_iff in Hl as [Hy _]. cbn [coverage]. unfold covers. unf.
  cbn [fst snd] in *. zbool; lia.
Qed.

Lemma merge_right_extent x l : extent (merge_right x l) = extent (x :: l).
Proof.
  destruct l as [|y l]; [reflexivity|]. cbn [merge_right].
  destruct (_ =? _); cbn [extent fst snd]; unf; lia.
Qed.

Lemma insert_chunk_coverage z x l :
  0 < snd x -> Forall (fun y => 0 < snd y) l ->
  coverage z (insert_chunk x l) = coverage z (x :: l).
Proof.
  intros Hx. induction l as [|ia rest IH]; intros Hl; [reflexivity|].
  apply Forall_cons_iff in Hl as [Hia Hrest]. cbn [insert_chunk].
  assert (Hm : coverage z (merge_right ia (merge_right x rest)) = coverage z (x :: ia :: rest)).
  { rewrite merge_right_coverage; [|exact Hia | apply merge_right_pos; assumption].
    cbn [coverage]. rewrite merge_right_coverage by assumption. cbn [coverage]. lia. }
  destruct rest as [|nx rest']; [exact Hm|].
  destruct (fst nx <? fst x); [|exact Hm].
  cbn [coverage]. rewrite (IH Hrest). cbn [coverage]. lia.
Qed.

Lemma insert_chunk_extent x l : extent (insert_chunk x l) = extent (x :: l).
Proof.
  induction l as [|ia rest IH]; [reflexivity|]. cbn [insert_chunk].
  assert (Hm : extent (merge_right ia (merge_right x rest)) = extent (x :: ia :: rest)).
  { rewrite merge_right_extent. cbn [extent]. rewrite merge_right_extent. cbn [extent]. lia. }
  destruct rest as [|nx rest']; [exact Hm|].
  destruct (fst nx <? fst x); [|exact Hm].
  cbn [extent]. rewrite IH. cbn [extent]. lia.
Qed.

Lemma free_list_insert_coverage z x l :
  0 < snd x -> Forall (fun y => 0 < snd y) l ->
  coverage z (free_list_insert x l) = coverage z (x :: l).
Proof.
  intros Hx Hl. destruct l as [|h l']; [reflexivity|]. cbn [free_list_insert].
  destruct (fst x <? fst h).
  - apply merge_right_coverage; assumption.
  - apply insert_chunk_coverage; assumption.
Qed.

Lemma free_list_insert_extent x l : extent (free_list_insert x l) = extent (x :: l).
Proof.
  destruct l as [|h l']; [reflexivity|]. cbn [free_list_insert].
  destruct (fst x <? fst h); [apply merge_right_extent | apply insert_chunk_extent].
Qed.

Lemma drop_block_coverage z c s lb :
  In (c, s) lb ->
  (coverage z (drop_block c lb) + coverage z [(c, s)] <= coverage z lb)%nat.
Proof.
  induction lb as [|b lb IH]; intros Hin; [contradiction|].
  unfold drop_block in *. cbn [filter].
  destruct Hin as [-> | Hin].
  - cbn [fst]. rewrite Z.eqb_refl. cbn [negb coverage].
    pose proof (coverage_filter z (fun b => negb (fst b =? c)) lb). lia.
  - specialize (IH Hin). destruct (negb (fst b =? c)); cbn [coverage] in *; lia.
Qed.

Lemma drop_block_extent c s lb :
  pairwise_disjoint lb -> Forall (fun y => 0 < snd y) lb -> In (c, s) lb ->
  extent lb = extent (drop_block c lb) + (sizeof_chunk + s).
Proof.
  induction lb as [|b lb IH]; intros Hpd Hpos Hin; [contradiction|].
  destruct Hpd as [Hd Hpd]. apply Forall_cons_iff in Hpos as [Hb Hpos].
  unfold drop_block in *. cbn [filter].
  destruct (Z.eq_dec (fst b) c) as [E | E].
  - rewrite (proj2 (Z.eqb_eq _ _) E). cbn [negb].
    rewrite Forall_forall in Hd, Hpos.
    assert (Eb : b = (c, s)).
    { destruct Hin as [<- | Hin]; [reflexivity|]. exfalso.
      specialize (Hd _ Hin). specialize (Hpos _ Hin).
      unfold disjoint_chunks in Hd. unf. cbn [fst snd] in *. lia. }
    subst b.
    assert (Hall : filter (fun b => negb (fst b =? c)) lb = lb).
    { clear - Hd Hpos Hb. induction lb as [|y lb IH]; [reflexivity|]. cbn [filter].
      assert (Hy : fst y <> c).
      { pose proof (Hd y (or_introl eq_refl)) as D. pose proof (Hpos y (or_introl eq_refl)) as P.
        unfold disjoint_chunks in D. unf. cbn [fst snd] in *. lia. }
      rewrite (proj2 (Z.eqb_neq _ _) Hy). cbn [negb]. f_equal. apply IH.
      - intros z Hz. apply Hd. right. exact Hz.
      - intros z Hz. apply Hpos. right. exact Hz. }
    rewrite Hall. cbn [extent snd]. lia.
  - rewrite (proj2 (Z.eqb_neq _ _) E). cbn [negb extent].
    destruct Hin as [Eb | Hin]; [subst b; cbn [fst] in E; congruence|].
    rewrite (IH Hpd Hpos Hin). lia.
Qed.

Lemma carve_pieces_coverage z n h :
  0 < n <= snd h ->
  (coverage z (remainder n h) + coverage z [(fst h, granted n h)] <= coverage z [h])%nat.
Proof.
  intros Hn. unfold remainder, granted.
  destruct (Z.ltb_spec sizeof_chunk (snd h - n)) as [E | E];
    cbn [coverage]; unfold covers; unf; cbn [fst snd] in *; zbool; lia.
Qed.

Lemma carve_pieces_extent n h :
  extent (remainder n h) + (sizeof_chunk + granted n h) = sizeof_chunk + snd h.
Proof.
  unfold remainder, granted.
  destruct (Z.ltb_spec sizeof_chunk (snd h - n)) as [E | E]; cbn [extent fst snd]; unf; lia.
Qed.

Lemma free_chain_sizes m l : forall c,
  free_chain m c l -> Forall (fun y => rd m (chunk_size (fst y)) 8 = snd y) l.
Proof.
  induction l as [|x l IH]; intros c H; [constructor|].
  apply free_chain_head in H as [_ [E1 [E2 H]]].
  constructor; [rewrite E1; symmetry; exact E2 | eapply IH; exact H].
Qed.

(** What the chunks of a tiled arena have in common. *)
Lemma tiled_facts m maps a fl lb dr :
  arena_ok m maps a fl lb -> tiled m a fl lb dr ->
  Forall (fun y => 0 < snd y) fl /\ Forall (fun y => 0 < snd y) lb /\
  Forall (fun y => 0 < snd y) dr /\
  (forall x y, In x fl -> In y dr -> disjoint_chunks x y) /\
  (forall x y, In x lb -> In y dr -> disjoint_chunks x y).
Proof.
  intros [A1 [A2 [A3 [A4 [A5 [A6 [A7 [A8 [A9 A10]]]]]]]]] [Hcov [Hext Hdr]].
  unfold gapped in A6. pose proof (spaced_in 1 _ _ _ ltac:(lia) A6) as Hb.
  assert (Hfl : Forall (fun y : chunk => 0 < snd y) fl).
  { eapply Forall_impl; [|exact Hb]. intros y Hy. apply Hy. }
  assert (Hlb : Forall (fun y : chunk => 0 < snd y) lb).
  { eapply Forall_impl; [|exact A8]. intros y Hy. apply Hy. }
  assert (Hd : Forall (fun y : chunk => 0 < snd y) dr).
  { eapply Forall_impl; [|exact Hdr]. intros y Hy. apply Hy. }
  split; [exact Hfl|]. split; [exact Hlb|]. split; [exact Hd|].
  assert (Hpd : pairwise_disjoint (fl ++ lb ++ dr)).
  { apply coverage_apart; [|exact Hcov]. repeat (apply Forall_app; split); assumption. }
  apply pairwise_app in Hpd as [_ [Hpd2 Hx1]]. apply pairwise_app in Hpd2 as [_ [_ Hx2]].
  split; [|exact Hx2].
  intros x y Hx Hy. apply Hx1; [exact Hx|]. apply in_or_app. right. exact Hy.
Qed.

(** The carve keeps the arena tiled: the chunk consumed becomes the block
    and, when split, the remainder; the chunks the splice leaves out of the
    list become strays. *)
Lemma arena_malloc_tiled w a fl lb dr n fuel p w' :
  arena_ok (w_mem w) (os_maps (w_os w)) a fl lb ->
  tiled (w_mem w) a fl lb dr ->
  0 < n <= maxsize fl ->
  malloc_carve fuel a n w = Ok p w' ->
  exists pre h post,
    split_fit n fl = Some (pre, h, post) /\
    tiled (w_mem w') a (carve_list n fl) ((fst h, granted n h) :: lb) (skipn 1 pre ++ dr).
Proof.
  intros Hok Ht Hn Hrun0.
  destruct (tiled_facts _ _ _ _ _ _ Hok Ht) as [Hposfl [Hposlb [Hposdr [Xfd Xld]]]].
  destruct Ht as [Hcov [Hext Hdr]].
  pose proof Hok as [A1 [A2 [A3 [A4 [A5 [A6 [A7 [A8 [A9 A10]]]]]]]]].
  set (m := w_mem w) in *. set (len := rd m (arena_allocated a) 8) in *. unf.
  destruct (split_fit_exists n fl ltac:(lia) ltac:(lia)) as [pre [h [post Hsplit]]].
  destruct (malloc_carve_spec w a len A1 A4 A2 A3 m fl n pre h post A5 A6 A7 ltac:(lia) Hsplit)
    as [m' [Hrun [_ [_ [_ [_ F]]]]]].
  specialize (Hrun fuel). unfold m in Hrun. rewrite set_mem_same in Hrun.
  destruct (res_inv _ _ _ _ _ _ _ Hrun Hrun0) as [_ ->]. cbn [set_mem w_mem]. fold m.
  exists pre, h, post. split; [exact Hsplit|].
  pose proof (split_fit_spec _ _ _ _ _ Hsplit) as [Hfl [Hpre Hh]].
  unfold gapped in A6. pose proof (spaced_in 1 _ _ _ ltac:(lia) A6) as Hb.
  rewrite Forall_forall in Hb.
  assert (Hhin : In h fl) by (subst fl; apply in_or_app; right; left; reflexivity).
  pose proof (Hb h Hhin) as Bh. cbn beta in Bh.
  assert (Hc0 : In (rd m (a + 16) 8, hd_size fl) fl).
  { destruct fl as [|[c0 s0] fl']; [destruct pre; discriminate|].
    apply free_chain_head in A5 as [_ [E1 _]]. cbn [fst] in E1. rewrite <- E1.
    left. reflexivity. }
  pose proof (Hb _ Hc0) as Bc0. cbn [fst snd] in Bc0. unf.
  assert (Elen : rd m' a 8 = len).
  { apply rd_ext. intros i Hi. simpl in Hi. apply F. unfold carve_touched. unf. lia. }
  pose proof (free_chain_sizes _ _ _ A5) as Hsz. rewrite Forall_forall in Hsz.
  unfold tiled, carve_list. rewrite Hsplit. unf. rewrite Elen.
  split; [|split].
  - intros z. specialize (Hcov z). rewrite Hfl in Hcov.
    rewrite ?coverage_app in *. cbn [coverage] in *. rewrite ?coverage_app in *.
    pose proof (carve_pieces_coverage z n h ltac:(lia)) as P. cbn [coverage] in P.
    assert (Hfs : (coverage z (firstn 1 pre) + coverage z (skipn 1 pre))%nat = coverage z pre).
    { rewrite <- coverage_app, firstn_skipn. reflexivity. }
    lia.
  - rewrite Hfl in Hext. rewrite ?extent_app in *. cbn [extent] in *.
    rewrite ?extent_app in *.
    pose proof (carve_pieces_extent n h) as P.
    assert (Hfs : extent (firstn 1 pre) + extent (skipn 1 pre) = extent pre).
    { rewrite <- extent_app, firstn_skipn. reflexivity. }
    unf. cbn [snd]. lia.
  - apply Forall_app. split.
    + destruct pre as [|p0 pre']; [constructor|]. cbn [skipn].
      apply Forall_forall. intros y Hy.
      assert (Hyfl : In y fl).
      { rewrite Hfl. right. apply in_or_app. left. exact Hy. }
      pose proof (Hb y Hyfl) as By. cbn beta in By.
      assert (Ec0 : rd m (a + 16) 8 = fst p0).
      { rewrite Hfl in A5. cbn [app] in A5. apply free_chain_head in A5 as [_ [E1 _]].
        symmetry. exact E1. }
      assert (Hafter : chunk_end p0 + 1 <= fst y).
      { rewrite Hfl in A6. cbn [app] in A6.
        pose proof (spaced_tail_lower 1 _ _ _ _ ltac:(lia) A6) as T.
        rewrite Forall_forall in T. apply T. apply in_or_app. left. exact Hy. }
      assert (Hbefore : chunk_end y + 1 <= fst h).
      { rewrite Hfl in A6.
        pose proof (spaced_before 1 _ _ _ _ _ ltac:(lia) A6) as T.
        rewrite Forall_forall in T. apply T. right. exact Hy. }
      assert (Hp0 : 0 < snd p0).
      { rewrite Forall_forall in Hposfl. apply Hposfl. rewrite Hfl. left. reflexivity. }
      unfold stray. unf. rewrite Elen. split; [lia|]. split; [lia|]. split; [lia|].
      rewrite <- (Hsz y Hyfl). unf. apply rd_ext. intros i Hi. simpl in Hi. apply F.
      unfold carve_touched. unf. rewrite Ec0. lia.
    + apply Forall_forall. intros d Hd. rewrite Forall_forall in Hdr.
      pose proof (Hdr d Hd) as [D1 [D2 [D3 D4]]]. unf.
      pose proof (Xfd _ _ Hhin Hd) as Dh. pose proof (Xfd _ _ Hc0 Hd) as Dc.
      unfold disjoint_chunks in Dh, Dc. unf. cbn [fst snd] in *.
      unfold stray. unf. rewrite Elen. split; [lia|]. split; [lia|]. split; [exact D3|].
      rewrite <- D4. apply rd_ext. intros i Hi. simpl in Hi. apply F.
      unfold carve_touched. unf. lia.
Qed.

(** The insertion into the free list keeps the arena tiled: the block
    released becomes a free chunk, merged with the free neighbours that
    touch it. *)
Lemma arena_free_tiled w a fl lb dr c s fuel w' :
  arena_ok (w_mem w) (os_maps (w_os w)) a fl lb ->
  tiled (w_mem w) a fl lb dr ->
  In (c, s) lb ->
  free_insert fuel a c w = Ok tt w' ->
  tiled (w_mem w') a (free_list_insert (c, s) fl) (drop_block c lb) dr.
Proof.
  intros Hok Ht Hcs Hrun0.
  destruct (tiled_facts _ _ _ _ _ _ Hok Ht) as [Hposfl [Hposlb [Hposdr [Xfd Xld]]]].
  destruct Ht as [Hcov [Hext Hdr]].
  pose proof Hok as [A1 [A2 [A3 [A4 [A5 [A6 [A7 [A8 [A9 A10]]]]]]]]].
  set (m := w_mem w) in *. set (len := rd m (arena_allocated a) 8) in *. unf.
  rewrite Forall_forall in A8, A9.
  pose proof (A8 _ Hcs) as [L1 [L2 [L3 [L4 L5]]]]. unf. cbn [fst snd] in *.
  pose proof (A9 _ Hcs) as Dc.
  destruct (free_insert_spec w a len A1 A4 A2 A3 m fl c s A5 A6 A7 L1 L2 L3 L4 Dc)
    as [m' [Hrun [_ [_ F]]]].
  specialize (Hrun fuel). unfold m in Hrun. rewrite set_mem_same in Hrun.
  destruct (res_inv _ _ _ _ _ _ _ Hrun Hrun0) as [_ ->]. cbn [set_mem w_mem]. fold m.
  unfold gapped in A6. pose proof (spaced_in 1 _ _ _ ltac:(lia) A6) as Hb.
  rewrite Forall_forall in Hb.
  assert (Elen : rd m' a 8 = len).
  { apply rd_ext. intros i Hi. simpl in Hi. apply F; [lia | lia |].
    apply Forall_forall. intros y Hy. specialize (Hb y Hy). cbn beta in Hb. unf. lia. }
  unfold tiled. unf. rewrite Elen. split; [|split].
  - intros z. specialize (Hcov z). rewrite !coverage_app in *.
    rewrite free_list_insert_coverage by assumption. cbn [coverage].
    pose proof (drop_block_coverage z c s lb Hcs) as P. cbn [coverage] in P. lia.
  - rewrite !extent_app in *. rewrite free_list_insert_extent. cbn [extent snd].
    pose proof (drop_block_extent c s lb A10 Hposlb Hcs) as P. unf. lia.
  - apply Forall_forall. intros d Hd. rewrite Forall_forall in Hdr.
    pose proof (Hdr d Hd) as [D1 [D2 [D3 D4]]]. unf.
    pose proof (Xld _ _ Hcs Hd) as Dcs. unfold disjoint_chunks in Dcs. unf.
    cbn [fst snd] in Dcs.
    unfold stray. unf. rewrite Elen. split; [lia|]. split; [lia|]. split; [exact D3|].
    rewrite <- D4. apply rd_ext. intros i Hi. simpl in Hi. apply F; [lia | lia |].
    apply Forall_forall. intros y Hy. pose proof (Xfd _ _ Hy Hd) as Dy.
    specialize (Hb y Hy). cbn beta in Hb. unfold disjoint_chunks in Dy. unf. lia.
Qed.

(** ** The arenas of the sequence stay tiled *)

Lemma tiled_frame m m' a fl lb dr :
  tiled m a fl lb dr ->
  (forall x, a <= x < a + 8 -> m' x = m x) ->
  (forall d x, In d dr -> fst d <= x < fst d + 8 -> m' x = m x) ->
  tiled m' a fl lb dr.
Proof.
  intros [Hcov [Hext Hdr]] Fa Fd.
  assert (Elen : rd m' a 8 = rd m a 8).
  { apply rd_ext. intros i Hi. simpl in Hi. apply Fa. lia. }
  unfold tiled. unf. rewrite Elen. split; [exact Hcov|]. split; [exact Hext|].
  apply Forall_forall. intros d Hd. rewrite Forall_forall in Hdr.
  pose proof (Hdr d Hd) as [D1 [D2 [D3 D4]]]. unf.
  unfold stray. unf. rewrite Elen. repeat split; try assumption.
  rewrite <- D4. apply rd_ext. intros i Hi. simpl in Hi. apply (Fd d); [exact Hd | lia].
Qed.

Lemma tiled_span m a fl lb dr d x :
  tiled m a fl lb dr -> In d dr -> fst d <= x < fst d + 8 ->
  a + 40 <= x < a + rd m a 8.
Proof.
  intros [_ [_ Hdr]] Hd Hx. rewrite Forall_forall in Hdr.
  pose proof (Hdr d Hd) as [D1 [D2 [D3 D4]]]. unf. lia.
Qed.

Lemma heap_tiled_frame w w' ars :
  heap_tiled w ars ->
  (forall av x, In av ars ->
     av_addr av <= x < av_addr av + 8 \/
     av_addr av + 40 <= x < av_addr av + rd (w_mem w) (av_addr av) 8 ->
     w_mem w' x = w_mem w x) ->
  heap_tiled w' ars.
Proof.
  intros Ht F. unfold heap_tiled in *. rewrite Forall_forall in *. intros av Hav.
  destruct (Ht av Hav) as [dr Hdr]. exists dr.
  eapply tiled_frame; [exact Hdr | |].
  - intros x Hx. apply (F av); [exact Hav | left; exact Hx].
  - intros d x Hd Hx. apply (F av); [exact Hav | right].
    eapply tiled_span; eassumption.
Qed.

Lemma heap_tiled_update w held ars1 av ars2 m' fl' lb' dr' :
  maps_ok (os_pagesize (w_os w)) (os_maps (w_os w)) ->
  heap_ok w held (ars1 ++ av :: ars2) ->
  heap_tiled w (ars1 ++ av :: ars2) ->
  tiled m' (av_addr av) fl' lb' dr' ->
  (forall x, x < av_addr av + 8 \/ av_addr av + 24 <= x < av_addr av + 40 \/
             av_addr av + rd (w_mem w) (av_addr av) 8 <= x -> m' x = w_mem w x) ->
  heap_tiled (set_mem w m') (ars1 ++ mk_arena (av_addr av) fl' lb' :: ars2).
Proof.
  intros Hm H Ht Hnew F. pose proof (heap_ok_addrs _ _ _ H) as [Hnd _]. heap H.
  assert (Hav : In av (ars1 ++ av :: ars2)) by (apply in_or_app; right; left; reflexivity).
  pose proof Hok as Hok'. rewrite Forall_forall in Hok'.
  assert (Hother : forall av0, In av0 (ars1 ++ ars2) ->
            exists dr, tiled m' (av_addr av0) (av_free av0) (av_live av0) dr).
  { intros av0 Hav0.
    assert (Hin0 : In av0 (ars1 ++ av :: ars2)).
    { apply in_app_or in Hav0 as [Hav0 | Hav0]; apply in_or_app;
        [left | right; right]; exact Hav0. }
    assert (Hne0 : av_addr av0 <> av_addr av).
    { intros E. rewrite map_app in Hnd. cbn [map] in Hnd. apply NoDup_remove_2 in Hnd.
      apply Hnd. rewrite <- E, <- map_app. apply in_map. exact Hav0. }
    unfold heap_tiled in Ht. rewrite Forall_forall in Ht.
    destruct (Ht av0 Hin0) as [dr Hdr]. exists dr.
    pose proof (Hok' _ Hin0) as [_ [B2 [B3 _]]]. pose proof (Hok' _ Hav) as [_ [A2 [A3 _]]].
    pose proof (arenas_apart _ _ _ _ av0 av Hm Hok Hin0 Hav Hne0) as Hap. unf.
    eapply tiled_frame; [exact Hdr | |].
    - intros x Hx. apply F. lia.
    - intros d x Hd Hx. pose proof (tiled_span _ _ _ _ _ _ _ Hdr Hd Hx). apply F. lia. }
  unfold heap_tiled. cbn [set_mem w_mem]. apply Forall_app. split; [|constructor].
  - apply Forall_forall. intros av0 Hav0. apply Hother. apply in_or_app. left. exact Hav0.
  - exists dr'. exact Hnew.
  - apply Forall_forall. intros av0 Hav0. apply Hother. apply in_or_app. right. exact Hav0.
Qed.

Lemma fresh_tiled m a len :
  rd m (arena_allocated a) 8 = len -> tiled m a [(a + 40, len - 56)] [] [].
Proof.
  intros E. unfold tiled. cbn [app coverage extent snd].
  split; [intros z; destruct (covers _ _); lia|].
  split; [rewrite E; unf; lia | constructor].
Qed.

Lemma tile_byte_links ps w held ars av0 av1 x :
  maps_ok ps (os_maps (w_os w)) -> heap_ok w held ars ->
  In av0 ars -> In av1 ars -> tile_byte (w_mem w) (av_addr av0) x ->
  x < av_addr av1 + 8 \/ av_addr av1 + 40 <= x.
Proof.
  intros Hm H Hav0 Hav1 Hx. heap H. pose proof Hok as Hok'. rewrite Forall_forall in Hok'.
  pose proof (Hok' _ Hav0) as [_ [B2 [B3 _]]]. pose proof (Hok' _ Hav1) as [_ [A2 [A3 _]]].
  unfold tile_byte in Hx. unf.
  destruct (Z.eq_dec (av_addr av0) (av_addr av1)) as [E | E]; [rewrite <- E; lia|].
  destruct (arenas_apart _ _ _ _ av0 av1 Hm Hok Hav0 Hav1 E); lia.
Qed.

Lemma tile_byte_tail ps w held ars av x :
  maps_ok ps (os_maps (w_os w)) -> heap_ok w held ars ->
  In av ars -> tile_byte (w_mem w) (av_addr av) x ->
  x < arena_tail (w_state w) + 24 \/ arena_tail (w_state w) + 32 <= x.
Proof.
  intros Hm H Hav Hx. pose proof H as H0. heap H.
  pose proof Hok as Hok'. rewrite Forall_forall in Hok'.
  pose proof (Hok' _ Hav) as [B1 [B2 [B3 _]]].
  set (t := arena_tail (w_state w)) in *.
  destruct Htl as [Htl | [T1 [T2 [T3 [T4 | [lt [T4 T5]]]]]]].
  - destruct (exists_last Hne) as [ars' [avl Ears]].
    assert (Et : t = av_addr avl).
    { rewrite Htl, Ears, map_app. cbn [map]. apply last_last. }
    assert (Havl : In avl ars) by (rewrite Ears; apply in_or_app; right; left; reflexivity).
    pose proof (tile_byte_links _ _ _ _ _ _ _ Hm H0 Hav Havl Hx). lia.
  - rewrite Forall_forall in T4. specialize (T4 _ B1).
    apply disjoint_region_spec in T4. unfold tile_byte in Hx. unf. cbn [fst snd] in T4. lia.
  - unf. destruct (maps_ok_apart _ _ Hm _ _ B1 T4) as [E | E].
    + exfalso. apply T3. inversion E. apply in_map. exact Hav.
    + cbn [fst snd] in E. unfold tile_byte in Hx. lia.
Qed.

Lemma alloc_more_space_frame w held ars n r w1 :
  page_ok (os_pagesize (w_os w)) ->
  maps_ok (os_pagesize (w_os w)) (os_maps (w_os w)) ->
  heap_ok w held ars -> 0 < n < 2 ^ 64 ->
  TAlloc_alloc_more_space n w = Ok r w1 ->
  forall x,
    (exists rq, In rq (os_maps (w_os w)) /\ fst rq <= x < fst rq + snd rq) ->
    x < arena_tail (w_state w) + 24 \/ arena_tail (w_state w) + 32 <= x ->
    w_mem w1 x = w_mem w x.
Proof.
  intros Hpg Hm H Hn Hrun x [rq [Hrq Q]] Ht. heap H.
  unfold TAlloc_alloc_more_space in Hrun.
  apply bind_inv in Hrun as [r0 [w0 [Hcreate Hrest]]].
  destruct (create_arena_spec _ _ _ _ Hpg Hps Hmin Hn Hcreate)
    as [[-> Hsame] | [len [Hreg [Hlen [Hmaps [Hpsz [Hst [Hnew [Hnx [Hpv F]]]]]]]]]].
  { change (NULL =? NULL) with true in Hrest. cbv iota in Hrest.
    inversion Hrest; subst. destruct Hsame as [-> _]. reflexivity. }
  pose proof (region_ok_spec _ _ _ Hreg) as [R1 [R2 [R3 [R4 R5]]]].
  rewrite (proj2 (Z.eqb_neq r0 NULL)) in Hrest by (unf; lia).
  apply bind_inv in Hrest as [s0 [w2 [Hs Hrest]]]. inversion Hs; subst s0 w2. clear Hs.
  rewrite Hst in Hrest.
  apply bind_inv in Hrest as [u [w2 [Hst1 Hrest]]]. apply store_inv in Hst1. subst w2.
  apply bind_inv in Hrest as [u2 [w3 [Hst2 Hrest]]]. apply store_inv in Hst2. subst w3.
  apply bind_inv in Hrest as [u3 [w4 [Hst3 Hrest]]]. inversion Hrest; subst r w1.
  unfold set_arena_tail in Hst3.
  apply bind_inv in Hst3 as [s0 [w5 [Hs Hput]]]. inversion Hs; subst s0 w5. clear Hs.
  inversion Hput; subst w4. cbn [set_state set_mem w_mem].
  assert (Hout : x < r0 \/ r0 + len <= x) by (destruct (R5 _ Hrq); lia).
  rewrite !wr_out by (unf; simpl; lia). apply F. exact Hout.
Qed.

Lemma tile_byte_mapped w held ars av x :
  heap_ok w held ars -> In av ars -> tile_byte (w_mem w) (av_addr av) x ->
  exists rq, In rq (os_maps (w_os w)) /\ fst rq <= x < fst rq + snd rq.
Proof.
  intros H Hav Hx. heap H. rewrite Forall_forall in Hok.
  pose proof (Hok _ Hav) as [B1 [B2 [B3 _]]]. unf.
  eexists. split; [exact B1|]. cbn [fst snd]. unfold tile_byte in Hx. lia.
Qed.

(** TAlloc_malloc keeps the arenas of the sequence tiled. *)
Lemma malloc_tiled w held ars fuel n p w' :
  page_ok (os_pagesize (w_os w)) ->
  maps_ok (os_pagesize (w_os w)) (os_maps (w_os w)) ->
  heap_ok w held ars -> heap_tiled w ars -> 0 <= n < 2 ^ 64 ->
  TAlloc_malloc fuel n w = Ok p w' ->
  exists ars', heap_tiled w' ars' /\
    ((p = NULL /\ heap_ok w' held ars') \/ (p <> NULL /\ heap_ok w' ((p, n) :: held) ars')).
Proof.
  intros Hpg Hm H Ht Hn Hrun0.
  destruct (Z.eq_dec n 0) as [-> | En].
  { rewrite malloc_zero in Hrun0 by apply H. inversion Hrun0; subst.
    exists ars. split; [exact Ht|]. left. split; [reflexivity | exact H]. }
  assert (Hn0 : 0 < n < 2 ^ 64) by lia.
  pose proof (heap_ok_addrs _ _ _ H) as [Hnd [Hnn Hmapped]].
  pose proof H as H0. heap H. pose proof Hrun0 as Hrun.
  rewrite (malloc_enter w held ars fuel n H0 ltac:(lia)) in Hrun.
  apply bind_inv in Hrun as [arena [w1 [Hacc Hrest]]].
  apply bind_inv in Hacc as [node [w0 [Hloop Hnode]]].
  destruct (res_inv _ _ _ _ _ _ _ (accommodating_loop_res w n _ _ fuel Hch Hmapped) Hloop)
    as [-> ->].
  destruct (Z.eq_dec (first_arena (w_mem w) n (map av_addr ars)) NULL) as [Efa | Efa].
  - (* no arena of the sequence admits the request *)
    rewrite Efa in Hnode. change (NULL =? NULL) with true in Hnode. cbv iota in Hnode.
    assert (Ht1 : heap_tiled w1 ars).
    { eapply heap_tiled_frame; [exact Ht|]. intros av x Hav Hx.
      apply (alloc_more_space_frame _ _ _ _ _ _ Hpg Hm H0 Hn0 Hnode).
      - eapply tile_byte_mapped; eassumption.
      - eapply tile_byte_tail; eassumption. }
    destruct (alloc_more_space_spec _ _ _ _ _ _ Hpg Hm H0 Hn0 Hnode)
      as [[-> Hsame] | [len [Hreg [Hlen [Hmaps [Hpsz [Hnew [Hkeep Hcases]]]]]]]].
    { change (NULL =? NULL) with true in Hrest. cbv iota in Hrest.
      inversion Hrest; subst. exists ars. split; [exact Ht1|]. left.
      split; [reflexivity|]. eapply same_heap_ok; eassumption. }
    pose proof (region_ok_spec _ _ _ Hreg) as [R1 [R2 [R3 [R4 R5]]]].
    rewrite (proj2 (Z.eqb_neq arena NULL)) in Hrest by (unf; lia).
    assert (Hm1 : maps_ok (os_pagesize (w_os w1)) (os_maps (w_os w1))).
    { rewrite Hpsz, Hmaps. apply maps_ok_cons; assumption. }
    assert (Elen : rd (w_mem w1) arena 8 = len).
    { destruct Hnew as [N1 _]. unf.
      eapply (maps_ok_base _ _ _ _ _ Hm1 N1). rewrite Hmaps. left. reflexivity. }
    assert (Hfresh : tiled (w_mem w1) arena [(arena + 40, len - 56)] [] [])
      by (apply fresh_tiled; exact Elen).
    destruct (arena_malloc_tiled w1 arena _ _ _ n fuel p w' Hnew Hfresh
                ltac:(cbn [maxsize snd]; lia) Hrest)
      as [pre0 [h0 [post0 [Hsplit0 Htiled]]]].
    destruct Hcases as [H1 | [H1 Hoff]].
    + (* the new arena joins the sequence *)
      destruct (heap_carve w1 held ars (mk_arena arena [(arena + 40, len - 56)] []) [] n Hm1 H1)
        as [pre [h [post [m' [Hsplit [Hres [H2 F]]]]]]].
      { cbn [av_free maxsize snd]. lia. }
      cbn [av_addr av_free av_live] in *.
      destruct (res_inv _ _ _ _ _ _ _ (Hres fuel) Hrest) as [-> ->].
      rewrite Hsplit in Hsplit0. inversion Hsplit0; subst pre0 h0 post0.
      pose proof (split_fit_spec _ _ _ _ _ Hsplit) as [Efl _].
      assert (Eh : fst h = arena + 40).
      { destruct pre as [|x pre]; cbn [app] in Efl; inversion Efl as [[E1 E2]].
        - reflexivity.
        - destruct pre; discriminate. }
      eexists. split; [|right; split; [unf; lia | exact H2]].
      eapply (heap_tiled_update w1 held ars (mk_arena arena [(arena + 40, len - 56)] []) []
                m'); [exact Hm1 | exact H1 | | exact Htiled | exact F].
      unfold heap_tiled. apply Forall_app. split; [exact Ht1|].
      constructor; [|constructor]. exists []. exact Hfresh.
    + (* the new arena stays outside the sequence *)
      destruct (arena_malloc_step w1 arena _ _ n Hnew)
        as [m' [pre [h [post [Hsplit [Hres [Hok1 [G1 [G2 [G3 F]]]]]]]]]].
      { cbn [maxsize snd]. lia. }
      destruct (res_inv _ _ _ _ _ _ _ (Hres fuel) Hrest) as [-> ->].
      assert (Hr : In (arena, len) (os_maps (w_os w1))) by (rewrite Hmaps; left; reflexivity).
      assert (Hnewheld : held_ok (os_maps (w_os w1)) ars (fst h + 16, n)).
      { split; [cbn [snd]; lia|]. right. exists (arena, len). cbn [fst snd].
        split; [exact Hr|]. split; [exact Hoff|]. rewrite Elen in G3. unf. lia. }
      pose proof H1 as [_ [_ [_ [_ [_ [_ [Hok0 [_ Hheld0]]]]]]]].
      assert (Hapart : forall av, In av ars ->
                arena + len <= av_addr av \/
                av_addr av + rd (w_mem w1) (av_addr av) 8 <= arena).
      { intros av Hav. rewrite Forall_forall in Hok0. pose proof (Hok0 _ Hav) as [B1 _]. unf.
        destruct (maps_ok_apart _ _ Hm1 _ _ B1 Hr) as [E | E].
        - exfalso. apply Hoff. inversion E. apply in_map. exact Hav.
        - cbn [fst snd] in E. lia. }
      exists ars. split.
      * eapply heap_tiled_frame; [exact Ht1|]. intros av x Hav Hx. cbn [set_mem w_mem].
        apply F. rewrite Elen. pose proof (Hapart _ Hav). unfold tile_byte in Hx.
        rewrite Forall_forall in Hok0. pose proof (Hok0 _ Hav) as [_ [B2 [B3 _]]]. unf. lia.
      * right. split; [unf; lia|].
        apply (heap_ok_held _ held); [|constructor; [exact Hnewheld | exact Hheld0]].
        apply heap_frame; [exact H1|].
        intros av x Hav Hx. apply F.
        rewrite Forall_forall in Hok0.
        pose proof (metadata_span _ _ _ _ (Hok0 _ Hav) Hx) as Hsp.
        pose proof (Hapart _ Hav). rewrite Elen. lia.
  - (* an arena of the sequence serves the request *)
    rewrite (proj2 (Z.eqb_neq _ _) Efa) in Hnode. inversion Hnode; subst arena w1.
    rewrite (proj2 (Z.eqb_neq _ _) Efa) in Hrest.
    destruct (malloc_served w held ars n Hm H0 ltac:(lia) Efa)
      as [ars1 [av [ars2 [pre [h [post [m' [Ears [_ [Hsplit [Hres [H1 [F Eav]]]]]]]]]]]]].
    rewrite <- Eav in Hrest. subst ars.
    pose proof (split_fit_spec _ _ _ _ _ Hsplit) as [Hfl [_ Hfit]].
    assert (Hhin : In h (av_free av))
      by (rewrite Hfl; apply in_or_app; right; left; reflexivity).
    assert (Hmax : n <= maxsize (av_free av)) by (pose proof (maxsize_ge _ _ Hhin); lia).
    assert (Hav : In av (ars1 ++ av :: ars2)) by (apply in_or_app; right; left; reflexivity).
    pose proof Hok as Hok'. rewrite Forall_forall in Hok'.
    pose proof (Hok' _ Hav) as Hoka.
    pose proof Ht as Ht'. unfold heap_tiled in Ht'. rewrite Forall_forall in Ht'.
    destruct (Ht' _ Hav) as [dr Hdr].
    destruct (arena_malloc_tiled w (av_addr av) _ _ _ n fuel p w' Hoka Hdr
                ltac:(lia) Hrest)
      as [pre0 [h0 [post0 [Hsplit0 Htiled]]]].
    rewrite Hsplit in Hsplit0. inversion Hsplit0; subst pre0 h0 post0.
    destruct (res_inv _ _ _ _ _ _ _ (Hres fuel) Hrun0) as [-> ->].
    pose proof Hoka as [_ [A2 [_ [_ [_ [A6 _]]]]]].
    unfold gapped in A6. pose proof (spaced_in 1 _ _ _ ltac:(lia) A6) as Hb.
    rewrite Forall_forall in Hb. pose proof (Hb h Hhin) as Bh. cbn beta in Bh.
    eexists. split; [|right; split; [unf; lia | exact H1]].
    eapply heap_tiled_update; try eassumption.
Qed.

Lemma release_links w held ars1 av ars2 :
  heap_ok w held (ars1 ++ av :: ars2) ->
  av_addr av <> arena_head (w_state w) ->
  (exists avp, In avp ars1 /\ rd (w_mem w) (arena_prev (av_addr av)) 8 = av_addr avp) /\
  (rd (w_mem w) (arena_next (av_addr av)) 8 = NULL \/
   exists avn, In avn ars2 /\ rd (w_mem w) (arena_next (av_addr av)) 8 = av_addr avn).
Proof.
  intros H E. heap H.
  destruct (exists_last (l := ars1)) as [ars1' [avp ->]].
  { intros ->. cbn [app map] in Hch. apply arena_chain_head in Hch as [Eh _]. congruence. }
  rewrite <- app_assoc in *. cbn [app] in *.
  assert (Eprev : rd (w_mem w) (arena_prev (av_addr av)) 8 = av_addr avp).
  { rewrite map_app in Hpl. cbn [map] in Hpl. eapply prev_linked_at. exact Hpl. }
  assert (Enext : rd (w_mem w) (arena_next (av_addr av)) 8 = hd NULL (map av_addr ars2)).
  { rewrite map_app in Hch. cbn [map] in Hch.
    change (map av_addr ars1' ++ av_addr avp :: av_addr av :: map av_addr ars2)
      with (map av_addr ars1' ++ [av_addr avp] ++ av_addr av :: map av_addr ars2) in Hch.
    rewrite app_assoc in Hch. apply arena_chain_at in Hch. apply Hch. }
  split.
  - exists avp. split; [apply in_or_app; right; left; reflexivity | exact Eprev].
  - destruct ars2 as [|avn ars2']; [left; exact Enext | right].
    exists avn. split; [left; reflexivity | exact Enext].
Qed.

(** TAlloc_free of a held pointer keeps the arenas of the sequence
    tiled. *)
Lemma free_tiled w held ars fuel p n w' :
  maps_ok (os_pagesize (w_os w)) (os_maps (w_os w)) ->
  heap_ok w held ars -> heap_tiled w ars -> In (p, n) held ->
  TAlloc_free fuel p w = Ok tt w' ->
  exists ars', heap_ok w' (drop_held p held) ars' /\ heap_tiled w' ars'.
Proof.
  intros Hm H Ht Hin Hrun.
  pose proof (heap_ok_addrs _ _ _ H) as [Hnd [Hnn Hmapped]].
  pose proof H as H0. heap H. pose proof Hheld as Hheld'. rewrite Forall_forall in Hheld.
  destruct (Hheld _ Hin) as [Hp [[av [s [Hav [Hb Hs]]]] | [r [Hr [Hn Hrange]]]]];
    cbn [fst snd] in *.
  - apply in_split in Hav as [ars1 [ars2 ->]].
    set (a := av_addr av) in *. unf.
    assert (Ep : p = p - 16 + 16) by lia.
    pose proof (owner_of_block _ _ _ _ _ _ _ _ Hm H0 Hb) as Hown.
    rewrite <- Ep in Hown. fold a in Hown.
    assert (Hina : In av (ars1 ++ av :: ars2)) by (apply in_or_app; right; left; reflexivity).
    pose proof Hok as Hok'. rewrite Forall_forall in Hok'.
    pose proof (Hok' _ Hina) as Hoka. fold a in Hoka.
    destruct (arena_free_step w a _ _ (p - 16) s Hoka Hb) as [m1 [Hrun1 [Hok1 F]]].
    assert (Hheld1 : Forall (held_ok (os_maps (w_os w))
              (ars1 ++ mk_arena a (free_list_insert (p - 16, s) (av_free av))
                         (drop_block (p - 16) (av_live av)) :: ars2)) (drop_held p held)).
    { apply held_ok_drop; [exact Ep | exact Hheld']. }
    pose proof (heap_update w held (drop_held p held) ars1 av ars2 m1 _ _ Hm H0 Hok1 F Hheld1)
      as H1.
    destruct (release_spec (set_mem w m1) (drop_held p held) ars1
                (mk_arena a (free_list_insert (p - 16, s) (av_free av))
                   (drop_block (p - 16) (av_live av)))
                ars2 Hm H1) as [w2 [Hrel Hcases]].
    cbn [av_addr] in Hrel, Hcases.
    pose proof Hoka as [A1' [A2 [A3 [A4 [_ [_ [_ [A8 _]]]]]]]].
    rewrite Forall_forall in A8. pose proof (A8 _ Hb) as [L1 [L2 [L3 [L4 L5]]]].
    unf. cbn [fst snd] in *.
    assert (Hc : wrap (p - 16) = p - 16) by (apply wrap_small; lia).
    assert (Hres : res fuel (S (length (ars1 ++ av :: ars2) + length (av_free av)))
                     (TAlloc_free fuel p w) tt w2).
    { eapply (free_run w fuel p a _ (set_mem w m1) w2); unf.
      - exact Hi.
      - rewrite <- Hown. eapply res_weaken; [apply find_arena_loop_res; eassumption|].
        rewrite !length_map. lia.
      - intros E. apply Hnn. rewrite <- E. apply in_map. exact Hina.
      - rewrite Hc. eapply is_mapped_in; [exact A1' | lia | lia].
      - rewrite Hc. exact L5.
      - rewrite Hc. eapply res_weaken; [apply Hrun1 | lia].
      - exact Hrel. }
    destruct (res_inv _ _ _ _ _ _ _ Hres Hrun) as [_ ->].
    pose proof (res_total _ _ _ _ _ (Hrun1 (S (length (av_free av)))) (Nat.le_refl _)) as Hins.
    pose proof Ht as Ht'. unfold heap_tiled in Ht'. rewrite Forall_forall in Ht'.
    destruct (Ht' _ Hina) as [dr Hdr]. fold a in Hdr.
    pose proof (arena_free_tiled w a _ _ _ (p - 16) s _ _ Hoka Hdr Hb Hins) as Htiled.
    cbn [set_mem w_mem] in Htiled.
    assert (Ht1 : heap_tiled (set_mem w m1)
                    (ars1 ++ mk_arena a (free_list_insert (p - 16, s) (av_free av))
                               (drop_block (p - 16) (av_live av)) :: ars2)).
    { eapply (heap_tiled_update w held ars1 av ars2 m1); eassumption. }
    destruct Hcases as [Hsame | [Hmaps [Hpsz H2]]].
    + eexists. split; [eapply same_heap_ok; eassumption|].
      eapply heap_tiled_frame; [exact Ht1|]. intros av0 x _ _.
      destruct Hsame as [-> _]. reflexivity.
    + exists (ars1 ++ ars2). split; [exact H2|].
      assert (Ht2 : heap_tiled (set_mem w m1) (ars1 ++ ars2)).
      { unfold heap_tiled in *. apply Forall_app in Ht1 as [T1 T2].
        apply Forall_cons_iff in T2 as [_ T2]. apply Forall_app. split; assumption. }
      eapply heap_tiled_frame; [exact Ht2|]. intros av0 x Hav0 Hx.
      apply (release_frame _ _ _ Hrel).
      destruct (Z.eq_dec a (arena_head (w_state (set_mem w m1)))) as [E | E];
        [left; exact E | right].
      destruct (release_links _ _ _ _ _ H1 E) as [[avp [Hinp Eprev]] Hnx].
      cbn [av_addr set_mem w_mem] in Eprev, Hnx. fold a in Eprev, Hnx.
      cbn [set_mem w_mem]. rewrite Eprev.
      assert (Hin0 : In av0 (ars1 ++ mk_arena a (free_list_insert (p - 16, s) (av_free av))
                                       (drop_block (p - 16) (av_live av)) :: ars2)).
      { apply in_app_or in Hav0 as [Hav0 | Hav0]; apply in_or_app;
          [left | right; right]; exact Hav0. }
      split.
      * assert (Hinp' : In avp (ars1 ++ mk_arena a (free_list_insert (p - 16, s) (av_free av))
                                         (drop_block (p - 16) (av_live av)) :: ars2))
          by (apply in_or_app; left; exact Hinp).
        pose proof (tile_byte_links (os_pagesize (w_os w)) (set_mem w m1) _ _ av0 avp x
                      Hm H1 Hin0 Hinp' Hx). unf. lia.
      * destruct Hnx as [En | [avn [Hinn En]]]; [left; exact En | right]. rewrite En.
        assert (Hinn' : In avn (ars1 ++ mk_arena a (free_list_insert (p - 16, s) (av_free av))
                                         (drop_block (p - 16) (av_live av)) :: ars2))
          by (apply in_or_app; right; right; exact Hinn).
        pose proof (tile_byte_links (os_pagesize (w_os w)) (set_mem w m1) _ _ av0 avn x
                      Hm H1 Hin0 Hinn' Hx). unf. lia.
  - assert (Hlo : fst r <= p) by (unf; lia).
    pose proof (owner_foreign _ _ _ _ _ _ _ Hm H0 Hr Hn Hlo (proj2 Hrange) Hp) as Hown.
    assert (Hres : res fuel (S (length (map av_addr ars))) (TAlloc_free fuel p w) tt w).
    { apply free_skip; [exact Hi|]. rewrite <- Hown.
      apply find_arena_loop_res; assumption. }
    destruct (res_inv _ _ _ _ _ _ _ Hres Hrun) as [_ ->].
    exists ars. split; [|exact Ht].
    unfold heap_ok. repeat (split; [assumption|]).
    apply Forall_forall. intros pn Hpn. apply Hheld.
    unfold drop_held in Hpn. apply filter_In in Hpn. tauto.
Qed.

(** A write of the client to a block it holds keeps the arenas tiled. *)
Lemma poke_tiled w held ars p n x b :
  maps_ok (os_pagesize (w_os w)) (os_maps (w_os w)) ->
  heap_ok w held ars -> heap_tiled w ars ->
  In (p, n) held -> p <= x < p + n ->
  heap_tiled (poke w x b) ars.
Proof.
  intros Hm H Ht Hin Hx. pose proof (heap_ok_addrs _ _ _ H) as [Hnd _].
  unfold heap_tiled in *. rewrite Forall_forall in *. intros av Hav.
  destruct (Ht av Hav) as [dr Hdr]. exists dr.
  assert (Hother : forall y, y <> x -> w_mem (poke w x b) y = w_mem w y).
  { intros y Hy. unfold poke. cbn [set_mem w_mem].
    rewrite (proj2 (Z.eqb_neq y x) Hy). reflexivity. }
  eapply tiled_frame; [exact Hdr | |].
  - intros y Hy. apply Hother. pose proof (held_away _ _ _ _ _ _ _ _ Hm H Hin Hav Hx). lia.
  - intros d y Hd Hy. apply Hother.
    pose proof (tiled_span _ _ _ _ _ _ _ Hdr Hd Hy) as Hsp.
    destruct (held_place _ _ _ _ _ _ Hm H Hin)
      as [Hk [[av0 [s [Hav0 [Hb [Hs [P1 P2]]]]]] | [r [Hr [Hno [P1 P2]]]]]].
    + pose proof H as H0. heap H0. pose proof Hok as Hok'. rewrite Forall_forall in Hok'.
      destruct (Z.eq_dec (av_addr av0) (av_addr av)) as [E | E].
      * assert (av0 = av) by (eapply nodup_map_eq; eassumption). subst av0.
        destruct (tiled_facts _ _ _ _ _ _ (Hok' _ Hav) Hdr) as [_ [_ [Hposdr [_ Xld]]]].
        pose proof (Xld _ _ Hb Hd) as D. rewrite Forall_forall in Hposdr.
        pose proof (Hposdr d Hd) as Pd. cbn beta in Pd.
        unfold disjoint_chunks in D. unf. cbn [fst snd] in D. lia.
      * destruct (arenas_apart _ _ _ _ av0 av Hm Hok Hav0 Hav E); lia.
    + pose proof H as H0. heap H0. rewrite Forall_forall in Hok.
      pose proof (Hok _ Hav) as [B1 _]. unf.
      destruct (maps_ok_apart _ _ Hm _ _ Hr B1) as [E | E].
      * exfalso. apply Hno. rewrite E. cbn [fst]. apply in_map. exact Hav.
      * cbn [fst snd] in E. lia.
Qed.

(** Every state a contract-keeping client reaches is uninitialised or
    tiled. *)
Lemma malloc_tiled_any w held fuel n p w' :
  inv w held ->
  heap_none w held \/ (exists ars, heap_ok w held ars /\ heap_tiled w ars) ->
  0 <= n < 2 ^ 64 ->
  TAlloc_malloc fuel n w = Ok p w' ->
  (p = NULL /\
   (heap_none w' held \/ exists ars', heap_ok w' held ars' /\ heap_tiled w' ars')) \/
  (p <> NULL /\ exists ars', heap_ok w' ((p, n) :: held) ars' /\ heap_tiled w' ars').
Proof.
  intros [Hpg [Hm _]] Hh Hn Hrun.
  assert (Hinit : forall w1 held1 ars, page_ok (os_pagesize (w_os w1)) ->
            maps_ok (os_pagesize (w_os w1)) (os_maps (w_os w1)) ->
            heap_ok w1 held1 ars -> heap_tiled w1 ars ->
            TAlloc_malloc fuel n w1 = Ok p w' ->
            (p = NULL /\
             (heap_none w' held1 \/
              exists ars', heap_ok w' held1 ars' /\ heap_tiled w' ars')) \/
            (p <> NULL /\
             exists ars', heap_ok w' ((p, n) :: held1) ars' /\ heap_tiled w' ars')).
  { intros w1 held1 ars Hpg1 Hm1 H1 Ht1 Hrun1.
    destruct (malloc_tiled w1 held1 ars fuel n p w' Hpg1 Hm1 H1 Ht1 Hn Hrun1)
      as [ars' [Ht' [[-> H'] | [Hp H']]]].
    - left. split; [reflexivity|]. right. exists ars'. split; assumption.
    - right. split; [exact Hp|]. exists ars'. split; assumption. }
  destruct Hh as [Hnone | [ars [H Ht]]]; [|eapply Hinit; eassumption].
  pose proof Hnone as [Hi [_ [_ [_ ->]]]].
  destruct (initialize_spec w Hpg Hnone) as [w1 [Hini [Hpsz [Hps1 [Hmin1 Hcases]]]]].
  destruct Hcases as [[Hnone1 Hmem] | [Hm1 [a [len [H1 [Hmaps1 Elen]]]]]].
  - rewrite (malloc_uninitialized _ _ _ _ Hi Hini) in Hrun.
    rewrite <- Hpsz in Hps1, Hmin1, Hpg.
    destruct (malloc_body_none w1 fuel n p w' Hpg Hnone1 Hps1 Hmin1 Hn Hrun) as [-> Hsame].
    left. split; [reflexivity|]. left.
    destruct Hsame as [_ [S2 [S3 _]]]. destruct Hnone1 as [N1 [N2 [N3 [N4 _]]]].
    unfold heap_none. rewrite S2, S3. tauto.
  - rewrite (malloc_uninitialized _ _ _ _ Hi Hini) in Hrun.
    rewrite <- (malloc_initialized w1 fuel n) in Hrun by apply H1.
    rewrite <- Hpsz in Hpg, Hm1.
    eapply (Hinit w1 [] _ Hpg Hm1 H1); [|exact Hrun].
    unfold heap_tiled. constructor; [|constructor]. exists [].
    cbn [av_addr av_free av_live]. apply fresh_tiled.
    pose proof H1 as [_ [_ [_ [_ [_ [_ [Hok1 _]]]]]]].
    apply Forall_cons_iff in Hok1 as [[A1' _] _]. cbn [av_addr] in A1'.
    rewrite Hmaps1 in A1'. destruct A1' as [E | []]. inversion E as [E']. unf.
    lia.
Qed.

Lemma reachable_tiled w held :
  reachable w held ->
  heap_none w held \/ exists ars, heap_ok w held ars /\ heap_tiled w ars.
Proof.
  induction 1 as [m ps maps unmaps Hpg
                 | w held fuel n p w' Hr IH Hn Hrun Hp
                 | w held fuel n w' Hr IH Hn Hrun
                 | w held fuel p n w' Hr IH Hin Hrun
                 | w held p n x b Hr IH Hin Hx].
  - left. unfold heap_none. cbn. tauto.
  - destruct (malloc_tiled_any _ _ _ _ _ _ (reachable_inv _ _ Hr) IH Hn Hrun)
      as [[-> _] | [_ Ht]]; [congruence | right; exact Ht].
  - destruct (malloc_tiled_any _ _ _ _ _ _ (reachable_inv _ _ Hr) IH Hn Hrun)
      as [[_ Ht] | [Hp _]]; [exact Ht | congruence].
  - destruct IH as [[_ [_ [_ [_ ->]]]] | [ars [H Ht]]]; [contradiction|].
    pose proof (reachable_inv _ _ Hr) as [_ [Hm _]].
    right. eapply free_tiled; eassumption.
  - destruct IH as [[_ [_ [_ [_ ->]]]] | [ars [H Ht]]]; [contradiction|].
    pose proof (reachable_inv _ _ Hr) as [_ [Hm _]].
    right. exists ars. split; [eapply poke_heap; eassumption | eapply poke_tiled; eassumption].
Qed.

(** ** From the tiling to the walk *)

Lemma min_split (T : list chunk) :
  T <> [] -> pairwise_disjoint T -> Forall (fun y => 0 < snd y) T ->
  exists x T1 T2, T = T1 ++ x :: T2 /\ forall y, In y (T1 ++ T2) -> chunk_end x <= fst y.
Proof.
  induction T as [|x T IH]; intros Hne Hpd Hpos; [congruence|].
  destruct Hpd as [Hd Hpd]. apply Forall_cons_iff in Hpos as [Hx Hpos].
  destruct T as [|x' T'].
  - exists x, [], []. split; [reflexivity|]. intros y [].
  - destruct (IH ltac:(discriminate) Hpd Hpos) as [m [A [B [E Hmin]]]].
    rewrite Forall_forall in Hd, Hpos.
    assert (Hm : In m (x' :: T')) by (rewrite E; apply in_or_app; right; left; reflexivity).
    pose proof (Hd m Hm) as Dm. pose proof (Hpos m Hm) as Pm. cbn beta in Pm.
    unfold disjoint_chunks in Dm. unf.
    destruct (Z_lt_le_dec (fst x) (fst m)) as [L | L].
    + exists x, [], (x' :: T'). split; [reflexivity|]. cbn [app]. intros y Hy.
      pose proof (Hd y Hy) as Dy. pose proof (Hpos y Hy) as Py. cbn beta in Py.
      unfold disjoint_chunks in Dy. unf.
      assert (Hge : fst m <= fst y).
      { rewrite E in Hy. apply in_app_or in Hy as [Hy | [<- | Hy]]; [|lia|].
        - pose proof (Hmin y ltac:(apply in_or_app; left; exact Hy)). unf. lia.
        - pose proof (Hmin y ltac:(apply in_or_app; right; exact Hy)). unf. lia. }
      lia.
    + exists m, (x :: A), B. split; [rewrite E; reflexivity|]. cbn [app].
      intros y [<- | Hy]; [unf; lia | apply Hmin; exact Hy].
Qed.

Lemma pairwise_remove (T1 : list chunk) x T2 :
  pairwise_disjoint (T1 ++ x :: T2) -> pairwise_disjoint (T1 ++ T2).
Proof.
  induction T1 as [|a T1 IH]; cbn [app pairwise_disjoint].
  - intros [_ H]. exact H.
  - intros [Hd Hpd]. split; [|apply IH; exact Hpd].
    apply Forall_app in Hd as [F1 F2]. apply Forall_cons_iff in F2 as [_ F2].
    apply Forall_app. split; assumption.
Qed.

(** Chunks that do not overlap, lie in [lo, hi) and take hi - lo bytes
    can be put back to back from [lo] to [hi]. *)
Lemma sorted_tiles : forall k T lo hi,
  length T = k -> pairwise_disjoint T ->
  Forall (fun y => lo <= fst y /\ 0 < snd y /\ chunk_end y <= hi) T ->
  lo <= hi ->
  extent T <= hi - lo /\
  (extent T = hi - lo -> exists S, (forall y, In y S -> In y T) /\ tiles lo hi S).
Proof.
  induction k as [|k IH]; intros T lo hi Hlen Hpd Hin Hle.
  - destruct T; [|discriminate]. cbn [extent]. split; [lia|].
    intros E. exists []. split; [tauto|]. cbn [tiles]. lia.
  - assert (Hne : T <> []) by (intros ->; discriminate).
    assert (Hpos : Forall (fun y : chunk => 0 < snd y) T).
    { eapply Forall_impl; [|exact Hin]. intros y Hy. apply Hy. }
    destruct (min_split T Hne Hpd Hpos) as [x [T1 [T2 [E Hmin]]]]. subst T.
    rewrite Forall_forall in Hin.
    pose proof (Hin x ltac:(apply in_or_app; right; left; reflexivity)) as [X1 [X2 X3]].
    assert (Hlen' : length (T1 ++ T2) = k).
    { rewrite length_app in *. cbn [length] in Hlen. lia. }
    destruct (IH (T1 ++ T2) (chunk_end x) hi Hlen' (pairwise_remove _ _ _ Hpd)) as [Hb Hex].
    { apply Forall_forall. intros y Hy.
      assert (HyT : In y (T1 ++ x :: T2)).
      { apply in_app_or in Hy as [Hy | Hy]; apply in_or_app; [left | right; right]; exact Hy. }
      pose proof (Hin y HyT) as [Y1 [Y2 Y3]]. pose proof (Hmin y Hy). tauto. }
    { exact X3. }
    rewrite ?extent_app in *. cbn [extent]. unf.
    split; [lia|]. intros Eext.
    destruct Hex as [S [HS Ht]]; [lia|].
    exists (x :: S). split.
    + intros y [<- | Hy]; [apply in_or_app; right; left; reflexivity|].
      specialize (HS y Hy). apply in_app_or in HS as [HS | HS]; apply in_or_app;
        [left | right; right]; exact HS.
    + cbn [tiles]. split; [lia|]. split; [exact X2 | exact Ht].
Qed.

Lemma tiles_le hi S : forall lo, tiles lo hi S -> lo <= hi.
Proof.
  induction S as [|y S IH]; intros lo H; cbn [tiles] in H; [lia|].
  destruct H as [E [P H]]. specialize (IH _ H). unf. lia.
Qed.

Lemma tiles_laid_out m hi S : forall lo,
  tiles lo hi S ->
  Forall (fun y => rd m (chunk_size (fst y)) 8 = snd y) S ->
  laid_out m lo hi
    (map (fun y => (snd y, rd m (header_magic (fst y)) 4 =? TALLOC_MAGIC)) S).
Proof.
  induction S as [|y S IH]; intros lo Ht Hs; cbn [tiles map laid_out] in *; [exact Ht|].
  destruct Ht as [E [P Ht]]. apply Forall_cons_iff in Hs as [Hy Hs]. subst lo.
  pose proof (tiles_le _ _ _ Ht) as Hle. unfold chunk_end in *.
  split; [exact Hy|]. split; [reflexivity|]. split; [exact Hle|].
  apply IH; assumption.
Qed.

Lemma arena_walkable w a fl lb dr :
  arena_ok (w_mem w) (os_maps (w_os w)) a fl lb ->
  tiled (w_mem w) a fl lb dr ->
  exists bs, walkable w (a, bs).
Proof.
  intros Hok Ht.
  destruct (tiled_facts _ _ _ _ _ _ Hok Ht) as [Hposfl [Hposlb [Hposdr _]]].
  destruct Ht as [Hcov [Hext Hdr]].
  pose proof Hok as [A1 [A2 [A3 [A4 [A5 [A6 [A7 [A8 _]]]]]]]].
  set (m := w_mem w) in *. set (len := rd m (arena_allocated a) 8) in *.
  unfold gapped in A6. pose proof (spaced_in 1 _ _ _ ltac:(lia) A6) as Hb.
  assert (Hpd : pairwise_disjoint (fl ++ lb ++ dr)).
  { apply coverage_apart; [|exact Hcov]. repeat (apply Forall_app; split); assumption. }
  assert (Hin : Forall (fun y : chunk =>
                  a + sizeof_arena <= fst y /\ 0 < snd y /\ chunk_end y <= a + len)
                  (fl ++ lb ++ dr)).
  { repeat (apply Forall_app; split).
    - exact Hb.
    - eapply Forall_impl; [|exact A8]. intros y [L1 [L2 [L3 _]]]. tauto.
    - eapply Forall_impl; [|exact Hdr]. intros y [D1 [D2 [D3 _]]]. tauto. }
  assert (Hsz : Forall (fun y : chunk => rd m (chunk_size (fst y)) 8 = snd y)
                  (fl ++ lb ++ dr)).
  { repeat (apply Forall_app; split).
    - eapply free_chain_sizes. exact A5.
    - eapply Forall_impl; [|exact A8]. intros y [_ [_ [_ [L4 _]]]]. exact L4.
    - eapply Forall_impl; [|exact Hdr]. intros y [_ [_ [_ D4]]]. exact D4. }
  destruct (sorted_tiles _ (fl ++ lb ++ dr) (a + sizeof_arena) (a + len) eq_refl Hpd Hin)
    as [_ Hex]; [unf; lia|].
  destruct Hex as [S [HS Htiles]]; [fold len in Hext; lia|].
  exists (map (fun y => (snd y, rd m (header_magic (fst y)) 4 =? TALLOC_MAGIC)) S).
  unfold walkable. cbn [fst snd]. fold m. fold len.
  split; [exact A1|]. split; [exact A2|]. split; [exact A4|].
  apply tiles_laid_out; [exact Htiles|].
  apply Forall_forall. intros y Hy. rewrite Forall_forall in Hsz. apply Hsz. apply HS. exact Hy.
Qed.

Lemma heap_walkable w held ars :
  heap_ok w held ars -> heap_tiled w ars ->
  exists L, map fst L = map av_addr ars /\ Forall (walkable w) L.
Proof.
  intros H Ht. heap H. clear - Hok Ht. unfold heap_tiled in Ht.
  induction ars as [|av ars IH]; [exists []; split; [reflexivity | constructor]|].
  apply Forall_cons_iff in Hok as [Hoka Hok]. apply Forall_cons_iff in Ht as [[dr Hdr] Ht].
  destruct (IH Hok Ht) as [L [EL HL]].
  destruct (arena_walkable _ _ _ _ _ Hoka Hdr) as [bs Hbs].
  exists ((av_addr av, bs) :: L). split; [cbn [map fst]; rewrite EL; reflexivity|].
  constructor; assumption.
Qed.

Lemma reachable_walkable w held :
  reachable w held -> initialized (w_state w) = 1 ->
  exists L, L <> [] /\
    arena_chain (w_mem w) (arena_head (w_state w)) (map fst L) /\
    Forall (walkable w) L.
Proof.
  intros Hr Hinit. destruct (reachable_tiled _ _ Hr) as [[Hi0 _] | [ars [H Ht]]]; [congruence|].
  destruct (heap_walkable _ _ _ H Ht) as [L [EL HL]]. exists L.
  heap H. split; [|split; [rewrite EL; exact Hch | exact HL]].
  intros ->. cbn [map] in EL. destruct ars; [congruence | discriminate].
Qed.

(** X21.  In every state a contract-keeping client reaches with the
    allocator initialised, the chunks of every arena of the sequence lie back
    to back by the sizes in their first words, from the end of the arena
    header to the end of the arena: no byte of an arena is outside a chunk
    and none is in two.  This holds of the chunks as they are in memory --
    free, in use, or left out of the free list by the splice. *)
Theorem chunks_tile_arenas w held :
  reachable w held -> initialized (w_state w) = 1 ->
  exists L, L <> [] /\
    arena_chain (w_mem w) (arena_head (w_state w)) (map fst L) /\
    Forall (walkable w) L.
Proof.
  intros Hr Hi. destruct (reachable_walkable w held Hr Hi) as [L [Hne [Hc Hw]]].
  exists L. split; [exact Hne|]. split; [exact Hc | exact Hw].
Qed.

Lemma chunks_tile_arenas_witness :
  exists L, L <> [] /\
    arena_chain (w_mem one_block) (arena_head (w_state one_block)) (map fst L) /\
    Forall (walkable one_block) L.
Proof.
  apply (chunks_tile_arenas one_block [(A1 + 56, 1)]).
  - exact one_block_reachable.
  - vm_compute. reflexivity.
Defined.

(** X22.  TAlloc_debug_print returns in every state a contract-keeping
    client reaches, and changes nothing.  On an allocator that is not
    initialised it prints the one line saying so; on an initialised one it
    prints every arena of the sequence, in order, each followed by lines for
    chunks that cover the arena back to back. *)
Theorem debug_print_returns w held :
  reachable w held ->
  exists N ls,
    (forall fuel, (N <= fuel)%nat -> TAlloc_debug_print fuel w = Ok ls w) /\
    ((initialized (w_state w) = 0 /\ ls = [Not_initialized]) \/
     (initialized (w_state w) = 1 /\
      exists L, ls = arena_lines (w_mem w) L /\
        arena_chain (w_mem w) (arena_head (w_state w)) (map fst L) /\
        Forall (walkable w) L)).
Proof.
  intros Hr. destruct (reachable_tiled _ _ Hr) as [[Hi0 _] | [ars [H Ht]]].
  - exists O, [Not_initialized]. split; [|left; split; [exact Hi0 | reflexivity]].
    intros fuel _. unfold TAlloc_debug_print, get_state, bind. rewrite Hi0. reflexivity.
  - pose proof H as [Hi _].
    destruct (reachable_walkable w held Hr Hi) as [L [Hne [Hc Hw]]].
    exists (S (length L + list_max (map (fun ab => length (snd ab)) L))),
      (arena_lines (w_mem w) L).
    split; [|right; split; [exact Hi|]; exists L; split; [reflexivity|]; split; assumption].
    intros fuel Hf. unfold TAlloc_debug_print, get_state, bind. rewrite Hi.
    change (1 =? 0) with false. cbv iota.
    apply debug_arenas_spec; [exact Hw | exact Hc | lia].
Qed.

Lemma debug_print_returns_witness :
  exists N ls,
    (forall fuel, (N <= fuel)%nat -> TAlloc_debug_print fuel one_block = Ok ls one_block) /\
    ((initialized (w_state one_block) = 0 /\ ls = [Not_initialized]) \/
     (initialized (w_state one_block) = 1 /\
      exists L, ls = arena_lines (w_mem one_block) L /\
        arena_chain (w_mem one_block) (arena_head (w_state one_block)) (map fst L) /\
        Forall (walkable one_block) L)).
Proof.
  apply (debug_print_returns one_block [(A1 + 56, 1)]).
  exact one_block_reachable.
Defined.

(** ** When TAlloc_malloc returns *)

Lemma create_arena_total w n :
  page_ok (os_pagesize (w_os w)) ->
  pagesize (w_state w) = os_pagesize (w_os w) ->
  minallocsize (w_state w) = os_pagesize (w_os w) * TALLOC_ALLOC_PAGES ->
  0 < n < 2 ^ 64 ->
  n + TALLOC_ARENA_OVERHEAD <> os_pagesize (w_os w) * TALLOC_ALLOC_PAGES ->
  exists r w', TAlloc_create_arena n w = Ok r w'.
Proof.
  intros Hpg Hps Hmin Hn Hne. destruct (page_ok_bounds _ Hpg) as [[P1 P2] P3].
  unfold TAlloc_create_arena, TALLOC_ARENA_OVERHEAD in *.
  change (sizeof_arena + sizeof_chunk) with 56 in *.
  destruct (wrap (n + 56) <? n) eqn:E; [eexists; eexists; reflexivity|].
  apply Z.ltb_ge in E.
  assert (Hsmall : n + 56 < 2 ^ 64).
  { destruct (Z_lt_dec (n + 56) (2 ^ 64)) as [Hl | Hl]; [exact Hl|]. exfalso.
    unfold wrap in E. rewrite two64 in *.
    replace (n + 56) with ((n + 56 - 18446744073709551616) + 1 * 18446744073709551616) in E by lia.
    rewrite Z.mod_add in E by lia. rewrite Z.mod_small in E by lia. lia. }
  rewrite (wrap_small (n + 56)) by lia.
  erewrite bind_ok by reflexivity. rewrite Hps, Hmin.
  rewrite (proj2 (Z.eqb_neq (os_pagesize (w_os w)) 0)) by lia. rewrite andb_false_r.
  destruct (to_allocate (n + 56) _ _) as [len|] eqn:Eto.
  2:{ exfalso. unfold to_allocate in Eto.
      destruct (Z.ltb_spec (n + 56) (os_pagesize (w_os w) * TALLOC_ALLOC_PAGES));
        [discriminate|].
      destruct (Z.ltb_spec (os_pagesize (w_os w) * TALLOC_ALLOC_PAGES) (n + 56));
        [discriminate | lia]. }
  pose proof (to_allocate_spec (n + 56) _ len Hpg ltac:(lia) Eto) as Hlen.
  destruct (mmap_cases w len) as [a [w1 [Hmm Hcases]]].
  erewrite bind_ok by exact Hmm.
  destruct Hcases as [[-> Hsame] | [Hreg [Hmem [Hmaps [Hpsz Hst]]]]].
  { rewrite Z.eqb_refl. eexists. eexists. reflexivity. }
  pose proof (region_ok_spec _ _ _ Hreg) as [R1 [R2 [R3 [R4 R5]]]].
  destruct Hlen as [-> | [L1 [L2 L3]]]; [lia|].
  rewrite (proj2 (Z.eqb_neq a MAP_FAILED)) by (unfold MAP_FAILED; lia).
  assert (Hin1 : In (a, len) (os_maps (w_os w1))) by (rewrite Hmaps; left; reflexivity).
  destruct (init_arena_spec w1 a len Hin1 ltac:(lia) ltac:(lia) ltac:(lia))
    as [m1 [Hinit _]].
  erewrite bind_ok by exact Hinit. eexists. eexists. reflexivity.
Qed.

Lemma alloc_more_space_total w held ars n :
  page_ok (os_pagesize (w_os w)) ->
  heap_ok w held ars -> 0 < n < 2 ^ 64 ->
  n + TALLOC_ARENA_OVERHEAD <> os_pagesize (w_os w) * TALLOC_ALLOC_PAGES ->
  is_mapped (os_maps (w_os w)) (arena_next (arena_tail (w_state w))) 8 = true ->
  exists r w1, TAlloc_alloc_more_space n w = Ok r w1.
Proof.
  intros Hpg H Hn Hsz Htail. heap H.
  destruct (create_arena_total w n Hpg Hps Hmin Hn Hsz) as [r0 [w0 Hc]].
  unfold TAlloc_alloc_more_space. erewrite bind_ok by exact Hc.
  destruct (create_arena_spec _ _ _ _ Hpg Hps Hmin Hn Hc)
    as [[-> Hsame] | [len [Hreg [Hlen [Hmaps [Hpsz [Hst _]]]]]]].
  { eexists. eexists. reflexivity. }
  pose proof (region_ok_spec _ _ _ Hreg) as [R1 [R2 [R3 [R4 R5]]]].
  rewrite (proj2 (Z.eqb_neq r0 NULL)) by (unf; lia).
  erewrite bind_ok by reflexivity. rewrite Hst.
  assert (Hmapped : is_mapped (os_maps (w_os w0)) (arena_next (arena_tail (w_state w))) 8
                    = true).
  { rewrite Hmaps. unfold is_mapped in *. cbn [existsb]. rewrite Htail. apply orb_true_r. }
  assert (Hs1 : store64 (arena_next (arena_tail (w_state w))) r0 w0
                = Ok tt (set_mem w0 (wr (w_mem w0) (arena_next (arena_tail (w_state w))) 8 r0))).
  { unfold store64, store. change (Z.of_nat 8) with 8. rewrite Hmapped. reflexivity. }
  erewrite bind_ok by exact Hs1.
  erewrite bind_ok
    by (eapply (store64_in _ r0 len); [cbn [set_mem w_os]; rewrite Hmaps; left; reflexivity
                                      | unf; lia | unf; lia]).
  unfold set_arena_tail.
  erewrite bind_ok by (erewrite bind_ok by reflexivity; reflexivity).
  eexists. eexists. reflexivity.
Qed.

(** X23.  TAlloc_malloc on an initialised allocator returns, in every state
    a contract-keeping client reaches, when the request with the overhead
    is not exactly the minimum arena size and the arena the tail designates
    is mapped; and when it returns NULL it has changed neither memory, nor
    the allocator state, nor the mappings. *)
Theorem malloc_returns w held n :
  reachable w held -> initialized (w_state w) = 1 -> 0 <= n < 2 ^ 64 ->
  n + TALLOC_ARENA_OVERHEAD <> minallocsize (w_state w) ->
  is_mapped (os_maps (w_os w)) (arena_next (arena_tail (w_state w))) 8 = true ->
  exists N p w',
    (forall fuel, (N <= fuel)%nat -> TAlloc_malloc fuel n w = Ok p w') /\
    (p = NULL -> same_heap w w').
Proof.
  intros Hr Hinit Hn Hsz Htail. apply reachable_inv in Hr as [Hpg [Hm Hh]].
  destruct Hh as [[Hi0 _] | [ars H]]; [congruence|].
  destruct (Z.eq_dec n 0) as [-> | En].
  { exists O, NULL, w. split; [|intros _; apply same_heap_refl].
    intros fuel _. apply malloc_zero. exact Hinit. }
  assert (Hn0 : 0 < n < 2 ^ 64) by lia.
  pose proof (heap_ok_addrs _ _ _ H) as [Hnd [Hnn Hmapped]].
  pose proof H as H0. heap H. rewrite Hmin in Hsz.
  assert (Hnull : forall fuel p w', TAlloc_malloc fuel n w = Ok p w' ->
                                    p = NULL -> same_heap w w').
  { intros fuel p w' Hrun Hp.
    destruct (malloc_heap w held ars fuel n p w' Hpg Hm H0 Hn0 Hrun)
      as [_ [[_ Hsame] | [Hp' _]]]; [exact Hsame | congruence]. }
  assert (Hfinish : forall N p w',
            (forall fuel, (N <= fuel)%nat -> TAlloc_malloc fuel n w = Ok p w') ->
            exists N p w',
              (forall fuel, (N <= fuel)%nat -> TAlloc_malloc fuel n w = Ok p w') /\
              (p = NULL -> same_heap w w')).
  { intros N p w' Hrun. exists N, p, w'. split; [exact Hrun|].
    apply (Hnull N). apply Hrun. apply Nat.le_refl. }
  destruct (Z.eq_dec (first_arena (w_mem w) n (map av_addr ars)) NULL) as [Efa | Efa].
  - (* no arena of the sequence admits the request *)
    destruct (alloc_more_space_total w held ars n Hpg H0 Hn0 Hsz Htail) as [r [w1 Hgrow]].
    assert (Hget : forall fuel, (S (length (map av_addr ars)) <= fuel)%nat ->
              (arena_node <- accommodating_loop fuel n (arena_head (w_state w)) ;;
               if arena_node =? NULL then TAlloc_alloc_more_space n else ret arena_node) w
              = Ok r w1).
    { intros fuel Hf.
      assert (Hloop : accommodating_loop fuel n (arena_head (w_state w)) w = Ok NULL w).
      { rewrite <- Efa. eapply res_total; [apply accommodating_loop_res; eassumption | lia]. }
      erewrite bind_ok by exact Hloop. change (NULL =? NULL) with true. cbv iota.
      exact Hgrow. }
    destruct (alloc_more_space_spec _ _ _ _ _ _ Hpg Hm H0 Hn0 Hgrow)
      as [[-> Hsame] | [len [Hreg [Hlen [Hmaps [Hpsz [Hnew _]]]]]]].
    + apply (Hfinish (S (length (map av_addr ars))) NULL w1). intros fuel Hf.
      rewrite (malloc_enter w held ars fuel n H0 ltac:(lia)).
      erewrite bind_ok by (apply Hget; exact Hf). reflexivity.
    + pose proof (region_ok_spec _ _ _ Hreg) as [R1 [R2 [R3 [R4 R5]]]].
      destruct (arena_malloc_step w1 r _ _ n Hnew)
        as [m' [pre [h [post [Hsplit [Hres _]]]]]].
      { cbn [maxsize snd]. lia. }
      apply (Hfinish (S (S (length (map av_addr ars)))) (fst h + 16) (set_mem w1 m')).
      intros fuel Hf.
      rewrite (malloc_enter w held ars fuel n H0 ltac:(lia)).
      erewrite bind_ok by (apply Hget; lia).
      rewrite (proj2 (Z.eqb_neq r NULL)) by (unf; lia).
      eapply res_total; [apply Hres|]. cbn [length]. lia.
  - (* an arena of the sequence serves the request *)
    destruct (malloc_served w held ars n Hm H0 ltac:(lia) Efa)
      as [ars1 [av [ars2 [pre [h [post [m' [_ [_ [_ [Hres _]]]]]]]]]]].
    apply (Hfinish (S (length ars + length (av_free av))) (fst h + 16) (set_mem w m')).
    intros fuel Hf. eapply res_total; [apply Hres | exact Hf].
Qed.

Lemma malloc_returns_witness :
  exists N p w',
    (forall fuel, (N <= fuel)%nat -> TAlloc_malloc fuel 100 one_block = Ok p w') /\
    (p = NULL -> same_heap one_block w').
Proof.
  apply (malloc_returns one_block [(A1 + 56, 1)] 100).
  - exact one_block_reachable.
  - vm_compute. reflexivity.
  - lia.
  - vm_compute. discriminate.
  - vm_compute. reflexivity.
Defined.
